(** * Isolator: the expression-quantification sampler core

    A shallow embedding of the parts of [sampler.cpp] and
    [fragment_model.cpp] that the specification's properties talk about:
    the per-read alignment counters ([AlnCountTrie]), the sort-order check
    of the two alignment scans ([sam_scan]), the sparse weight matrix
    ([WeightMatrix]), the union-find component labelling of the [Sampler]
    constructor, the per-transcript sequence-bias tables and the multiread
    stage of [SamplerInitThread], the multiread resolver and the mixture
    updates of [Sampler::run].  Around these: the sweep of [sam_scan]
    over its intervals, [AlnIndex] and the indexing of multireads, the
    tables, the column order and the fragment counts that the [Sampler]
    constructor builds from the component labels, its multiread arrays,
    the records [process_locus] leaves, the weights of transcripts and
    fragments, and the counters of [FragmentModelThread] with their
    merging in [FragmentModel::estimate].

    Conventions.  An [unsigned int] is a [Z] in [0, 2^32) and an
    [unsigned long] a [Z] in [0, 2^64); where the source can wrap, the wrap
    is written out.  A C array is a list, read and written by position.
    [float] and [double] quantities are rationals ([Q]): the development
    follows the arithmetic the source writes and leaves IEEE rounding out,
    except where a definition says otherwise. *)

From Stdlib Require Import ZArith QArith Qabs Lia Lqa Sorted.
From Stdlib Require Floats.SpecFloat.
From stdpp Require Import gmap strings list sorting.

Local Open Scope Z_scope.

(** ** Machine integers *)

Definition uint_mod : Z := 2 ^ 32.
Definition wrap32 (x : Z) : Z := x mod uint_mod.

(** ** Comparison of [float]s *)

Definition Qltb (a b : Q) : bool := negb (Qle_bool b a).

Lemma Qltb_lt (a b : Q) : Qltb a b = true <-> (a < b)%Q.
Proof.
  unfold Qltb. rewrite negb_true_iff.
  destruct (Qle_bool b a) eqn:E.
  - apply Qle_bool_iff in E. split; [discriminate | intros H; exfalso].
    exact (Qlt_not_le _ _ H E).
  - split; [intros _ | reflexivity].
    apply Qnot_le_lt. intros H. apply Qle_bool_iff in H. congruence.
Qed.

(** ** Arrays *)

Lemma nth_insert_eq {A} (l : list A) (i : nat) (x d : A) :
  (i < length l)%nat -> nth i (<[i := x]> l) d = x.
Proof.
  intros H. apply nth_lookup_Some. now apply list_lookup_insert_eq.
Qed.

Lemma nth_insert_ne {A} (l : list A) (i j : nat) (x d : A) :
  i <> j -> nth j (<[i := x]> l) d = nth j l d.
Proof.
  intros H. rewrite !nth_lookup, list_lookup_insert_ne by done. reflexivity.
Qed.

(** * AlnCountTrie (fragment_model.cpp) *)

Module AlnCountTrie.

(** The hat-trie maps a read name to an [unsigned long].  [hattrie_get]
    returns the slot of a key and creates it, holding zero, when the key
    is new; [hattrie_tryget] returns [NULL] for a key that is absent. *)
Definition hattrie_get (t : gmap string Z) (id : string) : gmap string Z * Z :=
  match t !! id with
  | Some v => (t, v)
  | None => (<[id := 0]> t, 0)
  end.

Definition hattrie_tryget (t : gmap string Z) (id : string) : option Z := t !! id.

(** [unsigned long cnt = (( *val & 0xffff) + 1) & 0xffff;
    *val = ( *val & 0xffff0000) | cnt;] *)
Definition inc_mate1 (t : gmap string Z) (id : string) : gmap string Z :=
  let '(t1, val) := hattrie_get t id in
  let cnt := Z.land (Z.land val 0xffff + 1) 0xffff in
  <[id := Z.lor (Z.land val 0xffff0000) cnt]> t1.

(** [unsigned long cnt = (( *val >> 16) + 1) & 0xffff;
    *val = (cnt << 16) | ( *val & 0xffff);] *)
Definition inc_mate2 (t : gmap string Z) (id : string) : gmap string Z :=
  let '(t1, val) := hattrie_get t id in
  let cnt := Z.land (Z.shiftr val 16 + 1) 0xffff in
  <[id := Z.lor (Z.shiftl cnt 16) (Z.land val 0xffff)]> t1.

(** [MateCount] is the pair (mate-1 count, mate-2 count). *)
Definition get (t : gmap string Z) (id : string) : Z * Z :=
  match hattrie_tryget t id with
  | None => (0, 0)
  | Some val => (Z.land val 0xffff, Z.land (Z.shiftr val 16) 0xffff)
  end.

(** A call of one of the two incrementing methods. *)
Inductive call : Type :=
| Inc_mate1 (id : string)
| Inc_mate2 (id : string).

Definition do_call (t : gmap string Z) (c : call) : gmap string Z :=
  match c with
  | Inc_mate1 id => inc_mate1 t id
  | Inc_mate2 id => inc_mate2 t id
  end.

(** The trie after a sequence of calls on a freshly created trie. *)
Definition run (cs : list call) : gmap string Z := fold_left do_call cs ∅.

Definition is_mate1_of (id : string) (c : call) : bool :=
  match c with Inc_mate1 i => bool_decide (i = id) | Inc_mate2 _ => false end.

Definition is_mate2_of (id : string) (c : call) : bool :=
  match c with Inc_mate2 i => bool_decide (i = id) | Inc_mate1 _ => false end.

(** Number of [inc_mate1] (resp. [inc_mate2]) calls made for [id]. *)
Definition calls_mate1 (cs : list call) (id : string) : Z :=
  Z.of_nat (length (List.filter (is_mate1_of id) cs)).

Definition calls_mate2 (cs : list call) (id : string) : Z :=
  Z.of_nat (length (List.filter (is_mate2_of id) cs)).

(** The packed value: mate-1 count in bits 0..15, mate-2 count in bits
    16..31. *)
Definition packed (c1 c2 : Z) : Z := c1 mod 2 ^ 16 + 2 ^ 16 * (c2 mod 2 ^ 16).

Lemma land_ffff (v : Z) : Z.land v 0xffff = v mod 2 ^ 16.
Proof. exact (Z.land_ones v 16 ltac:(lia)). Qed.

Lemma land_ffff0000 (v : Z) :
  Z.land v 0xffff0000 = 2 ^ 16 * ((v / 2 ^ 16) mod 2 ^ 16).
Proof.
  change 0xffff0000 with (Z.shiftl (Z.ones 16) 16).
  rewrite <- (Z.land_ones (v / 2 ^ 16) 16) by lia.
  rewrite <- Z.shiftr_div_pow2 by lia.
  rewrite Z.mul_comm, <- Z.shiftl_mul_pow2 by lia.
  apply Z.bits_inj'. intros n Hn.
  rewrite Z.land_spec.
  destruct (Z.lt_ge_cases n 16) as [Hlt | Hge].
  - rewrite !Z.shiftl_spec_low by lia. apply andb_false_r.
  - rewrite !Z.shiftl_spec by lia.
    rewrite Z.land_spec, Z.shiftr_spec by lia.
    replace (n - 16 + 16) with n by lia. reflexivity.
Qed.

Lemma lor_disjoint (hi lo : Z) :
  0 <= lo < 2 ^ 16 -> 0 <= hi ->
  Z.lor (2 ^ 16 * hi) lo = lo + 2 ^ 16 * hi.
Proof.
  intros Hlo Hhi.
  assert (Hdisj : Z.land (2 ^ 16 * hi) lo = 0).
  { rewrite Z.mul_comm, <- Z.shiftl_mul_pow2 by lia.
    apply Z.bits_inj'. intros n Hn. rewrite Z.land_spec, Z.bits_0.
    destruct (Z.lt_ge_cases n 16).
    - rewrite Z.shiftl_spec_low by lia. reflexivity.
    - rewrite (Z.bits_above_log2 lo n); [apply andb_false_r | lia |].
      destruct (Z.eq_dec lo 0) as [-> | Hne]; [simpl; lia |].
      apply Z.lt_le_trans with 16; [| lia].
      apply Z.log2_lt_pow2; lia. }
  rewrite <- (Z.lxor_lor _ _ Hdisj), <- (Z.add_nocarry_lxor _ _ Hdisj). lia.
Qed.

Lemma packed_lo (c1 c2 : Z) : packed c1 c2 mod 2 ^ 16 = c1 mod 2 ^ 16.
Proof.
  unfold packed. rewrite Z.mul_comm, Z_mod_plus_full. apply Z.mod_mod. lia.
Qed.

Lemma packed_hi (c1 c2 : Z) : packed c1 c2 / 2 ^ 16 = c2 mod 2 ^ 16.
Proof.
  unfold packed. rewrite Z.mul_comm, Z_div_plus_full by lia.
  rewrite Z.div_small; [lia |]. apply Z.mod_pos_bound. lia.
Qed.

Lemma inc_mate1_packed (c1 c2 : Z) :
  Z.lor (Z.land (packed c1 c2) 0xffff0000)
        (Z.land (Z.land (packed c1 c2) 0xffff + 1) 0xffff)
  = packed (c1 + 1) c2.
Proof.
  rewrite land_ffff0000, !land_ffff, packed_lo, packed_hi.
  rewrite Z.mod_mod by lia.
  rewrite lor_disjoint.
  - unfold packed. rewrite Zplus_mod_idemp_l. reflexivity.
  - apply Z.mod_pos_bound. lia.
  - apply Z.mod_pos_bound. lia.
Qed.

Lemma inc_mate2_packed (c1 c2 : Z) :
  Z.lor (Z.shiftl (Z.land (Z.shiftr (packed c1 c2) 16 + 1) 0xffff) 16)
        (Z.land (packed c1 c2) 0xffff)
  = packed c1 (c2 + 1).
Proof.
  rewrite !land_ffff, Z.shiftr_div_pow2, packed_lo, packed_hi by lia.
  rewrite Z.shiftl_mul_pow2, Z.mul_comm by lia.
  rewrite lor_disjoint.
  - unfold packed. rewrite Zplus_mod_idemp_l. reflexivity.
  - apply Z.mod_pos_bound. lia.
  - apply Z.mod_pos_bound. lia.
Qed.

(** What the trie holds for [id] after the calls [cs]: nothing when no
    call named [id], the packed pair of call counts otherwise. *)
Definition slot_of (cs : list call) (id : string) : option Z :=
  if Z.eqb (calls_mate1 cs id + calls_mate2 cs id) 0 then None
  else Some (packed (calls_mate1 cs id) (calls_mate2 cs id)).

Lemma calls_mate1_snoc cs c id :
  calls_mate1 (cs ++ [c]) id
  = calls_mate1 cs id + (if is_mate1_of id c then 1 else 0).
Proof.
  unfold calls_mate1. rewrite List.filter_app, length_app. simpl.
  destruct (is_mate1_of id c); simpl; lia.
Qed.

Lemma calls_mate2_snoc cs c id :
  calls_mate2 (cs ++ [c]) id
  = calls_mate2 cs id + (if is_mate2_of id c then 1 else 0).
Proof.
  unfold calls_mate2. rewrite List.filter_app, length_app. simpl.
  destruct (is_mate2_of id c); simpl; lia.
Qed.

Lemma calls_mate1_nonneg cs id : 0 <= calls_mate1 cs id.
Proof. unfold calls_mate1. lia. Qed.

Lemma calls_mate2_nonneg cs id : 0 <= calls_mate2 cs id.
Proof. unfold calls_mate2. lia. Qed.

Lemma inc_mate1_other t i id : i <> id -> inc_mate1 t i !! id = t !! id.
Proof.
  intros Hne. unfold inc_mate1, hattrie_get.
  destruct (t !! i); rewrite ?lookup_insert_ne by done; reflexivity.
Qed.

Lemma inc_mate2_other t i id : i <> id -> inc_mate2 t i !! id = t !! id.
Proof.
  intros Hne. unfold inc_mate2, hattrie_get.
  destruct (t !! i); rewrite ?lookup_insert_ne by done; reflexivity.
Qed.

(** The slot of [id] holds the packed pair of its two call counts. *)
Lemma run_lookup cs id : run cs !! id = slot_of cs id.
Proof.
  induction cs as [| c cs IH] using rev_ind.
  - reflexivity.
  - unfold run in *. rewrite fold_left_app. simpl.
    set (t := fold_left do_call cs ∅) in *.
    unfold slot_of in *.
    rewrite calls_mate1_snoc, calls_mate2_snoc.
    pose proof (calls_mate1_nonneg cs id) as H1.
    pose proof (calls_mate2_nonneg cs id) as H2.
    destruct c as [i | i]; simpl.
    + destruct (decide (i = id)) as [-> | Hne].
      * rewrite bool_decide_eq_true_2 by done.
        rewrite Z.add_0_r.
        destruct (Z.eqb_spec (calls_mate1 cs id + 1 + calls_mate2 cs id) 0);
          [lia |].
        unfold inc_mate1, hattrie_get. rewrite IH.
        destruct (Z.eqb_spec (calls_mate1 cs id + calls_mate2 cs id) 0) as [E | E].
        -- rewrite lookup_insert_eq.
           assert (calls_mate1 cs id = 0) as -> by lia.
           assert (calls_mate2 cs id = 0) as -> by lia.
           reflexivity.
        -- rewrite lookup_insert_eq, inc_mate1_packed. reflexivity.
      * rewrite bool_decide_eq_false_2 by done.
        rewrite !Z.add_0_r, inc_mate1_other by done. exact IH.
    + destruct (decide (i = id)) as [-> | Hne].
      * rewrite bool_decide_eq_true_2 by done.
        rewrite Z.add_0_r.
        destruct (Z.eqb_spec (calls_mate1 cs id + (calls_mate2 cs id + 1)) 0);
          [lia |].
        unfold inc_mate2, hattrie_get. rewrite IH.
        destruct (Z.eqb_spec (calls_mate1 cs id + calls_mate2 cs id) 0) as [E | E].
        -- rewrite lookup_insert_eq.
           assert (calls_mate1 cs id = 0) as -> by lia.
           assert (calls_mate2 cs id = 0) as -> by lia.
           reflexivity.
        -- rewrite lookup_insert_eq, inc_mate2_packed. reflexivity.
      * rewrite bool_decide_eq_false_2 by done.
        rewrite !Z.add_0_r, inc_mate2_other by done. exact IH.
Qed.

(** C10.  After any sequence of [inc_mate1] and [inc_mate2] calls on a
    fresh trie, [get id] is the pair (number of [inc_mate1] calls for
    [id] modulo 2^16, number of [inc_mate2] calls for [id] modulo 2^16):
    each counter is a 16-bit field that wraps at 65536, a call for one
    mate (or for another read) leaves the other counter alone, and an id
    that was never incremented reads (0, 0). *)
Theorem get_counts_mod_2_16 (cs : list call) (id : string) :
  get (run cs) id
  = (calls_mate1 cs id mod 65536, calls_mate2 cs id mod 65536).
Proof.
  unfold get, hattrie_tryget. rewrite run_lookup. unfold slot_of.
  pose proof (calls_mate1_nonneg cs id) as H1.
  pose proof (calls_mate2_nonneg cs id) as H2.
  destruct (Z.eqb_spec (calls_mate1 cs id + calls_mate2 cs id) 0) as [E | E].
  - assert (calls_mate1 cs id = 0) as -> by lia.
    assert (calls_mate2 cs id = 0) as -> by lia.
    reflexivity.
  - rewrite !land_ffff, Z.shiftr_div_pow2, packed_lo, packed_hi by lia.
    rewrite Z.mod_mod by lia. reflexivity.
Qed.

End AlnCountTrie.

(** * The alignment scans ([sam_scan] in fragment_model.cpp and sampler.cpp) *)

Module SamScan.

(** The fields of [bam1_t] the scans read: [b->core.tid], [b->core.pos]
    and [b->core.flag], and the read name [bam1_qname(b)]. *)
Record bam1 : Type := Bam1 {
  core_tid : Z;
  core_pos : Z;
  core_flag : Z;
  qname : string
}.

(** Flag bits of samtools' [bam.h]. *)
Definition BAM_FUNMAP : Z := 4.
Definition BAM_FREAD2 : Z := 128.

(** [b->core.flag & BAM_FUNMAP || b->core.tid < 0]: the read is passed
    over by [continue]. *)
Definition skipped (b : bam1) : bool :=
  negb (Z.land (core_flag b) BAM_FUNMAP =? 0) || (core_tid b <? 0).

Definition mapped (b : bam1) : bool := negb (skipped b).

(** [b->core.tid < last_tid ||
     (b->core.tid == last_tid && b->core.pos < last_pos)] *)
Definition violates (last_tid last_pos : Z) (b : bam1) : bool :=
  (core_tid b <? last_tid)
  || ((core_tid b =? last_tid) && (core_pos b <? last_pos)).

(** How a scan ends: it reads the stream to its end, or [Logger::abort]
    ends the process. *)
Inductive outcome (A : Type) : Type :=
| Finished (a : A)
| Abort_unsorted
| Abort_no_sequence.
Arguments Finished {A} a.
Arguments Abort_unsorted {A}.
Arguments Abort_no_sequence {A}.

Definition aborted {A} (o : outcome A) : Prop :=
  match o with Finished _ => False | _ => True end.

(** ** fragment_model.cpp: the scan that counts alignments per read.
    The loop state is [last_tid], [last_pos] and the counter trie [T];
    the position tables and the interval bookkeeping do not reach the
    sort check and are left out. *)
Fixpoint fm_scan_loop (last_tid last_pos : Z) (T : gmap string Z)
         (reads : list bam1) : outcome (gmap string Z) :=
  match reads with
  | [] => Finished T
  | b :: rest =>
      if skipped b then fm_scan_loop last_tid last_pos T rest
      else if violates last_tid last_pos b then Abort_unsorted
      else
        let T' := if negb (Z.land (core_flag b) BAM_FREAD2 =? 0)
                  then AlnCountTrie.inc_mate2 T (qname b)
                  else AlnCountTrie.inc_mate1 T (qname b) in
        fm_scan_loop (core_tid b) (core_pos b) T' rest
  end.

Definition fm_sam_scan (reads : list bam1) : outcome (gmap string Z) :=
  fm_scan_loop (-1) (-1) ∅ reads.

(** ** sampler.cpp: the scan that feeds the locus initialisers.  With a
    FASTA index ([fa_f] not [NULL]) the sequence of a read's reference is
    fetched whenever the reference id changes; [faidx_fetch_seq]
    returning [NULL] aborts the run.  The fetched sequence is handed to
    the intervals, and the [last_pos = -1] that follows is overwritten
    two statements later by [last_pos = b->core.pos]. *)
Fixpoint sampler_scan_loop (fa_f : option (Z -> option string))
         (last_tid last_pos : Z) (reads : list bam1) : outcome unit :=
  match reads with
  | [] => Finished tt
  | b :: rest =>
      if skipped b then sampler_scan_loop fa_f last_tid last_pos rest
      else if violates last_tid last_pos b then Abort_unsorted
      else
        let next := sampler_scan_loop fa_f (core_tid b) (core_pos b) rest in
        match fa_f with
        | Some faidx_fetch_seq =>
            if negb (core_tid b =? last_tid) then
              match faidx_fetch_seq (core_tid b) with
              | None => Abort_no_sequence
              | Some seqstr => next
              end
            else next
        | None => next
        end
  end.

Definition sampler_sam_scan (fa_f : option (Z -> option string))
           (reads : list bam1) : outcome unit :=
  sampler_scan_loop fa_f (-1) (-1) reads.

(** ** Sort order of a stream *)

(** The sort key of a read and the order the scans insist on. *)
Definition key (b : bam1) : Z * Z := (core_tid b, core_pos b).

Definition key_lt (k p : Z * Z) : Prop :=
  fst k < fst p \/ (fst k = fst p /\ snd k < snd p).

(** Some element of [ks] is smaller than the one just before it. *)
Definition has_descent (ks : list (Z * Z)) : Prop :=
  exists l1 p k l2, ks = l1 ++ p :: k :: l2 /\ key_lt k p.

(** Some mapped read of the stream violates the sort order: it is
    smaller than the previous mapped read. *)
Definition out_of_order (reads : list bam1) : Prop :=
  has_descent (map key (List.filter mapped reads)).

(** With a FASTA index, some mapped read's reference cannot be fetched. *)
Definition unreadable_reference (fa_f : option (Z -> option string))
           (reads : list bam1) : Prop :=
  exists fetch b, fa_f = Some fetch /\ In b reads /\ mapped b = true
                  /\ fetch (core_tid b) = None.

Lemma violates_key_lt lt lp b :
  violates lt lp b = true <-> key_lt (key b) (lt, lp).
Proof. unfold violates, key_lt, key. simpl. lia. Qed.

Lemma has_descent_nil : ~ has_descent [].
Proof. intros (l1 & p & k & l2 & H & _). destruct l1; discriminate. Qed.

Lemma has_descent_one p : ~ has_descent [p].
Proof.
  intros (l1 & q & k & l2 & H & _).
  destruct l1 as [| ? [| ? ?]]; discriminate.
Qed.

Lemma has_descent_cons p k l :
  has_descent (p :: k :: l) <-> key_lt k p \/ has_descent (k :: l).
Proof.
  split.
  - intros (l1 & q & k' & l2 & H & Hlt).
    destruct l1 as [| x l1]; simpl in H.
    + injection H as -> -> ->. now left.
    + injection H as -> H. right. exists l1, q, k', l2. auto.
  - intros [Hlt | (l1 & q & k' & l2 & H & Hlt)].
    + exists [], p, k, l. auto.
    + exists (p :: l1), q, k', l2. simpl. rewrite H. auto.
Qed.

Lemma mapped_tid_nonneg b : mapped b = true -> 0 <= core_tid b.
Proof. unfold mapped, skipped. lia. Qed.

(** A stream's first mapped read never trips the check against the
    initial [last_tid = last_pos = -1]. *)
Lemma has_descent_initial reads :
  has_descent ((-1, -1) :: map key (List.filter mapped reads))
  <-> out_of_order reads.
Proof.
  unfold out_of_order.
  induction reads as [| b rest IH]; simpl.
  - split; intros H; [now apply has_descent_one in H | now apply has_descent_nil in H].
  - destruct (mapped b) eqn:Hm; [| exact IH].
    simpl. rewrite has_descent_cons.
    apply mapped_tid_nonneg in Hm.
    unfold key_lt, key. simpl. intuition lia.
Qed.

Lemma fm_scan_loop_spec reads : forall lt lp T,
  (fm_scan_loop lt lp T reads = Abort_unsorted
   <-> has_descent ((lt, lp) :: map key (List.filter mapped reads)))
  /\ fm_scan_loop lt lp T reads <> Abort_no_sequence.
Proof.
  induction reads as [| b rest IH]; intros lt lp T; simpl.
  - split; [| discriminate].
    split; [discriminate | intros H; now apply has_descent_one in H].
  - unfold mapped. destruct (skipped b); simpl; [apply IH |].
    rewrite has_descent_cons, <- violates_key_lt.
    destruct (violates lt lp b) eqn:Hv.
    + split; [tauto | discriminate].
    + destruct (IH (core_tid b) (core_pos b)
                   (if negb (Z.land (core_flag b) BAM_FREAD2 =? 0)
                    then AlnCountTrie.inc_mate2 T (qname b)
                    else AlnCountTrie.inc_mate1 T (qname b))) as [IH1 IH2].
      split; [| exact IH2].
      rewrite IH1. unfold key at 2. intuition discriminate.
Qed.

Lemma sampler_scan_loop_spec fa_f reads : forall lt lp,
  (forall fetch, fa_f = Some fetch -> lt < 0 \/ fetch lt <> None) ->
  aborted (sampler_scan_loop fa_f lt lp reads)
  <-> has_descent ((lt, lp) :: map key (List.filter mapped reads))
      \/ unreadable_reference fa_f reads.
Proof.
  induction reads as [| b rest IH]; intros lt lp Hlt; simpl.
  - split; [tauto |].
    intros [H | (fetch & b & _ & [] & _)]. now apply has_descent_one in H.
  - assert (Hcons : forall P : Prop,
      (mapped b = true ->
         forall fetch, fa_f = Some fetch -> fetch (core_tid b) <> None) ->
      (P \/ unreadable_reference fa_f rest)
      <-> (P \/ unreadable_reference fa_f (b :: rest))).
    { intros P Hb. split.
      - intros [H | (fetch & x & Hf & Hin & Hx)]; [now left | right].
        exists fetch, x. simpl. tauto.
      - intros [H | (fetch & x & Hf & [<- | Hin] & Hm & Hx)]; [now left | |].
        + exfalso. exact (Hb Hm fetch Hf Hx).
        + right. exists fetch, x. tauto. }
    unfold mapped in *. destruct (skipped b) eqn:Hs; simpl.
    + rewrite (IH lt lp Hlt). apply Hcons. discriminate.
    + rewrite has_descent_cons, <- violates_key_lt.
      assert (Htid : 0 <= core_tid b) by (unfold skipped in Hs; lia).
      destruct (violates lt lp b) eqn:Hv; [simpl; tauto |].
      destruct fa_f as [fetch |].
      * destruct (Z.eqb_spec (core_tid b) lt) as [E | E]; simpl.
        -- assert (Hb : fetch (core_tid b) <> None).
           { destruct (Hlt fetch eq_refl) as [H | H]; [lia | now rewrite E]. }
           rewrite IH by (intros f [= <-]; now right).
           rewrite <- Hcons by (intros _ f [= <-]; exact Hb).
           unfold key at 2. intuition discriminate.
        -- destruct (fetch (core_tid b)) eqn:Hf.
           ++ rewrite IH by (intros f [= <-]; right; congruence).
              rewrite <- Hcons by (intros _ f [= <-]; congruence).
              unfold key at 2. intuition discriminate.
           ++ simpl. split; [intros _ | tauto].
              right. exists fetch, b. unfold mapped. rewrite Hs.
              simpl. tauto.
      * rewrite IH by discriminate.
        rewrite <- Hcons by discriminate.
        unfold key at 2. intuition discriminate.
Qed.

Lemma fm_scan_loop_filter reads : forall lt lp T,
  fm_scan_loop lt lp T (List.filter mapped reads) = fm_scan_loop lt lp T reads.
Proof.
  induction reads as [| b rest IH]; intros lt lp T; simpl; [reflexivity |].
  unfold mapped at 1. destruct (skipped b) eqn:Hs; simpl; [apply IH |].
  rewrite Hs. destruct (violates lt lp b); [reflexivity | apply IH].
Qed.

Lemma sampler_scan_loop_filter fa_f reads : forall lt lp,
  sampler_scan_loop fa_f lt lp (List.filter mapped reads)
  = sampler_scan_loop fa_f lt lp reads.
Proof.
  induction reads as [| b rest IH]; intros lt lp; simpl; [reflexivity |].
  unfold mapped at 1. destruct (skipped b) eqn:Hs; simpl; [apply IH |].
  rewrite Hs, IH. reflexivity.
Qed.

(** C9, as the code has it.  The scan of fragment_model.cpp aborts the
    run exactly when some mapped read is smaller (by reference id, then
    position) than the previous mapped read.  The scan of sampler.cpp
    aborts exactly when that happens or, a FASTA index being given, the
    reference sequence of some mapped read cannot be fetched.  In both
    scans unmapped reads are skipped: deleting them from the stream
    changes nothing.  An abort carries no state on: nothing is recovered
    or retried. *)
Theorem sam_scan_abort_iff :
  (forall reads, aborted (fm_sam_scan reads) <-> out_of_order reads)
  /\ (forall reads, fm_sam_scan reads <> Abort_no_sequence)
  /\ (forall fa_f reads,
        aborted (sampler_sam_scan fa_f reads)
        <-> out_of_order reads \/ unreadable_reference fa_f reads)
  /\ (forall reads, fm_sam_scan (List.filter mapped reads) = fm_sam_scan reads)
  /\ (forall fa_f reads,
        sampler_sam_scan fa_f (List.filter mapped reads)
        = sampler_sam_scan fa_f reads).
Proof.
  split; [| split; [| split; [| split]]].
  - intros reads. split.
    + intros Hab. apply has_descent_initial.
      destruct (fm_scan_loop_spec reads (-1) (-1) ∅) as [H1 H2].
      apply H1. unfold fm_sam_scan in Hab.
      destruct (fm_scan_loop (-1) (-1) ∅ reads); simpl in Hab; tauto.
    + intros Hoo. apply has_descent_initial in Hoo.
      apply (fm_scan_loop_spec reads (-1) (-1) ∅) in Hoo.
      unfold fm_sam_scan. rewrite Hoo. exact I.
  - intros reads. apply (fm_scan_loop_spec reads (-1) (-1) ∅).
  - intros fa_f reads. unfold sampler_sam_scan.
    rewrite sampler_scan_loop_spec by (intros; left; lia).
    rewrite has_descent_initial. reflexivity.
  - intros reads. apply fm_scan_loop_filter.
  - intros fa_f reads. apply sampler_scan_loop_filter.
Qed.

(** C9 as stated fails for the scan of sampler.cpp: a stream of one
    mapped read is in order, and the run is aborted all the same when the
    FASTA index has no sequence for the read's reference. *)
Lemma sampler_scan_aborts_sorted_stream :
  let reads := [Bam1 0 0 0 "r1"] in
  let fa_f := Some (fun _ : Z => @None string) in
  aborted (sampler_sam_scan fa_f reads) /\ ~ out_of_order reads.
Proof.
  simpl. split; [exact I |].
  unfold out_of_order. simpl. apply has_descent_one.
Qed.

End SamScan.

(** * Sequence bias and fragment weights ([SamplerInitThread], sampler.cpp) *)

Module SeqBias.

Local Open Scope Q_scope.

(** [std::vector<float>::resize(n)]: new cells are value-initialised. *)
Definition resize (n : nat) (xs : list Q) : list Q :=
  take n xs ++ replicate (n - length xs) 0.

(** [std::fill(xs.begin(), xs.begin() + n, v)] *)
Definition fill_prefix (n : nat) (v : Q) (xs : list Q) : list Q :=
  replicate n v ++ drop n xs.

(** [std::reverse(xs.begin(), xs.begin() + n)] *)
Definition reverse_prefix (n : nat) (xs : list Q) : list Q :=
  rev (take n xs) ++ drop n xs.

(** The thread's scratch tables, each indexed by strand (0 or 1). *)
Record tables : Type := Tables {
  mate1_seqbias : list Q * list Q;
  mate2_seqbias : list Q * list Q
}.

(** A thread starts with empty vectors. *)
Definition fresh : tables := Tables ([], []) ([], []).

Definition strand_of (tb : list Q * list Q) (strand : nat) : list Q :=
  match strand with O => fst tb | _ => snd tb end.

Section Model.

(** The bias model [fm.sb]: the transcript sequence type and the two
    per-position lookups, with its left context length [getL()]. *)
Variable twobitseq : Type.
Variable get_mate1_bias get_mate2_bias : twobitseq -> Z -> Q.
Variable getL : Z.

(** One turn of the loop over [pos]: the four assignments of lines
    949-952, in order.  All four have [mate1_seqbias] on the left. *)
Definition bias_loop_body (tseq0 tseq1 : twobitseq)
           (tb : tables) (pos : nat) : tables :=
  let p := (Z.of_nat pos + getL)%Z in
  let m1 := mate1_seqbias tb in
  let m1 := (<[pos := get_mate1_bias tseq0 p]> (fst m1), snd m1) in
  let m1 := (fst m1, <[pos := get_mate1_bias tseq1 p]> (snd m1)) in
  let m1 := (<[pos := get_mate2_bias tseq0 p]> (fst m1), snd m1) in
  let m1 := (fst m1, <[pos := get_mate2_bias tseq1 p]> (snd m1)) in
  Tables m1 (mate2_seqbias tb).

(** [transcript_sequence_bias]: [tlen] is the exonic length of the
    transcript; [seqs] is [None] when [fm.sb == NULL || locus.seq ==
    NULL] and otherwise holds [tseq0] and the reverse complement
    [tseq1] that [get_sequence] and [revcomp] produce. *)
Definition transcript_sequence_bias (tb : tables) (tlen : nat)
           (seqs : option (twobitseq * twobitseq)) : tables :=
  let tb :=
    if (length (fst (mate1_seqbias tb)) <? tlen)%nat then
      Tables (resize tlen (fst (mate1_seqbias tb)),
              resize tlen (snd (mate1_seqbias tb)))
             (resize tlen (fst (mate2_seqbias tb)),
              resize tlen (snd (mate2_seqbias tb)))
    else tb in
  match seqs with
  | None =>
      Tables (fill_prefix tlen 1 (fst (mate1_seqbias tb)),
              fill_prefix tlen 1 (snd (mate1_seqbias tb)))
             (fill_prefix tlen 1 (fst (mate2_seqbias tb)),
              fill_prefix tlen 1 (snd (mate2_seqbias tb)))
  | Some (tseq0, tseq1) =>
      let tb := fold_left (bias_loop_body tseq0 tseq1) (seq 0 tlen) tb in
      Tables (fst (mate1_seqbias tb),
              reverse_prefix tlen (snd (mate1_seqbias tb)))
             (fst (mate2_seqbias tb),
              reverse_prefix tlen (snd (mate2_seqbias tb)))
  end.

(** What the tables are documented to hold ("Compute sequence bias for
    both mates on both strand.  Results are stored in mate1_seqbias,
    mate2_seqbias."): the bias of the named mate, strand 1 being read
    from the reverse complement and stored reversed. *)
Definition intended_bias (get_bias : twobitseq -> Z -> Q)
           (tseq0 tseq1 : twobitseq) (tlen : nat)
           (strand pos : nat) : Q :=
  match strand with
  | O => get_bias tseq0 (Z.of_nat pos + getL)%Z
  | _ => get_bias tseq1 (Z.of_nat (tlen - 1 - pos) + getL)%Z
  end.

(** [fragment_weight], for a fragment whose length under the transcript
    is [frag_len] (negative: incompatible; zero: not defined by the
    mates) and whose mates, when present, lie on [strand] at transcript
    offset [offset]. *)
Definition fragment_weight (tb : tables)
           (frag_len_p : Z -> Q) (frag_len_med : Z)
           (frag_len trans_len : Z)
           (mate1 mate2 : option (nat * nat)) : Q :=
  if (frag_len <? 0)%Z then 0
  else
    let frag_len :=
      if (frag_len =? 0)%Z then Z.min trans_len frag_len_med else frag_len in
    let w := frag_len_p frag_len in
    let w := match mate1 with
             | Some (strand, offset) =>
                 w * nth offset (strand_of (mate1_seqbias tb) strand) 0
             | None => w
             end in
    let w := match mate2 with
             | Some (strand, offset) =>
                 w * nth offset (strand_of (mate2_seqbias tb) strand) 0
             | None => w
             end in
    w.

Lemma bias_loop_mate2 tseq0 tseq1 ps : forall tb,
  mate2_seqbias (fold_left (bias_loop_body tseq0 tseq1) ps tb)
  = mate2_seqbias tb.
Proof.
  induction ps as [| p ps IH]; intros tb; simpl; [reflexivity |].
  rewrite IH. reflexivity.
Qed.

Lemma bias_loop_mate1_length tseq0 tseq1 ps : forall tb,
  length (fst (mate1_seqbias (fold_left (bias_loop_body tseq0 tseq1) ps tb)))
  = length (fst (mate1_seqbias tb)).
Proof.
  induction ps as [| p ps IH]; intros tb; simpl; [reflexivity |].
  rewrite IH. simpl. rewrite !length_insert. reflexivity.
Qed.

Lemma bias_loop_mate1_strand0 tseq0 tseq1 n : forall tb pos,
  (pos < n <= length (fst (mate1_seqbias tb)))%nat ->
  fst (mate1_seqbias (fold_left (bias_loop_body tseq0 tseq1) (seq 0 n) tb))
    !! pos
  = Some (get_mate2_bias tseq0 (Z.of_nat pos + getL)%Z).
Proof.
  induction n as [| n IH]; intros tb pos Hpos; [lia |].
  rewrite seq_S, fold_left_app. simpl.
  destruct (decide (pos = n)) as [-> | Hne].
  - rewrite list_insert_insert_eq, list_lookup_insert_eq; [reflexivity |].
    rewrite bias_loop_mate1_length. lia.
  - rewrite !list_lookup_insert_ne by lia. apply IH. lia.
Qed.

(** In the branch with a bias model the loop writes [mate1_seqbias]
    only: strand 0 of it ends up holding the mate-2 bias, and
    [mate2_seqbias] keeps whatever it held before (resized, and its
    strand-1 prefix reversed). *)
Lemma transcript_sequence_bias_writes_mate1_only tb tlen tseq0 tseq1 :
  let tb0 :=
    if (length (fst (mate1_seqbias tb)) <? tlen)%nat then
      Tables (resize tlen (fst (mate1_seqbias tb)),
              resize tlen (snd (mate1_seqbias tb)))
             (resize tlen (fst (mate2_seqbias tb)),
              resize tlen (snd (mate2_seqbias tb)))
    else tb in
  let tb' := transcript_sequence_bias tb tlen (Some (tseq0, tseq1)) in
  mate2_seqbias tb'
  = (fst (mate2_seqbias tb0), reverse_prefix tlen (snd (mate2_seqbias tb0)))
  /\ forall pos, (pos < tlen)%nat ->
       fst (mate1_seqbias tb') !! pos
       = Some (get_mate2_bias tseq0 (Z.of_nat pos + getL)%Z).
Proof.
  intros tb0 tb'. subst tb'. unfold transcript_sequence_bias. fold tb0.
  simpl. rewrite bias_loop_mate2. split; [reflexivity |].
  intros pos Hpos. apply bias_loop_mate1_strand0. split; [exact Hpos |].
  subst tb0. destruct (Nat.ltb_spec (length (fst (mate1_seqbias tb))) tlen).
  - simpl. unfold resize. rewrite length_app, length_take, length_replicate. lia.
  - lia.
Qed.

End Model.

(** C8, at a concrete input.  A bias model whose mate-1 bias is 2 and
    whose mate-2 bias is 3 everywhere, a transcript of exonic length 2,
    and a thread whose tables are still empty.  The documented result is
    [mate1_seqbias = 2] and [mate2_seqbias = 3] at every position of
    both strands.  The code leaves the mate-2 bias in [mate1_seqbias]
    and never writes [mate2_seqbias], which keeps the zeros of [resize];
    [fragment_weight] of a fragment with both mates then reads 3 for
    mate 1 and 0 for mate 2, and returns 0 where 2 * 3 = 6 times the
    length probability was intended. *)
Theorem transcript_sequence_bias_mate2_lost :
  let g1 := fun (_ : unit) (_ : Z) => 2 in
  let g2 := fun (_ : unit) (_ : Z) => 3 in
  let tb := transcript_sequence_bias unit g1 g2 0%Z fresh 2 (Some (tt, tt)) in
  mate1_seqbias tb = ([3; 3], [3; 3])
  /\ mate2_seqbias tb = ([0; 0], [0; 0])
  /\ intended_bias unit 0%Z g1 tt tt 2 0 0 = 2
  /\ intended_bias unit 0%Z g2 tt tt 2 0 0 = 3
  /\ fragment_weight tb (fun _ => 1) 200%Z 1%Z 2%Z (Some (O, O)) (Some (1%nat, 1%nat))
     = 0.
Proof. repeat split. Qed.

End SeqBias.

(** * The locus initialiser ([SamplerInitThread::process_locus], sampler.cpp) *)

Module LocusInit.

Local Open Scope Q_scope.

(** An [AlignmentPair] is identified by its signature, an integer, in
    the order [std::map] and [std::set] keep.  A read of the [ReadSet]
    has its name and the alignments [AlignedReadIterator] walks. *)
Record read : Type := Read {
  read_id : string;
  alignments : list Z
}.

Record MultireadEntry : Type := MkMultireadEntry {
  multiread_num : Z;
  transcript_idx : Z;
  frag_weight : Q;
  align_pr : Q
}.

(** [MultireadEntry::operator<] *)
Definition entry_ltb (a b : MultireadEntry) : bool :=
  if negb (multiread_num a =? multiread_num b)%Z
  then (multiread_num a <? multiread_num b)%Z
  else (transcript_idx a <? transcript_idx b)%Z.

(** [std::sort] of the entries, as an insertion sort by [operator<]. *)
Fixpoint insert_entry (e : MultireadEntry) (es : list MultireadEntry) :=
  match es with
  | [] => [e]
  | x :: rest => if entry_ltb x e then x :: insert_entry e rest else e :: es
  end.

Definition sort_entries (es : list MultireadEntry) : list MultireadEntry :=
  fold_right insert_entry [] es.

(** What the threads share: the [Indexer] ([next]), the calls of
    [weight_matrix.push] made so far, oldest first, the vectors
    [frag_counts] and [multiread_frags], and [transcript_weights]. *)
Record shared : Type := Shared {
  next : Z;
  pushes : list (Z * Z * Q);
  frag_counts : list (Z * Z);
  multiread_frags : list (Z * Z);
  transcript_weights : gmap Z Q
}.

(** [Indexer::get]: [return next++]. *)
Definition indexer_get (s : shared) : Z * shared :=
  (next s,
   Shared (wrap32 (next s + 1)) (pushes s) (frag_counts s)
          (multiread_frags s) (transcript_weights s)).

Definition push (s : shared) (i j : Z) (w : Q) : shared :=
  Shared (next s) (pushes s ++ [(i, j, w)]) (frag_counts s)
         (multiread_frags s) (transcript_weights s).

Definition push_frag_count (s : shared) (fc : Z * Z) : shared :=
  Shared (next s) (pushes s) (frag_counts s ++ [fc])
         (multiread_frags s) (transcript_weights s).

Definition push_multiread_frag (s : shared) (mf : Z * Z) : shared :=
  Shared (next s) (pushes s) (frag_counts s)
         (multiread_frags s ++ [mf]) (transcript_weights s).

Definition set_transcript_weight (s : shared) (t : Z) (w : Q) : shared :=
  Shared (next s) (pushes s) (frag_counts s)
         (multiread_frags s) (<[t := w]> (transcript_weights s)).

(** [Frags]: a [std::map] from alignment pair to (fragment index,
    count), kept as an association list in key order. *)
Fixpoint frags_find (a : Z) (m : list (Z * (Z * Z))) : option (Z * Z) :=
  match m with
  | [] => None
  | (k, v) :: rest => if (k =? a)%Z then Some v else frags_find a rest
  end.

Fixpoint frags_set (a : Z) (v : Z * Z) (m : list (Z * (Z * Z))) :=
  match m with
  | [] => [(a, v)]
  | (k, x) :: rest =>
      if (a <? k)%Z then (a, v) :: m
      else if (k =? a)%Z then (k, v) :: rest
      else (k, x) :: frags_set a v rest
  end.

(** The run of entries from the front that satisfy [p], and what
    follows it: [k] walks up from [i] while the multiread number stays
    the same. *)
Fixpoint take_while {A} (p : A -> bool) (l : list A) : list A :=
  match l with
  | [] => []
  | x :: rest => if p x then x :: take_while p rest else []
  end.

Fixpoint drop_while {A} (p : A -> bool) (l : list A) : list A :=
  match l with
  | [] => []
  | x :: rest => if p x then drop_while p rest else l
  end.

Section Model.

(** The fragment model's read indexes, [AlnIndex::get]: -1 for a name
    that is not listed. *)
Variable blacklist_get multireads_get : string -> Z.
(** [AlignmentPair::frag_len(t)], and the two weights computed from
    the bias tables of transcript [t]. *)
Variable frag_len : Z -> Z -> Z.
Variable fragment_weight : Z -> Z -> Q.
Variable transcript_weight : Z -> Q.
(** [constants::min_frag_weight], [constants::min_transcript_weight] *)
Variable min_frag_weight min_transcript_weight : Q.

(** The body of the first loop, lines 804-847.  The insertion into
    [multiread_set] stands between [#if 0] and [#endif]: a read that
    the fragment model numbers as a multiread is passed over. *)
Definition collect_read (ts : list Z)
           (st : shared * list (Z * (Z * Z)) * list Z) (r : read)
  : shared * list (Z * (Z * Z)) * list Z :=
  let '(s, frag_idx, excluded_frags) := st in
  if (0 <=? blacklist_get (read_id r))%Z then st
  else
    let multiread_num := multireads_get (read_id r) in
    if (0 <=? multiread_num)%Z then st
    else
      match alignments r with
      | [] => st
      | a :: _ =>
          if existsb (Z.eqb a) excluded_frags then st
          else
            match frags_find a frag_idx with
            | Some (idx, cnt) =>
                (s, frags_set a (idx, wrap32 (cnt + 1)) frag_idx,
                 excluded_frags)
            | None =>
                if existsb (fun t => (0 <=? frag_len a t)%Z) ts then
                  let '(idx, s') := indexer_get s in
                  (s', frags_set a (idx, 1%Z) frag_idx, excluded_frags)
                else (s, frag_idx, a :: excluded_frags)
            end
      end.

(** Lines 849-854: fragments seen more than once are recorded. *)
Definition record_counts (s : shared) (frag_idx : list (Z * (Z * Z))) :=
  fold_left (fun s f => if (1 <? snd (snd f))%Z
                        then push_frag_count s (snd f) else s)
            frag_idx s.

(** Lines 863-873, for one transcript: an entry per alignment of each
    read of [multiread_set] that weighs enough. *)
Definition multiread_entries_of (t : Z) (multiread_set : list (Z * read))
  : list MultireadEntry :=
  flat_map (fun r =>
    flat_map (fun a =>
      let w := fragment_weight t a in
      if Qltb min_frag_weight w
      then [MkMultireadEntry (fst r) t w 1]
      else []) (alignments (snd r))) multiread_set.

(** Lines 875-880, for one transcript and one fragment of the locus. *)
Definition push_fragment (t : Z) (tw : Q) (s : shared)
           (f : Z * (Z * Z)) : shared :=
  let w := fragment_weight t (fst f) in
  if Qltb min_frag_weight w then push s t (fst (snd f)) (w / tw) else s.

(** Lines 857-881, for one transcript. *)
Definition weigh_transcript (multiread_set : list (Z * read))
           (frag_idx : list (Z * (Z * Z)))
           (st : shared * list MultireadEntry) (t : Z)
  : shared * list MultireadEntry :=
  let '(s, multiread_entries) := st in
  let tw := if Qltb min_transcript_weight (transcript_weight t)
            then transcript_weight t else min_transcript_weight in
  let s := set_transcript_weight s t tw in
  let multiread_entries :=
    multiread_entries ++ multiread_entries_of t multiread_set in
  let s := fold_left (push_fragment t tw) frag_idx s in
  (s, multiread_entries).

(** Lines 903-919: within the entries [grp] of one multiread, sorted
    by transcript, the weights of a transcript are added up and pushed
    under the multiread's fragment index. *)
Fixpoint push_group (frag_idx : Z) (grp : list MultireadEntry)
         (j0 : Z) (w : Q) (s : shared) : shared :=
  match grp with
  | [] => if Qltb min_frag_weight w then push s j0 frag_idx w else s
  | j :: rest =>
      if negb (transcript_idx j =? j0)%Z then
        let s := if Qltb min_frag_weight w then push s j0 frag_idx w else s in
        push_group frag_idx rest (transcript_idx j)
                   (0 + align_pr j * frag_weight j) s
      else
        push_group frag_idx rest j0 (w + align_pr j * frag_weight j) s
  end.

(** Lines 885-920: the loop over the groups [i, k) of entries that
    share a multiread number. *)
Fixpoint multiread_stage (fuel : nat) (entries : list MultireadEntry)
         (s : shared) : shared :=
  match fuel, entries with
  | _, [] => s
  | O, _ => s
  | S fuel, i :: _ =>
      let same := fun e => (multiread_num i =? multiread_num e)%Z in
      let grp := take_while same entries in
      let rest := drop_while same entries in
      let sum_weight :=
        fold_left (fun acc j => acc + frag_weight j * align_pr j) grp 0 in
      if Qeq_bool sum_weight 0 then multiread_stage fuel rest s
      else
        let '(frag_idx, s) := indexer_get s in
        let s := push_multiread_frag s (multiread_num i, frag_idx) in
        let s := push_group frag_idx grp (transcript_idx i) 0 s in
        multiread_stage fuel rest s
  end.

(** [process_locus] on a locus with transcripts [ts] and reads [rs]. *)
Definition process_locus (s : shared) (ts : list Z) (rs : list read)
  : shared :=
  let multiread_set : list (Z * read) := [] in
  let '(s, frag_idx, _) := fold_left (collect_read ts) rs (s, [], []) in
  let s := record_counts s frag_idx in
  let '(s, multiread_entries) :=
    fold_left (weigh_transcript multiread_set frag_idx) ts (s, []) in
  let multiread_entries := sort_entries multiread_entries in
  multiread_stage (length multiread_entries) multiread_entries s.

(** The reads the fragment model numbers as multireads. *)
Definition is_multiread (r : read) : bool :=
  (0 <=? multireads_get (read_id r))%Z.

Lemma collect_read_multiread ts st r :
  is_multiread r = true -> collect_read ts st r = st.
Proof.
  unfold is_multiread, collect_read. intros ->.
  destruct st as [[s fi] ex]. destruct (0 <=? _)%Z; reflexivity.
Qed.

Lemma collect_filter ts rs : forall st,
  fold_left (collect_read ts) (List.filter (fun r => negb (is_multiread r)) rs) st
  = fold_left (collect_read ts) rs st.
Proof.
  induction rs as [| r rs IH]; intros st; simpl; [reflexivity |].
  destruct (is_multiread r) eqn:Hm; simpl.
  - rewrite collect_read_multiread by exact Hm. apply IH.
  - apply IH.
Qed.

Lemma collect_read_multiread_frags ts st r :
  multiread_frags (fst (fst (collect_read ts st r)))
  = multiread_frags (fst (fst st)).
Proof.
  unfold collect_read. destruct st as [[s fi] ex]. simpl.
  repeat match goal with
         | |- context [if ?b then _ else _] => destruct b
         | |- context [match ?x with _ => _ end] => destruct x
         end; reflexivity.
Qed.

Lemma collect_multiread_frags ts rs : forall st,
  multiread_frags (fst (fst (fold_left (collect_read ts) rs st)))
  = multiread_frags (fst (fst st)).
Proof.
  induction rs as [| r rs IH]; intros st; simpl; [reflexivity |].
  rewrite IH. apply collect_read_multiread_frags.
Qed.

Lemma record_counts_multiread_frags fi : forall s,
  multiread_frags (record_counts s fi) = multiread_frags s.
Proof.
  unfold record_counts.
  induction fi as [| f fi IH]; intros s; simpl; [reflexivity |].
  rewrite IH. destruct (1 <? _)%Z; reflexivity.
Qed.

Lemma push_frags_multiread_frags t tw fi : forall s,
  multiread_frags (fold_left (push_fragment t tw) fi s) = multiread_frags s.
Proof.
  induction fi as [| f fi IH]; intros s; simpl; [reflexivity |].
  rewrite IH. unfold push_fragment. destruct (Qltb _ _); reflexivity.
Qed.

(** With an empty [multiread_set] the transcripts add no entry. *)
Lemma weigh_no_multireads fi ts : forall s,
  snd (fold_left (weigh_transcript [] fi) ts (s, [])) = []
  /\ multiread_frags (fst (fold_left (weigh_transcript [] fi) ts (s, [])))
     = multiread_frags s.
Proof.
  induction ts as [| t ts IH]; intros s; simpl; [auto |].
  destruct (IH (fold_left
                  (push_fragment t
                     (if Qltb min_transcript_weight (transcript_weight t)
                      then transcript_weight t else min_transcript_weight)) fi
                  (set_transcript_weight s t
                     (if Qltb min_transcript_weight (transcript_weight t)
                      then transcript_weight t else min_transcript_weight))))
    as [IH1 IH2].
  split; [exact IH1 |]. rewrite IH2, push_frags_multiread_frags. reflexivity.
Qed.

(** C7, as the code has it.  [process_locus] passes over every read
    that the fragment model numbers as a multiread: it gives the
    result it gives on the locus without those reads, so that no
    weight is computed, no fragment index allocated and no matrix
    entry pushed for them; and it leaves the shared multiread table as
    it found it. *)
Theorem process_locus_skips_multireads (s : shared) (ts : list Z)
        (rs : list read) :
  process_locus s ts rs
  = process_locus s ts (List.filter (fun r => negb (is_multiread r)) rs)
  /\ multiread_frags (process_locus s ts rs) = multiread_frags s.
Proof.
  unfold process_locus. rewrite collect_filter. split; [reflexivity |].
  pose proof (collect_multiread_frags ts rs (s, [], [])) as Hc.
  destruct (fold_left (collect_read ts) rs (s, [], [])) as [[s1 fi] ex].
  simpl in Hc.
  pose proof (weigh_no_multireads fi ts (record_counts s1 fi)) as [Hw1 Hw2].
  destruct (fold_left (weigh_transcript [] fi) ts (record_counts s1 fi, []))
    as [s2 es].
  simpl in Hw1, Hw2. subst es. simpl.
  rewrite Hw2, record_counts_multiread_frags. exact Hc.
Qed.

End Model.

(** C7 as stated fails.  A locus with transcript 0 and one multiread
    (number 0) with two alignments, each of weight 1 under the
    transcript, above a threshold of 0: the claim has the pair
    (transcript 0, weight 2) pushed under a fresh fragment index and the
    multiread recorded with that index.  [process_locus] pushes nothing,
    records nothing and allocates no index. *)
Lemma multiread_locus_pushes_nothing :
  let s0 := Shared 0 [] [] [] ∅ in
  let s := process_locus (fun _ => (-1)%Z) (fun _ => 0%Z) (fun _ _ => 100%Z)
                         (fun _ _ => 1) (fun _ => 1) 0 0
                         s0 [0%Z] [Read "m1" [10%Z; 11%Z]] in
  pushes s = [] /\ multiread_frags s = [] /\ next s = 0%Z.
Proof. repeat split. Qed.

(** The grouping stage on its own, had it been handed entries: multiread
    7 with two alignments on transcript 1 and one on transcript 2, and
    multiread 9 with one alignment on transcript 1.  One fragment index
    per multiread. *)
Example multiread_stage_groups :
  let s := multiread_stage 0 4
             [MkMultireadEntry 7 1 1 1; MkMultireadEntry 7 1 2 1;
              MkMultireadEntry 7 2 4 1; MkMultireadEntry 9 1 1 1]
             (Shared 0 [] [] [] ∅) in
  multiread_frags s = [(7, 0); (9, 1)]%Z
  /\ map (fun p => (fst (fst p), snd (fst p), Qred (snd p))) (pushes s)
     = [(1%Z, 0%Z, 3); (2%Z, 0%Z, 4); (1%Z, 1%Z, 1)].
Proof. split; reflexivity. Qed.

End LocusInit.

(** * The sparse weight matrix ([WeightMatrix], sampler.cpp) *)

Module WeightMatrix.

(** [std::swap(xs[a], xs[b])] *)
Definition swap {A} (xs : list A) (a b : nat) : list A :=
  match xs !! a, xs !! b with
  | Some x, Some y => <[b := x]> (<[a := y]> xs)
  | _, _ => xs
  end.

(** [xs[i]] for an [unsigned int] index; [None] outside the array. *)
Definition get {A} (xs : list A) (i : Z) : option A :=
  if (0 <=? i) && (i <? Z.of_nat (length xs)) then xs !! Z.to_nat i else None.

(** [idx[a]], for [a] inside the row. *)
Definition at_ (idx : list Z) (a : nat) : Z := nth a idx 0.

(** [median_of_three]: the three conditional swaps of [abc]. *)
Definition median_of_three (idx : list Z) (a b c : nat) : nat :=
  let '(a0, a1) := if at_ idx a <? at_ idx b then (b, a) else (a, b) in
  let '(a1, a2) := if at_ idx a1 <? at_ idx c then (c, a1) else (a1, c) in
  let '(a0, a1) := if at_ idx a0 <? at_ idx a1 then (a1, a0) else (a0, a1) in
  a1.

(** The inner [for] of the insertion-sort branch: the first position of
    the least column index in [u, v). *)
Definition find_min (idx : list Z) (u v : nat) : nat :=
  fst (fold_left
         (fun (st : nat * Z) a =>
            if at_ idx a <? snd st then (a, at_ idx a) else st)
         (seq (S u) (v - S u)) (u, at_ idx u)).

Section Rows.

(** The weights are [float]s; the matrix only moves them. *)
Context {W : Type}.

(** [while (u < v - 1) { ...; ++u; }], [n] turns of it. *)
Fixpoint selection_sort (n : nat) (u v : nat) (idx : list Z) (row : list W)
  : list Z * list W :=
  match n with
  | O => (idx, row)
  | S n =>
      let minpos := find_min idx u v in
      selection_sort n (S u) v (swap idx u minpos) (swap row u minpos)
  end.

(** [for (a = b = u; b < v - 1; ++b) if (idx[b] <= pval) { swap; ++a; }] *)
Definition partition_loop (u v : nat) (pval : Z) (idx : list Z) (row : list W)
  : nat * list Z * list W :=
  fold_left
    (fun (st : nat * list Z * list W) b =>
       let '(a, idx, row) := st in
       if at_ idx b <=? pval then (S a, swap idx a b, swap row a b)
       else st)
    (seq u (v - 1 - u)) (u, idx, row).

(** One turn of the [while (!s.empty())] loop of [sortrow].  The range
    stack has its top first. *)
Definition sortrow_step (r : nat * nat) (s : list (nat * nat))
           (idx : list Z) (row : list W)
  : list (nat * nat) * list Z * list W :=
  let '(u, v) := r in
  if (u =? v)%nat then (s, idx, row)
  else if (v - u <? 7)%nat then
    let '(idx, row) := selection_sort (v - 1 - u) u v idx row in
    (s, idx, row)
  else
    let p := median_of_three idx u (u + (v - u) / 2) (v - 1) in
    let pval := at_ idx p in
    let idx := swap idx p (v - 1) in
    let row := swap row p (v - 1) in
    let '(a, idx, row) := partition_loop u v pval idx row in
    let idx := swap idx a (v - 1) in
    let row := swap row a (v - 1) in
    ((S a, v) :: (u, a) :: s, idx, row).

Fixpoint sortrow_loop (fuel : nat) (s : list (nat * nat))
         (idx : list Z) (row : list W) : option (list Z * list W) :=
  match s with
  | [] => Some (idx, row)
  | r :: s =>
      match fuel with
      | O => None
      | S fuel =>
          let '(s, idx, row) := sortrow_step r s idx row in
          sortrow_loop fuel s idx row
      end
  end.

(** [sortrow(i)] on the arrays [idxs[i]] and [rows[i]] of length [m]:
    [None] would be a loop that does not end within [2 m + 1] turns. *)
Definition sortrow (idx : list Z) (row : list W) : option (list Z * list W) :=
  let m := length idx in
  if (m =? 0)%nat then Some (idx, row)
  else sortrow_loop (2 * m + 1) [(O, m)] idx row.

(** The matrix: [rowlens[i]] is the length of [rows[i]] and of
    [idxs[i]]; the capacity [reserved] and the allocator are left
    out. *)
Record t : Type := Mk {
  nrow : Z;
  ncol : Z;
  rows : list (list W);
  idxs : list (list Z)
}.

(** [WeightMatrix(nrow)] *)
Definition create (n : Z) : t :=
  Mk n 0 (replicate (Z.to_nat n) []) (replicate (Z.to_nat n) []).

(** [push(i, j, w)]; a row outside the matrix is an access outside the
    arrays, [None]. *)
Definition push (m : t) (i j : Z) (w : W) : option t :=
  if (0 <=? i) && (i <? nrow m) then
    Some (Mk (nrow m) (ncol m)
             (alter (fun r => r ++ [w]) (Z.to_nat i) (rows m))
             (alter (fun r => r ++ [j]) (Z.to_nat i) (idxs m)))
  else None.

Definition push_all (m : t) (ps : list (Z * Z * W)) : option t :=
  foldl (fun (om : option t) p =>
           m ← om; push m (fst (fst p)) (snd (fst p)) (snd p))
        (Some m) ps.

(** "Mark observed columns", first loop: one more than the largest
    column index, in [unsigned int] arithmetic. *)
Definition scan_ncol (js : list Z) : Z :=
  foldl (fun ncol j => if ncol <=? j then wrap32 (j + 1) else ncol) 0 js.

(** [newidx[idxs[i][j]] = 1] for every entry; a write outside
    [newidx] is [None]. *)
Definition mark_columns (newidx : list Z) (js : list Z) : option (list Z) :=
  foldl (fun (o : option (list Z)) j =>
           newidx ← o;
           if (0 <=? j) && (j <? Z.of_nat (length newidx))
           then Some (<[Z.to_nat j := 1]> newidx) else None)
        (Some newidx) js.

(** "Reassign column indexes":
    [if (newidx[i]) newidx[i] = j++; else newidx[i] = j;] *)
Fixpoint renumber (marks : list Z) (j : Z) : list Z :=
  match marks with
  | [] => []
  | x :: rest =>
      if x =? 0 then j :: renumber rest j
      else j :: renumber rest (wrap32 (j + 1))
  end.

(** [idxs[i][j] = newidx[idxs[i][j]]] over one row. *)
Definition remap_row (newidx : list Z) (idx : list Z) : option (list Z) :=
  mapM (get newidx) idx.

Definition sort_rows (idxs : list (list Z)) (rows : list (list W))
  : option (list (list Z * list W)) :=
  mapM (fun ir => sortrow (fst ir) (snd ir)) (zip idxs rows).

(** [compact()]: the compacted matrix and the returned map from old to
    new column index.  The copy into aligned arrays changes no
    content.  [None] stands for an access outside an array. *)
Definition compact (m : t) : option (t * list Z) :=
  let js := concat (idxs m) in
  let ncol0 := scan_ncol js in
  marks ← mark_columns (replicate (Z.to_nat ncol0) 0) js;
  let newidx := renumber marks 0 in
  last ← get newidx (wrap32 (ncol0 - 1));
  let ncol1 := wrap32 (last + 1) in
  idxs1 ← mapM (remap_row newidx) (idxs m);
  sorted ← sort_rows idxs1 (rows m);
  Some (Mk (nrow m) ncol1 (map snd sorted) (map fst sorted), newidx).

(** [reorder_columns(idxmap)] *)
Definition reorder_columns (m : t) (idxmap : list Z) : option t :=
  idxs1 ← mapM (remap_row idxmap) (idxs m);
  sorted ← sort_rows idxs1 (rows m);
  Some (Mk (nrow m) (ncol m) (map snd sorted) (map fst sorted)).

(** The triples (i, j, w) that a [WeightMatrixIterator] walks through,
    in its order: row by row, each row from its first entry on. *)
Definition row_entries (i : nat) (idx : list Z) (row : list W)
  : list (Z * Z * W) :=
  map (fun jw => (Z.of_nat i, fst jw, snd jw)) (zip idx row).

Definition entries (m : t) : list (Z * Z * W) :=
  concat (imap (fun i ir => row_entries i (fst ir) (snd ir))
               (zip (idxs m) (rows m))).

End Rows.

Arguments t W : clear implicits.

(** ** Swaps *)

(** The transposition of the positions [a] and [b]. *)
Definition transp (a b i : nat) : nat :=
  if decide (i = a) then b else if decide (i = b) then a else i.

Lemma transp_inj a b : Inj (=) (=) (transp a b).
Proof. intros i j. unfold transp. repeat case_decide; congruence. Qed.

Lemma swap_lookup {A} (l : list A) a b i :
  (a < length l)%nat -> (b < length l)%nat ->
  swap l a b !! i = l !! transp a b i.
Proof.
  intros Ha Hb. unfold swap, transp.
  destruct (lookup_lt_is_Some_2 l a Ha) as [x Hx].
  destruct (lookup_lt_is_Some_2 l b Hb) as [y Hy].
  rewrite Hx, Hy. destruct (decide (i = b)) as [-> | Nb].
  - rewrite list_lookup_insert_eq by (rewrite length_insert; lia).
    destruct (decide (b = a)); congruence.
  - rewrite list_lookup_insert_ne by congruence.
    destruct (decide (i = a)) as [-> | Na].
    + rewrite list_lookup_insert_eq by lia. congruence.
    + now rewrite list_lookup_insert_ne by congruence.
Qed.

Lemma length_swap {A} (l : list A) a b : length (swap l a b) = length l.
Proof.
  unfold swap. destruct (l !! a), (l !! b); rewrite ?length_insert; reflexivity.
Qed.

Lemma at_swap idx a b k :
  (a < length idx)%nat -> (b < length idx)%nat ->
  at_ (swap idx a b) k = at_ idx (transp a b k).
Proof.
  intros Ha Hb. unfold at_. rewrite !nth_lookup, swap_lookup by assumption.
  reflexivity.
Qed.

Lemma zip_swap {A B} (l : list A) (k : list B) a b :
  length l = length k -> (a < length l)%nat -> (b < length l)%nat ->
  zip (swap l a b) (swap k a b) ≡ₚ zip l k.
Proof.
  intros Hlen Ha Hb. apply Permutation_inj. split.
  - rewrite !length_zip_with, !length_swap. reflexivity.
  - exists (transp a b). split; [apply transp_inj |]. intros i.
    rewrite !lookup_zip_with, !swap_lookup by lia. reflexivity.
Qed.

(** ** What a pass over the range [u, v) may do *)

(** [local u v idx idx']: outside [u, v) nothing has changed, and what is
    inside was inside before. *)
Definition local (u v : nat) (idx idx' : list Z) : Prop :=
  length idx' = length idx
  /\ (forall k, (k < u \/ v <= k)%nat -> at_ idx' k = at_ idx k)
  /\ (forall k, (u <= k < v)%nat ->
        exists k', (u <= k' < v)%nat /\ at_ idx' k = at_ idx k').

Lemma local_refl u v idx : local u v idx idx.
Proof. split; [reflexivity |]. split; [reflexivity | eauto]. Qed.

Lemma local_trans u v idx1 idx2 idx3 :
  local u v idx1 idx2 -> local u v idx2 idx3 -> local u v idx1 idx3.
Proof.
  intros (L1 & O1 & I1) (L2 & O2 & I2). split; [congruence |]. split.
  - intros k Hk. rewrite O2, O1 by assumption. reflexivity.
  - intros k Hk. destruct (I2 k Hk) as (k1 & H1 & E1).
    destruct (I1 k1 H1) as (k2 & H2 & E2). exists k2. split; [exact H2 | congruence].
Qed.

Lemma local_mono u v u' v' idx idx' :
  (u' <= u)%nat -> (v <= v')%nat -> local u v idx idx' -> local u' v' idx idx'.
Proof.
  intros Hu Hv (L & O & I). split; [exact L |]. split.
  - intros k Hk. apply O. lia.
  - intros k Hk. destruct (decide (u <= k < v)%nat) as [Hin | Hout].
    + destruct (I k Hin) as (k' & H' & E). exists k'. split; [lia | exact E].
    + exists k. split; [exact Hk | apply O; lia].
Qed.

Lemma local_swap u v idx a b :
  (u <= a < v)%nat -> (u <= b < v)%nat -> (v <= length idx)%nat ->
  local u v idx (swap idx a b).
Proof.
  intros Ha Hb Hv. split; [apply length_swap |]. split.
  - intros k Hk. rewrite at_swap by lia. f_equal. unfold transp.
    repeat case_decide; lia.
  - intros k Hk. exists (transp a b k). split; [| apply at_swap; lia].
    unfold transp. repeat case_decide; lia.
Qed.

Section Sorting.

Context {W : Type}.

(** [moved u v idx row idx' row']: the column indices have changed inside
    [u, v) only, and the weights have moved with them. *)
Definition moved (u v : nat) (idx : list Z) (row : list W)
           (idx' : list Z) (row' : list W) : Prop :=
  local u v idx idx'
  /\ length row' = length row
  /\ zip idx' row' ≡ₚ zip idx row.

Lemma moved_refl u v idx row : moved u v idx row idx row.
Proof. split; [apply local_refl | split; reflexivity]. Qed.

Lemma moved_trans u v idx1 row1 idx2 row2 idx3 row3 :
  moved u v idx1 row1 idx2 row2 -> moved u v idx2 row2 idx3 row3 ->
  moved u v idx1 row1 idx3 row3.
Proof.
  intros (L1 & R1 & P1) (L2 & R2 & P2).
  split; [eapply local_trans; eassumption |]. split; [congruence |].
  now rewrite P2.
Qed.

Lemma moved_mono u v u' v' idx row idx' row' :
  (u' <= u)%nat -> (v <= v')%nat ->
  moved u v idx row idx' row' -> moved u' v' idx row idx' row'.
Proof.
  intros Hu Hv (L & R & P). split; [| now split].
  eapply local_mono; eassumption.
Qed.

Lemma moved_swap u v idx row a b :
  length idx = length row ->
  (u <= a < v)%nat -> (u <= b < v)%nat -> (v <= length idx)%nat ->
  moved u v idx row (swap idx a b) (swap row a b).
Proof.
  intros Hlen Ha Hb Hv. split; [now apply local_swap |].
  split; [apply length_swap |]. apply zip_swap; lia.
Qed.

Lemma moved_length u v idx row idx' row' :
  length idx = length row -> moved u v idx row idx' row' ->
  length idx' = length row' /\ length idx' = length idx.
Proof. intros Hlen ((L & _) & R & _). split; congruence. Qed.

(** The column indices of [u, v) ascend. *)
Definition sorted_on (u v : nat) (idx : list Z) : Prop :=
  forall i j, (u <= i)%nat -> (i < j)%nat -> (j < v)%nat ->
    at_ idx i <= at_ idx j.

Definition min_step (idx : list Z) (st : nat * Z) (a : nat) : nat * Z :=
  if at_ idx a <? snd st then (a, at_ idx a) else st.

Lemma find_min_fold idx u n :
  let st := fold_left (min_step idx) (seq (S u) n) (u, at_ idx u) in
  (u <= fst st < S u + n)%nat
  /\ snd st = at_ idx (fst st)
  /\ forall k, (u <= k < S u + n)%nat -> snd st <= at_ idx k.
Proof.
  induction n as [| n IH]; cbv zeta in *.
  - simpl. split; [lia |]. split; [reflexivity |]. intros k Hk.
    replace k with u by lia. lia.
  - rewrite seq_S, fold_left_app.
    destruct IH as (B & E & M).
    set (st := fold_left (min_step idx) (seq (S u) n) (u, at_ idx u)) in *.
    cbn [fold_left]. unfold min_step. cbn [Nat.add] in *.
    destruct (Z.ltb_spec (at_ idx (S (u + n))) (snd st)) as [Hlt | Hge]; simpl.
    + split; [lia |]. split; [reflexivity |]. intros k Hk.
      destruct (decide (k = S (u + n))) as [-> | Hne]; [lia |].
      specialize (M k ltac:(lia)). lia.
    + split; [lia |]. split; [exact E |]. intros k Hk.
      destruct (decide (k = S (u + n))) as [-> | Hne]; [lia |].
      apply M. lia.
Qed.

Lemma find_min_spec idx u v :
  (u < v)%nat ->
  (u <= find_min idx u v < v)%nat
  /\ forall k, (u <= k < v)%nat -> at_ idx (find_min idx u v) <= at_ idx k.
Proof.
  intros Huv. destruct (find_min_fold idx u (v - S u)) as (B & E & M).
  unfold find_min. fold (min_step idx). split; [lia |].
  intros k Hk. rewrite <- E. apply M. lia.
Qed.

Lemma selection_sort_spec v n : forall u idx (row : list W) idx' row',
  S (u + n) = v -> (v <= length idx)%nat -> length idx = length row ->
  selection_sort n u v idx row = (idx', row') ->
  moved u v idx row idx' row' /\ sorted_on u v idx'.
Proof.
  induction n as [| n IH]; intros u idx row idx' row' Hv Hlen Hrow; simpl.
  - intros [= <- <-]. split; [apply moved_refl |]. intros i j. lia.
  - intros Hsel.
    destruct (find_min_spec idx u v ltac:(lia)) as (Hp & Hmin).
    set (p := find_min idx u v) in *.
    assert (M1 : moved u v idx row (swap idx u p) (swap row u p))
      by (apply moved_swap; lia).
    destruct (moved_length _ _ _ _ _ _ Hrow M1) as [Hrow1 Hlen1].
    destruct (IH (S u) (swap idx u p) (swap row u p) idx' row'
                ltac:(lia) ltac:(lia) Hrow1 Hsel) as (M2 & S2).
    split.
    + eapply moved_trans; [exact M1 |].
      eapply moved_mono; [| | exact M2]; lia.
    + destruct M2 as ((_ & O2 & I2) & _).
      assert (Hu : at_ idx' u = at_ idx p).
      { rewrite O2 by lia. rewrite at_swap by lia. f_equal.
        unfold transp. repeat case_decide; lia. }
      intros i j Hi Hij Hj. destruct (decide (i = u)) as [-> | Hne].
      * rewrite Hu. destruct (I2 j ltac:(lia)) as (k & Hk & ->).
        rewrite at_swap by lia. apply Hmin.
        unfold transp. repeat case_decide; lia.
      * apply S2; lia.
Qed.

Lemma median_of_three_cases idx a b c :
  median_of_three idx a b c = a \/ median_of_three idx a b c = b
  \/ median_of_three idx a b c = c.
Proof.
  unfold median_of_three.
  destruct (at_ idx a <? at_ idx b); destruct (at_ idx _ <? at_ idx c);
    destruct (at_ idx _ <? at_ idx _); auto.
Qed.

Definition part_step (pval : Z) (st : nat * list Z * list W) (b : nat)
  : nat * list Z * list W :=
  let '(a, idx, row) := st in
  if at_ idx b <=? pval then (S a, swap idx a b, swap row a b) else st.

Lemma partition_fold pval u n : forall idx (row : list W) a idx' row',
  length idx = length row -> (u + n <= length idx)%nat ->
  fold_left (part_step pval) (seq u n) (u, idx, row) = (a, idx', row') ->
  (u <= a <= u + n)%nat
  /\ moved u (u + n) idx row idx' row'
  /\ (forall k, (u <= k < a)%nat -> at_ idx' k <= pval)
  /\ (forall k, (a <= k < u + n)%nat -> pval < at_ idx' k).
Proof.
  induction n as [| n IH]; intros idx row a idx' row' Hrow Hlen.
  - simpl. intros [= <- <- <-]. split; [lia |]. split; [apply moved_refl |].
    split; intros k Hk; lia.
  - rewrite seq_S, fold_left_app.
    destruct (fold_left (part_step pval) (seq u n) (u, idx, row))
      as [[a1 idx1] row1] eqn:E1.
    destruct (IH idx row a1 idx1 row1 Hrow ltac:(lia) E1) as (Ha & M1 & Lo & Hi).
    destruct (moved_length _ _ _ _ _ _ Hrow M1) as [Hrow1 Hlen1].
    cbn [fold_left part_step].
    destruct (Z.leb_spec (at_ idx1 (u + n)) pval) as [Hle | Hgt].
    + intros [= <- <- <-]. split; [lia |]. split; [| split].
      * eapply moved_trans; [eapply moved_mono; [| | exact M1]; lia |].
        apply moved_swap; lia.
      * intros k Hk. rewrite at_swap by lia. unfold transp.
        repeat case_decide; subst; try lia. apply Lo. lia.
      * intros k Hk. rewrite at_swap by lia. unfold transp.
        repeat case_decide; subst; try lia; apply Hi; lia.
    + intros [= <- <- <-]. split; [lia |]. split; [| split].
      * eapply moved_mono; [| | exact M1]; lia.
      * exact Lo.
      * intros k Hk. destruct (decide (k = u + n)%nat) as [-> | Hne]; [lia |].
        apply Hi. lia.
Qed.

(** One turn of the loop of [sortrow] on the range [u, v): the range is
    sorted, or it is split around a pivot at [a]. *)
Lemma sortrow_step_spec u v s idx (row : list W) s' idx' row' :
  (u <= v <= length idx)%nat -> length idx = length row ->
  sortrow_step (u, v) s idx row = (s', idx', row') ->
  moved u v idx row idx' row'
  /\ ((s' = s /\ sorted_on u v idx')
      \/ exists a, (u <= a < v)%nat
           /\ s' = (S a, v) :: (u, a) :: s
           /\ (forall k, (u <= k < a)%nat -> at_ idx' k <= at_ idx' a)
           /\ (forall k, (a < k < v)%nat -> at_ idx' a < at_ idx' k)).
Proof.
  intros Huv Hrow. unfold sortrow_step.
  destruct (Nat.eqb_spec u v) as [-> | Hne].
  - intros [= <- <- <-]. split; [apply moved_refl |]. left.
    split; [reflexivity |]. intros i j. lia.
  - destruct (Nat.ltb_spec (v - u) 7) as [Hsmall | Hbig].
    + destruct (selection_sort (v - 1 - u) u v idx row) as [idx1 row1] eqn:E.
      intros [= <- <- <-].
      destruct (selection_sort_spec v (v - 1 - u) u idx row idx1 row1
                  ltac:(lia) ltac:(lia) Hrow E) as (M & S).
      split; [exact M |]. left. split; [reflexivity | exact S].
    + set (p := median_of_three idx u (u + (v - u) / 2) (v - 1)).
      assert (Hp : (u <= p < v)%nat).
      { pose proof (Nat.div_lt (v - u) 2 ltac:(lia) ltac:(lia)).
        destruct (median_of_three_cases idx u (u + (v - u) / 2) (v - 1))
          as [E | [E | E]]; fold p in E; rewrite E; lia. }
      assert (M1 : moved u v idx row (swap idx p (v - 1)) (swap row p (v - 1)))
        by (apply moved_swap; lia).
      destruct (moved_length _ _ _ _ _ _ Hrow M1) as [Hrow1 Hlen1].
      set (idx1 := swap idx p (v - 1)) in *.
      set (row1 := swap row p (v - 1)) in *.
      assert (Hpv : at_ idx1 (v - 1) = at_ idx p).
      { unfold idx1. rewrite at_swap by lia. f_equal. unfold transp.
        repeat case_decide; lia. }
      unfold partition_loop. fold (part_step (at_ idx p)).
      destruct (fold_left (part_step (at_ idx p)) (seq u (v - 1 - u))
                          (u, idx1, row1)) as [[a idx2] row2] eqn:E.
      destruct (partition_fold (at_ idx p) u (v - 1 - u) idx1 row1 a idx2 row2
                  Hrow1 ltac:(lia) E)
        as (Ha & M2 & Lo & Hi).
      replace (u + (v - 1 - u))%nat with (v - 1)%nat in * by lia.
      destruct (moved_length _ _ _ _ _ _ Hrow1 M2) as [Hrow2 Hlen2].
      assert (Hpv2 : at_ idx2 (v - 1) = at_ idx p).
      { destruct M2 as ((_ & O & _) & _). rewrite O by lia. exact Hpv. }
      intros [= <- <- <-]. split.
      * eapply moved_trans; [exact M1 |].
        eapply moved_trans; [eapply moved_mono; [| | exact M2]; lia |].
        apply moved_swap; lia.
      * right. exists a. split; [lia |]. split; [reflexivity |].
        assert (Hat : at_ (swap idx2 a (v - 1)) a = at_ idx p).
        { rewrite at_swap by lia. rewrite <- Hpv2. f_equal. unfold transp.
          repeat case_decide; lia. }
        rewrite Hat. split.
        -- intros k Hk. rewrite at_swap by lia. unfold transp.
           repeat case_decide; subst; try lia. apply Lo. lia.
        -- intros k Hk. rewrite at_swap by lia. unfold transp.
           repeat case_decide; subst; try lia; apply Hi; lia.
Qed.

(** ** The stack of ranges *)

(** The ranges of the stack lie inside the row and do not overlap. *)
Fixpoint ranges_ok (m : nat) (s : list (nat * nat)) : Prop :=
  match s with
  | [] => True
  | r :: s =>
      (fst r <= snd r <= m)%nat
      /\ Forall (fun r' => (snd r <= fst r' \/ snd r' <= fst r)%nat) s
      /\ ranges_ok m s
  end.

(** The turns of the loop a stack can still take. *)
Fixpoint ranges_cost (s : list (nat * nat)) : nat :=
  match s with
  | [] => O
  | r :: s => (2 * (snd r - fst r) + 1 + ranges_cost s)%nat
  end.

(** Both positions lie in one range that is still to be sorted. *)
Definition pending (s : list (nat * nat)) (i j : nat) : Prop :=
  exists r, r ∈ s /\ (fst r <= i)%nat /\ (j < snd r)%nat.

(** The invariant of the loop: two positions are in order, or still
    pending together. *)
Definition ordered (m : nat) (s : list (nat * nat)) (idx : list Z) : Prop :=
  forall i j, (i < j)%nat -> (j < m)%nat ->
    at_ idx i <= at_ idx j \/ pending s i j.

Lemma ordered_step m u v s news idx idx' :
  (v <= m)%nat ->
  Forall (fun r' => (v <= fst r' \/ snd r' <= u)%nat) s ->
  ordered m ((u, v) :: s) idx ->
  local u v idx idx' ->
  (forall i j, (u <= i)%nat -> (i < j)%nat -> (j < v)%nat ->
     at_ idx' i <= at_ idx' j \/ pending news i j) ->
  ordered m (news ++ s) idx'.
Proof.
  intros Hv Hdis Hord (_ & Out & In) Hin i j Hij Hj.
  assert (Hup : forall a b, pending s a b -> pending (news ++ s) a b).
  { intros a b (r & Hr & H). exists r. split; [| exact H].
    apply elem_of_app. now right. }
  assert (Hcross : forall a b, (a < b)%nat -> (b < m)%nat ->
            ~ (u <= a /\ b < v)%nat ->
            at_ idx a <= at_ idx b
            \/ exists r, r ∈ s /\ (fst r <= a)%nat /\ (b < snd r)%nat).
  { intros a b Hab Hb Hno. destruct (Hord a b Hab Hb) as [H | (r & Hr & H)];
      [now left |]. right. exists r. split; [| exact H].
    apply elem_of_cons in Hr as [-> | Hr]; [| exact Hr].
    exfalso. simpl in H. lia. }
  destruct (decide (u <= i < v)%nat) as [Ii | Io],
           (decide (u <= j < v)%nat) as [Ji | Jo].
  - destruct (Hin i j ltac:(lia) Hij ltac:(lia)) as [H | (r & Hr & H)];
      [now left |].
    right. exists r. split; [| exact H]. apply elem_of_app. now left.
  - destruct (In i Ii) as (i' & Hi' & ->). rewrite (Out j) by lia.
    destruct (Hcross i' j ltac:(lia) Hj ltac:(lia)) as [H | (r & Hr & H)];
      [now left |].
    exfalso. eapply Forall_forall in Hdis; [| exact Hr]. simpl in Hdis. lia.
  - destruct (In j Ji) as (j' & Hj' & ->). rewrite (Out i) by lia.
    destruct (Hcross i j' ltac:(lia) ltac:(lia) ltac:(lia))
      as [H | (r & Hr & H)]; [now left |].
    exfalso. eapply Forall_forall in Hdis; [| exact Hr]. simpl in Hdis. lia.
  - rewrite (Out i), (Out j) by lia.
    destruct (Hcross i j Hij Hj ltac:(lia)) as [H | H]; [now left |].
    right. apply Hup. exact H.
Qed.

Lemma sortrow_loop_spec fuel : forall s idx (row : list W),
  length idx = length row ->
  ranges_ok (length idx) s -> ordered (length idx) s idx ->
  (ranges_cost s <= fuel)%nat ->
  exists idx' row',
    sortrow_loop fuel s idx row = Some (idx', row')
    /\ sorted_on 0 (length idx') idx'
    /\ length idx' = length idx /\ length row' = length row
    /\ zip idx' row' ≡ₚ zip idx row.
Proof.
  induction fuel as [| fuel IH]; intros s idx row Hrow Hok Hord Hcost.
  - destruct s as [| r s]; [| simpl in Hcost; lia].
    exists idx, row. split; [reflexivity |]. split; [| now repeat split].
    intros i j _ Hij Hj. destruct (Hord i j Hij Hj) as [H | (r & Hr & _)];
      [exact H | now apply elem_of_nil in Hr].
  - destruct s as [| [u v] s].
    { exists idx, row. split; [reflexivity |]. split; [| now repeat split].
      intros i j _ Hij Hj. destruct (Hord i j Hij Hj) as [H | (r & Hr & _)];
        [exact H | now apply elem_of_nil in Hr]. }
    cbn [sortrow_loop]. cbn [ranges_ok fst snd] in Hok.
    destruct Hok as (Huv & Hdis & Hok). cbn [ranges_cost fst snd] in Hcost.
    destruct (sortrow_step (u, v) s idx row) as [[s1 idx1] row1] eqn:E.
    destruct (sortrow_step_spec u v s idx row s1 idx1 row1 Huv Hrow E)
      as (M & Hcase).
    destruct (moved_length _ _ _ _ _ _ Hrow M) as [Hrow1 Hlen1].
    destruct M as (Hloc & Hr1 & Hperm).
    assert (Hnext : ranges_ok (length idx1) s1 /\ ordered (length idx1) s1 idx1
                    /\ (ranges_cost s1 <= fuel)%nat).
    { rewrite Hlen1. destruct Hcase as [[-> Hs] | (a & Ha & -> & Lo & Hi)].
      - split; [exact Hok |]. split; [| lia].
        apply (ordered_step _ u v s [] idx idx1); try assumption; [lia |].
        intros i j Hi Hij Hj. left. now apply Hs.
      - split; [| split].
        + cbn [ranges_ok fst snd]. split; [lia |]. split.
          * constructor; [simpl; lia |].
            eapply Forall_impl; [exact Hdis |]. simpl. intros r' H. lia.
          * split; [lia |]. split; [| exact Hok].
            eapply Forall_impl; [exact Hdis |]. simpl. intros r' H. lia.
        + apply (ordered_step _ u v s [(S a, v); (u, a)] idx idx1);
            try assumption; [lia |].
          intros i j Hu Hij Hj.
          destruct (decide (j < a)%nat) as [Hja | Hja].
          { right. exists (u, a). split; [| simpl; lia].
            apply elem_of_cons. right. apply elem_of_cons. now left. }
          destruct (decide (a < i)%nat) as [Hai | Hai].
          { right. exists (S a, v). split; [| simpl; lia].
            apply elem_of_cons. now left. }
          left. destruct (decide (i = a)) as [-> | Hia].
          * specialize (Hi j ltac:(lia)). lia.
          * specialize (Lo i ltac:(lia)).
            destruct (decide (j = a)) as [-> | Hja']; [exact Lo |].
            specialize (Hi j ltac:(lia)). lia.
        + cbn [ranges_cost fst snd]. lia. }
    destruct Hnext as (Hok1 & Hord1 & Hcost1).
    destruct (IH s1 idx1 row1 Hrow1 Hok1 Hord1 Hcost1)
      as (idx' & row' & F & Hs & L1 & L2 & P).
    exists idx', row'. split; [exact F |]. split; [exact Hs |].
    split; [congruence |]. split; [congruence |]. now rewrite P.
Qed.

(** [sortrow] ends, sorts the column indices and moves each weight with
    its column index. *)
Lemma sortrow_spec idx (row : list W) :
  length idx = length row ->
  exists idx' row',
    sortrow idx row = Some (idx', row')
    /\ sorted_on 0 (length idx') idx'
    /\ length idx' = length idx /\ length row' = length row
    /\ zip idx' row' ≡ₚ zip idx row.
Proof.
  intros Hrow. unfold sortrow. destruct (Nat.eqb_spec (length idx) 0) as [E | E].
  - exists idx, row. split; [reflexivity |]. split; [| now repeat split].
    intros i j. lia.
  - apply sortrow_loop_spec; [exact Hrow | | |].
    + simpl. split; [lia |]. split; [constructor | exact I].
    + intros i j Hij Hj. right. exists (O, length idx).
      split; [apply list_elem_of_singleton; reflexivity | simpl; lia].
    + simpl. lia.
Qed.

End Sorting.

Lemma sorted_on_StronglySorted idx :
  sorted_on 0 (length idx) idx -> StronglySorted Z.le idx.
Proof.
  induction idx as [| x idx IH]; intros H; constructor.
  - apply IH. intros i j _ Hij Hj.
    apply (H (S i) (S j)); simpl in *; lia.
  - apply Forall_forall. intros y Hy.
    apply list_elem_of_lookup_1 in Hy as [k Hk].
    specialize (H O (S k) ltac:(lia) ltac:(lia)).
    unfold at_ in H. simpl in H. rewrite (nth_lookup_Some _ _ _ _ Hk) in H.
    apply H. apply lookup_lt_Some in Hk. lia.
Qed.

(** ** The columns *)

(** The new index of column [c]: the number of distinct columns in use
    that are less than [c]. *)
Definition rank (js : list Z) (c : Z) : Z :=
  Z.of_nat (length (filter (fun x => x < c) (remove_dups js))).

(** The mark of column [c] in [newidx] after "Mark observed columns". *)
Definition marked (js : list Z) (c : nat) : Z :=
  if decide (Z.of_nat c ∈ js) then 1 else 0.

Lemma filter_length_succ (l : list Z) c :
  NoDup l ->
  length (filter (fun x : Z => x < c + 1) l)
  = (length (filter (fun x : Z => (x < c)%Z) l)
     + if decide (c ∈ l) then 1 else 0)%nat.
Proof.
  induction 1 as [| x l Hx Hnd IH]; [reflexivity |].
  rewrite !filter_cons.
  destruct (decide (x < c + 1)) as [H1 | H1], (decide (x < c)) as [H2 | H2];
    try lia; simpl; rewrite IH.
  - destruct (decide (c ∈ l)) as [Hc | Hc], (decide (c ∈ x :: l)) as [Hc' | Hc'];
      try lia.
    + exfalso. apply Hc', elem_of_cons. now right.
    + apply elem_of_cons in Hc' as [-> | Hc']; [lia | contradiction].
  - assert (x = c) as -> by lia.
    destruct (decide (c ∈ l)) as [Hc | Hc]; [contradiction |].
    destruct (decide (c ∈ c :: l)) as [Hc' | Hc']; [lia |].
    exfalso. apply Hc', elem_of_cons. now left.
  - destruct (decide (c ∈ l)) as [Hc | Hc], (decide (c ∈ x :: l)) as [Hc' | Hc'];
      try lia.
    + exfalso. apply Hc', elem_of_cons. now right.
    + apply elem_of_cons in Hc' as [-> | Hc']; [lia | contradiction].
Qed.

Lemma filter_length_mono (P Q : Z -> Prop)
      `{!forall x, Decision (P x)} `{!forall x, Decision (Q x)} (l : list Z) :
  (forall x, x ∈ l -> P x -> Q x) ->
  (length (filter P l) <= length (filter Q l))%nat.
Proof.
  induction l as [| x l IH]; intros Himp; [reflexivity |].
  rewrite !filter_cons.
  assert (IH' : (length (filter P l) <= length (filter Q l))%nat)
    by (apply IH; intros y Hy; apply Himp, elem_of_cons; now right).
  destruct (decide (P x)) as [HP | HP], (decide (Q x)) as [HQ | HQ];
    simpl; try lia.
  exfalso. apply HQ, Himp; [apply elem_of_cons; now left | exact HP].
Qed.

Lemma filter_length_le (P : Z -> Prop) `{!forall x, Decision (P x)} (l : list Z) :
  (length (filter P l) <= length l)%nat.
Proof.
  induction l as [| x l IH]; [reflexivity |].
  rewrite filter_cons. destruct (decide (P x)); simpl; lia.
Qed.

Lemma filter_length_all (P : Z -> Prop) `{!forall x, Decision (P x)} (l : list Z) :
  Forall P l -> length (filter P l) = length l.
Proof.
  induction 1 as [| x l Hx _ IH]; [reflexivity |].
  rewrite filter_cons. destruct (decide (P x)); [simpl; lia | contradiction].
Qed.

Lemma filter_length_none (P : Z -> Prop) `{!forall x, Decision (P x)} (l : list Z) :
  Forall (fun x => ~ P x) l -> length (filter P l) = O.
Proof.
  induction 1 as [| x l Hx _ IH]; [reflexivity |].
  rewrite filter_cons. destruct (decide (P x)); [contradiction | exact IH].
Qed.

Lemma rank_succ js c :
  rank js (c + 1) = rank js c + (if decide (c ∈ js) then 1 else 0).
Proof.
  unfold rank. rewrite filter_length_succ by apply NoDup_remove_dups.
  destruct (decide (c ∈ remove_dups js)) as [H | H],
           (decide (c ∈ js)) as [H' | H'];
    rewrite elem_of_remove_dups in H; try contradiction; lia.
Qed.

Lemma rank_mono js c c' : c <= c' -> rank js c <= rank js c'.
Proof.
  intros H. unfold rank. apply inj_le, filter_length_mono. intros x _. lia.
Qed.

Lemma rank_zero js : Forall (fun j => 0 <= j) js -> rank js 0 = 0.
Proof.
  intros H. unfold rank. rewrite filter_length_none; [reflexivity |].
  apply Forall_forall. intros x Hx. rewrite elem_of_remove_dups in Hx.
  eapply Forall_forall in H; [| exact Hx]. simpl in H. lia.
Qed.

Lemma rank_total js c :
  Forall (fun j => j < c) js -> rank js c = Z.of_nat (length (remove_dups js)).
Proof.
  intros H. unfold rank. rewrite filter_length_all; [reflexivity |].
  apply Forall_forall. intros x Hx. rewrite elem_of_remove_dups in Hx.
  eapply Forall_forall in H; [| exact Hx]. exact H.
Qed.

Lemma rank_bound js c : 0 <= rank js c <= Z.of_nat (length (remove_dups js)).
Proof.
  unfold rank. split; [lia |]. apply inj_le, filter_length_le.
Qed.

Lemma rank_le js (c : nat) :
  Forall (fun j => 0 <= j) js -> rank js (Z.of_nat c) <= Z.of_nat c.
Proof.
  intros H. induction c as [| c IH].
  - simpl. rewrite rank_zero by exact H. lia.
  - rewrite Nat2Z.inj_succ, <- Z.add_1_r, rank_succ.
    destruct (decide (Z.of_nat c ∈ js)); lia.
Qed.

(** Used columns keep their order. *)
Lemma rank_lt js c1 c2 : c1 ∈ js -> c1 < c2 -> rank js c1 < rank js c2.
Proof.
  intros H1 Hlt. pose proof (rank_succ js c1) as Hs.
  destruct (decide (c1 ∈ js)); [| contradiction].
  pose proof (rank_mono js (c1 + 1) c2 ltac:(lia)). lia.
Qed.

(** Every new index below the number of used columns is taken. *)
Lemma rank_onto js (n : nat) :
  Forall (fun j => 0 <= j) js ->
  forall k, 0 <= k < rank js (Z.of_nat n) ->
    exists c, c ∈ js /\ 0 <= c < Z.of_nat n /\ rank js c = k.
Proof.
  intros Hpos. induction n as [| n IH]; intros k Hk.
  - simpl in Hk. rewrite rank_zero in Hk by exact Hpos. lia.
  - rewrite Nat2Z.inj_succ, <- Z.add_1_r, rank_succ in Hk.
    destruct (decide (k < rank js (Z.of_nat n))) as [Hlt | Hge].
    + destruct (IH k ltac:(lia)) as (c & Hc & Hr & E).
      exists c. split; [exact Hc |]. split; [lia | exact E].
    + destruct (decide (Z.of_nat n ∈ js)) as [Hin | Hout]; [| lia].
      exists (Z.of_nat n). split; [exact Hin |]. split; lia.
Qed.

Lemma rank_ext js js' c :
  (forall x, x ∈ js <-> x ∈ js') -> rank js c = rank js' c.
Proof.
  intros H. unfold rank. f_equal. apply Permutation_length.
  apply NoDup_Permutation.
  - apply NoDup_filter, NoDup_remove_dups.
  - apply NoDup_filter, NoDup_remove_dups.
  - intros x. rewrite !list_elem_of_filter, !elem_of_remove_dups, H. reflexivity.
Qed.

Lemma remove_dups_length_ext (js js' : list Z) :
  (forall x, x ∈ js <-> x ∈ js') ->
  length (remove_dups js) = length (remove_dups js').
Proof.
  intros H. apply Permutation_length, NoDup_Permutation.
  - apply NoDup_remove_dups.
  - apply NoDup_remove_dups.
  - intros x. rewrite !elem_of_remove_dups. apply H.
Qed.

(** The columns a program can push without [ncol] wrapping around. *)
Definition column_ok (j : Z) : Prop := 0 <= j < uint_mod - 1.

Lemma scan_ncol_spec js :
  Forall column_ok js ->
  0 <= scan_ncol js < uint_mod
  /\ Forall (fun j => j < scan_ncol js) js
  /\ (js <> [] -> scan_ncol js - 1 ∈ js).
Proof.
  unfold scan_ncol. induction js as [| j js IH] using rev_ind; intros H.
  - simpl. unfold uint_mod. split; [lia |]. split; [constructor | congruence].
  - apply Forall_app in H as [Hjs Hj]. rewrite Forall_singleton in Hj.
    destruct (IH Hjs) as (B & U & M). rewrite foldl_app. cbn [foldl].
    set (n := foldl _ 0 js) in *. unfold column_ok, uint_mod in *.
    destruct (Z.leb_spec n j) as [Hle | Hgt].
    + unfold wrap32, uint_mod. rewrite Z.mod_small by lia. split; [lia |]. split.
      * apply Forall_app. split; [| apply Forall_singleton; lia].
        eapply Forall_impl; [exact U |]. simpl. lia.
      * intros _. replace (j + 1 - 1) with j by lia.
        apply elem_of_app. right. apply list_elem_of_singleton. reflexivity.
    + split; [lia |]. split.
      * apply Forall_app. split; [exact U | apply Forall_singleton; lia].
      * intros _. apply elem_of_app. left. apply M. intros ->.
        simpl in n. lia.
Qed.

Lemma mark_columns_spec (N : nat) js :
  Forall (fun j => 0 <= j < Z.of_nat N) js ->
  mark_columns (replicate N 0) js = Some (marked js <$> seq 0 N).
Proof.
  unfold mark_columns. induction js as [| j js IH] using rev_ind; intros H.
  - simpl. f_equal. apply list_eq. intros i.
    rewrite list_lookup_fmap. destruct (decide (i < N)%nat) as [Hi | Hi].
    + rewrite lookup_replicate_2, lookup_seq_lt by lia. simpl.
      unfold marked. destruct (decide (Z.of_nat i ∈ [])) as [Hin | _];
        [now apply elem_of_nil in Hin | reflexivity].
    + rewrite (proj1 (lookup_replicate_None N 0 i)), lookup_seq_ge by lia.
      reflexivity.
  - apply Forall_app in H as [Hjs Hj]. rewrite Forall_singleton in Hj.
    rewrite foldl_app, (IH Hjs). cbn [foldl mbind option_bind].
    rewrite length_fmap, length_seq.
    destruct (Z.leb_spec 0 j) as [_ |]; [| lia].
    destruct (Z.ltb_spec j (Z.of_nat N)) as [_ |]; [| lia].
    cbn [andb]. f_equal. apply list_eq. intros i.
    destruct (decide (i = Z.to_nat j)) as [-> | Hne].
    + rewrite list_lookup_insert_eq by (rewrite length_fmap, length_seq; lia).
      rewrite list_lookup_fmap, lookup_seq_lt by lia. simpl. unfold marked.
      destruct (decide (Z.of_nat (Z.to_nat j) ∈ js ++ [j])) as [_ | Hno];
        [reflexivity |].
      exfalso. apply Hno, elem_of_app. right. apply list_elem_of_singleton. lia.
    + rewrite list_lookup_insert_ne by congruence.
      rewrite !list_lookup_fmap. destruct (seq 0 N !! i) as [c |] eqn:E;
        [| reflexivity].
      apply lookup_seq in E as [-> _]. simpl. unfold marked. f_equal.
      destruct (decide (Z.of_nat i ∈ js)) as [H1 | H1],
               (decide (Z.of_nat i ∈ js ++ [j])) as [H2 | H2];
        try reflexivity; exfalso.
      * apply H2, elem_of_app. now left.
      * apply elem_of_app in H2 as [H2 | H2]; [contradiction |].
        apply list_elem_of_singleton in H2. lia.
Qed.

Lemma renumber_spec js :
  Forall (fun j => 0 <= j) js ->
  forall n s j,
    j = rank js (Z.of_nat s) -> Z.of_nat (s + n) < uint_mod ->
    renumber (marked js <$> seq s n) j
    = (fun c => rank js (Z.of_nat c)) <$> seq s n.
Proof.
  intros Hpos. induction n as [| n IH]; intros s j Hj Hn; [reflexivity |].
  cbn [seq fmap list_fmap renumber]. pose proof (rank_le js s Hpos) as Hle.
  pose proof (rank_bound js (Z.of_nat s)) as [H0 _].
  pose proof (rank_succ js (Z.of_nat s)) as Hs.
  replace (Z.of_nat s + 1) with (Z.of_nat (S s)) in Hs by lia.
  unfold marked at 1. unfold marked in Hs.
  destruct (decide (Z.of_nat s ∈ js)) as [Hin | Hout]; simpl.
  - f_equal; [exact Hj |]. apply IH; [| lia].
    unfold wrap32. rewrite Z.mod_small by lia. lia.
  - f_equal; [exact Hj |]. apply IH; lia.
Qed.

(** ** The matrix *)

Section Matrix.

Context {W : Type}.

(** The arrays of a matrix: one pair per row, of equal lengths. *)
Definition wf (m : t W) : Prop :=
  length (idxs m) = Z.to_nat (nrow m)
  /\ Forall2 (fun idx row => length idx = length row) (idxs m) (rows m).

(** The entries of the rows [irs], the first of which is row [k]. *)
Fixpoint entries_from (k : nat) (irs : list (list Z * list W))
  : list (Z * Z * W) :=
  match irs with
  | [] => []
  | ir :: irs => row_entries k (fst ir) (snd ir) ++ entries_from (S k) irs
  end.

Lemma entries_from_imap (irs : list (list Z * list W)) : forall k,
  concat (imap (fun i ir => row_entries (k + i) (fst ir) (snd ir)) irs)
  = entries_from k irs.
Proof.
  induction irs as [| ir irs IH]; intros k; [reflexivity |].
  cbn [imap concat entries_from]. rewrite Nat.add_0_r. f_equal.
  rewrite <- IH. f_equal. apply imap_ext. intros i x _. simpl.
  now rewrite Nat.add_succ_r.
Qed.

Lemma entries_eq (m : t W) :
  entries m = entries_from 0 (zip (idxs m) (rows m)).
Proof. unfold entries. now rewrite <- entries_from_imap. Qed.

Lemma row_entries_snoc k idx (row : list W) j w :
  length idx = length row ->
  row_entries k (idx ++ [j]) (row ++ [w])
  = row_entries k idx row ++ [(Z.of_nat k, j, w)].
Proof.
  intros H. unfold row_entries. rewrite zip_with_app by exact H.
  now rewrite map_app.
Qed.

Lemma entries_from_push (idxs0 : list (list Z)) (rows0 : list (list W)) j w :
  Forall2 (fun idx row => length idx = length row) idxs0 rows0 ->
  forall k r, (r < length idxs0)%nat ->
    entries_from k (zip (alter (fun x => x ++ [j]) r idxs0)
                        (alter (fun x => x ++ [w]) r rows0))
    ≡ₚ (Z.of_nat (k + r), j, w) :: entries_from k (zip idxs0 rows0).
Proof.
  induction 1 as [| idx row idxs0 rows0 Hlen _ IH]; intros k r Hr;
    [simpl in Hr; lia |].
  destruct r as [| r]; cbn [alter list_alter zip zip_with entries_from fst snd].
  - rewrite row_entries_snoc by exact Hlen. rewrite Nat.add_0_r.
    rewrite <- app_assoc. simpl. symmetry. apply Permutation_middle.
  - fold (zip (alter (fun x => x ++ [j]) r idxs0)
              (alter (fun x => x ++ [w]) r rows0)).
    fold (zip idxs0 rows0).
    rewrite (IH (S k) r) by (simpl in Hr; lia).
    replace (S k + r)%nat with (k + S r)%nat by lia.
    symmetry. apply Permutation_middle.
Qed.

Lemma push_spec (m : t W) i j w :
  wf m -> 0 <= i < nrow m ->
  exists m',
    push m i j w = Some m'
    /\ wf m' /\ nrow m' = nrow m
    /\ entries m' ≡ₚ (i, j, w) :: entries m.
Proof.
  intros [Hn Hlen] Hi. unfold push.
  destruct (Z.leb_spec 0 i) as [_ |]; [| lia].
  destruct (Z.ltb_spec i (nrow m)) as [_ |]; [| lia].
  eexists. split; [reflexivity |]. split; [| split; [reflexivity |]].
  - split; simpl; [rewrite length_alter; exact Hn |].
    apply Forall2_same_length_lookup_2.
    + rewrite !length_alter. eapply Forall2_length, Hlen.
    + intros r idx row Hidx Hrow.
      destruct (decide (r = Z.to_nat i)) as [-> | Hne].
      * rewrite list_lookup_alter_eq in Hidx. rewrite list_lookup_alter_eq in Hrow.
        destruct (idxs m !! Z.to_nat i) as [idx0 |] eqn:E1; [| discriminate].
        destruct (rows m !! Z.to_nat i) as [row0 |] eqn:E2; [| discriminate].
        injection Hidx as <-. injection Hrow as <-.
        rewrite !length_app. simpl. f_equal.
        eapply Forall2_lookup_lr in Hlen; eassumption.
      * rewrite list_lookup_alter_ne in Hidx by congruence.
        rewrite list_lookup_alter_ne in Hrow by congruence.
        eapply Forall2_lookup_lr in Hlen; eassumption.
  - rewrite !entries_eq. simpl.
    rewrite entries_from_push by (try exact Hlen; lia).
    simpl. now rewrite Z2Nat.id by lia.
Qed.

Lemma push_all_spec (ps : list (Z * Z * W)) : forall m : t W,
  wf m -> Forall (fun p => 0 <= fst (fst p) < nrow m) ps ->
  exists m',
    push_all m ps = Some m'
    /\ wf m' /\ nrow m' = nrow m
    /\ entries m' ≡ₚ ps ++ entries m.
Proof.
  induction ps as [| [[i j] w] ps IH]; intros m Hwf Hall.
  - exists m. split; [reflexivity |]. split; [exact Hwf |]. split; reflexivity.
  - apply Forall_cons in Hall as [Hi Hall]. simpl in Hi.
    destruct (push_spec m i j w Hwf Hi) as (m1 & P1 & Hwf1 & N1 & E1).
    rewrite <- N1 in Hall.
    destruct (IH m1 Hwf1 Hall) as (m' & P & Hwf' & N' & E').
    exists m'. unfold push_all in *. cbn [foldl].
    change (Some m ≫= _) with (push m i j w). rewrite P1.
    split; [exact P |]. split; [exact Hwf' |]. split; [congruence |].
    rewrite E', E1. simpl. symmetry. apply Permutation_middle.
Qed.

Lemma create_wf n : 0 <= n -> wf (create n) /\ entries (create (W:=W) n) = [].
Proof.
  intros Hn. split.
  - split; simpl; [apply length_replicate |].
    apply Forall2_same_length_lookup_2; [now rewrite !length_replicate |].
    intros r idx row [-> _]%lookup_replicate [-> _]%lookup_replicate.
    reflexivity.
  - rewrite entries_eq. simpl.
    rewrite zip_with_replicate. generalize (Z.to_nat n) O.
    intros k. induction k as [| k IH]; intros r; [reflexivity |].
    simpl. apply IH.
Qed.

Lemma entries_from_columns (idxs0 : list (list Z)) (rows0 : list (list W)) :
  Forall2 (fun idx row => length idx = length row) idxs0 rows0 ->
  forall k,
    map (fun e => snd (fst e)) (entries_from k (zip idxs0 rows0))
    = concat idxs0.
Proof.
  induction 1 as [| idx row idxs0 rows0 Hlen _ IH]; intros k; [reflexivity |].
  cbn [zip zip_with entries_from fst snd concat]. rewrite map_app.
  fold (zip idxs0 rows0). rewrite IH. f_equal.
  unfold row_entries. rewrite map_map. simpl.
  apply (fmap_zip_with_l pair fst); [reflexivity | lia].
Qed.

Lemma get_newidx js (N : nat) c :
  0 <= c < Z.of_nat N ->
  get ((fun c => rank js (Z.of_nat c)) <$> seq 0 N) c = Some (rank js c).
Proof.
  intros Hc. unfold get. rewrite length_fmap, length_seq.
  destruct (Z.leb_spec 0 c) as [_ |]; [| lia].
  destruct (Z.ltb_spec c (Z.of_nat N)) as [_ |]; [| lia].
  cbn [andb]. rewrite list_lookup_fmap, lookup_seq_lt by lia.
  simpl. now rewrite Z2Nat.id by lia.
Qed.

Lemma mapM_total {A B} (f : A -> option B) (g : A -> B) (l : list A) :
  Forall (fun x => f x = Some (g x)) l -> mapM f l = Some (g <$> l).
Proof.
  intros H. apply mapM_Some_2, Forall2_fmap_r, Forall_Forall2_diag, H.
Qed.

Lemma elem_of_concat {A} (x : A) (ls : list (list A)) :
  x ∈ concat ls <-> exists l, x ∈ l /\ l ∈ ls.
Proof.
  induction ls as [| l ls IH]; simpl.
  - split; [intros H; now apply elem_of_nil in H |].
    intros (l & _ & H). now apply elem_of_nil in H.
  - rewrite elem_of_app, IH. split.
    + intros [H | (l' & H1 & H2)].
      * exists l. split; [exact H | apply elem_of_cons; now left].
      * exists l'. split; [exact H1 | apply elem_of_cons; now right].
    + intros (l' & H1 & H2). apply elem_of_cons in H2 as [-> | H2];
        [now left | right; eauto].
Qed.

Lemma remap_rows newidx (f : Z -> Z) (idxs0 : list (list Z)) :
  (forall j, j ∈ concat idxs0 -> get newidx j = Some (f j)) ->
  mapM (remap_row newidx) idxs0 = Some (map (map f) idxs0).
Proof.
  intros H. apply (mapM_total _ (map f)). apply Forall_forall. intros idx Hidx.
  apply (mapM_total _ f). apply Forall_forall. intros j Hj. apply H.
  apply elem_of_concat. eauto.
Qed.

(** What [sortrow] makes of the row [ir]. *)
Definition sorted_row (ir sr : list Z * list W) : Prop :=
  sorted_on 0 (length (fst sr)) (fst sr)
  /\ zip (fst sr) (snd sr) ≡ₚ zip (fst ir) (snd ir).

Lemma sort_rows_spec (idxs0 : list (list Z)) (rows0 : list (list W)) :
  Forall2 (fun idx row => length idx = length row) idxs0 rows0 ->
  exists sorted,
    sort_rows idxs0 rows0 = Some sorted
    /\ Forall2 sorted_row (zip idxs0 rows0) sorted.
Proof.
  intros H.
  assert (Hex : exists sorted,
            Forall2 (fun ir sr => sortrow (fst ir) (snd ir) = Some sr
                                  /\ sorted_row ir sr)
                    (zip idxs0 rows0) sorted).
  { induction H as [| idx row idxs0 rows0 Hlen _ (sorted & IH)].
    - exists []. constructor.
    - destruct (sortrow_spec idx row Hlen) as (idx' & row' & E & Hs & _ & _ & P).
      exists ((idx', row') :: sorted). constructor; [| exact IH].
      split; [exact E |]. split; [exact Hs | exact P]. }
  destruct Hex as (sorted & Hex). exists sorted. split.
  - apply mapM_Some_2. eapply Forall2_impl; [exact Hex |]. now intros ir sr [E _].
  - eapply Forall2_impl; [exact Hex |]. now intros ir sr [_ Hs].
Qed.

Lemma entries_from_sorted (irs sorted : list (list Z * list W)) :
  Forall2 sorted_row irs sorted ->
  forall k, entries_from k sorted ≡ₚ entries_from k irs.
Proof.
  induction 1 as [| ir sr irs sorted [_ P] _ IH]; intros k; [reflexivity |].
  cbn [entries_from]. apply Permutation_app; [| apply IH].
  unfold row_entries. apply Permutation_map, P.
Qed.

Lemma sorted_rows_ascend (irs sorted : list (list Z * list W)) :
  Forall2 sorted_row irs sorted ->
  Forall (StronglySorted Z.le) (map fst sorted).
Proof.
  induction 1 as [| ir sr irs sorted [Hs _] _ IH]; constructor; [| exact IH].
  now apply sorted_on_StronglySorted.
Qed.

(** Renumbering the columns of the arrays renumbers the columns of the
    entries. *)
Definition remap (f : Z -> Z) (e : Z * Z * W) : Z * Z * W :=
  (fst (fst e), f (snd (fst e)), snd e).

Lemma row_entries_remap f k idx : forall row : list W,
  row_entries k (map f idx) row = map (remap f) (row_entries k idx row).
Proof.
  induction idx as [| j idx IH]; intros [| w row]; try reflexivity.
  unfold row_entries in *. simpl. f_equal. apply IH.
Qed.

Lemma entries_from_remap f (idxs0 : list (list Z)) :
  forall (rows0 : list (list W)) k,
    entries_from k (zip (map (map f) idxs0) rows0)
    = map (remap f) (entries_from k (zip idxs0 rows0)).
Proof.
  induction idxs0 as [| idx idxs0 IH]; intros [| row rows0] k; try reflexivity.
  cbn [map zip_with entries_from fst snd].
  rewrite map_app, row_entries_remap. f_equal. apply IH.
Qed.

(** [compact] on a matrix that holds an entry, none in the last column an
    [unsigned int] can name. *)
Lemma compact_eq (m : t W) :
  wf m -> concat (idxs m) <> [] -> Forall column_ok (concat (idxs m)) ->
  exists sorted newidx,
    compact m
    = Some (Mk (nrow m) (Z.of_nat (length (remove_dups (concat (idxs m)))))
               (map snd sorted) (map fst sorted), newidx)
    /\ (forall c, c ∈ concat (idxs m) ->
          get newidx c = Some (rank (concat (idxs m)) c))
    /\ Forall2 sorted_row
               (zip (map (map (rank (concat (idxs m)))) (idxs m)) (rows m))
               sorted.
Proof.
  intros [Hn Hlen] Hne Hcols. unfold compact.
  set (js := concat (idxs m)) in *.
  destruct (scan_ncol_spec js Hcols) as (Hb & Hup & Hmax).
  specialize (Hmax Hne). set (ncol0 := scan_ncol js) in *.
  assert (Hpos : Forall (fun j => 0 <= j) js).
  { eapply Forall_impl; [exact Hcols |]. unfold column_ok. simpl. lia. }
  assert (H1 : 1 <= ncol0).
  { eapply Forall_forall in Hpos; [| exact Hmax]. simpl in Hpos. lia. }
  rewrite (mark_columns_spec (Z.to_nat ncol0) js).
  2:{ apply Forall_forall. intros j Hj.
      eapply Forall_forall in Hpos; [| exact Hj].
      eapply Forall_forall in Hup; [| exact Hj]. simpl in *. lia. }
  cbn [mbind option_bind].
  rewrite (renumber_spec js Hpos (Z.to_nat ncol0) 0 0)
    by first [now rewrite rank_zero | unfold uint_mod in *; lia].
  assert (Hget : forall c, c ∈ js ->
            get ((fun c => rank js (Z.of_nat c)) <$> seq 0 (Z.to_nat ncol0)) c
            = Some (rank js c)).
  { intros c Hc. apply get_newidx.
    eapply Forall_forall in Hpos; [| exact Hc].
    eapply Forall_forall in Hup; [| exact Hc]. simpl in *. lia. }
  replace (wrap32 (ncol0 - 1)) with (ncol0 - 1)
    by (unfold wrap32; rewrite Z.mod_small; lia).
  rewrite (Hget _ Hmax). cbn [mbind option_bind].
  rewrite (remap_rows _ (rank js)) by exact Hget. cbn [mbind option_bind].
  destruct (sort_rows_spec (map (map (rank js)) (idxs m)) (rows m))
    as (sorted & Hsort & Hrows).
  { apply Forall2_fmap_l. eapply Forall2_impl; [exact Hlen |].
    intros idx row H. simpl. now rewrite length_map. }
  rewrite Hsort. cbn [mbind option_bind].
  exists sorted, ((fun c => rank js (Z.of_nat c)) <$> seq 0 (Z.to_nat ncol0)).
  split; [| split; [exact Hget | exact Hrows]].
  do 3 f_equal.
  pose proof (rank_succ js (ncol0 - 1)) as Hs.
  destruct (decide (ncol0 - 1 ∈ js)); [| contradiction].
  replace (ncol0 - 1 + 1) with ncol0 in Hs by lia.
  rewrite (rank_total js ncol0 Hup) in Hs.
  pose proof (rank_le js (Z.to_nat ncol0) Hpos) as Hle.
  rewrite Z2Nat.id, (rank_total js ncol0 Hup) in Hle by lia.
  unfold wrap32. rewrite Z.mod_small by lia. lia.
Qed.

(** X1.  [compact] after pushes, at least one, into rows of the matrix and
    columns below [2^32 - 1]: it returns; the entries of the compacted
    matrix are the pushed triples, each once, with its row and weight and
    its column renumbered; rows and columns lie in [[0, nrow)] and
    [[0, ncol)], [ncol] being the number of distinct columns pushed; every
    row ascends in its column indices; and the returned map sends a pushed
    column to the number of pushed columns below it, which keeps the order
    of the pushed columns and takes every value below [ncol]. *)
Theorem compact_renumbers_and_sorts (n : Z) (ps : list (Z * Z * W)) :
  ps <> [] ->
  Forall (fun p => 0 <= fst (fst p) < n /\ column_ok (snd (fst p))) ps ->
  let cols := map (fun p => snd (fst p)) ps in
  exists m m' newidx,
    push_all (create n) ps = Some m
    /\ compact m = Some (m', newidx)
    /\ nrow m' = n
    /\ ncol m' = Z.of_nat (length (remove_dups cols))
    /\ entries m' ≡ₚ map (remap (rank cols)) ps
    /\ Forall (fun e => 0 <= fst (fst e) < nrow m'
                        /\ 0 <= snd (fst e) < ncol m') (entries m')
    /\ Forall (StronglySorted Z.le) (idxs m')
    /\ (forall c, c ∈ cols -> get newidx c = Some (rank cols c))
    /\ (forall c1 c2, c1 ∈ cols -> c2 ∈ cols -> c1 < c2 ->
          rank cols c1 < rank cols c2)
    /\ (forall k, 0 <= k < ncol m' -> exists c, c ∈ cols /\ rank cols c = k).
Proof.
  intros Hne Hall cols.
  assert (Hn : 0 <= n).
  { destruct ps as [| p ps]; [congruence |].
    apply Forall_cons in Hall as [[H _] _]. lia. }
  destruct (create_wf n Hn) as [Hwf0 He0].
  destruct (push_all_spec ps (create n) Hwf0) as (m & Hpush & Hwf & Hnrow & Hent).
  { eapply Forall_impl; [exact Hall |]. simpl. tauto. }
  rewrite He0, app_nil_r in Hent. simpl in Hnrow.
  assert (Hjs : concat (idxs m) ≡ₚ cols).
  { rewrite <- (entries_from_columns (idxs m) (rows m) (proj2 Hwf) 0).
    rewrite <- entries_eq. unfold cols. apply Permutation_map, Hent. }
  assert (Hmem : forall x, x ∈ concat (idxs m) <-> x ∈ cols)
    by (intros x; now rewrite Hjs).
  assert (Hcols : Forall column_ok cols).
  { unfold cols. apply Forall_forall. intros c Hc.
    apply list_elem_of_fmap in Hc as (p & -> & Hp).
    eapply Forall_forall in Hall; [| exact Hp]. apply Hall. }
  assert (Hrank : forall c, rank (concat (idxs m)) c = rank cols c)
    by (intros c; apply rank_ext, Hmem).
  destruct (compact_eq m Hwf) as (sorted & newidx & Hc & Hget & Hrows).
  { intros E. rewrite E in Hjs. apply Permutation_nil_l in Hjs.
    unfold cols in Hjs. destruct ps; [congruence | discriminate]. }
  { now rewrite Hjs. }
  rewrite (remove_dups_length_ext _ cols Hmem) in Hc.
  set (total := Z.of_nat (length (remove_dups cols))) in *.
  assert (Hin : forall c, c ∈ cols -> 0 <= rank cols c < total).
  { intros c Hcin. pose proof (rank_bound cols c).
    pose proof (rank_lt cols c (c + 1) Hcin ltac:(lia)).
    pose proof (rank_bound cols (c + 1)). unfold total. lia. }
  assert (Hents : entries (Mk (nrow m) total (map snd sorted) (map fst sorted))
                  ≡ₚ map (remap (rank cols)) ps).
  { rewrite entries_eq. cbn [idxs rows].
    replace (zip (map fst sorted) (map snd sorted)) with sorted
      by (symmetry; apply zip_fst_snd).
    rewrite (entries_from_sorted _ _ Hrows 0), entries_from_remap.
    rewrite <- entries_eq, Hent. apply Permutation_refl'.
    apply map_ext. intros e. unfold remap. now rewrite Hrank. }
  eexists m, _, newidx. split; [exact Hpush |]. split; [exact Hc |].
  split; [exact Hnrow |]. split; [reflexivity |]. split; [exact Hents |].
  split; [| split; [| split; [| split]]].
  - rewrite Hents. apply Forall_forall. intros e He.
    apply list_elem_of_fmap in He as (p & -> & Hp).
    eapply Forall_forall in Hall; [| exact Hp]. cbn [nrow ncol remap fst snd].
    split; [rewrite Hnrow; apply Hall |].
    apply Hin. unfold cols. apply list_elem_of_fmap. eauto.
  - cbn [idxs]. eapply sorted_rows_ascend, Hrows.
  - intros c Hcin. rewrite <- Hrank. apply Hget, Hmem, Hcin.
  - intros c1 c2 H1 _ Hlt. now apply rank_lt.
  - cbn [ncol]. intros k Hk.
    assert (Hpos : Forall (fun j => 0 <= j) cols).
    { eapply Forall_impl; [exact Hcols |]. unfold column_ok. simpl. lia. }
    assert (Hup : Forall (fun j => j < uint_mod) cols).
    { eapply Forall_impl; [exact Hcols |]. unfold column_ok. simpl. lia. }
    destruct (rank_onto cols (Z.to_nat uint_mod) Hpos k) as (c & Hcin & _ & E).
    + rewrite Z2Nat.id by (unfold uint_mod; lia).
      rewrite (rank_total cols uint_mod Hup). exact Hk.
    + exists c. split; [exact Hcin | exact E].
Qed.

Lemma concat_replicate_nil {A} (k : nat) : concat (replicate k (@nil A)) = [].
Proof. induction k as [| k IH]; [reflexivity | exact IH]. Qed.

(** C1.  [compact] on a matrix nothing was pushed into, the empty sequence
    of pushes: the scan leaves [ncol] at 0, [newidx] is allocated with no
    element, and [ncol = newidx[ncol - 1] + 1] reads it at [2^32 - 1],
    outside the array, where the property has [ncol = 0] for no column
    pushed. *)
Theorem compact_empty_reads_outside (n : Z) :
  push_all (create (W:=W) n) [] = Some (create n)
  /\ scan_ncol (concat (idxs (create (W:=W) n))) = 0
  /\ wrap32 (0 - 1) = 4294967295
  /\ compact (create (W:=W) n) = None.
Proof.
  split; [reflexivity |]. unfold compact. cbn [create idxs].
  rewrite concat_replicate_nil. repeat split.
Qed.

End Matrix.

(** Five pushes into two rows, on the columns 3, 7 and 9. *)
Definition example_pushes : list (Z * Z * Q) :=
  [(0, 7, (1 # 2)%Q); (1, 3, (1 # 3)%Q); (0, 3, (1 # 4)%Q);
   (1, 9, (1 # 5)%Q); (0, 9, (1 # 6)%Q)].

Example compact_example :
  push_all (create 2) example_pushes ≫= compact
  = Some (Mk 2 3 [[(1 # 4)%Q; (1 # 2)%Q; (1 # 6)%Q]; [(1 # 3)%Q; (1 # 5)%Q]]
             [[0; 1; 2]; [0; 2]],
          [0; 0; 0; 0; 1; 1; 1; 1; 2; 2]).
Proof. vm_compute. reflexivity. Qed.

(** One push into column [2^32 - 1], the bound of the theorem above: the
    scan makes [ncol] wrap around to 0, though one column is in use;
    [newidx] is allocated empty and marking the column writes outside
    it. *)
Lemma compact_last_column_wraps :
  scan_ncol [4294967295] = 0
  /\ length (remove_dups [4294967295]) = 1%nat
  /\ push_all (create 1) [(0, 4294967295, 1%Q)] ≫= compact = None.
Proof. vm_compute. repeat split. Qed.

(** The theorem at the five pushes above. *)
Lemma compact_renumbers_and_sorts_witness :
  let cols := map (fun p : Z * Z * Q => snd (fst p)) example_pushes in
  exists m m' newidx,
    push_all (create 2) example_pushes = Some m
    /\ compact m = Some (m', newidx)
    /\ ncol m' = Z.of_nat (length (remove_dups cols))
    /\ entries m' ≡ₚ map (remap (rank cols)) example_pushes
    /\ Forall (StronglySorted Z.le) (idxs m')
    /\ get newidx 7 = Some (rank cols 7).
Proof.
  intros cols.
  destruct (compact_renumbers_and_sorts 2 example_pushes)
    as (m & m' & newidx & H1 & H2 & _ & H4 & H5 & _ & H7 & H8 & _).
  - discriminate.
  - repeat constructor; unfold column_ok, uint_mod; simpl; lia.
  - exists m, m', newidx. repeat (split; [assumption |]).
    apply H8. apply elem_of_cons. now left.
Defined.

(** ** WeightMatrixIterator *)

Section Iterator.

Context {W : Type}.

(** The iterator: [owner] (the address of the matrix, [None] for
    [NULL]), the row [i], the place [k] in the row and the [entry] last
    loaded ([None] while nothing has been loaded). *)
Record iterator : Type := Iter {
  owner : option nat;
  it_i : nat;
  it_k : nat;
  entry : option (Z * Z * W)
}.

(** [owner.rowlens[i]] *)
Definition rowlens (m : t W) (i : nat) : nat := length (nth i (rows m) []).

(** [while (i < owner.nrow && k >= owner.rowlens[i]) { ++i; k = 0; }],
    which takes at most [nrow - i] turns, the [fuel]. *)
Fixpoint settle (fuel : nat) (m : t W) (i k : nat) : nat * nat :=
  match fuel with
  | O => (i, k)
  | S fuel =>
      if (Z.of_nat i <? nrow m) && (rowlens m i <=? k)%nat
      then settle fuel m (S i) 0
      else (i, k)
  end.

(** [entry.i = i; entry.j = owner.idxs[i][k]; entry.w = owner.rows[i][k]] *)
Definition load (m : t W) (i k : nat) : option (Z * Z * W) :=
  j ← nth i (idxs m) [] !! k;
  w ← nth i (rows m) [] !! k;
  Some (Z.of_nat i, j, w).

(** [WeightMatrixIterator()] leaves [i], [k] and [entry] as they are. *)
Definition default_iterator (i k : nat) : iterator := Iter None i k None.

(** [WeightMatrixIterator(owner)], for the matrix [m] at [addr]. *)
Definition begin (addr : nat) (m : t W) : iterator :=
  let '(i, k) := settle (Z.to_nat (nrow m)) m 0 0 in
  Iter (Some addr) i k (if Z.of_nat i <? nrow m then load m i k else None).

(** [increment()]; [m] is the matrix [owner] points to. *)
Definition increment (m : t W) (it : iterator) : iterator :=
  match owner it with
  | None => it
  | Some addr =>
      if nrow m <=? Z.of_nat (it_i it) then it
      else
        let '(i, k) :=
          settle (Z.to_nat (nrow m) - it_i it) m (it_i it) (S (it_k it)) in
        Iter (Some addr) i k
             (if Z.of_nat i <? nrow m then load m i k else entry it)
  end.

(** [owner == NULL || i >= owner->nrow] *)
Definition finished (m : t W) (it : iterator) : bool :=
  match owner it with
  | None => true
  | Some _ => nrow m <=? Z.of_nat (it_i it)
  end.

(** [equal(other)]; [ma] and [mb] are the matrices the two owners point
    to. *)
Definition equal (ma mb : t W) (a b : iterator) : bool :=
  if finished ma a then finished mb b
  else if finished mb b then false
  else bool_decide (owner a = owner b)
       && (it_i a =? it_i b)%nat && (it_k a =? it_k b)%nat.

(** The loop [for (it(m); it != WeightMatrixIterator(); ++it)] that
    reads the entry of [it] in every turn: the entries visited, [None] when [fuel] increments do not reach the end
    or an entry is read that was never loaded. *)
Fixpoint iterate (fuel : nat) (m : t W) (it : iterator)
  : option (list (Z * Z * W)) :=
  if equal m m it (default_iterator 0 0) then Some []
  else
    match fuel with
    | O => None
    | S fuel =>
        e ← entry it;
        rest ← iterate fuel m (increment m it);
        Some (e :: rest)
    end.

(** What is still to be visited from the place [(i, k)]. *)
Definition remaining (m : t W) (i k : nat) : list (Z * Z * W) :=
  drop k (row_entries i (nth i (idxs m) []) (nth i (rows m) []))
  ++ entries_from (S i) (drop (S i) (zip (idxs m) (rows m))).

Lemma length_row_entries i idx (row : list W) :
  length idx = length row -> length (row_entries i idx row) = length row.
Proof.
  intros H. unfold row_entries. rewrite length_map, length_zip_with. lia.
Qed.

Lemma wf_row (m : t W) i :
  wf m -> length (nth i (idxs m) []) = length (nth i (rows m) []).
Proof.
  intros [_ H]. destruct (decide (i < length (idxs m))%nat) as [Hi | Hi].
  - destruct (lookup_lt_is_Some_2 _ _ Hi) as [idx Hidx].
    destruct (Forall2_lookup_l _ _ _ _ _ H Hidx) as (row & Hrow & Hlen).
    now rewrite (nth_lookup_Some _ _ _ _ Hidx), (nth_lookup_Some _ _ _ _ Hrow).
  - pose proof (Forall2_length _ _ _ H).
    rewrite !nth_overflow by lia. reflexivity.
Qed.

Lemma wf_lookup (m : t W) i :
  wf m -> (i < Z.to_nat (nrow m))%nat ->
  zip (idxs m) (rows m) !! i = Some (nth i (idxs m) [], nth i (rows m) []).
Proof.
  intros [Hn H] Hi. pose proof (Forall2_length _ _ _ H) as Hlen.
  rewrite lookup_zip_with.
  destruct (lookup_lt_is_Some_2 (idxs m) i ltac:(lia)) as [idx Hidx].
  destruct (lookup_lt_is_Some_2 (rows m) i ltac:(lia)) as [row Hrow].
  rewrite Hidx, Hrow. simpl.
  now rewrite (nth_lookup_Some _ _ _ _ Hidx), (nth_lookup_Some _ _ _ _ Hrow).
Qed.

Lemma wf_length_zip (m : t W) :
  wf m -> length (zip (idxs m) (rows m)) = Z.to_nat (nrow m).
Proof.
  intros [Hn H]. pose proof (Forall2_length _ _ _ H).
  rewrite length_zip_with. lia.
Qed.

Lemma remaining_next_row (m : t W) i :
  wf m ->
  entries_from (S i) (drop (S i) (zip (idxs m) (rows m))) = remaining m (S i) 0.
Proof.
  intros Hwf. unfold remaining. rewrite drop_0.
  destruct (decide (S i < Z.to_nat (nrow m))%nat) as [Hi | Hi].
  - rewrite (drop_S _ _ _ (wf_lookup m (S i) Hwf Hi)). reflexivity.
  - rewrite (drop_ge _ (S i)) by (rewrite wf_length_zip by exact Hwf; lia).
    rewrite (drop_ge _ (S (S i))) by (rewrite wf_length_zip by exact Hwf; lia).
    destruct Hwf as [Hn H]. pose proof (Forall2_length _ _ _ H).
    rewrite !nth_overflow by lia. reflexivity.
Qed.

Lemma remaining_row_end (m : t W) i k :
  wf m -> (rowlens m i <= k)%nat -> remaining m i k = remaining m (S i) 0.
Proof.
  intros Hwf Hk. unfold remaining at 1. rewrite drop_ge.
  - simpl. now apply remaining_next_row.
  - rewrite length_row_entries by now apply wf_row. exact Hk.
Qed.

Lemma remaining_out (m : t W) i k :
  wf m -> (Z.to_nat (nrow m) <= i)%nat -> remaining m i k = [].
Proof.
  intros Hwf Hi. unfold remaining.
  rewrite (drop_ge _ (S i)) by (rewrite wf_length_zip by exact Hwf; lia).
  destruct Hwf as [Hn H]. pose proof (Forall2_length _ _ _ H).
  rewrite !nth_overflow by lia. unfold row_entries. cbn [zip_with map].
  now rewrite drop_nil.
Qed.

Lemma remaining_step (m : t W) i k :
  wf m -> (k < rowlens m i)%nat ->
  exists e, load m i k = Some e /\ remaining m i k = e :: remaining m i (S k).
Proof.
  intros Hwf Hk. pose proof (wf_row m i Hwf) as Hlen. unfold rowlens in Hk.
  destruct (lookup_lt_is_Some_2 (nth i (idxs m) []) k ltac:(lia)) as [j Hj].
  destruct (lookup_lt_is_Some_2 (nth i (rows m) []) k ltac:(lia)) as [w Hw].
  exists (Z.of_nat i, j, w). unfold load. rewrite Hj, Hw. split; [reflexivity |].
  unfold remaining. erewrite drop_S; [reflexivity |].
  unfold row_entries. rewrite list_lookup_fmap, lookup_zip_with, Hj, Hw.
  reflexivity.
Qed.

Lemma settle_spec (m : t W) :
  wf m ->
  forall fuel i k, (i + fuel = Z.to_nat (nrow m))%nat ->
    (Z.to_nat (nrow m) <= fst (settle fuel m i k)
     \/ snd (settle fuel m i k) < rowlens m (fst (settle fuel m i k)))%nat
    /\ (fst (settle fuel m i k) <= Z.to_nat (nrow m))%nat
    /\ remaining m (fst (settle fuel m i k)) (snd (settle fuel m i k))
       = remaining m i k.
Proof.
  intros Hwf. induction fuel as [| fuel IH]; intros i k Hi; simpl.
  - split; [left; lia |]. split; [lia | reflexivity].
  - destruct (Z.ltb_spec (Z.of_nat i) (nrow m)) as [Hlt | Hge]; [| lia].
    destruct (Nat.leb_spec (rowlens m i) k) as [Hk | Hk]; simpl.
    + destruct (IH (S i) O ltac:(lia)) as (H1 & H2 & H3).
      split; [exact H1 |]. split; [exact H2 |].
      rewrite H3. symmetry. now apply remaining_row_end.
    + split; [right; exact Hk |]. split; [lia | reflexivity].
Qed.

Lemma equal_default (m mb : t W) it i k :
  equal m mb it (default_iterator i k) = finished m it.
Proof. unfold equal. simpl. now destruct (finished m it). Qed.

(** The loop from an iterator that stands on an entry, or at the end. *)
Lemma iterate_remaining (m : t W) (Hwf : wf m) : forall fuel it addr,
  owner it = Some addr ->
  (it_i it <= Z.to_nat (nrow m))%nat ->
  ((it_i it < Z.to_nat (nrow m))%nat ->
   (it_k it < rowlens m (it_i it))%nat
   /\ entry it = load m (it_i it) (it_k it)) ->
  length (remaining m (it_i it) (it_k it)) = fuel ->
  iterate fuel m it = Some (remaining m (it_i it) (it_k it)).
Proof.
  induction fuel as [| fuel IH]; intros [o i k e] addr Ho Hi Hon Hlen;
    simpl in *; subst o.
  - rewrite equal_default. unfold finished. simpl.
    destruct (Z.leb_spec (nrow m) (Z.of_nat i)) as [Hend | Hin].
    + now rewrite remaining_out by (try assumption; lia).
    + destruct (Hon ltac:(lia)) as [Hk _].
      destruct (remaining_step m i k Hwf Hk) as (e' & _ & E).
      rewrite E in Hlen. discriminate.
  - rewrite equal_default. unfold finished. simpl.
    destruct (Z.leb_spec (nrow m) (Z.of_nat i)) as [Hend | Hin].
    + rewrite remaining_out in Hlen by (try assumption; lia). discriminate.
    + destruct (Hon ltac:(lia)) as [Hk He].
      destruct (remaining_step m i k Hwf Hk) as (e' & Hload & E).
      rewrite He, Hload. cbn [mbind option_bind].
      unfold increment. cbn [owner it_i it_k entry].
      destruct (Z.leb_spec (nrow m) (Z.of_nat i)) as [| _]; [lia |].
      destruct (settle_spec m Hwf (Z.to_nat (nrow m) - i) i (S k) ltac:(lia))
        as (H1 & H2 & H3).
      destruct (settle (Z.to_nat (nrow m) - i) m i (S k)) as [i' k'].
      simpl in H1, H2, H3.
      rewrite (IH _ addr); cbn [owner it_i it_k entry].
      * rewrite H3, E. reflexivity.
      * reflexivity.
      * exact H2.
      * intros Hlt. split; [lia |].
        destruct (Z.ltb_spec (Z.of_nat i') (nrow m)); [reflexivity | lia].
      * rewrite H3. rewrite E in Hlen. simpl in Hlen. lia.
Qed.

(** X2.  On a matrix whose rows hold as many column indices as weights,
    the loop [for (it(m); it != WeightMatrixIterator(); ++it)] visits
    the entries row by row, each row from its first entry on, passing
    over empty rows, and reaches the end after as many increments as
    there are entries. *)
Theorem iterator_visits_entries (m : t W) (addr : nat) :
  wf m -> iterate (length (entries m)) m (begin addr m) = Some (entries m).
Proof.
  intros Hwf. unfold begin.
  destruct (settle_spec m Hwf (Z.to_nat (nrow m)) 0 0 ltac:(lia))
    as (H1 & H2 & H3).
  destruct (settle (Z.to_nat (nrow m)) m 0 0) as [i k]. simpl in H1, H2, H3.
  assert (Hall : remaining m 0 0 = entries m).
  { rewrite entries_eq. unfold remaining. rewrite drop_0.
    destruct (decide (0 < Z.to_nat (nrow m))%nat) as [Hn | Hn].
    - pose proof (wf_lookup m 0 Hwf Hn) as H0.
      destruct (zip (idxs m) (rows m)) as [| ir irs]; [discriminate |].
      injection H0 as ->. reflexivity.
    - pose proof (wf_length_zip m Hwf) as Hl.
      destruct (zip (idxs m) (rows m)) as [| ir irs]; [| simpl in Hl; lia].
      destruct Hwf as [Hn' H]. pose proof (Forall2_length _ _ _ H).
      rewrite !nth_overflow by lia. reflexivity. }
  rewrite <- Hall, <- H3.
  apply (iterate_remaining m Hwf _ (Iter (Some addr) i k _) addr);
    cbn [owner it_i it_k entry].
  - reflexivity.
  - exact H2.
  - intros Hlt. split; [lia |].
    destruct (Z.ltb_spec (Z.of_nat i) (nrow m)); [reflexivity | lia].
  - reflexivity.
Qed.

End Iterator.

(** A matrix of three rows, the second empty. *)
Definition example_matrix : t Q :=
  Mk 3 3 [[(1 # 2)%Q; (1 # 3)%Q]; []; [(1 # 4)%Q]] [[0; 2]; []; [1]].

Lemma example_matrix_wf : wf example_matrix.
Proof. split; [reflexivity |]. repeat constructor. Qed.

Lemma iterator_visits_entries_witness :
  iterate 3 example_matrix (begin 0 example_matrix)
  = Some [(0, 0, (1 # 2)%Q); (0, 2, (1 # 3)%Q); (2, 1, (1 # 4)%Q)].
Proof. exact (iterator_visits_entries example_matrix 0 example_matrix_wf). Defined.

(** ** sortrow and reorder_columns, on their own *)

Section Reorder.

Context {W : Type}.

(** X3.  [sortrow] on a row that holds as many column indices as
    weights ends, leaves the column indices in ascending order and keeps
    every weight with its column index. *)
Theorem sortrow_sorts (idx : list Z) (row : list W) :
  length idx = length row ->
  exists idx' row',
    sortrow idx row = Some (idx', row')
    /\ StronglySorted Z.le idx'
    /\ zip idx' row' ≡ₚ zip idx row
    /\ length idx' = length idx /\ length row' = length row.
Proof.
  intros Hlen.
  destruct (sortrow_spec idx row Hlen) as (idx' & row' & E & Hs & L1 & L2 & P).
  exists idx', row'. split; [exact E |].
  split; [now apply sorted_on_StronglySorted |].
  split; [exact P |]. split; [exact L1 | exact L2].
Qed.

Lemma sort_rows_lengths (idxs0 : list (list Z)) (rows0 : list (list W)) :
  Forall2 (fun idx row => length idx = length row) idxs0 rows0 ->
  forall sorted, sort_rows idxs0 rows0 = Some sorted ->
    Forall2 (fun idx row => length idx = length row)
            (map fst sorted) (map snd sorted)
    /\ length sorted = length idxs0.
Proof.
  intros H sorted Hs. apply mapM_Some_1 in Hs.
  pose proof (Forall2_length _ _ _ Hs) as Hl.
  rewrite length_zip_with in Hl. pose proof (Forall2_length _ _ _ H) as Hl0.
  split; [| lia]. clear Hl Hl0.
  revert sorted Hs. induction H as [| idx row idxs0 rows0 Hlen _ IH];
    intros sorted Hs.
  - inversion Hs. constructor.
  - cbn [zip_with] in Hs. inversion Hs as [| ir sr irs srs E Hrest]; subst.
    simpl in E. cbn [map]. constructor; [| now apply IH].
    destruct (sortrow_spec idx row Hlen) as (idx' & row' & E' & _ & L1 & L2 & _).
    rewrite E' in E. injection E as <-. simpl. lia.
Qed.

Lemma get_nth (idxmap : list Z) j :
  0 <= j < Z.of_nat (length idxmap) ->
  get idxmap j = Some (nth (Z.to_nat j) idxmap 0).
Proof.
  intros Hj. unfold get.
  destruct (Z.leb_spec 0 j) as [_ |]; [| lia].
  destruct (Z.ltb_spec j (Z.of_nat (length idxmap))) as [_ |]; [| lia].
  cbn [andb]. destruct (lookup_lt_is_Some_2 idxmap (Z.to_nat j) ltac:(lia))
    as [x Hx].
  now rewrite Hx, (nth_lookup_Some _ _ _ _ Hx).
Qed.

(** X4.  [reorder_columns(idxmap)] on a matrix all of whose column
    indices lie inside [idxmap]: every entry keeps its row and weight
    and gets the column [idxmap] names, every row is sorted again, and
    [nrow] and [ncol] stay. *)
Theorem reorder_columns_remaps (m : t W) (idxmap : list Z) :
  wf m ->
  Forall (fun j => 0 <= j < Z.of_nat (length idxmap)) (concat (idxs m)) ->
  exists m',
    reorder_columns m idxmap = Some m'
    /\ wf m' /\ nrow m' = nrow m /\ ncol m' = ncol m
    /\ entries m'
       ≡ₚ map (remap (fun j => nth (Z.to_nat j) idxmap 0)) (entries m)
    /\ Forall (StronglySorted Z.le) (idxs m').
Proof.
  intros Hwf Hin. unfold reorder_columns.
  set (f := fun j => nth (Z.to_nat j) idxmap 0).
  rewrite (remap_rows idxmap f).
  2:{ intros j Hj. eapply Forall_forall in Hin; [| exact Hj].
      now apply get_nth. }
  cbn [mbind option_bind].
  assert (Hlen : Forall2 (fun idx (row : list W) => length idx = length row)
                         (map (map f) (idxs m)) (rows m)).
  { apply Forall2_fmap_l. eapply Forall2_impl; [exact (proj2 Hwf) |].
    intros idx row H. simpl. now rewrite length_map. }
  destruct (sort_rows_spec _ _ Hlen) as (sorted & Hsort & Hrows).
  destruct (sort_rows_lengths _ _ Hlen sorted Hsort) as [Hl2 Hl].
  rewrite Hsort. cbn [mbind option_bind].
  eexists. split; [reflexivity |].
  split; [| split; [reflexivity | split; [reflexivity | split]]].
  - split; [| exact Hl2]. cbn [idxs nrow].
    rewrite length_map, Hl, length_map. apply Hwf.
  - rewrite entries_eq. cbn [idxs rows].
    replace (zip (map fst sorted) (map snd sorted)) with sorted
      by (symmetry; apply zip_fst_snd).
    rewrite (entries_from_sorted _ _ Hrows 0), entries_from_remap.
    now rewrite <- entries_eq.
  - cbn [idxs]. eapply sorted_rows_ascend, Hrows.
Qed.

End Reorder.

Lemma sortrow_sorts_witness :
  exists idx' row',
    sortrow [9; 3; 7; 1; 8; 2; 6; 0; 5; 4]
            [9; 3; 7; 1; 8; 2; 6; 0; 5; 4]%nat = Some (idx', row')
    /\ StronglySorted Z.le idx'.
Proof.
  destruct (sortrow_sorts [9; 3; 7; 1; 8; 2; 6; 0; 5; 4]
                          [9; 3; 7; 1; 8; 2; 6; 0; 5; 4]%nat)
    as (idx' & row' & E & Hs & _); [reflexivity |].
  exists idx', row'. split; [exact E | exact Hs].
Defined.

Lemma reorder_columns_remaps_witness :
  exists m',
    reorder_columns example_matrix [2; 0; 1] = Some m'
    /\ entries m'
       ≡ₚ map (remap (fun j => nth (Z.to_nat j) [2; 0; 1] 0))
              (entries example_matrix)
    /\ Forall (StronglySorted Z.le) (idxs m').
Proof.
  destruct (reorder_columns_remaps example_matrix [2; 0; 1] example_matrix_wf)
    as (m' & E & _ & _ & _ & P & Hs).
  - simpl. repeat (constructor; [lia |]). constructor.
  - exists m'. split; [exact E |]. split; [exact P | exact Hs].
Defined.

End WeightMatrix.

(** * Connected components (the constructor [Sampler::Sampler], sampler.cpp) *)

Module Components.

(** [disjset_find(ds, i)], with path compression.  [ds[i]] is the parent of
    [i], a root is its own parent.  The recursion is as deep as the path
    from [i] to its root is long; [fuel] bounds the depth, and [None] is a
    recursion that goes deeper or an access outside [ds]. *)
Fixpoint disjset_find (fuel : nat) (ds : list nat) (i : nat)
  : option (list nat * nat) :=
  match fuel with
  | O => None
  | S fuel =>
      p ← ds !! i;
      if (p =? i)%nat then Some (ds, i)
      else
        res ← disjset_find fuel ds p;
        Some (<[i := snd res]> (fst res), snd res)
  end.

(** [disjset_union(ds, i, j)]: [a = find(i); b = find(j); ds[b] = a]. *)
Definition disjset_union (ds : list nat) (i j : nat) : option (list nat) :=
  fa ← disjset_find (length ds) ds i;
  fb ← disjset_find (length ds) (fst fa) j;
  Some (<[snd fb := snd fa]> (fst fb)).

(** The node of transcript [i], [weight_matrix->ncol + entry->i] in
    [unsigned int] arithmetic, and the node of fragment column [j]. *)
Definition transcript_node (ncol i : Z) : nat := Z.to_nat (wrap32 (ncol + i)).
Definition fragment_node (j : Z) : nat := Z.to_nat j.

(** "Label components sequentially", first loop: a root that is not yet a
    key of [component_label] is given the next label, the size of the
    map. *)
Definition label_roots (ds : list nat) : gmap nat nat :=
  fold_left
    (fun (component_label : gmap nat nat) r =>
       match component_label !! r with
       | Some _ => component_label
       | None => <[r := size component_label]> component_label
       end)
    ds ∅.

(** [component_label[r]]: [operator[]] gives 0 for a key it has to
    create. *)
Definition label_of (component_label : gmap nat nat) (r : nat) : nat :=
  default O (component_label !! r).

Section Build.

Context {W : Type}.

(** The edge an entry of the matrix stands for. *)
Definition edge (ncol : Z) (e : Z * Z * W) : nat * nat :=
  (transcript_node ncol (fst (fst e)), fragment_node (snd (fst e))).

(** Lines 1140-1143: one [disjset_union] per entry. *)
Definition union_entries (ncol : Z) (ds : list nat) (entries : list (Z * Z * W))
  : option (list nat) :=
  foldl (fun (o : option (list nat)) (e : Z * Z * W) =>
           ds ← o; disjset_union ds (fst (edge ncol e)) (snd (edge ncol e)))
        (Some ds) entries.

(** Line 1145: [disjset_find(ds, i)] for every node, which leaves
    every node pointing at its root. *)
Definition find_all (ds : list nat) (n : nat) : option (list nat) :=
  foldl (fun (o : option (list nat)) i =>
           ds ← o; fst <$> disjset_find (length ds) ds i)
        (Some ds) (seq 0 n).

(** Lines 1133-1160, on the entries the [WeightMatrixIterator] walks
    through: the array of component labels, one per node (the [ncol]
    fragment columns first, then the [nrow] transcripts), and
    [num_components]. *)
Definition find_components (ncol nrow : Z) (entries : list (Z * Z * W))
  : option (list nat * nat) :=
  let N := Z.to_nat (wrap32 (ncol + nrow)) in
  let ds := seq 0 N in
  ds ← union_entries ncol ds entries;
  ds ← find_all ds N;
  let component_label := label_roots ds in
  Some (map (label_of component_label) ds, size component_label).

(** [transcript_component[i] = ds[weight_matrix->ncol + i]] *)
Definition transcript_component (ncol : Z) (labels : list nat) (i : nat) : nat :=
  nth (Z.to_nat ncol + i) labels O.

End Build.

(** ** The forest *)

(** [walk ds i l r]: following the parents from [i] one passes the nodes
    [l], the first being [i], and stops at the root [r], the last. *)
Inductive walk (ds : list nat) : nat -> list nat -> nat -> Prop :=
| walk_root r : ds !! r = Some r -> walk ds r [r] r
| walk_step i p l r :
    ds !! i = Some p -> p <> i -> walk ds p l r -> walk ds i (i :: l) r.

(** Every node has a root, and [R] names it. *)
Definition forest (ds : list nat) (R : nat -> nat) : Prop :=
  forall x, (x < length ds)%nat -> exists l, walk ds x l (R x).

(** The graph the unions build: [conn E x y] when [x] and [y] are joined
    by a path of edges of [E], in either direction. *)
Inductive conn (E : list (nat * nat)) : nat -> nat -> Prop :=
| conn_refl x : conn E x x
| conn_edge x y : (x, y) ∈ E -> conn E x y
| conn_sym x y : conn E x y -> conn E y x
| conn_trans x y z : conn E x y -> conn E y z -> conn E x z.

Lemma walk_head ds i l r : walk ds i l r -> exists l', l = i :: l'.
Proof. destruct 1; eauto. Qed.

Lemma walk_lookup ds i l r :
  walk ds i l r -> forall x, x ∈ l -> (x < length ds)%nat.
Proof.
  induction 1 as [r Hr | i p l r Hi Hne Hw IH]; intros x Hx.
  - apply list_elem_of_singleton in Hx as ->. eapply lookup_lt_Some, Hr.
  - apply elem_of_cons in Hx as [-> | Hx]; [| now apply IH].
    eapply lookup_lt_Some, Hi.
Qed.

Lemma walk_root_in ds i l r : walk ds i l r -> r ∈ l /\ ds !! r = Some r.
Proof.
  induction 1 as [r Hr | i p l r Hi Hne Hw [IH1 IH2]].
  - split; [apply list_elem_of_singleton; reflexivity | exact Hr].
  - split; [apply elem_of_cons; now right | exact IH2].
Qed.

(** The walk from a node is determined by the array. *)
Lemma walk_det ds i l r :
  walk ds i l r -> forall l' r', walk ds i l' r' -> l = l' /\ r = r'.
Proof.
  induction 1 as [r Hr | i p l r Hi Hne Hw IH]; intros l' r' Hw'.
  - inversion Hw' as [r0 Hr0 | i0 p0 l0 r0 Hi0 Hne0 Hw0]; subst; [auto |].
    congruence.
  - inversion Hw' as [r0 Hr0 | i0 p0 l0 r0 Hi0 Hne0 Hw0]; subst; [congruence |].
    assert (p0 = p) as -> by congruence.
    destruct (IH _ _ Hw0) as [-> ->]. auto.
Qed.

(** From a node of a walk, the rest of the walk. *)
Lemma walk_suffix ds i l r :
  walk ds i l r ->
  forall x, x ∈ l -> exists l2, walk ds x l2 r /\ (length l2 <= length l)%nat.
Proof.
  induction 1 as [r Hr | i p l r Hi Hne Hw IH]; intros x Hx.
  - apply list_elem_of_singleton in Hx as ->.
    exists [r]. split; [now constructor | lia].
  - apply elem_of_cons in Hx as [-> | Hx].
    + exists (i :: l). split; [econstructor; eassumption | lia].
    + destruct (IH x Hx) as (l2 & H2 & Hlen). exists l2. simpl. split; [exact H2 | lia].
Qed.

Lemma walk_nodup ds i l r : walk ds i l r -> NoDup l.
Proof.
  induction 1 as [r Hr | i p l r Hi Hne Hw IH].
  - apply NoDup_singleton.
  - apply NoDup_cons. split; [| exact IH].
    intros Hin. destruct (walk_suffix _ _ _ _ Hw i Hin) as (l2 & H2 & Hlen).
    assert (Hfull : walk ds i (i :: l) r) by (econstructor; eassumption).
    destruct (walk_det _ _ _ _ H2 _ _ Hfull) as [-> _]. simpl in Hlen. lia.
Qed.

(** A walk passes every node at most once, so it is no longer than the
    array: the depth of [disjset_find] is at most the number of nodes. *)
Lemma walk_length ds i l r : walk ds i l r -> (length l <= length ds)%nat.
Proof.
  intros Hw. apply Nat.le_trans with (length (seq 0 (length ds)));
    [| rewrite length_seq; lia].
  apply submseteq_length, NoDup_submseteq; [eapply walk_nodup, Hw |].
  intros x Hx. apply elem_of_seq. pose proof (walk_lookup _ _ _ _ Hw x Hx). lia.
Qed.

(** [disjset_find] returns the root and makes every node of the walk a
    child of it. *)
Lemma disjset_find_walk ds i l r :
  walk ds i l r ->
  forall fuel, (length l <= fuel)%nat ->
  exists ds',
    disjset_find fuel ds i = Some (ds', r)
    /\ length ds' = length ds
    /\ forall x, ds' !! x = if decide (x ∈ l) then Some r else ds !! x.
Proof.
  induction 1 as [r Hr | i p l r Hi Hne Hw IH]; intros fuel Hfuel.
  - destruct fuel as [| fuel]; [simpl in Hfuel; lia |].
    exists ds. simpl. rewrite Hr. simpl. rewrite Nat.eqb_refl.
    split; [reflexivity |]. split; [reflexivity |].
    intros x. destruct (decide (x ∈ [r])) as [Hx | Hx]; [| reflexivity].
    apply list_elem_of_singleton in Hx as ->. exact Hr.
  - destruct fuel as [| fuel]; [simpl in Hfuel; lia |].
    destruct (IH fuel ltac:(simpl in Hfuel; lia)) as (ds1 & Hf & Hlen & Hds1).
    exists (<[i := r]> ds1). simpl. rewrite Hi. simpl.
    rewrite (proj2 (Nat.eqb_neq p i) Hne), Hf. simpl.
    split; [reflexivity |]. split; [rewrite length_insert; exact Hlen |].
    intros x. destruct (decide (x = i)) as [-> | Hxi].
    + rewrite list_lookup_insert_eq
        by (rewrite Hlen; eapply lookup_lt_Some, Hi).
      rewrite decide_True; [reflexivity | apply elem_of_cons; now left].
    + rewrite list_lookup_insert_ne by congruence. rewrite Hds1.
      destruct (decide (x ∈ l)) as [Hx | Hx].
      * rewrite decide_True; [reflexivity | apply elem_of_cons; now right].
      * rewrite decide_False; [reflexivity |].
        intros H. apply elem_of_cons in H as [H | H]; congruence.
Qed.

(** Path compression keeps every node's root. *)
Lemma compress_forest ds ds' i l r R :
  forest ds R -> walk ds i l r -> length ds' = length ds ->
  (forall x, ds' !! x = if decide (x ∈ l) then Some r else ds !! x) ->
  forest ds' R.
Proof.
  intros Hf Hw Hlen Hds' x Hx. rewrite Hlen in Hx.
  destruct (Hf x Hx) as [lx Hwx]. clear Hx.
  destruct (walk_root_in _ _ _ _ Hw) as [Hrl Hrr].
  assert (Hr' : ds' !! r = Some r) by (rewrite Hds', decide_True; auto).
  induction Hwx as [rx Hrx | x p lx rx Hxp Hne Hwp IH].
  - exists [rx]. constructor. rewrite Hds'.
    destruct (decide (rx ∈ l)) as [Hin | Hin]; [| exact Hrx].
    destruct (walk_suffix _ _ _ _ Hw rx Hin) as (l2 & H2 & _).
    destruct (walk_det _ _ _ _ H2 [rx] rx ltac:(now constructor)) as [_ ->].
    reflexivity.
  - destruct IH as [lp' Hp'].
    destruct (decide (x ∈ l)) as [Hin | Hin].
    + destruct (walk_suffix _ _ _ _ Hw x Hin) as (l2 & H2 & _).
      assert (Hfull : walk ds x (x :: lx) rx) by (econstructor; eassumption).
      destruct (walk_det _ _ _ _ H2 _ _ Hfull) as [_ ->].
      assert (Hrx : rx <> x) by (intros ->; congruence).
      exists [x; rx]. econstructor; [| exact Hrx | now constructor].
      rewrite Hds', decide_True by exact Hin. reflexivity.
    + exists (x :: lp'). econstructor; [| exact Hne | exact Hp'].
      rewrite Hds', decide_False by exact Hin. exact Hxp.
Qed.

(** [disjset_find] on a forest, with the fuel the constructor's calls are
    given. *)
Lemma disjset_find_forest ds R i :
  forest ds R -> (i < length ds)%nat ->
  exists ds',
    disjset_find (length ds) ds i = Some (ds', R i)
    /\ length ds' = length ds
    /\ forest ds' R
    /\ ds' !! i = Some (R i)
    /\ forall x, ds' !! x = ds !! x \/ ds' !! x = Some (R x).
Proof.
  intros Hf Hi. destruct (Hf i Hi) as [l Hw].
  destruct (disjset_find_walk _ _ _ _ Hw (length ds) (walk_length _ _ _ _ Hw))
    as (ds' & Hfind & Hlen & Hds').
  exists ds'. split; [exact Hfind |]. split; [exact Hlen |].
  split; [eapply compress_forest; eassumption |]. split.
  - rewrite Hds', decide_True; [reflexivity |].
    destruct (walk_head _ _ _ _ Hw) as [l' ->]. apply elem_of_cons. now left.
  - intros x. rewrite Hds'. destruct (decide (x ∈ l)) as [Hin | Hin]; [| now left].
    right. destruct (walk_suffix _ _ _ _ Hw x Hin) as (l2 & H2 & _).
    destruct (Hf x (walk_lookup _ _ _ _ Hw x Hin)) as [lx Hx].
    destruct (walk_det _ _ _ _ H2 _ _ Hx) as [_ ->]. reflexivity.
Qed.

Lemma forest_root ds R r :
  forest ds R -> ds !! r = Some r -> R r = r.
Proof.
  intros Hf Hr. destruct (Hf r (lookup_lt_Some _ _ _ Hr)) as [l Hw].
  destruct (walk_det _ _ _ _ Hw [r] r ltac:(now constructor)) as [_ ->].
  reflexivity.
Qed.

Lemma forest_rep ds R x :
  forest ds R -> (x < length ds)%nat ->
  ds !! R x = Some (R x) /\ (R x < length ds)%nat /\ R (R x) = R x.
Proof.
  intros Hf Hx. destruct (Hf x Hx) as [l Hw].
  destruct (walk_root_in _ _ _ _ Hw) as [Hin Hr].
  split; [exact Hr |]. split; [eapply lookup_lt_Some, Hr |].
  eapply forest_root; eassumption.
Qed.

Lemma walk_ext ds ds' i l r :
  walk ds i l r -> (forall y, y ∈ l -> ds' !! y = ds !! y) -> walk ds' i l r.
Proof.
  induction 1 as [r Hr | i p l r Hi Hne Hw IH]; intros Hsame.
  - constructor. rewrite Hsame; [exact Hr | apply list_elem_of_singleton; reflexivity].
  - econstructor; [| exact Hne |].
    + rewrite Hsame; [exact Hi | apply elem_of_cons; now left].
    + apply IH. intros y Hy. apply Hsame, elem_of_cons. now right.
Qed.

(** Hanging the root [b] under the root [a]. *)
Lemma walk_graft ds a b i l :
  walk ds i l b -> a <> b -> ds !! a = Some a ->
  walk (<[b := a]> ds) i (l ++ [a]) a.
Proof.
  intros Hw Hab Ha.
  assert (Ha' : <[b := a]> ds !! a = Some a)
    by (rewrite list_lookup_insert_ne by congruence; exact Ha).
  remember b as r eqn:Er. induction Hw as [r Hr | i p l r Hi Hne Hw IH]; subst.
  - simpl. econstructor; [| exact Hab | now constructor].
    apply list_lookup_insert_eq. eapply lookup_lt_Some, Hr.
  - simpl. econstructor; [| exact Hne | now apply IH].
    destruct (walk_root_in _ _ _ _ Hw) as [_ Hb].
    rewrite list_lookup_insert_ne; [exact Hi |]. intros ->. congruence.
Qed.

Lemma graft_forest ds R a b :
  forest ds R -> ds !! a = Some a -> ds !! b = Some b ->
  forest (<[b := a]> ds) (fun x => if (R x =? b)%nat then a else R x).
Proof.
  intros Hf Ha Hb x Hx. rewrite length_insert in Hx.
  destruct (Hf x Hx) as [l Hw].
  destruct (Nat.eqb_spec (R x) b) as [E | E].
  - destruct (decide (a = b)) as [-> | Hab].
    + rewrite list_insert_id by exact Hb. exists l. now rewrite <- E.
    + exists (l ++ [a]). apply walk_graft; [now rewrite <- E | exact Hab | exact Ha].
  - exists l. apply (walk_ext ds); [exact Hw |].
    intros y Hy. apply list_lookup_insert_ne. intros <-.
    destruct (walk_suffix _ _ _ _ Hw b Hy) as (l2 & H2 & _).
    destruct (walk_det _ _ _ _ H2 [b] b ltac:(now constructor)) as [_ Hr].
    congruence.
Qed.

(** [disjset_union] on a forest: the class of [j] joins the class of
    [i]. *)
Lemma disjset_union_forest ds R i j :
  forest ds R -> (i < length ds)%nat -> (j < length ds)%nat ->
  exists ds',
    disjset_union ds i j = Some ds'
    /\ length ds' = length ds
    /\ forest ds' (fun x => if (R x =? R j)%nat then R i else R x).
Proof.
  intros Hf Hi Hj. unfold disjset_union.
  destruct (disjset_find_forest ds R i Hf Hi) as (ds1 & F1 & L1 & Hf1 & _).
  rewrite F1. simpl. rewrite <- L1.
  destruct (disjset_find_forest ds1 R j Hf1 ltac:(lia)) as (ds2 & F2 & L2 & Hf2 & _).
  rewrite F2. simpl.
  exists (<[R j := R i]> ds2). split; [reflexivity |].
  split; [rewrite length_insert; lia |].
  apply graft_forest; [exact Hf2 | |].
  - apply (forest_rep ds2 R i Hf2). lia.
  - apply (forest_rep ds2 R j Hf2). lia.
Qed.

Lemma conn_mono E e x y : conn E x y -> conn (e :: E) x y.
Proof.
  induction 1 as [x | x y H | x y _ IH | x y z _ IH1 _ IH2].
  - apply conn_refl.
  - apply conn_edge, elem_of_cons. now right.
  - now apply conn_sym.
  - eapply conn_trans; eassumption.
Qed.

(** [R] names the classes of the graph [E] on the nodes below [n]. *)
Definition classes (n : nat) (R : nat -> nat) (E : list (nat * nat)) : Prop :=
  (forall x y, conn E x y -> R x = R y)
  /\ (forall x y, (x < n)%nat -> (y < n)%nat -> R x = R y -> conn E x y).

Lemma classes_union n R E i j :
  classes n R E -> (i < n)%nat -> (j < n)%nat ->
  classes n (fun x => if (R x =? R j)%nat then R i else R x) ((i, j) :: E).
Proof.
  intros [C1 C2] Hi Hj. split.
  - induction 1 as [x | x y H | x y _ IH | x y z _ IH1 _ IH2].
    + reflexivity.
    + apply elem_of_cons in H as [[= -> ->] | H].
      * rewrite Nat.eqb_refl. destruct (R i =? R j)%nat; reflexivity.
      * rewrite (C1 x y (conn_edge _ _ _ H)). reflexivity.
    + congruence.
    + congruence.
  - intros x y Hx Hy.
    assert (Hij : conn ((i, j) :: E) i j)
      by (apply conn_edge, elem_of_cons; now left).
    assert (Hup : forall a b, (a < n)%nat -> (b < n)%nat -> R a = R b ->
                    conn ((i, j) :: E) a b)
      by (intros a b Ha Hb Hab; apply conn_mono, C2; assumption).
    destruct (Nat.eqb_spec (R x) (R j)) as [Ex | Ex],
             (Nat.eqb_spec (R y) (R j)) as [Ey | Ey]; intros Hxy.
    + apply Hup; congruence.
    + apply conn_trans with j; [now apply Hup |].
      apply conn_trans with i; [now apply conn_sym |]. now apply Hup.
    + apply conn_trans with i; [now apply Hup |].
      apply conn_trans with j; [exact Hij |]. apply Hup; congruence.
    + now apply Hup.
Qed.

Lemma conn_incl E E' x y :
  (forall e, e ∈ E -> e ∈ E') -> conn E x y -> conn E' x y.
Proof.
  intros Hin. induction 1 as [x | x y H | x y _ IH | x y z _ IH1 _ IH2].
  - apply conn_refl.
  - apply conn_edge, Hin, H.
  - now apply conn_sym.
  - eapply conn_trans; eassumption.
Qed.

Lemma seq_forest n : forest (seq 0 n) (fun x => x).
Proof.
  intros x Hx. rewrite length_seq in Hx. exists [x]. constructor.
  now apply lookup_seq_lt.
Qed.

Lemma classes_init n : classes n (fun x => x) [].
Proof.
  split.
  - induction 1 as [x | x y H | x y _ IH | x y z _ IH1 _ IH2];
      [reflexivity | | congruence | congruence].
    now apply elem_of_nil in H.
  - intros x y _ _ ->. apply conn_refl.
Qed.

Section Loops.

Context {W : Type}.

Lemma union_entries_spec (ncol : Z) (entries : list (Z * Z * W)) :
  forall ds R E,
    forest ds R -> classes (length ds) R E ->
    Forall (fun e => (fst (edge ncol e) < length ds)%nat
                     /\ (snd (edge ncol e) < length ds)%nat) entries ->
    exists ds' R',
      union_entries ncol ds entries = Some ds'
      /\ length ds' = length ds
      /\ forest ds' R'
      /\ classes (length ds) R' (reverse (map (edge ncol) entries) ++ E).
Proof.
  induction entries as [| e es IH]; intros ds R E Hf Hc Hall.
  - exists ds, R. repeat split; try assumption; apply Hc.
  - apply Forall_cons in Hall as [[Hi Hj] Hall].
    destruct (disjset_union_forest ds R _ _ Hf Hi Hj) as (ds1 & U & L1 & Hf1).
    pose proof (classes_union _ _ _ _ _ Hc Hi Hj) as Hc1.
    rewrite <- L1 in Hc1, Hall.
    destruct (IH ds1 _ _ Hf1 Hc1 Hall) as (ds' & R' & F & L' & Hf' & Hc').
    exists ds', R'. unfold union_entries in *. cbn [foldl].
    change (Some ds ≫= _) with (disjset_union ds (fst (edge ncol e)) (snd (edge ncol e))).
    rewrite U. split; [exact F |]. split; [lia |]. split; [exact Hf' |].
    rewrite L1 in Hc'.
    change (map (edge ncol) (e :: es)) with (edge ncol e :: map (edge ncol) es).
    rewrite reverse_cons, <- app_assoc. exact Hc'.
Qed.

End Loops.

Lemma find_all_spec ds R n :
  forest ds R -> (n <= length ds)%nat ->
  exists ds',
    find_all ds n = Some ds'
    /\ length ds' = length ds
    /\ forest ds' R
    /\ forall x, (x < n)%nat -> ds' !! x = Some (R x).
Proof.
  intros Hf. induction n as [| n IH]; intros Hn.
  - exists ds. repeat split; [exact Hf | lia].
  - destruct IH as (ds1 & F1 & L1 & Hf1 & P1); [lia |].
    destruct (disjset_find_forest ds1 R n Hf1 ltac:(lia))
      as (ds2 & F2 & L2 & Hf2 & Hn2 & P2).
    exists ds2. unfold find_all in *. rewrite seq_S, foldl_app, F1. simpl.
    rewrite F2. simpl. split; [reflexivity |]. split; [lia |].
    split; [exact Hf2 |]. intros x Hx.
    destruct (decide (x = n)) as [-> | Hne]; [exact Hn2 |].
    destruct (P2 x) as [-> | ->]; [apply P1; lia | reflexivity].
Qed.

(** ** The labels *)

(** The labels of a map are the numbers below its size, each once. *)
Definition dense (m : gmap nat nat) : Prop :=
  (forall r v, m !! r = Some v -> (v < size m)%nat)
  /\ (forall r1 r2 v, m !! r1 = Some v -> m !! r2 = Some v -> r1 = r2)
  /\ (forall v, (v < size m)%nat -> exists r, m !! r = Some v).

Definition label_step (component_label : gmap nat nat) (r : nat) : gmap nat nat :=
  match component_label !! r with
  | Some _ => component_label
  | None => <[r := size component_label]> component_label
  end.

Lemma label_roots_fold ds : label_roots ds = fold_left label_step ds ∅.
Proof. reflexivity. Qed.

Lemma label_step_dense m r : dense m -> dense (label_step m r).
Proof.
  intros (B & I & S). unfold label_step.
  destruct (m !! r) as [v |] eqn:E; [now repeat split |].
  assert (Hs : size (<[r := size m]> m) = Datatypes.S (size m))
    by (now apply map_size_insert_None).
  split; [| split].
  - intros r1 v. rewrite Hs. destruct (decide (r1 = r)) as [-> | Hne].
    + rewrite lookup_insert_eq. intros [= <-]. lia.
    + rewrite lookup_insert_ne by congruence. intros H. apply B in H. lia.
  - intros r1 r2 v.
    destruct (decide (r1 = r)) as [-> | H1], (decide (r2 = r)) as [-> | H2];
      rewrite ?lookup_insert_eq, ?lookup_insert_ne by congruence.
    + reflexivity.
    + intros [= <-] H. apply B in H. lia.
    + intros H [= <-]. apply B in H. lia.
    + apply I.
  - intros v. rewrite Hs. intros Hv.
    destruct (decide (v = size m)) as [-> | Hne].
    + exists r. apply lookup_insert_eq.
    + destruct (S v ltac:(lia)) as [r1 H1]. exists r1.
      rewrite lookup_insert_ne; [exact H1 |]. intros <-. congruence.
Qed.

Lemma label_step_dom m r x :
  is_Some (label_step m r !! x) <-> x = r \/ is_Some (m !! x).
Proof.
  unfold label_step. destruct (m !! r) as [v |] eqn:E.
  - split; [now right |]. intros [-> | H]; [rewrite E; eauto | exact H].
  - destruct (decide (x = r)) as [-> | Hne].
    + rewrite lookup_insert_eq. split; [now left | eauto].
    + rewrite lookup_insert_ne by congruence. split; [now right |].
      intros [? | H]; [congruence | exact H].
Qed.

Lemma fold_label_dense ds : forall m, dense m -> dense (fold_left label_step ds m).
Proof.
  induction ds as [| r ds IH]; intros m Hm; [exact Hm |].
  simpl. apply IH, label_step_dense, Hm.
Qed.

Lemma fold_label_dom ds : forall m x,
  is_Some (fold_left label_step ds m !! x) <-> x ∈ ds \/ is_Some (m !! x).
Proof.
  induction ds as [| r ds IH]; intros m x; simpl.
  - split; [now right |]. intros [H | H]; [now apply elem_of_nil in H | exact H].
  - rewrite IH, label_step_dom, elem_of_cons. tauto.
Qed.

Lemma empty_dense : dense ∅.
Proof.
  split; [| split].
  - intros r v H. now rewrite lookup_empty in H.
  - intros r1 r2 v H. now rewrite lookup_empty in H.
  - intros v. rewrite map_size_empty. lia.
Qed.

Lemma label_roots_dense ds : dense (label_roots ds).
Proof. rewrite label_roots_fold. apply fold_label_dense, empty_dense. Qed.

Lemma label_roots_dom ds x : is_Some (label_roots ds !! x) <-> x ∈ ds.
Proof.
  rewrite label_roots_fold, fold_label_dom. split; [| now left].
  intros [H | [v H]]; [exact H | now rewrite lookup_empty in H].
Qed.

Lemma label_of_inj ds r1 r2 :
  r1 ∈ ds -> r2 ∈ ds ->
  label_of (label_roots ds) r1 = label_of (label_roots ds) r2 -> r1 = r2.
Proof.
  intros H1 H2. apply label_roots_dom in H1 as [v1 E1], H2 as [v2 E2].
  unfold label_of. rewrite E1, E2. simpl. intros <-.
  destruct (label_roots_dense ds) as (_ & I & _). eapply I; eassumption.
Qed.

Lemma label_of_bound ds r :
  r ∈ ds -> (label_of (label_roots ds) r < size (label_roots ds))%nat.
Proof.
  intros H. apply label_roots_dom in H as [v E]. unfold label_of. rewrite E.
  destruct (label_roots_dense ds) as (B & _). eapply B, E.
Qed.

Lemma label_of_onto ds c :
  (c < size (label_roots ds))%nat ->
  exists r, r ∈ ds /\ label_of (label_roots ds) r = c.
Proof.
  intros H. destruct (label_roots_dense ds) as (_ & _ & S).
  destruct (S c H) as [r E]. exists r. split.
  - apply label_roots_dom. eauto.
  - unfold label_of. now rewrite E.
Qed.

(** ** The bipartite graph of transcripts and fragments *)

Inductive node : Type :=
| Transcript (i : Z)
| Fragment (j : Z).

Section Graph.

Context {W : Type}.

(** An entry [(i, j, w)] of the matrix joins transcript [i] and fragment
    [j]. *)
Definition adjacent (entries : list (Z * Z * W)) (a b : node) : Prop :=
  exists e, e ∈ entries
    /\ ((a = Transcript (fst (fst e)) /\ b = Fragment (snd (fst e)))
        \/ (a = Fragment (snd (fst e)) /\ b = Transcript (fst (fst e)))).

(** A path of entries from one node to another. *)
Inductive linked (entries : list (Z * Z * W)) : node -> node -> Prop :=
| linked_refl a : linked entries a a
| linked_step a b c :
    adjacent entries a b -> linked entries b c -> linked entries a c.

Lemma adjacent_sym entries a b : adjacent entries a b -> adjacent entries b a.
Proof. intros (e & He & H). exists e. tauto. Qed.

Lemma linked_trans entries a b c :
  linked entries a b -> linked entries b c -> linked entries a c.
Proof.
  induction 1 as [a | a x b Hax _ IH]; [trivial |].
  intros Hbc. eapply linked_step; [exact Hax | now apply IH].
Qed.

Lemma linked_sym entries a b : linked entries a b -> linked entries b a.
Proof.
  induction 1 as [a | a x b Hax _ IH]; [apply linked_refl |].
  eapply linked_trans; [exact IH |].
  eapply linked_step; [apply adjacent_sym, Hax | apply linked_refl].
Qed.

(** The place of a node in [ds]. *)
Definition encode (ncol : Z) (a : node) : nat :=
  match a with
  | Transcript i => (Z.to_nat ncol + Z.to_nat i)%nat
  | Fragment j => Z.to_nat j
  end.

Definition decode (ncol : Z) (x : nat) : node :=
  if (x <? Z.to_nat ncol)%nat then Fragment (Z.of_nat x)
  else Transcript (Z.of_nat x - ncol).

Definition in_range (ncol nrow : Z) (e : Z * Z * W) : Prop :=
  0 <= fst (fst e) < nrow /\ 0 <= snd (fst e) < ncol.

Lemma edge_encode ncol nrow e :
  0 <= ncol -> ncol + nrow < uint_mod -> in_range ncol nrow e ->
  edge ncol e = (encode ncol (Transcript (fst (fst e))),
                 encode ncol (Fragment (snd (fst e)))).
Proof.
  intros Hc Hn [Hi Hj]. unfold edge, transcript_node, fragment_node, wrap32.
  simpl. rewrite Z.mod_small by lia. f_equal. lia.
Qed.

Lemma edge_decode ncol nrow e :
  0 <= ncol -> ncol + nrow < uint_mod -> in_range ncol nrow e ->
  decode ncol (fst (edge ncol e)) = Transcript (fst (fst e))
  /\ decode ncol (snd (edge ncol e)) = Fragment (snd (fst e)).
Proof.
  intros Hc Hn He. rewrite (edge_encode ncol nrow) by assumption.
  destruct He as [Hi Hj]. unfold decode. simpl. split.
  - destruct (Nat.ltb_spec (Z.to_nat ncol + Z.to_nat (fst (fst e)))
                           (Z.to_nat ncol)); [lia |].
    f_equal. lia.
  - destruct (Nat.ltb_spec (Z.to_nat (snd (fst e))) (Z.to_nat ncol)); [| lia].
    f_equal. lia.
Qed.

Lemma linked_conn ncol nrow entries a b :
  0 <= ncol -> ncol + nrow < uint_mod -> Forall (in_range ncol nrow) entries ->
  linked entries a b ->
  conn (map (edge ncol) entries) (encode ncol a) (encode ncol b).
Proof.
  intros Hc Hn Hall. induction 1 as [a | a x b (e & He & Hax) _ IH].
  - apply conn_refl.
  - eapply conn_trans; [| exact IH].
    assert (Hin : edge ncol e ∈ map (edge ncol) entries)
      by (apply list_elem_of_fmap; eauto).
    rewrite (edge_encode ncol nrow) in Hin
      by (try assumption; eapply Forall_forall in Hall; eassumption).
    destruct Hax as [[-> ->] | [-> ->]].
    + apply conn_edge, Hin.
    + apply conn_sym, conn_edge, Hin.
Qed.

Lemma conn_linked ncol nrow entries x y :
  0 <= ncol -> ncol + nrow < uint_mod -> Forall (in_range ncol nrow) entries ->
  conn (map (edge ncol) entries) x y ->
  linked entries (decode ncol x) (decode ncol y).
Proof.
  intros Hc Hn Hall.
  induction 1 as [x | x y H | x y _ IH | x y z _ IH1 _ IH2].
  - apply linked_refl.
  - apply list_elem_of_fmap in H as (e & Hxy & He).
    destruct (edge_decode ncol nrow e Hc Hn) as [D1 D2];
      [eapply Forall_forall in Hall; eassumption |].
    rewrite <- Hxy in D1, D2. simpl in D1, D2. rewrite D1, D2.
    eapply linked_step; [| apply linked_refl]. exists e. tauto.
  - now apply linked_sym.
  - eapply linked_trans; eassumption.
Qed.

(** The labels [find_components] computes, node by node. *)
Lemma find_components_spec ncol nrow (entries : list (Z * Z * W)) :
  0 <= ncol -> 0 <= nrow -> ncol + nrow < uint_mod ->
  Forall (in_range ncol nrow) entries ->
  exists labels num_components,
    find_components ncol nrow entries = Some (labels, num_components)
    /\ length labels = Z.to_nat (ncol + nrow)
    /\ (forall x y, (x < length labels)%nat -> (y < length labels)%nat ->
          nth x labels O = nth y labels O
          <-> conn (map (edge ncol) entries) x y)
    /\ (forall x, (x < length labels)%nat -> (nth x labels O < num_components)%nat)
    /\ (forall c, (c < num_components)%nat ->
          exists x, (x < length labels)%nat /\ nth x labels O = c).
Proof.
  intros Hc Hr Hn Hall. unfold find_components.
  replace (wrap32 (ncol + nrow)) with (ncol + nrow)
    by (unfold wrap32; rewrite Z.mod_small; lia).
  set (N := Z.to_nat (ncol + nrow)).
  assert (LN : length (seq 0 N) = N) by apply length_seq.
  destruct (union_entries_spec ncol entries (seq 0 N) (fun x => x) []
              (seq_forest N) (classes_init _))
    as (ds1 & R & U & L1 & Hf1 & [C1 C2]).
  { eapply Forall_impl; [exact Hall |]. intros e He.
    rewrite (edge_encode ncol nrow) by assumption.
    destruct He as [Hi Hj]. rewrite LN. unfold N. simpl. lia. }
  rewrite LN, app_nil_r in *.
  destruct (find_all_spec ds1 R N Hf1 ltac:(lia)) as (ds2 & F & L2 & Hf2 & P).
  rewrite U. simpl. rewrite F. simpl.
  set (m := label_roots ds2).
  assert (K : forall x, (x < N)%nat ->
                nth x (map (label_of m) ds2) O = label_of m (R x) /\ R x ∈ ds2).
  { intros x Hx. split.
    - apply nth_lookup_Some. rewrite list_lookup_fmap, (P x Hx). reflexivity.
    - eapply list_elem_of_lookup_2, P, Hx. }
  assert (LL : length (map (label_of m) ds2) = N) by (rewrite length_map; lia).
  eexists _, _. split; [reflexivity |]. split; [exact LL |].
  rewrite LL. split; [| split].
  - intros x y Hx Hy. destruct (K x Hx) as [-> Ix], (K y Hy) as [-> Iy]. split.
    + intros E. apply label_of_inj in E; [| assumption ..].
      eapply conn_incl; [| apply C2; [exact Hx | exact Hy | exact E]].
      intros e He. rewrite elem_of_reverse in He. exact He.
    + intros E. f_equal. apply C1. eapply conn_incl; [| exact E].
      intros e He. apply elem_of_reverse_2. exact He.
  - intros x Hx. destruct (K x Hx) as [-> Ix]. now apply label_of_bound.
  - intros c Hlt. destruct (label_of_onto ds2 c Hlt) as (r & Hin & E).
    apply list_elem_of_lookup_1 in Hin as [x Hx].
    assert (Hx' : (x < N)%nat) by (apply lookup_lt_Some in Hx; lia).
    exists x. split; [exact Hx' |].
    destruct (K x Hx') as [-> _]. rewrite (P x Hx') in Hx.
    injection Hx as ->. exact E.
Qed.

(** C2.  For a weight matrix of [nrow] rows and [ncol] columns whose
    entries lie inside it, with [ncol + nrow] an [unsigned int], the
    union-find construction gives two transcripts the same component label
    exactly when a path of entries links them through shared fragment
    columns; every label is below [num_components], every number below
    [num_components] is the label of some node, and, when every column
    holds an entry (as after [compact]), of some transcript. *)
Theorem component_labels_are_connected_components
        ncol nrow (entries : list (Z * Z * W)) :
  0 <= ncol -> 0 <= nrow -> ncol + nrow < uint_mod ->
  Forall (in_range ncol nrow) entries ->
  exists labels num_components,
    find_components ncol nrow entries = Some (labels, num_components)
    /\ (forall t1 t2, 0 <= t1 < nrow -> 0 <= t2 < nrow ->
          transcript_component ncol labels (Z.to_nat t1)
          = transcript_component ncol labels (Z.to_nat t2)
          <-> linked entries (Transcript t1) (Transcript t2))
    /\ (forall x, (x < length labels)%nat ->
          (nth x labels O < num_components)%nat)
    /\ (forall c, (c < num_components)%nat ->
          exists x, (x < length labels)%nat /\ nth x labels O = c)
    /\ ((forall j, 0 <= j < ncol -> exists e, e ∈ entries /\ snd (fst e) = j) ->
        forall c, (c < num_components)%nat ->
          exists t, 0 <= t < nrow
            /\ transcript_component ncol labels (Z.to_nat t) = c).
Proof.
  intros Hc Hr Hn Hall.
  destruct (find_components_spec ncol nrow entries Hc Hr Hn Hall)
    as (labels & n & F & L & Eq & B & S).
  exists labels, n. split; [exact F |].
  assert (D : forall t, 0 <= t ->
            decode ncol (Z.to_nat ncol + Z.to_nat t) = Transcript t).
  { intros t Ht. unfold decode.
    destruct (Nat.ltb_spec (Z.to_nat ncol + Z.to_nat t) (Z.to_nat ncol)); [lia |].
    f_equal. lia. }
  split; [| split; [exact B | split; [exact S |]]].
  - intros t1 t2 H1 H2. unfold transcript_component.
    rewrite Eq by lia. split.
    + intros Hconn. apply (conn_linked ncol nrow) in Hconn; try assumption.
      rewrite !D in Hconn by lia. exact Hconn.
    + intros Hl. apply (linked_conn ncol nrow entries _ _ Hc Hn Hall Hl).
  - intros Hused c Hlt. destruct (S c Hlt) as (x & Hx & Ex).
    destruct (Nat.ltb_spec x (Z.to_nat ncol)) as [Hlo | Hhi].
    + destruct (Hused (Z.of_nat x) ltac:(lia)) as (e & He & Ej).
      assert (Hin : in_range ncol nrow e)
        by (eapply Forall_forall in Hall; eassumption).
      exists (fst (fst e)). split; [apply Hin |].
      unfold transcript_component. rewrite <- Ex. apply Eq; [destruct Hin; lia | exact Hx |].
      assert (Hedge : edge ncol e ∈ map (edge ncol) entries)
        by (apply list_elem_of_fmap; eauto).
      rewrite (edge_encode ncol nrow) in Hedge by assumption.
      simpl in Hedge. rewrite Ej, Nat2Z.id in Hedge. apply conn_edge, Hedge.
    + exists (Z.of_nat x - ncol). split; [lia |].
      unfold transcript_component. rewrite <- Ex. f_equal. lia.
Qed.

End Graph.

(** Three transcripts and four fragments: transcripts 0 and 2 share
    fragment 1, transcript 1 has fragment 3 for itself. *)
Definition example_entries : list (Z * Z * Q) :=
  [(0, 0, 1%Q); (0, 1, 1%Q); (1, 3, 1%Q); (2, 1, 1%Q); (2, 2, 1%Q)].

Example example_components :
  find_components 4 3 example_entries = Some ([0; 0; 0; 1; 0; 1; 0]%nat, 2%nat).
Proof. vm_compute. reflexivity. Qed.

(** C2 at the three transcripts above. *)
Lemma component_labels_witness :
  exists labels num_components,
    find_components 4 3 example_entries = Some (labels, num_components)
    /\ (transcript_component 4 labels 0 = transcript_component 4 labels 2
        <-> linked example_entries (Transcript 0) (Transcript 2))
    /\ (transcript_component 4 labels 0 = transcript_component 4 labels 1
        <-> linked example_entries (Transcript 0) (Transcript 1)).
Proof.
  destruct (component_labels_are_connected_components 4 3 example_entries)
    as (labels & n & F & Eq & _).
  - lia.
  - lia.
  - reflexivity.
  - repeat constructor; simpl; lia.
  - exists labels, n. split; [exact F |]. split.
    + apply (Eq 0 2); lia.
    + apply (Eq 0 1); lia.
Defined.

End Components.

(** * The sampler ([Sampler], [MCMCThread], [MultireadSamplerThread]) *)

Module Sampler.

Local Open Scope Q_scope.

(** A [float] result that may be non-finite: [dotlog] and [fastlog2]
    return minus infinity or NaN on a zero or negative probability. *)
Inductive fval : Type :=
| Finite (q : Q)
| Infinite (negative : bool)
| NaN.

(** [finite(x)] *)
Definition finite (x : fval) : bool :=
  match x with Finite _ => true | _ => false end.

Definition fadd (x y : fval) : fval :=
  match x, y with
  | NaN, _ | _, NaN => NaN
  | Finite a, Finite b => Finite (a + b)
  | Infinite s, Finite _ | Finite _, Infinite s => Infinite s
  | Infinite s1, Infinite s2 => if Bool.eqb s1 s2 then Infinite s1 else NaN
  end.

(** A random number generator: the values it will hand out, and how many
    it has handed out.  The generators of the threads are drawn from one
    source. *)
Record gsl_rng : Type := Rng {
  stream : nat -> Q;
  position : nat
}.

(** [gsl_rng_uniform(rng)] *)
Definition gsl_rng_uniform (r : gsl_rng) : Q * gsl_rng :=
  (stream r (position r), Rng (stream r) (S (position r))).

(** A [MultireadAlignment] holds two pointers: [prob] into
    [frag_probs] and [count] into [frag_counts], each to the cell
    (component, offset). *)
Record MultireadAlignment : Type := Alignment {
  prob : nat * nat;
  count : nat * nat
}.

Record t : Type := Mk {
  weight_matrix : WeightMatrix.t Q;
  num_components : nat;
  transcript_component : list nat;
  component_num_transcripts : list nat;
  component_transcripts : list (list nat);
  component_frag : list Z;
  frag_counts : list (list Q);
  frag_probs : list (list Q);
  frag_probs_prop : list (list Q);
  frag_count_sums : list Q;
  tmix : list Q;
  cmix : list Q;
  multiread_alignments : list (list MultireadAlignment)
}.

(** ** Field updates *)

Definition set_tmix (sm : t) (x : list Q) : t :=
  Mk (weight_matrix sm) (num_components sm) (transcript_component sm)
     (component_num_transcripts sm) (component_transcripts sm)
     (component_frag sm) (frag_counts sm) (frag_probs sm) (frag_probs_prop sm)
     (frag_count_sums sm) x (cmix sm) (multiread_alignments sm).

Definition set_cmix (sm : t) (x : list Q) : t :=
  Mk (weight_matrix sm) (num_components sm) (transcript_component sm)
     (component_num_transcripts sm) (component_transcripts sm)
     (component_frag sm) (frag_counts sm) (frag_probs sm) (frag_probs_prop sm)
     (frag_count_sums sm) (tmix sm) x (multiread_alignments sm).

Definition set_frag_probs (sm : t) (x : list (list Q)) : t :=
  Mk (weight_matrix sm) (num_components sm) (transcript_component sm)
     (component_num_transcripts sm) (component_transcripts sm)
     (component_frag sm) (frag_counts sm) x (frag_probs_prop sm)
     (frag_count_sums sm) (tmix sm) (cmix sm) (multiread_alignments sm).

Definition set_frag_probs_prop (sm : t) (x : list (list Q)) : t :=
  Mk (weight_matrix sm) (num_components sm) (transcript_component sm)
     (component_num_transcripts sm) (component_transcripts sm)
     (component_frag sm) (frag_counts sm) (frag_probs sm) x
     (frag_count_sums sm) (tmix sm) (cmix sm) (multiread_alignments sm).

Definition set_frag_counts (sm : t) (x : list (list Q)) : t :=
  Mk (weight_matrix sm) (num_components sm) (transcript_component sm)
     (component_num_transcripts sm) (component_transcripts sm)
     (component_frag sm) x (frag_probs sm) (frag_probs_prop sm)
     (frag_count_sums sm) (tmix sm) (cmix sm) (multiread_alignments sm).

Definition set_frag_count_sums (sm : t) (x : list Q) : t :=
  Mk (weight_matrix sm) (num_components sm) (transcript_component sm)
     (component_num_transcripts sm) (component_transcripts sm)
     (component_frag sm) (frag_counts sm) (frag_probs sm) (frag_probs_prop sm)
     x (tmix sm) (cmix sm) (multiread_alignments sm).

Definition set_component_transcripts (sm : t) (x : list (list nat)) : t :=
  Mk (weight_matrix sm) (num_components sm) (transcript_component sm)
     (component_num_transcripts sm) x
     (component_frag sm) (frag_counts sm) (frag_probs sm) (frag_probs_prop sm)
     (frag_count_sums sm) (tmix sm) (cmix sm) (multiread_alignments sm).

(** ** Reading the arrays *)

Definition row_of (sm : t) (i : nat) : list Q :=
  nth i (WeightMatrix.rows (weight_matrix sm)) [].
Definition idx_of (sm : t) (i : nat) : list Z :=
  nth i (WeightMatrix.idxs (weight_matrix sm)) [].
(** [weight_matrix->rowlens[i]] *)
Definition rowlen (sm : t) (i : nat) : nat := length (row_of sm i).
Definition component_of (sm : t) (i : nat) : nat :=
  nth i (transcript_component sm) O.
(** [component_frag[c + 1] - component_frag[c]] *)
Definition component_size (sm : t) (c : nat) : nat :=
  Z.to_nat (nth (c + 1) (component_frag sm) 0%Z - nth c (component_frag sm) 0%Z).

(** ** linalg.hpp *)

(** Modelled from the spec: [asxpy] of linalg.hpp, which is not among
    the sources.  The spec has the mass shift applied "in-place via a
    sparse scaled-add over each transcript's nonzero fragment weights":
    [xs[idx[i] - off] += c * ys[i]] for the [n] entries of a row.  An
    entry whose column lies outside [xs] is not written. *)
Definition asxpy (xs ys : list Q) (c : Q) (idx : list Z) (off : Z) (n : nat)
  : list Q :=
  fold_left
    (fun xs i =>
       let d := (nth i idx 0%Z - off)%Z in
       if (0 <=? d)%Z && (d <? Z.of_nat (length xs))%Z
       then <[Z.to_nat d := nth (Z.to_nat d) xs 0 + c * nth i ys 0]> xs
       else xs)
    (seq 0 n) xs.

(** [std::fill(xs, xs + n, v)] *)
Definition fill (n : nat) (v : Q) (xs : list Q) : list Q :=
  replicate (Nat.min n (length xs)) v ++ drop n xs.

(** ** Sampler::init_frag_probs *)

Definition init_frag_probs (sm : t) : t :=
  let zeroed :=
    imap (fun i xs => if (i <? num_components sm)%nat
                      then fill (component_size sm i) 0 xs else xs)
         (frag_probs sm) in
  let filled :=
    fold_left
      (fun fp i =>
         let c := component_of sm i in
         <[c := asxpy (nth c fp []) (row_of sm i) (nth i (tmix sm) 0)
                      (idx_of sm i) (nth c (component_frag sm) 0%Z)
                      (rowlen sm i)]> fp)
      (seq 0 (Z.to_nat (WeightMatrix.nrow (weight_matrix sm)))) zeroed in
  set_frag_probs sm filled.

(** ** MCMCThread *)

(** Lines 1812-1834 of [run_inter_transcript]: the split [z] of the mass
    of [u] and [v] is written to [tmix] and carried into
    [frag_probs[c]]. *)
Definition apply_split (sm : t) (u v : nat) (z : Q) : t :=
  let c := component_of sm u in
  let tmixu := z * (nth u (tmix sm) 0 + nth v (tmix sm) 0) in
  let tmixv := (1 - z) * (nth u (tmix sm) 0 + nth v (tmix sm) 0) in
  let tmix_delta_u := tmixu - nth u (tmix sm) 0 in
  let tmix_delta_v := tmixv - nth v (tmix sm) 0 in
  let off := nth c (component_frag sm) 0%Z in
  let fp := nth c (frag_probs sm) [] in
  let fp := asxpy fp (row_of sm u) tmix_delta_u (idx_of sm u) off (rowlen sm u) in
  let fp := asxpy fp (row_of sm v) tmix_delta_v (idx_of sm v) off (rowlen sm v) in
  let sm := set_frag_probs sm (<[c := fp]> (frag_probs sm)) in
  set_tmix sm (<[v := tmixv]> (<[u := tmixu]> (tmix sm))).

Section MCMC.

(** [constants::zero_eps], [constants::tmix_prior_prec] *)
Variable zero_eps tmix_prior_prec : Q.
(** [dotlog(counts, probs, n)] and [fastlog2(x)] of linalg.hpp and
    logger-free helpers, whatever they compute. *)
Variable dotlog : list Q -> list Q -> nat -> fval.
Variable fastlog2 : Q -> fval.
(** [transcript_slice_sample_search] (lines 1652-1785): the boundary
    it returns, and what its calls of
    [recompute_component_probability] leave in the scratch array
    [frag_probs_prop[c]], the one thing they write. *)
Variable transcript_slice_sample_search :
  t -> fval -> nat -> nat -> Q -> fval -> bool -> Q * list Q.
(** [gsl_ran_shuffle] and [gsl_ran_gamma(rng, a, 1.0)] *)
Variable gsl_ran_shuffle : gsl_rng -> list nat -> list nat * gsl_rng.
Variable gsl_ran_gamma : gsl_rng -> Q -> Q * gsl_rng.

Definition run_inter_transcript (sm : t) (u v : nat) (rng : gsl_rng)
  : t * gsl_rng :=
  if Qltb (nth u (tmix sm) 0 + nth v (tmix sm) 0) zero_eps then (sm, rng)
  else
    let c := component_of sm u in
    let p0 := dotlog (nth c (frag_counts sm) []) (nth c (frag_probs sm) [])
                     (component_size sm c) in
    let '(x, rng) := gsl_rng_uniform rng in
    let slice_height := fadd (fastlog2 x) p0 in
    let z0 := nth u (tmix sm) 0 / (nth u (tmix sm) 0 + nth v (tmix sm) 0) in
    if finite slice_height then
      let '(s0, prop) :=
        transcript_slice_sample_search sm slice_height u v z0 p0 true in
      let sm := set_frag_probs_prop sm (<[c := prop]> (frag_probs_prop sm)) in
      let '(s1, prop) :=
        transcript_slice_sample_search sm slice_height u v z0 p0 false in
      let sm := set_frag_probs_prop sm (<[c := prop]> (frag_probs_prop sm)) in
      let '(y, rng) := gsl_rng_uniform rng in
      (apply_split sm u v (s0 + y * (s1 - s0)), rng)
    else
      let '(y, rng) := gsl_rng_uniform rng in
      (apply_split sm u v y, rng).

(** [run_component(u)] *)
Definition run_component (sm : t) (u : nat) (rng : gsl_rng) : t * gsl_rng :=
  let prec := nth u (frag_count_sums sm) 0
              + inject_Z (Z.of_nat (nth u (component_num_transcripts sm) O))
                * tmix_prior_prec in
  let '(g, rng) := gsl_ran_gamma rng prec in
  (set_cmix sm (<[u := g]> (cmix sm)), rng).

(** The loop of [run_intra_component] over the pairs
    ([ts[i]], [ts[i + 1]]). *)
Fixpoint run_pairs (sm : t) (ts : list nat) (rng : gsl_rng) : t * gsl_rng :=
  match ts with
  | u :: ((v :: _) as rest) =>
      let '(sm, rng) := run_inter_transcript sm u v rng in
      run_pairs sm rest rng
  | _ => (sm, rng)
  end.

(** [run_intra_component(c)] *)
Definition run_intra_component (sm : t) (c : nat) (rng : gsl_rng)
  : t * gsl_rng :=
  if (nth c (component_num_transcripts sm) O <=? 1)%nat then (sm, rng)
  else
    let '(ts, rng) := gsl_ran_shuffle rng (nth c (component_transcripts sm) []) in
    let sm := set_component_transcripts sm (<[c := ts]> (component_transcripts sm)) in
    run_pairs sm ts rng.

(** A thread works through the items of a block in turn. *)
Definition thread (f : t -> nat -> gsl_rng -> t * gsl_rng)
           (st : t * gsl_rng) (block : list nat) : t * gsl_rng :=
  fold_left (fun st c => f (fst st) c (snd st)) block st.

(** [InferenceThread::run] on one [ComponentSubset]. *)
Definition run_subset (st : t * gsl_rng) (cs : list nat) : t * gsl_rng :=
  thread run_component (thread run_intra_component st cs) cs.

(** ** MultireadSamplerThread *)

(** [*p] and [*p = x] for a pointer into [frag_probs] or
    [frag_counts]. *)
Definition deref (arr : list (list Q)) (p : nat * nat) : Q :=
  nth (snd p) (nth (fst p) arr []) 0.

Definition store (arr : list (list Q)) (p : nat * nat) (x : Q)
  : list (list Q) :=
  <[fst p := <[snd p := x]> (nth (fst p) arr [])]> arr.

(** Lines 1911-1918: where the loop over the alignments breaks, or
    their number when it runs to its end. *)
Fixpoint select (probs : list Q) (r : Q) : nat :=
  match probs with
  | [] => O
  | p :: rest => if Qle_bool r p then O else S (select rest (r - p))
  end.

(** Lines 1902-1920, for the multiread [u].  With no alignment at all
    ([k = 0]) nothing of this multiread is written. *)
Definition resolve_multiread (sm : t) (u : nat) (rng : gsl_rng)
  : t * gsl_rng :=
  let als := nth u (multiread_alignments sm) [] in
  let k := length als in
  let '(sumprob, fc) :=
    fold_left
      (fun (st : Q * list (list Q)) a =>
         (fst st + deref (frag_probs sm) (prob a), store (snd st) (count a) 0))
      als (0, frag_counts sm) in
  let '(x, rng) := gsl_rng_uniform rng in
  let r := sumprob * x in
  let i := select (map (fun a => deref (frag_probs sm) (prob a)) als) r in
  let i := Nat.min i (k - 1) in
  match als !! i with
  | Some a => (set_frag_counts sm (store fc (count a) 1), rng)
  | None => (set_frag_counts sm fc, rng)
  end.

(** ** Sampler::run *)

(** The work queues hold consecutive blocks of at most [n] items. *)
Fixpoint blocks_of (fuel n : nat) (xs : list nat) : list (list nat) :=
  match fuel, xs with
  | S fuel, _ :: _ => take n xs :: blocks_of fuel n (drop n xs)
  | _, _ => []
  end.

(** "Initial mixtures" *)
Definition initial_mixtures (sm : t) : t :=
  let nrow := Z.to_nat (WeightMatrix.nrow (weight_matrix sm)) in
  let sm :=
    set_tmix sm
      (map (fun i =>
              1 / inject_Z (Z.of_nat
                    (nth (component_of sm i) (component_num_transcripts sm) O)))
           (seq 0 nrow)) in
  let sm :=
    set_cmix sm
      (replicate (num_components sm)
                 (1 / inject_Z (Z.of_nat (num_components sm)))) in
  init_frag_probs sm.

(** "Recompute total fragments in each component" *)
Definition recompute_frag_count_sums (sm : t) : t :=
  set_frag_count_sums sm
    (map (fun i =>
            fold_left (fun acc j => acc + nth j (nth i (frag_counts sm) []) 0)
                      (seq 0 (component_size sm i)) 0)
         (seq 0 (num_components sm))).

(** "normalize cmix" *)
Definition normalize_cmix (sm : t) : t :=
  let z := fold_left (fun z c => z + nth c (cmix sm) 0)
                     (seq 0 (num_components sm)) 0 in
  set_cmix sm
    (fold_left (fun cm c => <[c := nth c cm 0 / z]> cm)
               (seq 0 (num_components sm)) (cmix sm)).

(** One turn of the loop over [sample_num].  The blocks of a queue are
    taken one after the other: the threads that share a queue work on
    different multireads, and on different components. *)
Definition round (st : t * list nat * gsl_rng) : t * list nat * gsl_rng :=
  let '(sm, cs, rng) := st in
  let num_multireads := length (multiread_alignments sm) in
  let '(sm, rng) :=
    fold_left (thread resolve_multiread)
              (blocks_of num_multireads 100 (seq 0 num_multireads))
              (sm, rng) in
  let sm := recompute_frag_count_sums sm in
  let '(cs, rng) := gsl_ran_shuffle rng cs in
  let '(sm, rng) :=
    fold_left run_subset (blocks_of (length cs) 10 cs) (sm, rng) in
  (normalize_cmix sm, cs, rng).

(** [Sampler::run(num_samples)] *)
Definition run (sm : t) (num_samples : nat) (rng : gsl_rng)
  : t * list nat * gsl_rng :=
  Nat.iter num_samples round
           (initial_mixtures sm, seq 0 (num_components sm), rng).

(** ** Mixtures *)

Definition Qsum (xs : list Q) : Q := fold_right Qplus 0 xs.



(** What the constructor establishes of the component tables: every
    component has a list of distinct transcripts, not empty, each a
    row of the matrix labelled with that component, and
    [component_num_transcripts] holds the lengths. *)
Record components_ok (sm : t) : Prop := {
  ok_tables : length (component_transcripts sm) = num_components sm;
  ok_nodup : forall c, (c < num_components sm)%nat ->
               NoDup (nth c (component_transcripts sm) []);
  ok_nonempty : forall c, (c < num_components sm)%nat ->
                  nth c (component_transcripts sm) [] <> [];
  ok_member : forall c i, (c < num_components sm)%nat ->
                i ∈ nth c (component_transcripts sm) [] ->
                (i < Z.to_nat (WeightMatrix.nrow (weight_matrix sm)))%nat
                /\ component_of sm i = c;
  ok_count : forall c, (c < num_components sm)%nat ->
               nth c (component_num_transcripts sm) O
               = length (nth c (component_transcripts sm) [])
}.









(** What no step of the sampler changes. *)
Definition static (sm : t) : Z * nat * list nat * list nat :=
  (WeightMatrix.nrow (weight_matrix sm), num_components sm,
   transcript_component sm, component_num_transcripts sm).

(** [sm'] has the tables of [sm], the list of each component possibly
    in another order. *)
Definition same_shape (sm sm' : t) : Prop :=
  static sm' = static sm
  /\ length (component_transcripts sm') = length (component_transcripts sm)
  /\ forall c, nth c (component_transcripts sm') []
               ≡ₚ nth c (component_transcripts sm) [].

Lemma same_shape_refl sm : same_shape sm sm.
Proof. repeat split; reflexivity. Qed.


Lemma same_shape_fields sm sm' :
  static sm' = static sm ->
  component_transcripts sm' = component_transcripts sm ->
  same_shape sm sm'.
Proof. intros H1 H2. repeat split; try assumption; now rewrite H2. Qed.






Lemma apply_split_shape sm u v z : same_shape sm (apply_split sm u v z).
Proof. apply same_shape_fields; reflexivity. Qed.








(** [gsl_ran_shuffle] permutes its array; [gsl_ran_gamma] draws a
    positive number. *)
Hypothesis gsl_ran_shuffle_perm :
  forall rng l, fst (gsl_ran_shuffle rng l) ≡ₚ l.
Hypothesis gsl_ran_gamma_pos :
  forall rng a, 0 < fst (gsl_ran_gamma rng a).




















(** ** Fragment probabilities *)

(** The weight of column [col] in a row: the sum of the entries of
    the row stored under that column (one entry at most in a matrix
    the initialiser has filled). *)
Definition row_weight (ys : list Q) (idx : list Z) (n : nat) (col : Z) : Q :=
  Qsum (map (fun i => if (nth i idx 0%Z =? col)%Z then nth i ys 0 else 0)
            (seq 0 n)).

(** [weight(t, col)] *)
Definition weight (sm : t) (i : nat) (col : Z) : Q :=
  row_weight (row_of sm i) (idx_of sm i) (rowlen sm i) col.














(** ** The multiread resolver *)

(** The cell a pointer names exists. *)
Definition valid_cell (arr : list (list Q)) (p : nat * nat) : Prop :=
  (fst p < length arr)%nat /\ (snd p < length (nth (fst p) arr []))%nat.








(** C6.  [run_inter_transcript(u, v)] meets the two numeric
    degeneracies by a local fallback.  When [tmix[u] + tmix[v]] is
    below [zero_eps] the call returns at once: the sampler state and
    the random number generator are what they were.  Otherwise, when
    the slice height (the log-likelihood [p0] plus [fastlog2] of a
    uniform draw) is not finite, the split [z] is the next uniform
    draw and no slice boundary is searched: the result does not depend
    on [transcript_slice_sample_search].  Either way a state is
    returned. *)
Theorem run_inter_transcript_fallbacks (sm : t) (u v : nat) (rng : gsl_rng) :
  (nth u (tmix sm) 0 + nth v (tmix sm) 0 < zero_eps ->
   run_inter_transcript sm u v rng = (sm, rng))
  /\ (~ nth u (tmix sm) 0 + nth v (tmix sm) 0 < zero_eps ->
      let c := component_of sm u in
      let p0 := dotlog (nth c (frag_counts sm) []) (nth c (frag_probs sm) [])
                       (component_size sm c) in
      let '(x, rng1) := gsl_rng_uniform rng in
      let '(y, rng2) := gsl_rng_uniform rng1 in
      finite (fadd (fastlog2 x) p0) = false ->
      run_inter_transcript sm u v rng = (apply_split sm u v y, rng2)).
Proof.
  unfold run_inter_transcript. split.
  - intros H. apply Qltb_lt in H. rewrite H. reflexivity.
  - intros H. simpl. intros Hfin.
    destruct (Qltb _ zero_eps) eqn:E; [apply Qltb_lt in E; contradiction |].
    rewrite Hfin. reflexivity.
Qed.

End MCMC.

(** ** "normalize cmix" in IEEE 754 arithmetic

    The pass of lines 2046-2054 once more, this time with the rounding
    of the machine: [cmix] is an array of [double] (binary64), the
    accumulator is [float z] (binary32).  [z += cmix[c]] adds in
    [double] and rounds the sum to [float]; [cmix[c] /= z] divides in
    [double].  Numbers are [spec_float]s of the Standard Library, whose
    operations round to nearest, ties to even. *)

Definition to_format (prec emax : Z) (x : SpecFloat.spec_float)
  : SpecFloat.spec_float :=
  match x with
  | SpecFloat.S754_finite s m e =>
      SpecFloat.binary_normalize prec emax
        (SpecFloat.cond_Zopp s (Zpos m)) e s
  | _ => x
  end.

(** The conversions [(float) x] and [(double) x]. *)
Definition to_float : SpecFloat.spec_float -> SpecFloat.spec_float :=
  to_format 24 128.

Definition double_of_Z (n : Z) : SpecFloat.spec_float :=
  SpecFloat.binary_normalize 53 1024 n 0 false.


(** The rational a finite float stands for. *)
Definition SF2Q (x : SpecFloat.spec_float) : Q :=
  match x with
  | SpecFloat.S754_finite s m e =>
      inject_Z (SpecFloat.cond_Zopp s (Zpos m)) * Qpower 2 e
  | _ => 0
  end.

(** Two checks of the arithmetic against well-known values: the [float]
    nearest to 1/3 is 11184811 / 2^25, and in [float] 2^24 + 1 rounds
    back to 2^24. *)
Example float_one_third :
  Qred (SF2Q (to_float (SpecFloat.SFdiv 53 1024 (double_of_Z 1) (double_of_Z 3))))
  = 11184811 # 33554432.
Proof. vm_compute. reflexivity. Qed.

Example float_2_24_plus_1 :
  Qred (SF2Q (to_float (SpecFloat.SFadd 53 1024 (double_of_Z 16777216)
                                        (double_of_Z 1))))
  = 16777216 # 1.
Proof. vm_compute. reflexivity. Qed.


(** ** A small sampler

    Three transcripts: 0 and 1 share fragment 1 and form component 0
    with the fragments 0, 1, 2; transcript 2 alone forms component 1
    with fragment 3.  One multiread with an alignment in each
    component. *)
Definition example : t :=
  Mk (WeightMatrix.Mk 3 4 [[1 # 2; 1 # 2]; [1 # 4; 3 # 4]; [1]]
                      [[0; 1]; [1; 2]; [3]]%Z)
     2 [0; 0; 1]%nat [2; 1]%nat [[0; 1]; [2]]%nat [0; 3; 4]%Z
     [[1; 1; 1]; [1]] [[1 # 4; 3 # 8; 3 # 8]; [1]] [[0; 0; 0]; [0]]
     [0; 0] [1 # 2; 1 # 2; 1] [1 # 2; 1 # 2]
     [[Alignment (0, 0)%nat (0, 0)%nat; Alignment (1, 0)%nat (1, 0)%nat]].

(** A generator that hands out 1/2, 1/4, 1/2, 1/4, ... *)
Definition example_rng : gsl_rng :=
  Rng (fun n => if Nat.even n then 1 # 2 else 1 # 4) 0.




(** C6 at the small sampler: with a threshold of 2 the pair (0, 1), of
    mass 1, is skipped; with a threshold of 1/1000 and a likelihood of
    minus infinity the split is the second draw, 1/4. *)
Lemma run_inter_transcript_fallbacks_witness :
  run_inter_transcript 2 (fun _ _ _ => Finite 0) (fun _ => Finite 0)
                       (fun _ _ _ _ z0 _ _ => (z0, [])) example 0 1 example_rng
  = (example, example_rng)
  /\ run_inter_transcript (1 # 1000) (fun _ _ _ => Infinite true)
                          (fun _ => Finite 0)
                          (fun _ _ _ _ z0 _ _ => (z0, [])) example 0 1 example_rng
     = (apply_split example 0 1 (1 # 4),
        Rng (fun n => if Nat.even n then 1 # 2 else 1 # 4) 2).
Proof.
  split.
  - apply (proj1 (run_inter_transcript_fallbacks 2 (fun _ _ _ => Finite 0)
                    (fun _ => Finite 0) (fun _ _ _ _ z0 _ _ => (z0, []))
                    example 0 1 example_rng)).
    reflexivity.
  - apply (proj2 (run_inter_transcript_fallbacks (1 # 1000)
                    (fun _ _ _ => Infinite true)
                    (fun _ => Finite 0) (fun _ _ _ _ z0 _ _ => (z0, []))
                    example 0 1 example_rng)).
    + intros H. vm_compute in H. discriminate.
    + reflexivity.
Defined.





End Sampler.

(** * The interval sweep of [sam_scan] (fragment_model.cpp, sampler.cpp) *)

Module IntervalSweep.

Import SamScan.

(** What the sweep reads of a [FragmentModelInterval]: the sequence id
    the BAM header gives its sequence name ([-1] when it has none) and
    its two ends.  In sampler.cpp the same loop runs over
    [SamplerInitInterval]s, with [ts.min_start] and [ts.max_end] for the
    ends. *)
Record interval : Type := Interval {
  iv_tid : Z;
  iv_start : Z;
  iv_end : Z
}.

(** [FragmentModelInterval::operator<] *)
Definition interval_ltb (a b : interval) : bool :=
  if negb (iv_tid a =? iv_tid b) then iv_tid a <? iv_tid b
  else if negb (iv_start a =? iv_start b) then iv_start a <? iv_start b
  else iv_end a <? iv_end b.

(** The calls the sweep makes on the intervals, by position in the
    sorted vector: [intervals[j]->add_alignment(b)] and
    [intervals[j]->finish()], which hands the interval to the queue. *)
Inductive event : Type :=
| Add (j : nat) (b : bam1)
| Finish (j : nat).

Section Scan.

(** [bam_calend(&b->core, bam1_cigar(b))] of samtools: the position one
    past the last aligned base. *)
Variable bam_calend : bam1 -> Z.

(** The loop state: [j0], the calls made so far, and whether every
    [assert(j == j0)] has held. *)
Definition state : Type := nat * list event * bool.

(** [for (j = j0; j < n; ++j)] of lines 332-349, from [j] on; [rest]
    holds [intervals[j]], [intervals[j + 1]], ... *)
Fixpoint add_loop (rest : list interval) (b : bam1) (j : nat) (st : state)
  : state :=
  match rest with
  | [] => st
  | iv :: rest =>
      let '(j0, tr, ok) := st in
      if core_tid b <? iv_tid iv then st
      else if iv_tid iv <? core_tid b then
        add_loop rest b (S j) (S j0, tr ++ [Finish j0], ok && (j =? j0)%nat)
      else if core_pos b <? iv_start iv then st
      else if iv_end iv <? core_pos b then
        if (j =? j0)%nat
        then add_loop rest b (S j) (S j0, tr ++ [Finish j0], ok)
        else add_loop rest b (S j) st
      else if bam_calend b - 1 <=? iv_end iv then
        add_loop rest b (S j) (j0, tr ++ [Add j b], ok)
      else add_loop rest b (S j) st
  end.

(** The [while (samread(bam_f, b) > 0)] loop: the sort check, then the
    sweep from [j0]. *)
Fixpoint scan_loop (ivs : list interval) (last_tid last_pos : Z)
         (st : state) (reads : list bam1) : outcome state :=
  match reads with
  | [] => Finished st
  | b :: rest =>
      if skipped b then scan_loop ivs last_tid last_pos st rest
      else if violates last_tid last_pos b then Abort_unsorted
      else
        let j0 := fst (fst st) in
        scan_loop ivs (core_tid b) (core_pos b)
                  (add_loop (drop j0 ivs) b j0 st) rest
  end.

(** [for(; j0 < n; ++j0) intervals[j0]->finish();] *)
Definition finish_rest (n : nat) (st : state) : list event * bool :=
  let '(j0, tr, ok) := st in
  (tr ++ map Finish (seq j0 (n - j0)), ok).

(** The scan over the sorted [intervals]: the calls it makes, in order,
    and whether the assertions held. *)
Definition sam_scan (ivs : list interval) (reads : list bam1)
  : outcome (list event * bool) :=
  match scan_loop ivs (-1) (-1) (O, [], true) reads with
  | Finished st => Finished (finish_rest (length ivs) st)
  | Abort_unsorted => Abort_unsorted
  | Abort_no_sequence => Abort_no_sequence
  end.

(** The alignment lies inside the interval: the tests an alignment
    passes before [add_alignment]. *)
Definition contains (iv : interval) (b : bam1) : bool :=
  (iv_tid iv =? core_tid b) && (iv_start iv <=? core_pos b)
  && (core_pos b <=? iv_end iv) && (bam_calend b - 1 <=? iv_end iv).

(** The intervals finished, in order, and the alignments added to
    interval [j], in order. *)
Definition finishes_of (tr : list event) : list nat :=
  flat_map (fun e => match e with Finish j => [j] | Add _ _ => [] end) tr.

Definition adds_of (j : nat) (tr : list event) : list bam1 :=
  flat_map (fun e => match e with
                     | Add j' b => if (j' =? j)%nat then [b] else []
                     | Finish _ => []
                     end) tr.

(** ** The discipline of the calls *)

(** Reading a trace with [c] intervals finished: a [Finish] is for
    interval [c], an [Add] for an interval not yet finished. *)
Fixpoint replay (c : nat) (tr : list event) : option nat :=
  match tr with
  | [] => Some c
  | Finish j :: tr => if (j =? c)%nat then replay (S c) tr else None
  | Add j _ :: tr => if (c <=? j)%nat then replay c tr else None
  end.

Lemma replay_app c tr1 tr2 :
  replay c (tr1 ++ tr2) = c' ← replay c tr1; replay c' tr2.
Proof.
  revert c. induction tr1 as [| [j b | j] tr1 IH]; intros c; simpl;
    [reflexivity | |].
  - destruct (c <=? j)%nat; [apply IH | reflexivity].
  - destruct (j =? c)%nat; [apply IH | reflexivity].
Qed.

Lemma replay_finishes tr : forall c c',
  replay c tr = Some c' -> finishes_of tr = seq c (c' - c) /\ (c <= c')%nat.
Proof.
  induction tr as [| [j b | j] tr IH]; intros c c'; simpl.
  - intros [= <-]. rewrite Nat.sub_diag. split; [reflexivity | lia].
  - destruct (c <=? j)%nat; [apply IH | discriminate].
  - destruct (Nat.eqb_spec j c) as [-> | _]; [| discriminate].
    intros H. destruct (IH _ _ H) as [E Hle]. rewrite E. split; [| lia].
    replace (c' - c)%nat with (S (c' - S c)) by lia. reflexivity.
Qed.

Lemma replay_add tr1 : forall c c' j b tr2,
  replay c (tr1 ++ Add j b :: tr2) = Some c' ->
  (j < c')%nat -> ~ In j (finishes_of tr1) /\ In j (finishes_of tr2).
Proof.
  intros c c' j b tr2 H Hj. rewrite replay_app in H.
  destruct (replay c tr1) as [c1 |] eqn:E1; [| discriminate].
  simpl in H. destruct (Nat.leb_spec c1 j) as [Hle |]; [| discriminate].
  destruct (replay_finishes _ _ _ E1) as [F1 _].
  destruct (replay_finishes _ _ _ H) as [F2 _].
  rewrite F1, F2, !in_seq. lia.
Qed.

(** Every added alignment lies inside its interval and is a read of
    the stream that the scan does not pass over. *)
Definition sound (ivs : list interval) (reads : list bam1) (tr : list event)
  : Prop :=
  forall j b, In (Add j b) tr ->
    exists iv, ivs !! j = Some iv /\ contains iv b = true
               /\ In b reads /\ mapped b = true.

Definition disciplined (ivs : list interval) (reads : list bam1) (st : state)
  : Prop :=
  replay 0 (snd (fst st)) = Some (fst (fst st))
  /\ (fst (fst st) <= length ivs)%nat
  /\ sound ivs reads (snd (fst st)).

Lemma drop_cons_lookup {A} (l : list A) j x rest :
  drop j l = x :: rest -> l !! j = Some x /\ drop (S j) l = rest.
Proof.
  intros H. split.
  - rewrite <- (Nat.add_0_r j), <- lookup_drop, H. reflexivity.
  - replace (S j) with (j + 1)%nat by lia. rewrite <- drop_drop, H.
    reflexivity.
Qed.

Lemma sound_snoc_finish ivs reads tr j :
  sound ivs reads tr -> sound ivs reads (tr ++ [Finish j]).
Proof.
  intros H k b Hin. apply in_app_iff in Hin as [Hin | [Hin | []]];
    [now apply H | discriminate].
Qed.

Lemma add_loop_disciplined ivs reads b :
  In b reads -> mapped b = true ->
  forall rest j st,
    drop j ivs = rest -> (fst (fst st) <= j)%nat ->
    disciplined ivs reads st ->
    disciplined ivs reads (add_loop rest b j st).
Proof.
  intros Hb Hm. induction rest as [| iv rest IH]; intros j [[j0 tr] ok] Hd Hj Hst;
    [exact Hst |].
  destruct (drop_cons_lookup _ _ _ _ Hd) as [Hiv Hrest].
  pose proof (lookup_lt_Some _ _ _ Hiv) as Hlt.
  destruct Hst as (Hr & Hn & Hs). simpl in Hr, Hn, Hs, Hj.
  assert (Hfin : disciplined ivs reads (S j0, tr ++ [Finish j0], ok)).
  { split; [| split]; simpl.
    - rewrite replay_app, Hr. simpl. now rewrite Nat.eqb_refl.
    - lia.
    - now apply sound_snoc_finish. }
  assert (Hfin' : forall ok', disciplined ivs reads (S j0, tr ++ [Finish j0], ok'))
    by (intros ok'; exact Hfin).
  cbn [add_loop].
  destruct (core_tid b <? iv_tid iv) eqn:E1; [now repeat split |].
  destruct (iv_tid iv <? core_tid b) eqn:E2.
  { apply IH; [exact Hrest | simpl; lia | apply Hfin']. }
  destruct (core_pos b <? iv_start iv) eqn:E3; [now repeat split |].
  destruct (iv_end iv <? core_pos b) eqn:E4.
  { destruct (Nat.eqb_spec j j0) as [-> | Hne].
    - apply IH; [exact Hrest | simpl; lia | exact Hfin].
    - apply IH; [exact Hrest | simpl; lia | now repeat split]. }
  destruct (bam_calend b - 1 <=? iv_end iv) eqn:E5.
  - apply IH; [exact Hrest | simpl; lia |]. split; [| split]; simpl.
    + rewrite replay_app, Hr. simpl.
      destruct (Nat.leb_spec j0 j); [reflexivity | lia].
    + exact Hn.
    + intros k b' Hin. apply in_app_iff in Hin as [Hin | [Hin | []]];
        [now apply Hs |].
      injection Hin as <- <-. exists iv. split; [exact Hiv |].
      split; [| now split]. unfold contains. rewrite E5.
      apply Z.ltb_ge in E1, E2, E3, E4.
      destruct (Z.eqb_spec (iv_tid iv) (core_tid b)); [| lia].
      destruct (Z.leb_spec (iv_start iv) (core_pos b)); [| lia].
      destruct (Z.leb_spec (core_pos b) (iv_end iv)); [reflexivity | lia].
  - apply IH; [exact Hrest | simpl; lia | now repeat split].
Qed.

Lemma scan_loop_disciplined ivs reads : forall rs last_tid last_pos st st',
  (forall b, In b rs -> In b reads) ->
  disciplined ivs reads st ->
  scan_loop ivs last_tid last_pos st rs = Finished st' ->
  disciplined ivs reads st'.
Proof.
  induction rs as [| b rs IH]; intros lt lp st st' Hsub Hst; simpl.
  - now intros [= <-].
  - assert (Hsub' : forall b', In b' rs -> In b' reads)
      by (intros b' Hb'; apply Hsub; now right).
    destruct (skipped b) eqn:Es; [now apply IH |].
    destruct (violates lt lp b); [discriminate |].
    apply IH; [exact Hsub' |].
    apply add_loop_disciplined; try reflexivity; try assumption.
    + apply Hsub. now left.
    + unfold mapped. now rewrite Es.
Qed.

Lemma replay_finish_run k : forall c,
  replay c (map Finish (seq c k)) = Some (c + k)%nat.
Proof.
  induction k as [| k IH]; intros c; simpl.
  - f_equal. lia.
  - rewrite Nat.eqb_refl, IH. f_equal. lia.
Qed.

(** X5.  When the scan reads the stream to its end, every interval has
    been finished (handed to the queue) exactly once, in the order of
    the sorted vector; an alignment is only added to an interval that
    has not been finished yet and is finished later; and it is only
    added to an interval it lies inside. *)
Theorem sweep_discipline ivs reads tr ok :
  sam_scan ivs reads = Finished (tr, ok) ->
  finishes_of tr = seq 0 (length ivs)
  /\ (forall tr1 j b tr2, tr = tr1 ++ Add j b :: tr2 ->
        ~ In j (finishes_of tr1) /\ In j (finishes_of tr2))
  /\ sound ivs reads tr.
Proof.
  unfold sam_scan.
  destruct (scan_loop ivs (-1) (-1) (O, [], true) reads)
    as [[[j0 tr0] ok0] | |] eqn:E; try discriminate.
  intros [= <- <-].
  assert (Hinit : disciplined ivs reads (O, [], true)).
  { split; [reflexivity |]. split; [simpl; lia | intros ? ? []]. }
  destruct (scan_loop_disciplined ivs reads reads (-1) (-1) _ _
              ltac:(auto) Hinit E)
    as (Hr & Hn & Hs). simpl in Hr, Hn, Hs.
  assert (Hfull : replay 0 (tr0 ++ map Finish (seq j0 (length ivs - j0)))
                  = Some (length ivs)).
  { rewrite replay_app, Hr. simpl. rewrite replay_finish_run. f_equal. lia. }
  assert (Hsound : sound ivs reads (tr0 ++ map Finish (seq j0 (length ivs - j0)))).
  { intros j b Hin. apply in_app_iff in Hin as [Hin | Hin]; [now apply Hs |].
    apply in_map_iff in Hin as (x & Hx & _). discriminate. }
  split; [| split; [| exact Hsound]].
  - destruct (replay_finishes _ _ _ Hfull) as [F _].
    now rewrite Nat.sub_0_r in F.
  - intros tr1 j b tr2 Htr. rewrite Htr in Hfull, Hsound.
    apply (replay_add tr1 0 (length ivs) j b tr2 Hfull).
    destruct (Hsound j b) as (iv & Hiv & _).
    + apply in_app_iff. right. now left.
    + eapply lookup_lt_Some, Hiv.
Qed.

(** ** Completeness on sorted intervals *)

(** The order [std::sort] leaves the vector in: no interval is less than
    one before it. *)
Definition sorted (ivs : list interval) : Prop :=
  StronglySorted (fun a b => interval_ltb b a = false) ivs.

(** The interval ends before the position [(t, p)] of the stream. *)
Definition passed (iv : interval) (t p : Z) : Prop :=
  iv_tid iv < t \/ (iv_tid iv = t /\ iv_end iv < p).

Lemma interval_ltb_irrefl a : interval_ltb a a = false.
Proof.
  unfold interval_ltb. rewrite !Z.eqb_refl. simpl. apply Z.ltb_irrefl.
Qed.

Lemma interval_ltb_false a c :
  interval_ltb c a = false ->
  iv_tid a < iv_tid c
  \/ (iv_tid a = iv_tid c
      /\ (iv_start a < iv_start c
          \/ (iv_start a = iv_start c /\ iv_end a <= iv_end c))).
Proof.
  unfold interval_ltb.
  destruct (Z.eqb_spec (iv_tid c) (iv_tid a)) as [Et | Et]; simpl.
  - destruct (Z.eqb_spec (iv_start c) (iv_start a)) as [Es | Es]; simpl;
      intros H; apply Z.ltb_ge in H; lia.
  - intros H. apply Z.ltb_ge in H. lia.
Qed.

Lemma sorted_lookup ivs : sorted ivs ->
  forall j k a c, (j <= k)%nat -> ivs !! j = Some a -> ivs !! k = Some c ->
    interval_ltb c a = false.
Proof.
  induction 1 as [| x l _ IH Hx]; intros j k a c Hjk Ha Hc; [discriminate |].
  destruct j as [| j], k as [| k]; simpl in Ha, Hc; try lia.
  - injection Ha as <-. injection Hc as <-. apply interval_ltb_irrefl.
  - injection Ha as <-. eapply Forall_forall in Hx; [exact Hx |].
    eapply list_elem_of_lookup_2, Hc.
  - eapply IH; [| exact Ha | exact Hc]. lia.
Qed.

Lemma passed_not_contains iv b :
  passed iv (core_tid b) (core_pos b) -> contains iv b = false.
Proof.
  unfold passed, contains. intros H.
  destruct (Z.eqb_spec (iv_tid iv) (core_tid b)); [| reflexivity].
  destruct (Z.leb_spec (core_pos b) (iv_end iv)); [lia |].
  now rewrite !andb_false_r.
Qed.

Lemma adds_of_snoc k tr e : adds_of k (tr ++ [e]) = adds_of k tr ++ adds_of k [e].
Proof. unfold adds_of. now rewrite flat_map_app. Qed.

Lemma add_loop_sorted ivs b (Hsorted : sorted ivs) :
  forall rest j j0 tr j0' tr' ok',
    drop j ivs = rest -> (j0 <= j)%nat ->
    (forall k iv, (j0 <= k < j)%nat -> ivs !! k = Some iv ->
       iv_tid iv = core_tid b) ->
    (forall k iv, (k < j0)%nat -> ivs !! k = Some iv ->
       passed iv (core_tid b) (core_pos b)) ->
    add_loop rest b j (j0, tr, true) = (j0', tr', ok') ->
    ok' = true
    /\ (forall k iv, (k < j0')%nat -> ivs !! k = Some iv ->
          passed iv (core_tid b) (core_pos b))
    /\ (forall k iv, ivs !! k = Some iv ->
          adds_of k tr'
          = adds_of k tr
            ++ if (j <=? k)%nat && contains iv b then [b] else []).
Proof.
  induction rest as [| iv rest IH]; intros j j0 tr j0' tr' ok' Hd Hj Hmid Hlow.
  - simpl. intros [= <- <- <-]. split; [reflexivity |]. split; [exact Hlow |].
    intros k iv Hiv. assert (Hk : (k < j)%nat).
    { apply lookup_lt_Some in Hiv.
      assert (length (drop j ivs) = O) by now rewrite Hd.
      rewrite length_drop in H. lia. }
    destruct (Nat.leb_spec j k); [lia |]. simpl. now rewrite app_nil_r.
  - destruct (drop_cons_lookup _ _ _ _ Hd) as [Hiv Hrest].
    assert (Hafter : forall k c, (j <= k)%nat -> ivs !! k = Some c ->
              interval_ltb c iv = false)
      by (intros k c Hk Hc; eapply sorted_lookup; eassumption).
    assert (Hskip : forall tr1,
              (forall k c, ivs !! k = Some c ->
                 adds_of k tr' = adds_of k tr1
                   ++ if (S j <=? k)%nat && contains c b then [b] else []) ->
              contains iv b = false -> adds_of j tr1 = adds_of j tr ->
              (forall k, k <> j -> adds_of k tr1 = adds_of k tr) ->
              forall k c, ivs !! k = Some c ->
                adds_of k tr' = adds_of k tr
                  ++ if (j <=? k)%nat && contains c b then [b] else []).
    { intros tr1 H1 Hno Hsame Hother k c Hc. rewrite (H1 k c Hc).
      destruct (decide (k = j)) as [-> | Hne].
      - rewrite Hiv in Hc. injection Hc as <-. rewrite Hno, Hsame.
        now rewrite !andb_false_r.
      - rewrite (Hother k Hne).
        destruct (Nat.leb_spec (S j) k), (Nat.leb_spec j k); try lia;
          reflexivity. }
    cbn [add_loop].
    destruct (Z.ltb_spec (core_tid b) (iv_tid iv)) as [E1 | E1].
    { intros [= <- <- <-]. split; [reflexivity |]. split; [exact Hlow |].
      intros k c Hc. destruct (Nat.leb_spec j k) as [Hk | Hk];
        [| simpl; now rewrite app_nil_r].
      pose proof (interval_ltb_false _ _ (Hafter k c Hk Hc)) as Hord.
      unfold contains. destruct (Z.eqb_spec (iv_tid c) (core_tid b)); [lia |].
      simpl. now rewrite app_nil_r. }
    destruct (Z.ltb_spec (iv_tid iv) (core_tid b)) as [E2 | E2].
    { assert (j = j0) as ->.
      { destruct (decide (j = j0)) as [| Hne]; [assumption | exfalso].
        destruct (lookup_lt_is_Some_2 ivs j0) as [a Ha];
          [apply lookup_lt_Some in Hiv; lia |].
        pose proof (Hmid j0 a ltac:(lia) Ha) as Hta.
        pose proof (interval_ltb_false _ _
                      (sorted_lookup ivs Hsorted j0 j a iv ltac:(lia) Ha Hiv)).
        lia. }
      rewrite Nat.eqb_refl. simpl. intros Hloop.
      destruct (IH (S j0) (S j0) _ _ _ _ Hrest ltac:(lia)
                   ltac:(intros; lia) 
                   ltac:(intros k c Hk Hc;
                         destruct (decide (k = j0)) as [-> | Hne];
                         [rewrite Hiv in Hc; injection Hc as <-; left; lia
                         | apply (Hlow k c); [lia | exact Hc]])
                   Hloop) as (Hok & Hp & Ha).
      split; [exact Hok |]. split; [exact Hp |].
      apply (Hskip _ Ha).
      - unfold contains. destruct (Z.eqb_spec (iv_tid iv) (core_tid b));
          [lia | reflexivity].
      - rewrite adds_of_snoc. simpl. now rewrite app_nil_r.
      - intros k _. rewrite adds_of_snoc. simpl. now rewrite app_nil_r. }
    assert (Et : iv_tid iv = core_tid b) by lia.
    destruct (Z.ltb_spec (core_pos b) (iv_start iv)) as [E3 | E3].
    { intros [= <- <- <-]. split; [reflexivity |]. split; [exact Hlow |].
      intros k c Hc. destruct (Nat.leb_spec j k) as [Hk | Hk];
        [| simpl; now rewrite app_nil_r].
      pose proof (interval_ltb_false _ _ (Hafter k c Hk Hc)) as Hord.
      unfold contains. destruct (Z.eqb_spec (iv_tid c) (core_tid b));
        [| simpl; now rewrite app_nil_r].
      destruct (Z.leb_spec (iv_start c) (core_pos b)); [lia |].
      simpl. now rewrite app_nil_r. }
    assert (Hmid' : forall k c, (j0 <= k < S j)%nat -> ivs !! k = Some c ->
              iv_tid c = core_tid b).
    { intros k c Hk Hc. destruct (decide (k = j)) as [-> | Hne].
      - rewrite Hiv in Hc. now injection Hc as <-.
      - apply (Hmid k c); [lia | exact Hc]. }
    destruct (Z.ltb_spec (iv_end iv) (core_pos b)) as [E4 | E4].
    { assert (Hno : contains iv b = false).
      { unfold contains. destruct (Z.leb_spec (core_pos b) (iv_end iv)); [lia |].
        now rewrite !andb_false_r. }
      destruct (Nat.eqb_spec j j0) as [-> | Hne]; intros Hloop.
      - destruct (IH (S j0) (S j0) _ _ _ _ Hrest ltac:(lia)
                     ltac:(intros; lia)
                     ltac:(intros k c Hk Hc;
                           destruct (decide (k = j0)) as [-> | Hne];
                           [rewrite Hiv in Hc; injection Hc as <-; right; lia
                           | apply (Hlow k c); [lia | exact Hc]])
                     Hloop) as (Hok & Hp & Ha).
        split; [exact Hok |]. split; [exact Hp |].
        apply (Hskip _ Ha Hno).
        + rewrite adds_of_snoc. simpl. now rewrite app_nil_r.
        + intros k _. rewrite adds_of_snoc. simpl. now rewrite app_nil_r.
      - destruct (IH (S j) j0 _ _ _ _ Hrest ltac:(lia) Hmid' Hlow Hloop)
          as (Hok & Hp & Ha).
        split; [exact Hok |]. split; [exact Hp |].
        now apply (Hskip _ Ha Hno). }
    destruct (Z.leb_spec (bam_calend b - 1) (iv_end iv)) as [E5 | E5];
      intros Hloop.
    + destruct (IH (S j) j0 _ _ _ _ Hrest ltac:(lia) Hmid' Hlow Hloop)
        as (Hok & Hp & Ha).
      split; [exact Hok |]. split; [exact Hp |].
      intros k c Hc. rewrite (Ha k c Hc), adds_of_snoc.
      cbn [adds_of flat_map]. rewrite app_nil_r.
      destruct (Nat.eqb_spec j k) as [<- | Hne].
      * rewrite Hiv in Hc. injection Hc as <-.
        assert (contains iv b = true) as ->.
        { unfold contains.
          destruct (Z.eqb_spec (iv_tid iv) (core_tid b)); [| lia].
          destruct (Z.leb_spec (iv_start iv) (core_pos b)); [| lia].
          destruct (Z.leb_spec (core_pos b) (iv_end iv)); [| lia].
          destruct (Z.leb_spec (bam_calend b - 1) (iv_end iv)); [| lia].
          reflexivity. }
        destruct (Nat.leb_spec (S j) j); [lia |].
        destruct (Nat.leb_spec j j); [| lia]. cbn [andb].
        now rewrite app_nil_r.
      * rewrite app_nil_r.
        destruct (Nat.leb_spec (S j) k), (Nat.leb_spec j k); try lia;
          reflexivity.
    + destruct (IH (S j) j0 _ _ _ _ Hrest ltac:(lia) Hmid' Hlow Hloop)
        as (Hok & Hp & Ha).
      split; [exact Hok |]. split; [exact Hp |].
      apply (Hskip _ Ha); [| reflexivity | reflexivity].
      unfold contains.
      destruct (Z.leb_spec (bam_calend b - 1) (iv_end iv)); [lia |].
      now rewrite !andb_false_r.
Qed.

Lemma scan_loop_sorted ivs (Hsorted : sorted ivs) :
  forall rs last_tid last_pos j0 tr st',
    (forall k iv, (k < j0)%nat -> ivs !! k = Some iv ->
       passed iv last_tid last_pos) ->
    scan_loop ivs last_tid last_pos (j0, tr, true) rs = Finished st' ->
    snd st' = true
    /\ forall k iv, ivs !! k = Some iv ->
         adds_of k (snd (fst st'))
         = adds_of k tr ++ List.filter (contains iv) (List.filter mapped rs).
Proof.
  induction rs as [| b rs IH]; intros lt lp j0 tr st' Hlow; simpl.
  - intros [= <-]. split; [reflexivity |]. intros k iv _. now rewrite app_nil_r.
  - unfold mapped at 1. destruct (skipped b) eqn:Es; simpl; [now apply IH |].
    destruct (violates lt lp b) eqn:Ev; [discriminate |].
    assert (Hlow' : forall k iv, (k < j0)%nat -> ivs !! k = Some iv ->
              passed iv (core_tid b) (core_pos b)).
    { intros k iv Hk Hiv. specialize (Hlow k iv Hk Hiv).
      unfold violates in Ev. apply orb_false_iff in Ev as [E1 E2].
      apply Z.ltb_ge in E1. unfold passed in *.
      destruct (Z.eqb_spec (core_tid b) lt) as [Et | Et]; simpl in E2;
        [apply Z.ltb_ge in E2 |]; lia. }
    destruct (add_loop (drop j0 ivs) b j0 (j0, tr, true))
      as [[j1 tr1] ok1] eqn:El.
    assert (Hmid : forall k iv, (j0 <= k < j0)%nat -> ivs !! k = Some iv ->
              iv_tid iv = core_tid b) by (intros; lia).
    destruct (add_loop_sorted ivs b Hsorted _ _ _ _ _ _ _ eq_refl
                (Nat.le_refl j0) Hmid Hlow' El)
      as (-> & Hp & Ha).
    intros Hs. destruct (IH _ _ _ _ _ Hp Hs) as [Hok Hadds].
    split; [exact Hok |]. intros k iv Hiv.
    rewrite (Hadds k iv Hiv), (Ha k iv Hiv), <- app_assoc. f_equal.
    destruct (Nat.leb_spec j0 k) as [Hk | Hk]; simpl.
    + destruct (contains iv b); reflexivity.
    + now rewrite (passed_not_contains iv b (Hlow' k iv Hk Hiv)).
Qed.

(** X6.  On intervals in the order [std::sort] leaves them, a scan that
    reads the stream to its end adds to every interval exactly the
    alignments of the stream that are not passed over and lie inside it,
    in the order of the stream; and no [assert(j == j0)] fails. *)
Theorem sweep_complete ivs reads tr ok :
  sorted ivs ->
  sam_scan ivs reads = Finished (tr, ok) ->
  ok = true
  /\ forall j iv, ivs !! j = Some iv ->
       adds_of j tr = List.filter (contains iv) (List.filter mapped reads).
Proof.
  intros Hsorted. unfold sam_scan.
  destruct (scan_loop ivs (-1) (-1) (O, [], true) reads)
    as [[[j0 tr0] ok0] | |] eqn:E; try discriminate.
  intros [= <- <-].
  assert (Hlow : forall k iv, (k < 0)%nat -> ivs !! k = Some iv ->
            passed iv (-1) (-1)) by (intros; lia).
  destruct (scan_loop_sorted ivs Hsorted _ _ _ _ _ _ Hlow E) as [Hok Hadds].
  split; [exact Hok |]. intros j iv Hiv. simpl in Hadds.
  rewrite <- (Hadds j iv Hiv). unfold adds_of. rewrite flat_map_app.
  rewrite <- app_nil_r. f_equal.
  generalize (seq j0 (length ivs - j0)). intros l.
  induction l as [| x l IH]; [reflexivity | exact IH].
Qed.

End Scan.

(** X7.  [FragmentModelInterval::operator<] is a strict weak ordering,
    as [std::sort] asks of its comparison: no interval is less than
    itself, the order is transitive, and so is being unordered. *)
Theorem interval_lt_strict_weak_order :
  (forall a, interval_ltb a a = false)
  /\ (forall a b c, interval_ltb a b = true -> interval_ltb b c = true ->
        interval_ltb a c = true)
  /\ (forall a b c,
        interval_ltb a b = false /\ interval_ltb b a = false ->
        interval_ltb b c = false /\ interval_ltb c b = false ->
        interval_ltb a c = false /\ interval_ltb c a = false).
Proof.
  split; [apply interval_ltb_irrefl |].
  assert (Hlt : forall a b, interval_ltb a b = true <->
            iv_tid a < iv_tid b
            \/ (iv_tid a = iv_tid b
                /\ (iv_start a < iv_start b
                    \/ (iv_start a = iv_start b /\ iv_end a < iv_end b)))).
  { intros a b. unfold interval_ltb.
    destruct (Z.eqb_spec (iv_tid a) (iv_tid b)); simpl;
      [destruct (Z.eqb_spec (iv_start a) (iv_start b)); simpl |];
      rewrite Z.ltb_lt; lia. }
  assert (Hge : forall a b, interval_ltb a b = false <->
            ~ (iv_tid a < iv_tid b
               \/ (iv_tid a = iv_tid b
                   /\ (iv_start a < iv_start b
                       \/ (iv_start a = iv_start b /\ iv_end a < iv_end b))))).
  { intros a b. rewrite <- Hlt. now destruct (interval_ltb a b). }
  split.
  - intros a b c. rewrite !Hlt. lia.
  - intros a b c. rewrite !Hge. lia.
Qed.

(** Three intervals on two sequences and a sorted stream of five reads,
    one of them unmapped; an alignment ends nine bases after it
    starts. *)
Definition example_intervals : list interval :=
  [Interval 0 100 200; Interval 0 150 400; Interval 1 10 50].

Definition example_reads : list bam1 :=
  [Bam1 0 120 0 "r1"; Bam1 0 160 0 "r2"; Bam1 0 195 4 "r3";
   Bam1 0 300 0 "r4"; Bam1 1 20 0 "r5"].

Definition example_calend (b : bam1) : Z := core_pos b + 10.

Example example_scan :
  sam_scan example_calend example_intervals example_reads
  = Finished ([Add 0 (Bam1 0 120 0 "r1"); Add 0 (Bam1 0 160 0 "r2");
               Add 1 (Bam1 0 160 0 "r2"); Finish 0;
               Add 1 (Bam1 0 300 0 "r4"); Finish 1;
               Add 2 (Bam1 1 20 0 "r5"); Finish 2], true).
Proof. vm_compute. reflexivity. Qed.

Lemma sweep_discipline_witness :
  finishes_of
    [Add 0 (Bam1 0 120 0 "r1"); Add 0 (Bam1 0 160 0 "r2");
     Add 1 (Bam1 0 160 0 "r2"); Finish 0;
     Add 1 (Bam1 0 300 0 "r4"); Finish 1;
     Add 2 (Bam1 1 20 0 "r5"); Finish 2] = [0; 1; 2]%nat.
Proof.
  exact (proj1 (sweep_discipline example_calend example_intervals
                                 example_reads _ _ example_scan)).
Defined.

Lemma sweep_complete_witness :
  adds_of 1 [Add 0 (Bam1 0 120 0 "r1"); Add 0 (Bam1 0 160 0 "r2");
             Add 1 (Bam1 0 160 0 "r2"); Finish 0;
             Add 1 (Bam1 0 300 0 "r4"); Finish 1;
             Add 2 (Bam1 1 20 0 "r5"); Finish 2]
  = [Bam1 0 160 0 "r2"; Bam1 0 300 0 "r4"].
Proof.
  refine (proj2 (sweep_complete example_calend example_intervals
                                example_reads _ _ _ example_scan)
                1%nat (Interval 0 150 400) eq_refl).
  repeat constructor.
Defined.

End IntervalSweep.

(** * AlnCountTrie: [set], [has] and [size] (fragment_model.cpp) *)

Module AlnCountTrieAccess.

Import AlnCountTrie.

Local Open Scope Z_scope.

(** [*val = (count.first & 0xffff) | ((count.second & 0xffff) << 16);] *)
Definition set (t : gmap string Z) (id : string) (count : Z * Z)
  : gmap string Z :=
  let '(t1, _) := hattrie_get t id in
  <[id := Z.lor (Z.land (fst count) 0xffff)
                (Z.shiftl (Z.land (snd count) 0xffff) 16)]> t1.

(** [hattrie_tryget(t, id, strlen(id)) != NULL] *)
Definition has (t : gmap string Z) (id : string) : bool :=
  match hattrie_tryget t id with Some _ => true | None => false end.

(** [hattrie_size(t)] *)
Definition size (t : gmap string Z) : nat := base.size t.

Lemma set_lookup t id count :
  set t id count !! id = Some (packed (fst count) (snd count)).
Proof.
  unfold set, hattrie_get.
  assert (E : Z.lor (Z.land (fst count) 0xffff)
                    (Z.shiftl (Z.land (snd count) 0xffff) 16)
              = packed (fst count) (snd count)).
  { rewrite !land_ffff, Z.shiftl_mul_pow2, Z.lor_comm, Z.mul_comm by lia.
    apply lor_disjoint; [apply Z.mod_pos_bound; lia |].
    apply Z.mod_pos_bound. lia. }
  destruct (t !! id); rewrite lookup_insert_eq, E; reflexivity.
Qed.

Lemma set_lookup_ne t id count id' :
  id' <> id -> set t id count !! id' = t !! id'.
Proof.
  intros Hne. unfold set, hattrie_get.
  destruct (t !! id); rewrite !lookup_insert_ne by congruence; reflexivity.
Qed.

(** X8.  What [set] stores, [get] reads back, each count cut to its 16
    bits; [has] then holds; no other read is touched; and an
    [inc_mate1] after it counts on from the stored pair, leaving the
    mate-2 count. *)
Theorem set_get_round_trip (t : gmap string Z) (id : string) (count : Z * Z) :
  get (set t id count) id = (fst count mod 65536, snd count mod 65536)
  /\ has (set t id count) id = true
  /\ (forall id', id' <> id ->
        get (set t id count) id' = get t id'
        /\ has (set t id count) id' = has t id')
  /\ get (inc_mate1 (set t id count) id) id
     = ((fst count + 1) mod 65536, snd count mod 65536).
Proof.
  assert (Hget : forall c1 c2 (t' : gmap string Z),
            t' !! id = Some (packed c1 c2) ->
            get t' id = (c1 mod 65536, c2 mod 65536)).
  { intros c1 c2 t' H. unfold get, hattrie_tryget. rewrite H.
    rewrite !land_ffff, Z.shiftr_div_pow2, packed_lo, packed_hi by lia.
    rewrite Z.mod_mod by lia. reflexivity. }
  split; [apply Hget, set_lookup |].
  split; [unfold has, hattrie_tryget; now rewrite set_lookup |].
  split.
  - intros id' Hne. unfold get, has, hattrie_tryget.
    now rewrite set_lookup_ne by exact Hne.
  - apply Hget. unfold inc_mate1, hattrie_get. rewrite set_lookup.
    now rewrite lookup_insert_eq, inc_mate1_packed.
Qed.

End AlnCountTrieAccess.

(** * AlnIndex (fragment_model.cpp) *)

Module AlnIndex.

Import AlnCountTrie.

Local Open Scope Z_scope.

(** The conversion of an [unsigned long] to the [int] that
    [AlnIndex::get] returns. *)
Definition int_of_ulong (x : Z) : Z :=
  let r := x mod 2 ^ 32 in if r <? 2 ^ 31 then r else r - 2 ^ 32.

(** [AlnIndex::add]: a key whose slot holds zero, a new key, is given
    one more than the number of keys the trie now holds. *)
Definition add (t : gmap string Z) (key : string) : gmap string Z :=
  let '(t1, val) := hattrie_get t key in
  if val =? 0 then <[key := (1 + Z.of_nat (size t1)) mod 2 ^ 64]> t1 else t1.

(** [AlnIndex::get]: [-1] for a key that is absent, [*val - 1]
    otherwise. *)
Definition get (t : gmap string Z) (key : string) : Z :=
  match hattrie_tryget t key with
  | None => -1
  | Some val => int_of_ulong ((val - 1) mod 2 ^ 64)
  end.

(** [AlnIndex::clear] and [AlnIndex::size] *)
Definition clear (t : gmap string Z) : gmap string Z := ∅.
Definition size (t : gmap string Z) : nat := base.size t.

Definition add_all (ks : list string) : gmap string Z := fold_left add ks ∅.

(** The slots of an index hold the numbers from 2 to one more than its
    size, each once. *)
Definition numbered (t : gmap string Z) : Prop :=
  (forall k v, t !! k = Some v -> 2 <= v <= Z.of_nat (base.size t) + 1)
  /\ (forall k1 k2 v, t !! k1 = Some v -> t !! k2 = Some v -> k1 = k2)
  /\ (forall v, 2 <= v <= Z.of_nat (base.size t) + 1 -> exists k, t !! k = Some v).

Lemma add_present t key v : t !! key = Some v -> v <> 0 -> add t key = t.
Proof.
  intros H Hv. unfold add, hattrie_get. rewrite H.
  destruct (Z.eqb_spec v 0); [contradiction | reflexivity].
Qed.

Lemma add_absent t key :
  t !! key = None ->
  add t key = <[key := (Z.of_nat (base.size t) + 2) mod 2 ^ 64]> t.
Proof.
  intros H. unfold add, hattrie_get. rewrite H. simpl.
  rewrite map_size_insert_None by exact H.
  rewrite insert_insert_eq. f_equal. f_equal. lia.
Qed.

Lemma add_numbered t key :
  Z.of_nat (base.size t) < 2 ^ 31 -> numbered t ->
  numbered (add t key)
  /\ (forall k v, t !! k = Some v -> add t key !! k = Some v)
  /\ (forall k, is_Some (add t key !! k) <-> k = key \/ is_Some (t !! k))
  /\ (base.size (add t key) <= S (base.size t))%nat
  /\ (t !! key = None ->
      add t key !! key = Some (Z.of_nat (base.size t) + 2)).
Proof.
  intros Hsize (B & I & S). destruct (t !! key) as [v |] eqn:E.
  - rewrite (add_present t key v E) by (apply B in E; lia).
    split; [exact (conj B (conj I S)) |]. split; [auto |].
    split; [| split; [lia |]].
    + intros k. split; [now right |]. intros [-> | H]; [now rewrite E | exact H].
    + discriminate.
  - rewrite (add_absent t key E), Z.mod_small by lia.
    assert (Hs : base.size (<[key := Z.of_nat (base.size t) + 2]> t)
                 = Datatypes.S (base.size t))
      by now apply map_size_insert_None.
    split; [| split; [| split; [| split]]].
    + split; [| split].
      * intros k v. rewrite Hs. destruct (decide (k = key)) as [-> | Hne].
        -- rewrite lookup_insert_eq. intros [= <-]. lia.
        -- rewrite lookup_insert_ne by congruence. intros H. apply B in H. lia.
      * intros k1 k2 v.
        destruct (decide (k1 = key)) as [-> | H1], (decide (k2 = key)) as [-> | H2];
          rewrite ?lookup_insert_eq, ?lookup_insert_ne by congruence.
        -- reflexivity.
        -- intros [= <-] H. apply B in H. lia.
        -- intros H [= <-]. apply B in H. lia.
        -- apply I.
      * intros v. rewrite Hs. intros Hv.
        destruct (decide (v = Z.of_nat (base.size t) + 2)) as [-> | Hne].
        -- exists key. apply lookup_insert_eq.
        -- destruct (S v ltac:(lia)) as [k Hk]. exists k.
           rewrite lookup_insert_ne; [exact Hk |]. intros <-. congruence.
    + intros k v H. rewrite lookup_insert_ne; [exact H |]. intros <-. congruence.
    + intros k. destruct (decide (k = key)) as [-> | Hne].
      * rewrite lookup_insert_eq. split; [now left | eauto].
      * rewrite lookup_insert_ne by congruence. split; [now right |].
        intros [? | H]; [congruence | exact H].
    + lia.
    + intros _. apply lookup_insert_eq.
Qed.

Lemma empty_numbered : numbered ∅.
Proof.
  split; [| split].
  - intros k v H. now rewrite lookup_empty in H.
  - intros k1 k2 v H. now rewrite lookup_empty in H.
  - intros v. rewrite map_size_empty. lia.
Qed.

Lemma fold_add_numbered ks : forall t,
  Z.of_nat (base.size t) + Z.of_nat (length ks) < 2 ^ 31 -> numbered t ->
  numbered (fold_left add ks t)
  /\ (forall k v, t !! k = Some v -> fold_left add ks t !! k = Some v)
  /\ (forall k, is_Some (fold_left add ks t !! k) <-> In k ks \/ is_Some (t !! k))
  /\ (base.size (fold_left add ks t) <= base.size t + length ks)%nat.
Proof.
  induction ks as [| key ks IH]; intros t Hsize Hn; simpl.
  - split; [exact Hn |]. split; [auto |]. split; [tauto | lia].
  - simpl in Hsize.
    destruct (add_numbered t key ltac:(lia) Hn) as (Hn1 & Hk1 & Hd1 & Hs1 & _).
    destruct (IH (add t key) ltac:(lia) Hn1) as (Hn2 & Hk2 & Hd2 & Hs2).
    split; [exact Hn2 |]. split; [auto |]. split; [| lia].
    intros k. rewrite Hd2, Hd1. split.
    + intros [H | [-> | H]]; auto.
    + intros [[<- | H] | H]; auto.
Qed.

Lemma get_slot t k v :
  t !! k = Some v -> 2 <= v <= 2 ^ 31 -> get t k = v - 1.
Proof.
  intros H Hv. unfold get, hattrie_tryget, int_of_ulong. rewrite H.
  rewrite (Z.mod_small (v - 1)) by lia. rewrite Z.mod_small by lia.
  destruct (Z.ltb_spec (v - 1) (2 ^ 31)); lia.
Qed.

(** X9.  After the keys [ks], fewer than [2^31], have been added to an
    empty index: a key that was not added reads [-1]; the added keys
    read the numbers from 1 to the size of the index, distinct keys
    distinct numbers and every number taken; and a key reads one more
    than the number of distinct keys added before its first [add],
    whatever is added later. *)
Theorem add_all_numbers_keys (ks : list string) :
  Z.of_nat (length ks) < 2 ^ 31 ->
  (forall k, ~ In k ks -> get (add_all ks) k = -1)
  /\ (forall k, In k ks -> 1 <= get (add_all ks) k <= Z.of_nat (size (add_all ks)))
  /\ (forall k1 k2, In k1 ks -> In k2 ks ->
        get (add_all ks) k1 = get (add_all ks) k2 -> k1 = k2)
  /\ (forall i, 1 <= i <= Z.of_nat (size (add_all ks)) ->
        exists k, In k ks /\ get (add_all ks) k = i)
  /\ (forall ks1 k ks2, ks = ks1 ++ k :: ks2 -> ~ In k ks1 ->
        get (add_all ks) k = Z.of_nat (size (add_all ks1)) + 1).
Proof.
  intros Hlen. unfold add_all, size.
  destruct (fold_add_numbered ks ∅) as ((B & I & S) & _ & Hd & Hs);
    [rewrite map_size_empty; lia | apply empty_numbered |].
  rewrite map_size_empty in Hs. simpl in Hs.
  set (t := fold_left add ks ∅) in *.
  assert (Hslot : forall k, In k ks ->
            exists v, t !! k = Some v /\ get t k = v - 1
                      /\ 2 <= v <= Z.of_nat (base.size t) + 1).
  { intros k Hk. destruct (proj2 (Hd k) (or_introl Hk)) as [v Hv].
    exists v. split; [exact Hv |]. pose proof (B k v Hv).
    split; [apply get_slot; [exact Hv | lia] | lia]. }
  split; [| split; [| split; [| split]]].
  - intros k Hk. unfold get, hattrie_tryget.
    destruct (t !! k) as [v |] eqn:E; [| reflexivity].
    exfalso. apply Hk. destruct (proj1 (Hd k) (ex_intro _ v E)) as [H | [x H]];
      [exact H | now rewrite lookup_empty in H].
  - intros k Hk. destruct (Hslot k Hk) as (v & _ & -> & Hv). lia.
  - intros k1 k2 H1 H2. destruct (Hslot k1 H1) as (v1 & E1 & -> & _).
    destruct (Hslot k2 H2) as (v2 & E2 & -> & _). intros Heq.
    apply (I k1 k2 v1); [exact E1 |]. rewrite E2. f_equal. lia.
  - intros i Hi. destruct (S (i + 1) ltac:(lia)) as [k Hk]. exists k.
    assert (Hin : In k ks).
    { destruct (proj1 (Hd k) (ex_intro _ _ Hk)) as [H | [x H]];
        [exact H | now rewrite lookup_empty in H]. }
    split; [exact Hin |]. destruct (Hslot k Hin) as (v & E & -> & _).
    rewrite Hk in E. injection E as <-. lia.
  - intros ks1 k ks2 Hks Hk. subst t. rewrite Hks in *.
    rewrite fold_left_app in *. cbn [fold_left] in *.
    rewrite length_app in Hlen. simpl in Hlen.
    destruct (fold_add_numbered ks1 ∅) as (Hn1 & _ & Hd1 & Hs1);
      [rewrite map_size_empty; lia | apply empty_numbered |].
    rewrite map_size_empty in Hs1. simpl in Hs1.
    set (t1 := fold_left add ks1 ∅) in *.
    assert (Hnone : t1 !! k = None).
    { destruct (t1 !! k) as [v |] eqn:E; [| reflexivity]. exfalso. apply Hk.
      destruct (proj1 (Hd1 k) (ex_intro _ v E)) as [H | [x H]];
        [exact H | now rewrite lookup_empty in H]. }
    destruct (add_numbered t1 k ltac:(lia) Hn1) as (Hn2 & _ & _ & Hs2 & Hnew).
    destruct (fold_add_numbered ks2 (add t1 k)) as (_ & Hkeep & _);
      [lia | exact Hn2 |].
    rewrite (get_slot _ k _ (Hkeep k _ (Hnew Hnone))) by lia. lia.
Qed.

Lemma add_all_numbers_keys_witness :
  get (add_all ["r1"; "r2"; "r1"; "r3"]%string) "r3"%string = 3
  /\ get (add_all ["r1"; "r2"; "r1"; "r3"]%string) "r4"%string = -1.
Proof.
  destruct (add_all_numbers_keys ["r1"; "r2"; "r1"; "r3"]%string)
    as (Hout & _ & _ & _ & Hfirst); [simpl; lia |].
  split.
  - exact (Hfirst ["r1"; "r2"; "r1"]%string "r3"%string [] eq_refl
                  ltac:(simpl; intros [H | [H | [H | []]]]; discriminate)).
  - apply Hout. simpl. intros [H | [H | [H | [H | []]]]]; discriminate.
Defined.

End AlnIndex.

(** * Indexing the multireads ([FragmentModel::estimate], fragment_model.cpp) *)

Module MultireadIndex.

Local Open Scope Z_scope.

Section Estimate.

(** [constants::max_alignments] *)
Variable max_alignments : Z.

(** A read with too many alignments of either mate. *)
Definition too_many (count : Z * Z) : bool :=
  (max_alignments <? fst count) || (max_alignments <? snd count).

(** A read with more than one alignment of either mate. *)
Definition multiple (count : Z * Z) : bool :=
  (1 <? fst count) || (1 <? snd count).

(** The body of the loop of lines 628-636 over the entries of the
    counter trie: the state is [blacklist] and [multireads]. *)
Definition classify (st : gmap string Z * gmap string Z)
           (e : string * (Z * Z)) : gmap string Z * gmap string Z :=
  if too_many (snd e) then (AlnIndex.add (fst st) (fst e), snd st)
  else if multiple (snd e) then (fst st, AlnIndex.add (snd st) (fst e))
  else st.

(** What [AlnCountTrieIterator] hands out: the keys of the trie, in the
    order [order] of the hat-trie's iterator, each with its two
    counts. *)
Definition trie_entries (order : list string) (alncnt : gmap string Z)
  : list (string * (Z * Z)) :=
  map (fun k => (k, AlnCountTrie.get alncnt k)) order.

(** The two indexes after the loop, empty before it. *)
Definition index_reads (order : list string) (alncnt : gmap string Z)
  : gmap string Z * gmap string Z :=
  fold_left classify (trie_entries order alncnt) (∅, ∅).

Lemma fold_classify alncnt order : forall st,
  fold_left classify (trie_entries order alncnt) st
  = (fold_left AlnIndex.add
       (List.filter (fun k => too_many (AlnCountTrie.get alncnt k)) order)
       (fst st),
     fold_left AlnIndex.add
       (List.filter (fun k => negb (too_many (AlnCountTrie.get alncnt k))
                              && multiple (AlnCountTrie.get alncnt k)) order)
       (snd st)).
Proof.
  induction order as [| k order IH]; intros [bl mr]; [reflexivity |].
  cbn [trie_entries map fold_left List.filter]. unfold classify at 2.
  cbn [fst snd].
  destruct (too_many (AlnCountTrie.get alncnt k)); cbn [negb andb].
  - apply IH.
  - destruct (multiple (AlnCountTrie.get alncnt k)); apply IH.
Qed.

Lemma get_nonneg_iff ks k :
  Z.of_nat (length ks) < 2 ^ 31 ->
  0 <= AlnIndex.get (AlnIndex.add_all ks) k <-> In k ks.
Proof.
  intros Hlen. unfold AlnIndex.add_all.
  destruct (AlnIndex.fold_add_numbered ks ∅) as ((B & _ & _) & _ & Hd & Hs);
    [rewrite map_size_empty; lia | apply AlnIndex.empty_numbered |].
  rewrite map_size_empty in Hs. simpl in Hs.
  destruct (fold_left AlnIndex.add ks ∅ !! k) as [v |] eqn:E.
  - pose proof (B k v E).
    rewrite (AlnIndex.get_slot _ k v E) by lia. split; [| lia]. intros _.
    destruct (proj1 (Hd k) (ex_intro _ v E)) as [H' | [x H']];
      [exact H' | now rewrite lookup_empty in H'].
  - unfold AlnIndex.get, AlnCountTrie.hattrie_tryget. rewrite E.
    split; [lia |]. intros Hin.
    destruct (proj2 (Hd k) (or_introl Hin)) as [v Hv]. congruence.
Qed.

(** X10.  After the indexing loop over a counter trie of fewer than
    [2^31] reads, with [max_alignments] not negative: [blacklist] knows
    exactly the reads with more than [max_alignments] alignments of a
    mate, [multireads] exactly the other reads with more than one
    alignment of a mate; no read is in both, and a read with at most one
    alignment per mate, or none counted, is in neither. *)
Theorem index_reads_partitions (order : list string) (alncnt : gmap string Z) :
  0 <= max_alignments ->
  Z.of_nat (length order) < 2 ^ 31 ->
  (forall k, In k order <-> is_Some (alncnt !! k)) ->
  forall id,
    (0 <= AlnIndex.get (fst (index_reads order alncnt)) id
     <-> too_many (AlnCountTrie.get alncnt id) = true)
    /\ (0 <= AlnIndex.get (snd (index_reads order alncnt)) id
        <-> too_many (AlnCountTrie.get alncnt id) = false
            /\ multiple (AlnCountTrie.get alncnt id) = true)
    /\ ~ (0 <= AlnIndex.get (fst (index_reads order alncnt)) id
          /\ 0 <= AlnIndex.get (snd (index_reads order alncnt)) id).
Proof.
  intros Hmax Hlen Hkeys id. unfold index_reads. rewrite fold_classify.
  cbn [fst snd].
  assert (Hin : forall c : Z * Z,
            too_many c = true \/ multiple c = true -> c <> (0, 0)).
  { intros c H ->. unfold too_many, multiple in H. simpl in H.
    destruct (Z.ltb_spec max_alignments 0); [lia |]. simpl in H.
    destruct H; discriminate. }
  assert (Hpresent : AlnCountTrie.get alncnt id <> (0, 0) -> In id order).
  { intros H. apply Hkeys. unfold AlnCountTrie.get, AlnCountTrie.hattrie_tryget in H.
    destruct (alncnt !! id); [eauto | contradiction]. }
  assert (Hl : forall p, Z.of_nat (length (List.filter p order)) < 2 ^ 31).
  { intros p. pose proof (List.filter_length_le p order). lia. }
  pose proof (get_nonneg_iff
                (List.filter (fun k => too_many (AlnCountTrie.get alncnt k)) order)
                id (Hl _)) as H1.
  pose proof (get_nonneg_iff
                (List.filter (fun k => negb (too_many (AlnCountTrie.get alncnt k))
                                       && multiple (AlnCountTrie.get alncnt k))
                             order) id (Hl _)) as H2.
  unfold AlnIndex.add_all in H1, H2. rewrite filter_In in H1, H2.
  rewrite H1, H2. clear H1 H2.
  destruct (too_many (AlnCountTrie.get alncnt id)) eqn:Et;
    destruct (multiple (AlnCountTrie.get alncnt id)) eqn:Em; cbn [negb andb].
  - split; [| split]; [split; [tauto |] | split; [intros [_ ?] | intros [? _]]
                                           | intros [_ [_ ?]]];
      try discriminate. intros _. split; [| reflexivity].
    apply Hpresent, Hin. now left.
  - split; [| split]; [split; [tauto |] | split; [intros [_ ?] | intros [? _]]
                                           | intros [_ [_ ?]]];
      try discriminate. intros _. split; [| reflexivity].
    apply Hpresent, Hin. now left.
  - split; [| split]; [split; [intros [_ ?] | intros ?]
                      | split; [tauto |] | intros [[_ ?] _]];
      try discriminate. intros _. split; [| reflexivity].
    apply Hpresent, Hin. rewrite Em. now right.
  - split; [| split]; [split; [intros [_ ?] | intros ?]
                      | split; [intros [_ ?] | intros [_ ?]] | intros [[_ ?] _]];
      discriminate.
Qed.

End Estimate.

(** Three reads counted by the scan: one aligned once, one aligned three
    times, one with more mate-1 alignments than [max_alignments = 4]. *)
Definition example_counts : gmap string Z :=
  AlnCountTrie.run
    [AlnCountTrie.Inc_mate1 "once"; AlnCountTrie.Inc_mate1 "thrice";
     AlnCountTrie.Inc_mate1 "thrice"; AlnCountTrie.Inc_mate2 "thrice";
     AlnCountTrie.Inc_mate1 "many"; AlnCountTrie.Inc_mate1 "many";
     AlnCountTrie.Inc_mate1 "many"; AlnCountTrie.Inc_mate1 "many";
     AlnCountTrie.Inc_mate1 "many"]%string.

Lemma example_counts_keys k :
  In k ["many"; "once"; "thrice"]%string <-> is_Some (example_counts !! k).
Proof.
  unfold example_counts. rewrite AlnCountTrie.run_lookup.
  unfold AlnCountTrie.slot_of, AlnCountTrie.calls_mate1, AlnCountTrie.calls_mate2.
  simpl. split.
  - intros [<- | [<- | [<- | []]]]; vm_compute; eauto.
  - repeat case_bool_decide; subst; simpl; intros [v Hv]; try discriminate;
      auto 6.
Defined.

Lemma index_reads_partitions_witness :
  0 <= AlnIndex.get
         (snd (index_reads 4 ["many"; "once"; "thrice"]%string example_counts))
         "thrice"%string
  <-> too_many 4 (AlnCountTrie.get example_counts "thrice"%string) = false
      /\ multiple (AlnCountTrie.get example_counts "thrice"%string) = true.
Proof.
  exact (proj1 (proj2 (index_reads_partitions 4 ["many"; "once"; "thrice"]%string
                         example_counts ltac:(lia) ltac:(simpl; lia)
                         example_counts_keys "thrice"%string))).
Defined.

End MultireadIndex.

(** * The component tables of [Sampler::Sampler] (sampler.cpp, lines 1166-1189) *)

Module ComponentTables.

(** [component_num_transcripts[c]++]; [None] for a label that is no
    component. *)
Definition bump (cnt : list nat) (c : nat) : option (list nat) :=
  n ← cnt !! c; Some (<[c := S n]> cnt).

(** Lines 1171-1175, one turn: [c = ds[ncol + i];
    transcript_component[i] = c; component_num_transcripts[c]++]. *)
Definition count_step (ds : list nat) (ncol : nat)
           (st : option (list nat * list nat)) (i : nat)
  : option (list nat * list nat) :=
  st ← st;
  c ← ds !! (ncol + i)%nat;
  cnt ← bump (snd st) c;
  if (i <? length (fst st))%nat then Some (<[i := c]> (fst st), cnt) else None.

(** Lines 1186-1189, one turn:
    [component_transcripts[c][component_num_transcripts[c]++] = i]. *)
Definition fill_step (ds : list nat) (ncol : nat)
           (st : option (list (list nat) * list nat)) (i : nat)
  : option (list (list nat) * list nat) :=
  st ← st;
  c ← ds !! (ncol + i)%nat;
  pos ← snd st !! c;
  row ← fst st !! c;
  if (pos <? length row)%nat
  then Some (<[c := <[pos := i]> row]> (fst st), <[c := S pos]> (snd st))
  else None.

(** "Label transcript components": [transcript_component],
    [component_num_transcripts] and [component_transcripts] from the
    labels [ds] of the nodes, the [ncol] columns first.  New arrays
    hold zeros; [None] is a write outside an array. *)
Definition label_transcripts (ds : list nat) (ncol nrow num_components : nat)
  : option (list nat * list nat * list (list nat)) :=
  counted ← foldl (count_step ds ncol)
                  (Some (replicate nrow O, replicate num_components O))
                  (seq 0 nrow);
  let component_transcripts := map (fun n => replicate n O) (snd counted) in
  filled ← foldl (fill_step ds ncol)
                 (Some (component_transcripts, replicate num_components O))
                 (seq 0 nrow);
  Some (fst counted, snd filled, fst filled).

(** The transcripts below [k] that carry the label [c], ascending. *)
Definition members (ds : list nat) (ncol c k : nat) : list nat :=
  List.filter (fun i => (nth (ncol + i) ds O =? c)%nat) (seq 0 k).

Lemma members_S ds ncol c k :
  members ds ncol c (S k)
  = members ds ncol c k ++ if (nth (ncol + k) ds O =? c)%nat then [k] else [].
Proof. unfold members. rewrite seq_S, List.filter_app. reflexivity. Qed.

Lemma members_le ds ncol c j k :
  (j <= k)%nat -> (length (members ds ncol c j) <= length (members ds ncol c k))%nat.
Proof.
  induction 1 as [| k _ IH]; [lia |].
  rewrite members_S, length_app. lia.
Qed.

Lemma members_bound ds ncol c k i : In i (members ds ncol c k) ->
  (i < k)%nat /\ nth (ncol + i) ds O = c.
Proof.
  unfold members. rewrite filter_In, in_seq. intros [H1 H2].
  apply Nat.eqb_eq in H2. lia.
Qed.

Section Tables.

Variables (ds : list nat) (ncol nrow n : nat).

(** Every transcript carries the label of a component. *)
Hypothesis labelled : forall i, (i < nrow)%nat ->
  exists c, ds !! (ncol + i)%nat = Some c /\ (c < n)%nat.

Lemma label_nth i c : ds !! (ncol + i)%nat = Some c -> nth (ncol + i) ds O = c.
Proof. apply nth_lookup_Some. Qed.

Definition counts (k : nat) : list nat :=
  (fun c => length (members ds ncol c k)) <$> seq 0 n.

Lemma counts_lookup k c :
  (c < n)%nat -> counts k !! c = Some (length (members ds ncol c k)).
Proof.
  intros Hc. unfold counts. rewrite list_lookup_fmap, lookup_seq_lt by exact Hc.
  reflexivity.
Qed.

Lemma counts_S k c :
  ds !! (ncol + k)%nat = Some c -> (c < n)%nat ->
  <[c := S (length (members ds ncol c k))]> (counts k) = counts (S k).
Proof.
  intros Hk Hc. apply label_nth in Hk. apply list_eq. intros c'.
  destruct (decide (c' < n)%nat) as [Hc' | Hc'].
  - rewrite (counts_lookup (S k) c' Hc'), members_S, length_app, Hk.
    destruct (decide (c' = c)) as [-> | Hne].
    + rewrite list_lookup_insert_eq
        by (unfold counts; rewrite length_fmap, length_seq; exact Hc).
      rewrite Nat.eqb_refl. simpl. f_equal. lia.
    + rewrite list_lookup_insert_ne by congruence.
      rewrite (counts_lookup k c' Hc').
      destruct (Nat.eqb_spec c c'); [congruence |]. simpl. f_equal. lia.
  - rewrite !lookup_ge_None_2;
      [reflexivity | | rewrite length_insert];
      unfold counts; rewrite length_fmap, length_seq; lia.
Qed.

Lemma count_loop k :
  (k <= nrow)%nat ->
  foldl (count_step ds ncol) (Some (replicate nrow O, replicate n O)) (seq 0 k)
  = Some (map (fun i => nth (ncol + i) ds O) (seq 0 k) ++ replicate (nrow - k) O,
          counts k).
Proof.
  induction k as [| k IH]; intros Hk.
  - simpl. rewrite Nat.sub_0_r. f_equal. f_equal. unfold counts, members.
    simpl. apply list_eq. intros c.
    destruct (decide (c < n)%nat) as [Hc | Hc].
    + rewrite lookup_replicate_2, list_lookup_fmap, lookup_seq_lt by lia.
      reflexivity.
    + rewrite !lookup_ge_None_2;
        [reflexivity | rewrite length_fmap, length_seq | rewrite length_replicate];
        lia.
  - rewrite seq_S, foldl_app, IH by lia. cbn [foldl Nat.add].
    destruct (labelled k ltac:(lia)) as (c & Hk' & Hc).
    unfold count_step. cbn [mbind option_bind fst snd]. rewrite Hk'.
    cbn [mbind option_bind]. unfold bump. rewrite (counts_lookup k c Hc).
    cbn [mbind option_bind]. rewrite length_app, length_map, length_seq,
      length_replicate.
    destruct (Nat.ltb_spec k (k + (nrow - k))); [| lia].
    f_equal. f_equal; [| now apply counts_S].
    rewrite map_app. cbn [map]. rewrite (label_nth k c Hk').
    rewrite insert_app_r_alt by (rewrite length_map, length_seq; lia).
    rewrite length_map, length_seq, Nat.sub_diag, <- app_assoc.
    f_equal. replace (nrow - k)%nat with (S (nrow - S k)) by lia.
    reflexivity.
Qed.

(** The rows of [component_transcripts] after [k] turns of the filling
    loop. *)
Definition rows_at (k : nat) : list (list nat) :=
  (fun c => members ds ncol c k
            ++ replicate (length (members ds ncol c nrow)
                          - length (members ds ncol c k)) O) <$> seq 0 n.

Lemma rows_at_lookup k c :
  (c < n)%nat ->
  rows_at k !! c
  = Some (members ds ncol c k
          ++ replicate (length (members ds ncol c nrow)
                        - length (members ds ncol c k)) O).
Proof.
  intros Hc. unfold rows_at.
  rewrite list_lookup_fmap, lookup_seq_lt by exact Hc. reflexivity.
Qed.

Lemma fill_loop k :
  (k <= nrow)%nat ->
  foldl (fill_step ds ncol)
        (Some (map (fun m => replicate m O) (counts nrow), replicate n O))
        (seq 0 k)
  = Some (rows_at k, counts k).
Proof.
  induction k as [| k IH]; intros Hk.
  - simpl. f_equal. f_equal.
    + unfold rows_at, counts. rewrite <- list_fmap_compose.
      apply list_fmap_ext. intros _ c _. simpl. now rewrite Nat.sub_0_r.
    + unfold counts, members. simpl. apply list_eq. intros c.
      destruct (decide (c < n)%nat) as [Hc | Hc].
      * rewrite lookup_replicate_2, list_lookup_fmap, lookup_seq_lt by lia.
        reflexivity.
      * rewrite !lookup_ge_None_2;
          [reflexivity | rewrite length_fmap, length_seq
                       | rewrite length_replicate]; lia.
  - rewrite seq_S, foldl_app, IH by lia. cbn [foldl Nat.add].
    destruct (labelled k ltac:(lia)) as (c & Hk' & Hc).
    unfold fill_step. cbn [mbind option_bind fst snd]. rewrite Hk'.
    cbn [mbind option_bind]. rewrite (counts_lookup k c Hc).
    cbn [mbind option_bind]. rewrite (rows_at_lookup k c Hc).
    cbn [mbind option_bind].
    pose proof (members_le ds ncol c (S k) nrow Hk) as Hle.
    rewrite members_S, length_app, (label_nth k c Hk'), Nat.eqb_refl in Hle.
    simpl in Hle. rewrite length_app, length_replicate.
    destruct (Nat.ltb_spec (length (members ds ncol c k))
                (length (members ds ncol c k)
                 + (length (members ds ncol c nrow)
                    - length (members ds ncol c k)))); [| lia].
    f_equal. f_equal; [| now apply counts_S].
    apply list_eq. intros c'.
    destruct (decide (c' < n)%nat) as [Hc' | Hc'].
    + rewrite (rows_at_lookup (S k) c' Hc'), members_S, (label_nth k c Hk').
      destruct (decide (c' = c)) as [-> | Hne].
      * rewrite list_lookup_insert_eq
          by (unfold rows_at; rewrite length_fmap, length_seq; exact Hc).
        rewrite Nat.eqb_refl. f_equal.
        rewrite insert_app_r_alt by lia. rewrite Nat.sub_diag.
        rewrite <- app_assoc. f_equal. rewrite length_app. simpl.
        replace (length (members ds ncol c nrow) - length (members ds ncol c k))%nat
          with (S (length (members ds ncol c nrow)
                   - (length (members ds ncol c k) + 1))) by lia.
        reflexivity.
      * rewrite list_lookup_insert_ne by congruence.
        rewrite (rows_at_lookup k c' Hc').
        destruct (Nat.eqb_spec c c'); [congruence |].
        now rewrite app_nil_r.
    + rewrite !lookup_ge_None_2;
        [reflexivity | | rewrite length_insert];
        unfold rows_at; rewrite length_fmap, length_seq; lia.
Qed.

Lemma label_transcripts_spec :
  exists tc cnt ct,
    label_transcripts ds ncol nrow n = Some (tc, cnt, ct)
    /\ length tc = nrow /\ length cnt = n /\ length ct = n
    /\ (forall i, (i < nrow)%nat -> tc !! i = ds !! (ncol + i)%nat)
    /\ (forall c, (c < n)%nat ->
          ct !! c = Some (members ds ncol c nrow)
          /\ cnt !! c = Some (length (members ds ncol c nrow))
          /\ NoDup (members ds ncol c nrow)
          /\ forall i, In i (members ds ncol c nrow)
               <-> (i < nrow)%nat /\ tc !! i = Some c).
Proof.
  unfold label_transcripts. rewrite (count_loop nrow (Nat.le_refl _)).
  cbn [mbind option_bind fst snd]. rewrite (fill_loop nrow (Nat.le_refl _)).
  cbn [mbind option_bind fst snd]. rewrite Nat.sub_diag, app_nil_r.
  eexists _, _, _. split; [reflexivity |].
  assert (Htc : forall i, (i < nrow)%nat ->
            map (fun i => nth (ncol + i) ds O) (seq 0 nrow) !! i
            = ds !! (ncol + i)%nat).
  { intros i Hi. destruct (labelled i Hi) as (c & Hc & _).
    rewrite list_lookup_fmap, lookup_seq_lt by exact Hi. simpl.
    now rewrite (label_nth i c Hc). }
  split; [now rewrite length_map, length_seq |].
  split; [unfold counts; now rewrite length_fmap, length_seq |].
  split; [unfold rows_at; now rewrite length_fmap, length_seq |].
  split; [exact Htc |].
  intros c Hc. rewrite (rows_at_lookup nrow c Hc), Nat.sub_diag, app_nil_r.
  split; [reflexivity |]. split; [now apply counts_lookup |].
  split.
  - unfold members. apply NoDup_ListNoDup, List.NoDup_filter, List.seq_NoDup.
  - intros i. unfold members. rewrite filter_In, in_seq, Nat.eqb_eq. split.
    + intros [Hi <-]. split; [lia |]. rewrite Htc by lia.
      destruct (labelled i ltac:(lia)) as (c' & Hc' & _).
      now rewrite (label_nth i c' Hc').
    + intros [Hi Hl]. split; [lia |]. rewrite Htc in Hl by lia.
      now apply label_nth.
Qed.


(** X11.  When every transcript carries the label of a component, the
    three tables are built without a write outside an array:
    [transcript_component[i]] is the label of transcript [i],
    [component_transcripts[c]] lists the transcripts labelled [c] in
    ascending order, each transcript in the list of its component only,
    and [component_num_transcripts[c]] is the length of that list. *)
Theorem label_transcripts_tables :
  exists tc cnt ct,
    label_transcripts ds ncol nrow n = Some (tc, cnt, ct)
    /\ length tc = nrow /\ length cnt = n /\ length ct = n
    /\ (forall i, (i < nrow)%nat -> tc !! i = ds !! (ncol + i)%nat)
    /\ (forall c, (c < n)%nat ->
          ct !! c = Some (members ds ncol c nrow)
          /\ cnt !! c = Some (length (members ds ncol c nrow))
          /\ NoDup (members ds ncol c nrow)
          /\ forall i, In i (members ds ncol c nrow)
               <-> (i < nrow)%nat /\ tc !! i = Some c).
Proof. exact label_transcripts_spec. Qed.

(** X12.  A sampler whose three tables are the ones built, for the
    [nrow] transcripts of its matrix and its [num_components], from
    labels under which every component holds a transcript, has what the
    theorems on [Sampler::run] ask of the component tables: every
    component has a list of distinct transcripts, not empty, each a row
    of the matrix labelled with that component, and
    [component_num_transcripts] holds the lengths. *)
Theorem tables_components_ok (sm : Sampler.t) :
  nrow = Z.to_nat (WeightMatrix.nrow (Sampler.weight_matrix sm)) ->
  n = Sampler.num_components sm ->
  (forall c, (c < n)%nat ->
     exists i, (i < nrow)%nat /\ ds !! (ncol + i)%nat = Some c) ->
  label_transcripts ds ncol nrow n
  = Some (Sampler.transcript_component sm,
          Sampler.component_num_transcripts sm,
          Sampler.component_transcripts sm) ->
  Sampler.components_ok sm.
Proof.
  intros Hnrow Hn Honto Hbuilt.
  destruct label_transcripts_spec
    as (tc & cnt & ct & E & Ltc & Lcnt & Lct & Htc & Hc).
  rewrite Hbuilt in E. injection E as <- <- <-.
  assert (Hrow : forall c, (c < n)%nat ->
            nth c (Sampler.component_transcripts sm) []
            = members ds ncol c nrow).
  { intros c Hlt. apply nth_lookup_Some. apply (Hc c Hlt). }
  constructor.
  - congruence.
  - intros c Hlt. rewrite Hrow by lia. apply (Hc c). lia.
  - intros c Hlt. rewrite Hrow by lia.
    destruct (Honto c ltac:(lia)) as (i & Hi & Hl).
    intros Hnil.
    assert (Hin : In i (members ds ncol c nrow)).
    { apply (Hc c ltac:(lia)). split; [exact Hi |]. now rewrite Htc. }
    rewrite Hnil in Hin. exact Hin.
  - intros c i Hlt Hin. rewrite Hrow in Hin by lia.
    apply list_elem_of_In in Hin. apply (Hc c ltac:(lia)) in Hin as [Hi Hl].
    split; [lia |]. unfold Sampler.component_of. now apply nth_lookup_Some.
  - intros c Hlt. rewrite Hrow by lia. apply nth_lookup_Some.
    apply (Hc c). lia.
Qed.

End Tables.

(** The labels of four columns and three transcripts, in two
    components. *)
Lemma label_transcripts_tables_witness :
  exists tc cnt ct,
    label_transcripts [0; 0; 0; 1; 0; 1; 0]%nat 4 3 2 = Some (tc, cnt, ct)
    /\ ct !! 0%nat = Some [0; 2]%nat /\ ct !! 1%nat = Some [1]%nat.
Proof.
  destruct (label_transcripts_tables [0; 0; 0; 1; 0; 1; 0]%nat 4 3 2)
    as (tc & cnt & ct & E & _ & _ & _ & _ & H).
  - intros [| [| [| i]]] Hi; simpl; [exists O | exists 1%nat | exists O | lia];
      split; first [reflexivity | lia].
  - exists tc, cnt, ct. split; [exact E |].
    split; [apply (H O); lia | apply (H 1%nat); lia].
Defined.

(** The tables of the small sampler are the ones built from the labels
    of its four columns and three transcripts. *)
Lemma tables_components_ok_witness : Sampler.components_ok Sampler.example.
Proof.
  apply (tables_components_ok [0; 0; 0; 1; 0; 0; 1]%nat 4 3 2).
  - intros [| [| [| i]]] Hi; simpl; [exists O | exists O | exists 1%nat | lia];
      split; first [reflexivity | lia].
  - reflexivity.
  - reflexivity.
  - intros [| [| c]] Hc; [exists O | exists 2%nat | lia];
      split; first [reflexivity | lia].
  - reflexivity.
Defined.

End ComponentTables.

(** * Reordering the columns by component

    [Sampler::Sampler], sampler.cpp, once the components are labelled:
    the column numbers are sorted by component label with
    [ComponentCmp], [idxmap] is made the inverse of that order, the
    first [ncol] labels are sorted, and the matrix and the fragment
    counts are renumbered through [idxmap]. *)
Module ComponentLayout.

Local Open Scope nat_scope.

(** [ComponentCmp::operator()]: [ds[i] < ds[j]]. *)
Definition ComponentCmp (ds : list nat) (i j : nat) : bool :=
  nth i ds 0 <? nth j ds 0.

(** [for (i = 0; i < ncol; ++i) idxmap[idxord[i]] = i;] on a fresh
    array of [ncol] cells.  [idxord] holds column numbers, so that no
    cell outside [idxmap] is written. *)
Definition invert (idxord : list nat) (ncol : nat) : list nat :=
  foldl (fun idxmap i => <[nth i idxord 0 := i]> idxmap)
        (replicate ncol 0) (seq 0 ncol).

(** What [std::sort] asks of its comparison: a strict weak ordering. *)
Definition strict_weak {A} (less : A -> A -> bool) : Prop :=
  (forall a, less a a = false)
  /\ (forall a b c, less a b = true -> less b c = true -> less a c = true)
  /\ (forall a b c,
        less a b = false -> less b a = false ->
        less b c = false -> less c b = false ->
        less a c = false /\ less c a = false).

(** The order [std::sort] leaves: no element is less than one before
    it. *)
Definition ascending {A} (less : A -> A -> bool) : list A -> Prop :=
  StronglySorted (fun a b => less b a = false).

(** [operator<] of [std::pair<unsigned int, unsigned int>]. *)
Definition pair_ltb (a b : nat * nat) : bool :=
  (a.1 <? b.1) || (negb (b.1 <? a.1) && (a.2 <? b.2)).

(** [for (k = j; k < ncol && ds[j] == ds[k]; ++k) {}], [dj] being
    [ds[j]]: the value of [k] after the loop.  It stops by [ncol], so
    that [ncol - k] rounds are enough. *)
Fixpoint run_end (ds : list nat) (ncol dj k fuel : nat) : nat :=
  match fuel with
  | O => k
  | S fuel =>
      if (k <? ncol) && (dj =? nth k ds 0)
      then run_end ds ncol dj (S k) fuel else k
  end.

Section Order.

(** [std::sort]: which of the orders it is free to produce is not
    fixed, only that the result is a rearrangement in ascending
    order. *)
Variable sort : forall A : Type, (A -> A -> bool) -> list A -> list A.
Arguments sort {A}.
Hypothesis sort_permutes :
  forall A (less : A -> A -> bool) l, sort less l ≡ₚ l.
Hypothesis sort_ascends :
  forall A (less : A -> A -> bool) l,
    strict_weak less -> ascending less (sort less l).

(** The conversion [(float)] of a count. *)
Variable float_of : nat -> Q.

(** The constructor's step: [idxmap] and the labels [ds] afterwards. *)
Definition order_columns (ds : list nat) (ncol : nat)
  : list nat * list nat :=
  let idxord := sort (ComponentCmp ds) (seq 0 ncol) in
  let idxmap := invert idxord ncol in
  (idxmap, sort Nat.ltb (take ncol ds) ++ drop ncol ds).

(** "Update frag_count indexes": [i->first = idxmap[i->first]] over
    [nz_frag_counts], then [std::sort] on the pairs; [None] for an
    index outside [idxmap]. *)
Definition renumber_counts (idxmap : list nat) (fcs : list (nat * nat))
  : option (list (nat * nat)) :=
  sort pair_ltb <$> mapM (fun fc => i ← idxmap !! fc.1; Some (i, fc.2)) fcs.

(** [while (fc != end && fc->first < k)
       { frag_counts[i][fc->first - j] = (float) fc->second; ++fc; }]:
    the row and the rest of [nz_frag_counts]; [None] for a write
    outside the row. *)
Fixpoint fill_counts (j k : nat) (fc : list (nat * nat)) (row : list Q)
  : option (list Q * list (nat * nat)) :=
  match fc with
  | [] => Some (row, fc)
  | (first, second) :: rest =>
      if first <? k
      then if (j <=? first) && (first - j <? length row)
           then fill_counts j k rest (<[first - j := float_of second]> row)
           else None
      else Some (row, fc)
  end.

(** The state of "Build fragment count array": [j], the iterator
    [fc], [component_frag], [frag_counts], and whether every
    [assert(ds[j] <= i)] so far held. *)
Definition build_state : Type :=
  nat * list (nat * nat) * list nat * list (list Q) * bool.

(** One round of the loop, for component [i].  [frag_counts[i]] stays
    the null pointer, here the empty row, for a component without
    fragments. *)
Definition build_step (ds : list nat) (ncol : nat)
    (st : option build_state) (i : nat) : option build_state :=
  '(j, fc, component_frag, frag_counts, ok) ← st;
  let component_frag := <[i := j]> component_frag in
  dj ← ds !! j;
  let ok := ok && (dj <=? i) in
  if i <? dj then Some (j, fc, component_frag, frag_counts, ok)
  else
    let k := run_end ds ncol dj j (ncol - j) in
    if k - j =? 0 then Some (j, fc, component_frag, frag_counts, ok)
    else
      '(row, fc) ← fill_counts j k fc (replicate (k - j) 1%Q);
      Some (k, fc, component_frag, <[i := row]> frag_counts, ok).

(** The loop over the components and
    [component_frag[num_components] = ncol]: [component_frag],
    [frag_counts] and whether the assertions held.  [None] for a read
    outside [ds] or a write outside a row. *)
Definition build (ds : list nat) (ncol n : nat) (fcs : list (nat * nat))
  : option (list nat * list (list Q) * bool) :=
  '(j, fc, component_frag, frag_counts, ok) ←
    foldl (build_step ds ncol)
          (Some (0, fcs, replicate (n + 1) 0, replicate n [], true))
          (seq 0 n);
  Some (<[n := ncol]> component_frag, frag_counts, ok).

(** From the labels to the layout: the columns are put in order, the
    counts renumbered and sorted, the arrays built. *)
Definition lay_out (ds : list nat) (ncol n : nat) (fcs : list (nat * nat))
  : option (list nat * list nat * list nat * list (list Q) * bool) :=
  let '(idxmap, ds') := order_columns ds ncol in
  fcs' ← renumber_counts idxmap fcs;
  '(component_frag, frag_counts, ok) ← build ds' ncol n fcs';
  Some (idxmap, ds', component_frag, frag_counts, ok).

(** The number of the first [ncol] labels below [c]. *)
Definition count_lt (l : list nat) (c : nat) : nat :=
  length (filter (fun x => x < c) l).

Lemma ComponentCmp_strict_weak ds : strict_weak (ComponentCmp ds).
Proof.
  unfold strict_weak, ComponentCmp. split; [| split]; intros *;
    rewrite ?Nat.ltb_lt, ?Nat.ltb_ge; lia.
Qed.

Lemma ltb_strict_weak : strict_weak Nat.ltb.
Proof.
  unfold strict_weak. split; [| split]; intros *;
    rewrite ?Nat.ltb_lt, ?Nat.ltb_ge; lia.
Qed.

Lemma invert_prefix idxord ncol k :
  NoDup idxord -> length idxord = ncol ->
  (forall x, x ∈ idxord -> x < ncol) -> k <= ncol ->
  let m := foldl (fun idxmap i => <[nth i idxord 0 := i]> idxmap)
                 (replicate ncol 0) (seq 0 k) in
  length m = ncol
  /\ forall i, i < k -> m !! nth i idxord 0 = Some i.
Proof.
  intros Hnd Hlen Hlt. induction k as [| k IH]; intros Hk; cbv zeta.
  - simpl. split; [apply length_replicate | lia].
  - rewrite seq_S, foldl_app. cbn [foldl Nat.add].
    destruct IH as [IHl IHi]; [lia |].
    split; [now rewrite length_insert |].
    intros i Hi.
    destruct (lookup_lt_is_Some_2 idxord k ltac:(lia)) as [xk Hxk].
    destruct (lookup_lt_is_Some_2 idxord i ltac:(lia)) as [xi Hxi].
    rewrite (nth_lookup_Some _ _ _ _ Hxk), (nth_lookup_Some _ _ _ _ Hxi).
    destruct (decide (i = k)) as [-> | Hne].
    + assert (xi = xk) as -> by congruence.
      apply list_lookup_insert_eq. rewrite IHl.
      apply Hlt. eapply list_elem_of_lookup_2; eassumption.
    + rewrite list_lookup_insert_ne.
      * rewrite <- (nth_lookup_Some _ _ 0 _ Hxi). apply IHi. lia.
      * intros ->. apply Hne. symmetry.
        eapply NoDup_lookup; eassumption.
Qed.

Lemma nth_seq_take (ds : list nat) ncol :
  ncol <= length ds ->
  map (fun i => nth i ds 0) (seq 0 ncol) = take ncol ds.
Proof.
  intros H. apply list_eq. intros i.
  rewrite list_lookup_fmap.
  destruct (decide (i < ncol)) as [Hi | Hi].
  - rewrite lookup_seq_lt by assumption. rewrite lookup_take_lt by assumption.
    cbn. destruct (lookup_lt_is_Some_2 ds i ltac:(lia)) as [x Hx].
    now rewrite Hx, (nth_lookup_Some _ _ _ _ Hx).
  - rewrite lookup_seq_ge by lia. rewrite lookup_take_ge by lia. reflexivity.
Qed.

Lemma ascending_labels ds l :
  ascending (ComponentCmp ds) l ->
  StronglySorted le (map (fun i => nth i ds 0) l).
Proof.
  induction 1 as [| a l Hs IH Hall]; [constructor |].
  cbn [map]. constructor; [exact IH |].
  apply Forall_fmap. eapply Forall_impl; [exact Hall |].
  intros b Hb. cbn. unfold ComponentCmp in Hb.
  apply Nat.ltb_ge in Hb. exact Hb.
Qed.

Lemma ascending_ltb l : ascending Nat.ltb l -> StronglySorted le l.
Proof.
  induction 1 as [| a l Hs IH Hall]; [constructor |].
  constructor; [exact IH |].
  eapply Forall_impl; [exact Hall |].
  intros b Hb. cbn in Hb. now apply Nat.ltb_ge in Hb.
Qed.

Lemma count_lt_le l c : count_lt l c <= length l.
Proof. apply length_filter. Qed.

Lemma count_lt_0 l : count_lt l 0 = 0.
Proof.
  unfold count_lt. induction l as [| a l IH]; [reflexivity |].
  rewrite filter_cons_False by lia. exact IH.
Qed.

Lemma count_lt_mono l c c' : c <= c' -> count_lt l c <= count_lt l c'.
Proof.
  intros H. unfold count_lt. induction l as [| a l IH]; [reflexivity |].
  rewrite !filter_cons.
  destruct (decide (a < c)), (decide (a < c')); cbn; lia.
Qed.

Lemma count_lt_spec l c p :
  StronglySorted le l -> p < length l ->
  (nth p l 0 < c <-> p < count_lt l c).
Proof.
  intros Hs. revert p. unfold count_lt.
  induction Hs as [| a l Hs IH Hall]; intros p Hp; [cbn in Hp; lia |].
  rewrite filter_cons. destruct (decide (a < c)) as [Ha | Ha].
  - destruct p as [| p]; cbn; [lia |].
    cbn in Hp. rewrite IH by lia. lia.
  - assert (E : filter (fun x => x < c) l = []).
    { clear -Hall Ha. induction Hall as [| b l Hb Hall IH]; [reflexivity |].
      rewrite filter_cons_False by lia. exact IH. }
    rewrite E. cbn [length].
    destruct p as [| p]; cbn; [lia |].
    cbn in Hp. rewrite Forall_forall in Hall.
    assert (a <= nth p l 0); [| lia].
    apply Hall. apply list_elem_of_In, nth_In. lia.
Qed.

Lemma count_lt_succ l c :
  count_lt l (c + 1) = count_lt l c + length (filter (fun x => x = c) l).
Proof.
  unfold count_lt. induction l as [| a l IH]; [reflexivity |].
  rewrite !filter_cons.
  destruct (decide (a < c + 1)), (decide (a < c)), (decide (a = c));
    cbn [length]; lia.
Qed.

Lemma run_end_spec ds ncol dj e fuel k :
  k <= e <= ncol ->
  (forall p, k <= p < e -> nth p ds 0 = dj) ->
  (e < ncol -> nth e ds 0 <> dj) ->
  ncol - k <= fuel ->
  run_end ds ncol dj k fuel = e.
Proof.
  revert k. induction fuel as [| fuel IH]; intros k Hk Hrun Hend Hf.
  - cbn. lia.
  - cbn [run_end].
    destruct (decide (k = e)) as [-> | Hne].
    + destruct (Nat.ltb_spec e ncol) as [Hlt | Hge]; [| reflexivity].
      cbn [andb]. destruct (Nat.eqb_spec dj (nth e ds 0)) as [E |]; [| reflexivity].
      exfalso. apply (Hend Hlt). now symmetry.
    + destruct (Nat.ltb_spec k ncol) as [Hlt | Hge]; [| lia].
      cbn [andb]. rewrite (Hrun k) by lia. rewrite Nat.eqb_refl.
      apply IH; [lia | | exact Hend | lia].
      intros p Hp. apply Hrun. lia.
Qed.

Lemma fill_counts_spec j k fc row :
  length row = k - j ->
  NoDup fc.*1 ->
  Forall (fun x => j <= x.1) fc ->
  StronglySorted (fun a b : nat * nat => a.1 <= b.1) fc ->
  exists row' consumed fc',
    fill_counts j k fc row = Some (row', fc')
    /\ fc = consumed ++ fc'
    /\ Forall (fun x => x.1 < k) consumed
    /\ Forall (fun x => k <= x.1) fc'
    /\ length row' = length row
    /\ (forall f cnt, (f, cnt) ∈ consumed ->
          row' !! (f - j) = Some (float_of cnt))
    /\ (forall p, j + p ∉ consumed.*1 -> row' !! p = row !! p).
Proof.
  intros Hlen Hnd Hj Hs. revert row Hlen.
  induction Hs as [| [first second] rest Hs IH Hall]; intros row Hlen.
  - exists row, [], []. cbn. repeat split; try constructor.
    intros f cnt H. now apply elem_of_nil in H.
  - cbn [fill_counts].
    apply Forall_cons in Hj as [Hj1 Hj]. cbn in Hj1.
    cbn in Hnd. apply NoDup_cons in Hnd as [Hnot Hnd].
    destruct (Nat.ltb_spec first k) as [Hlt | Hge].
    + destruct (Nat.leb_spec j first) as [_ |]; [| lia].
      destruct (Nat.ltb_spec (first - j) (length row)) as [_ |]; [| lia].
      cbn [andb].
      destruct (IH Hnd Hj (<[first - j := float_of second]> row))
        as (row' & consumed & fc' & E & Efc & Hc & Hfc' & Hl & Hset & Hkeep).
      { now rewrite length_insert. }
      exists row', ((first, second) :: consumed), fc'.
      split; [exact E |]. split; [now rewrite Efc |].
      split; [constructor; [exact Hlt | exact Hc] |].
      split; [exact Hfc' |].
      split; [now rewrite Hl, length_insert |].
      split.
      * intros f cnt Hin. apply elem_of_cons in Hin as [Heq | Hin].
        -- injection Heq as -> ->. rewrite Hkeep.
           ++ apply list_lookup_insert_eq. lia.
           ++ replace (j + (first - j)) with first by lia.
              intros Hin. apply Hnot. rewrite Efc, fmap_app.
              apply elem_of_app. now left.
        -- now apply Hset.
      * intros p Hp. rewrite Hkeep.
        -- apply list_lookup_insert_ne. intros Heq. apply Hp.
           cbn. apply elem_of_cons. left. lia.
        -- intros Hin. apply Hp. cbn. apply elem_of_cons. now right.
    + exists row, [], ((first, second) :: rest). cbn.
      split; [reflexivity |]. split; [reflexivity |].
      split; [constructor |]. split.
      * constructor; [exact Hge |].
        eapply Forall_impl; [exact Hall |]. cbn. intros x Hx. lia.
      * split; [reflexivity |]. split; [| reflexivity].
        intros f cnt H. now apply elem_of_nil in H.
Qed.

Lemma order_columns_spec (ds : list nat) (ncol : nat) :
  ncol <= length ds ->
  let idxmap := (order_columns ds ncol).1 in
  let ds' := (order_columns ds ncol).2 in
  idxmap ≡ₚ seq 0 ncol
  /\ (forall j, j < ncol ->
        exists j', idxmap !! j = Some j' /\ j' < ncol
                   /\ ds' !! j' = ds !! j)
  /\ StronglySorted le (take ncol ds')
  /\ take ncol ds' ≡ₚ take ncol ds
  /\ drop ncol ds' = drop ncol ds
  /\ length ds' = length ds.
Proof.
  intros Hn. unfold order_columns. cbn [fst snd]. cbv zeta.
  set (idxord := sort (ComponentCmp ds) (seq 0 ncol)).
  set (sorted := sort Nat.ltb (take ncol ds)).
  assert (Hp : idxord ≡ₚ seq 0 ncol) by apply sort_permutes.
  assert (Hnd : NoDup idxord) by (rewrite Hp; apply NoDup_seq).
  assert (Hlen : length idxord = ncol)
    by (rewrite Hp; apply length_seq).
  assert (Hlt : forall x, x ∈ idxord -> x < ncol).
  { intros x Hx. rewrite Hp in Hx. apply elem_of_seq in Hx. lia. }
  destruct (invert_prefix idxord ncol ncol Hnd Hlen Hlt (le_n _))
    as [Hl Hi].
  fold (invert idxord ncol) in Hl, Hi.
  assert (Hsl : length sorted = ncol).
  { unfold sorted. rewrite sort_permutes. rewrite length_take. lia. }
  assert (Hsorted : map (fun i => nth i ds 0) idxord = sorted).
  { apply (StronglySorted_unique_strong le).
    - intros x y _ _ ? ?. lia.
    - apply ascending_labels, sort_ascends, ComponentCmp_strict_weak.
    - apply ascending_ltb, sort_ascends, ltb_strict_weak.
    - unfold sorted. rewrite sort_permutes, <- (nth_seq_take ds ncol Hn).
      apply Permutation_map, Hp. }
  split; [| split; [| split; [| split; [| split]]]].
  - symmetry. apply submseteq_length_Permutation.
    + apply NoDup_submseteq; [apply NoDup_seq |].
      intros x Hx. apply elem_of_seq in Hx.
      apply (list_elem_of_lookup_2 _ (nth x idxord 0)). apply Hi. lia.
    + rewrite Hl, length_seq. lia.
  - intros j Hj.
    assert (Hje : j ∈ idxord).
    { rewrite Hp. apply elem_of_seq. lia. }
    apply list_elem_of_lookup_1 in Hje. destruct Hje as [i Hij].
    assert (Hic : i < ncol).
    { rewrite <- Hlen. eapply lookup_lt_Some; eassumption. }
    exists i. split; [| split; [exact Hic |]].
    + rewrite <- (nth_lookup_Some _ _ 0 _ Hij). apply Hi. exact Hic.
    + rewrite lookup_app_l by lia. rewrite <- Hsorted.
      change (map (fun i0 => nth i0 ds 0) idxord)
        with ((fun i0 => nth i0 ds 0) <$> idxord).
      rewrite list_lookup_fmap, Hij. cbn.
      destruct (lookup_lt_is_Some_2 ds j ltac:(lia)) as [x Hx].
      now rewrite Hx, (nth_lookup_Some _ _ _ _ Hx).
  - rewrite take_app_length' by (symmetry; exact Hsl).
    apply ascending_ltb, sort_ascends, ltb_strict_weak.
  - rewrite take_app_length' by (symmetry; exact Hsl).
    apply sort_permutes.
  - now rewrite drop_app_length' by (symmetry; exact Hsl).
  - rewrite length_app, Hsl, length_drop. lia.
Qed.

Section Build.

Variables (ds : list nat) (ncol n : nat) (fcs : list (nat * nat)).
Hypothesis ds_long : ncol < length ds.
Hypothesis ds_sorted : StronglySorted le (take ncol ds).
Hypothesis fcs_sorted :
  StronglySorted (fun a b : nat * nat => a.1 <= b.1) fcs.
Hypothesis fcs_nodup : NoDup fcs.*1.

(** The first column of component [c], were every column before it
    of a smaller component. *)
Definition first_column (c : nat) : nat := count_lt (take ncol ds) c.

(** Row [c] of [frag_counts] has a cell for each column from
    [first_column c] up to [first_column (c + 1)], with the count
    recorded for the column, or 1. *)
Definition row_ok (c : nat) (row : list Q) : Prop :=
  length row = first_column (c + 1) - first_column c
  /\ forall f, first_column c <= f < first_column (c + 1) ->
       (forall cnt, (f, cnt) ∈ fcs ->
          row !! (f - first_column c) = Some (float_of cnt))
       /\ (f ∉ fcs.*1 -> row !! (f - first_column c) = Some 1%Q).

Definition inv (i : nat) (st : build_state) : Prop :=
  let '(j, fc, component_frag, frag_counts, ok) := st in
  j = first_column i
  /\ (exists consumed,
        fcs = consumed ++ fc /\ Forall (fun x => x.1 < j) consumed)
  /\ Forall (fun x => j <= x.1) fc
  /\ length component_frag = n + 1
  /\ length frag_counts = n
  /\ (forall c, c < i -> component_frag !! c = Some (first_column c))
  /\ (forall c, c < i ->
        exists row, frag_counts !! c = Some row /\ row_ok c row)
  /\ (forall c, i <= c < n -> frag_counts !! c = Some [])
  /\ (ok = true <-> forall c, c < i -> nth (first_column c) ds 0 <= c).

Lemma first_column_le c : first_column c <= ncol.
Proof.
  unfold first_column. etransitivity; [apply count_lt_le |].
  rewrite length_take. lia.
Qed.

Lemma first_column_mono c c' : c <= c' -> first_column c <= first_column c'.
Proof. apply count_lt_mono. Qed.

Lemma nth_cols p : p < ncol -> nth p (take ncol ds) 0 = nth p ds 0.
Proof.
  intros Hp. destruct (lookup_lt_is_Some_2 ds p ltac:(lia)) as [x Hx].
  rewrite (nth_lookup_Some _ _ _ _ Hx). apply nth_lookup_Some.
  now rewrite lookup_take_lt.
Qed.

Lemma first_column_spec c p :
  p < ncol -> (nth p ds 0 < c <-> p < first_column c).
Proof.
  intros Hp. rewrite <- nth_cols by exact Hp.
  apply count_lt_spec; [exact ds_sorted |]. rewrite length_take. lia.
Qed.

(** A component without a column: the next one starts at the same
    column. *)
Lemma first_column_skip i :
  (first_column i < ncol -> i < nth (first_column i) ds 0) ->
  first_column (i + 1) = first_column i.
Proof.
  intros H. pose proof (first_column_mono i (i + 1) ltac:(lia)).
  pose proof (first_column_le (i + 1)).
  destruct (decide (first_column i < ncol)) as [Hlt | Hge]; [| lia].
  specialize (H Hlt).
  pose proof (first_column_spec (i + 1) (first_column i) Hlt). lia.
Qed.

Lemma row_ok_empty i : first_column (i + 1) = first_column i -> row_ok i [].
Proof. intros E. unfold row_ok. rewrite E. split; [cbn; lia | intros f Hf; lia]. Qed.

Lemma build_prefix i :
  i <= n ->
  exists st,
    foldl (build_step ds ncol)
          (Some (0, fcs, replicate (n + 1) 0, replicate n [], true))
          (seq 0 i) = Some st
    /\ inv i st.
Proof.
  induction i as [| i IH]; intros Hi.
  - eexists. split; [reflexivity |]. cbn.
    split; [symmetry; apply count_lt_0 |].
    split; [exists []; split; [reflexivity | constructor] |].
    split; [apply Forall_forall; intros; lia |].
    split; [apply length_replicate |].
    split; [apply length_replicate |].
    split; [intros c Hc; lia |].
    split; [intros c Hc; lia |].
    split; [intros c Hc; apply lookup_replicate_2; lia |].
    split; [intros _ c Hc; lia | reflexivity].
  - destruct IH as ([[[[j fc] cf] fcounts] ok] & E & Hinv); [lia |].
    destruct Hinv as (Hj & (consumed & Hfcs & Hcons) & Hfc & Hlcf & Hlfc
                      & Hcf & Hrows & Hnull & Hok).
    rewrite seq_S, foldl_app, E. cbn [foldl Nat.add].
    unfold build_step. cbn [mbind option_bind].
    pose proof (first_column_le i) as Hjle.
    destruct (lookup_lt_is_Some_2 ds j ltac:(lia)) as [dj Hdj].
    rewrite Hdj. cbn [mbind option_bind].
    pose proof (nth_lookup_Some _ _ 0 _ Hdj) as Hnth. rewrite Hj in Hnth.
    assert (Hcf' : forall c, c < S i ->
              <[i := j]> cf !! c = Some (first_column c)).
    { intros c Hc. destruct (decide (c = i)) as [-> | Hne].
      - rewrite list_lookup_insert_eq by lia. now rewrite Hj.
      - rewrite list_lookup_insert_ne by lia. apply Hcf. lia. }
    assert (Hok' : ok && (dj <=? i) = true
                   <-> forall c, c < S i -> nth (first_column c) ds 0 <= c).
    { rewrite andb_true_iff, Hok, Nat.leb_le. split.
      - intros [H1 H2] c Hc. destruct (decide (c = i)) as [-> | Hne].
        + now rewrite Hnth.
        + apply H1. lia.
      - intros H. split; [intros c Hc; apply H; lia |].
        rewrite <- Hnth. apply H. lia. }
    (* a component without a column *)
    assert (Hskip : first_column (i + 1) = first_column i ->
              inv (S i) (j, fc, <[i := j]> cf, fcounts, ok && (dj <=? i))).
    { intros Eq. cbn.
      split; [replace (S i) with (i + 1) by lia; congruence |].
      split; [exists consumed; split; assumption |].
      split; [exact Hfc |].
      split; [now rewrite length_insert |].
      split; [exact Hlfc |].
      split; [exact Hcf' |].
      split.
      { intros c Hc. destruct (decide (c = i)) as [-> | Hne].
        - exists []. split; [apply Hnull; lia | now apply row_ok_empty].
        - apply Hrows. lia. }
      split; [intros c Hc; apply Hnull; lia | exact Hok']. }
    destruct (Nat.ltb_spec i dj) as [Hlt | Hge].
    { eexists. split; [reflexivity |]. apply Hskip.
      apply first_column_skip. intros _. now rewrite Hnth. }
    (* the run of the columns of component [i] *)
    assert (Hrun : run_end ds ncol dj j (ncol - j) = first_column (i + 1)).
    { pose proof (first_column_mono i (i + 1) ltac:(lia)).
      pose proof (first_column_le (i + 1)).
      destruct (decide (j < ncol)) as [Hjn | Hjn].
      - assert (dj = i) as ->.
        { pose proof (first_column_spec i j Hjn) as S. rewrite Hj in S.
          rewrite Hnth in S. lia. }
        apply run_end_spec; [lia | | | lia].
        + intros p Hp.
          pose proof (first_column_spec i p ltac:(lia)).
          pose proof (first_column_spec (i + 1) p ltac:(lia)). lia.
        + intros He.
          pose proof (first_column_spec (i + 1) _ He). lia.
      - apply run_end_spec; [lia | intros p Hp; lia | lia | lia]. }
    rewrite Hrun.
    destruct (Nat.eqb_spec (first_column (i + 1) - j) 0) as [Hz | Hnz].
    { eexists. split; [reflexivity |]. apply Hskip.
      pose proof (first_column_mono i (i + 1) ltac:(lia)). lia. }
    assert (Hs : StronglySorted (fun a b : nat * nat => a.1 <= b.1) fc).
    { pose proof fcs_sorted as Hs. rewrite Hfcs in Hs.
      now apply StronglySorted_app_1_r in Hs. }
    assert (Hn : NoDup fc.*1).
    { pose proof fcs_nodup as Hn. rewrite Hfcs, fmap_app in Hn.
      apply NoDup_app in Hn. tauto. }
    destruct (fill_counts_spec j (first_column (i + 1)) fc
                (replicate (first_column (i + 1) - j) 1%Q)
                ltac:(apply length_replicate) Hn Hfc Hs)
      as (row & used & fc' & Efill & Efc & Hused & Hfc' & Hlrow & Hset & Hkeep).
    rewrite Efill. cbn [mbind option_bind].
    eexists. split; [reflexivity |]. cbn.
    split; [f_equal; lia |].
    split.
    { exists (consumed ++ used). split; [now rewrite Hfcs, Efc, app_assoc |].
      apply Forall_app. split; [| exact Hused].
      eapply Forall_impl; [exact Hcons |]. cbn. intros x Hx. lia. }
    split; [exact Hfc' |].
    split; [now rewrite length_insert |].
    split; [now rewrite length_insert |].
    split; [exact Hcf' |].
    split.
    { intros c Hc. destruct (decide (c = i)) as [-> | Hne].
      - exists row. split; [apply list_lookup_insert_eq; lia |].
        split; [rewrite Hlrow, length_replicate; lia |].
        intros f Hf. rewrite <- Hj. split.
        + intros cnt Hin. apply Hset.
          rewrite Hfcs in Hin. apply elem_of_app in Hin as [Hin | Hin].
          { rewrite Forall_forall in Hcons. specialize (Hcons _ Hin).
            cbn in Hcons. lia. }
          rewrite Efc in Hin. apply elem_of_app in Hin as [Hin | Hin];
            [exact Hin |].
          rewrite Forall_forall in Hfc'. specialize (Hfc' _ Hin).
          cbn in Hfc'. lia.
        + intros Hnot. rewrite Hkeep.
          * apply lookup_replicate_2. lia.
          * replace (j + (f - j)) with f by lia.
            intros Hin. apply Hnot. rewrite Hfcs, Efc, !fmap_app.
            apply elem_of_app. right. apply elem_of_app. now left.
      - rewrite list_lookup_insert_ne by lia. apply Hrows. lia. }
    split.
    { intros c Hc. rewrite list_lookup_insert_ne by lia. apply Hnull. lia. }
    exact Hok'.
Qed.

Lemma build_spec :
  exists component_frag frag_counts ok,
    build ds ncol n fcs = Some (component_frag, frag_counts, ok)
    /\ length component_frag = n + 1
    /\ length frag_counts = n
    /\ (forall c, c < n -> component_frag !! c = Some (first_column c))
    /\ component_frag !! n = Some ncol
    /\ (forall c, c < n ->
          exists row, frag_counts !! c = Some row /\ row_ok c row)
    /\ (ok = true <-> forall c, c < n -> nth (first_column c) ds 0 <= c).
Proof.
  destruct (build_prefix n (le_n _)) as ([[[[j fc] cf] fcounts] ok] & E & Hinv).
  destruct Hinv as (_ & _ & _ & Hlcf & Hlfc & Hcf & Hrows & _ & Hok).
  exists (<[n := ncol]> cf), fcounts, ok.
  unfold build. rewrite E. cbn [mbind option_bind].
  split; [reflexivity |].
  split; [now rewrite length_insert |].
  split; [exact Hlfc |].
  split; [intros c Hc; rewrite list_lookup_insert_ne by lia; now apply Hcf |].
  split; [apply list_lookup_insert_eq; lia |].
  split; [exact Hrows | exact Hok].
Qed.

(** The columns of component [c] are the ones from [first_column c] up
    to [first_column (c + 1)]. *)
Lemma column_range f c :
  f < ncol -> ds !! f = Some c ->
  first_column c <= f < first_column (c + 1).
Proof.
  intros Hf E. apply (nth_lookup_Some _ _ 0) in E.
  pose proof (first_column_spec c f Hf).
  pose proof (first_column_spec (c + 1) f Hf). lia.
Qed.

End Build.

(** The labels are numbered in the order in which they first appear:
    before a cell with label [c] there is a cell with each smaller
    label. *)
Definition first_seen (ds : list nat) : Prop :=
  forall p c, ds !! p = Some c ->
    forall c', c' < c -> exists p', p' < p /\ ds !! p' = Some c'.

Lemma build_columns ds ncol n fcs :
  ncol < length ds ->
  StronglySorted le (take ncol ds) ->
  StronglySorted (fun a b : nat * nat => a.1 <= b.1) fcs ->
  NoDup fcs.*1 ->
  exists component_frag frag_counts ok,
    build ds ncol n fcs = Some (component_frag, frag_counts, ok)
    /\ length component_frag = n + 1
    /\ length frag_counts = n
    /\ (forall c, c < n ->
          component_frag !! c = Some (count_lt (take ncol ds) c))
    /\ component_frag !! n = Some ncol
    /\ (forall c, c < n ->
          exists row,
            frag_counts !! c = Some row
            /\ length row = length (filter (fun x => x = c) (take ncol ds)))
    /\ (forall f c, f < ncol -> ds !! f = Some c -> c < n ->
          exists base row,
            component_frag !! c = Some base
            /\ frag_counts !! c = Some row
            /\ base <= f < base + length row
            /\ (forall cnt, (f, cnt) ∈ fcs ->
                  row !! (f - base) = Some (float_of cnt))
            /\ (f ∉ fcs.*1 -> row !! (f - base) = Some 1%Q))
    /\ (ok = true
        <-> forall c, c < n -> nth (count_lt (take ncol ds) c) ds 0 <= c).
Proof.
  intros Hlong Hsorted Hfs Hnd.
  destruct (build_spec ds ncol n fcs Hlong Hsorted Hfs Hnd)
    as (cf & fcounts & ok & E & Hlcf & Hlfc & Hcf & Hlast & Hrows & Hok).
  exists cf, fcounts, ok.
  split; [exact E |]. split; [exact Hlcf |]. split; [exact Hlfc |].
  split; [exact Hcf |]. split; [exact Hlast |].
  split; [| split; [| exact Hok]].
  - intros c Hc. destruct (Hrows c Hc) as (row & Er & Hl & _).
    exists row. split; [exact Er |].
    rewrite Hl. unfold first_column. rewrite count_lt_succ. lia.
  - intros f c Hf Ef Hc. destruct (Hrows c Hc) as (row & Er & Hl & Hcells).
    pose proof (column_range ds ncol Hlong Hsorted f c Hf Ef) as Hr.
    exists (first_column ds ncol c), row.
    split; [now apply Hcf |]. split; [exact Er |].
    split; [lia |]. apply Hcells. exact Hr.
Qed.

Lemma pair_ltb_spec (a b : nat * nat) :
  pair_ltb a b = true <-> a.1 < b.1 \/ (a.1 <= b.1 /\ a.2 < b.2).
Proof.
  unfold pair_ltb.
  rewrite orb_true_iff, andb_true_iff, negb_true_iff, !Nat.ltb_lt, Nat.ltb_ge.
  reflexivity.
Qed.

Lemma pair_ltb_false (a b : nat * nat) :
  pair_ltb a b = false <-> ~ (a.1 < b.1 \/ (a.1 <= b.1 /\ a.2 < b.2)).
Proof. rewrite <- pair_ltb_spec. symmetry. apply not_true_iff_false. Qed.

Lemma pair_ltb_strict_weak : strict_weak pair_ltb.
Proof.
  unfold strict_weak. split; [| split].
  - intros [a1 a2]. rewrite pair_ltb_false. cbn. lia.
  - intros [a1 a2] [b1 b2] [c1 c2]. rewrite !pair_ltb_spec. cbn. lia.
  - intros [a1 a2] [b1 b2] [c1 c2]. rewrite !pair_ltb_false. cbn. lia.
Qed.

Lemma ascending_pairs l :
  ascending pair_ltb l ->
  StronglySorted (fun a b : nat * nat => a.1 <= b.1) l.
Proof.
  induction 1 as [| a l Hs IH Hall]; [constructor |].
  constructor; [exact IH |].
  eapply Forall_impl; [exact Hall |].
  intros b Hb. cbn in Hb. apply pair_ltb_false in Hb. lia.
Qed.

Lemma renumber_total idxmap (fcs : list (nat * nat)) :
  Forall (fun x => x.1 < length idxmap) fcs ->
  mapM (fun fc => i ← idxmap !! fc.1; Some (i, fc.2)) fcs
  = Some (map (fun fc => (nth fc.1 idxmap 0, fc.2)) fcs).
Proof.
  induction 1 as [| [f cnt] l Hf Hall IH]; [reflexivity |].
  cbn [mapM]. cbn in Hf.
  destruct (lookup_lt_is_Some_2 idxmap f Hf) as [x Hx].
  cbn [fst snd]. rewrite Hx. cbn [mbind option_bind]. rewrite IH.
  cbn. now rewrite (nth_lookup_Some _ _ _ _ Hx).
Qed.

Section Layout.

Variables (ds : list nat) (ncol n : nat) (fcs : list (nat * nat)).
Hypothesis ds_long : ncol < length ds.
Hypothesis fcs_columns : Forall (fun x => x.1 < ncol) fcs.
Hypothesis fcs_nodup : NoDup fcs.*1.

Lemma lay_out_spec :
  exists idxmap ds' component_frag frag_counts ok,
    lay_out ds ncol n fcs
    = Some (idxmap, ds', component_frag, frag_counts, ok)
    /\ idxmap ≡ₚ seq 0 ncol
    /\ length frag_counts = n
    /\ (forall c, c < n ->
          component_frag !! c = Some (count_lt (take ncol ds) c))
    /\ component_frag !! n = Some ncol
    /\ (forall c, c < n ->
          exists row,
            frag_counts !! c = Some row
            /\ length row = length (filter (fun x => x = c) (take ncol ds)))
    /\ (forall f c, f < ncol -> ds !! f = Some c -> c < n ->
          exists f' base row,
            idxmap !! f = Some f'
            /\ ds' !! f' = Some c
            /\ component_frag !! c = Some base
            /\ frag_counts !! c = Some row
            /\ base <= f' < base + length row
            /\ (forall cnt, (f, cnt) ∈ fcs ->
                  row !! (f' - base) = Some (float_of cnt))
            /\ (f ∉ fcs.*1 -> row !! (f' - base) = Some 1%Q))
    /\ (first_seen ds -> ok = true).
Proof.
  unfold lay_out.
  pose proof (order_columns_spec ds ncol ltac:(lia)) as Hord.
  destruct (order_columns ds ncol) as [idxmap ds'].
  cbn [fst snd] in Hord. cbv zeta in Hord.
  destruct Hord as (Hperm & Hmap & Hsorted & Htake & Hdrop & Hlen).
  assert (Hlidx : length idxmap = ncol)
    by (rewrite Hperm; apply length_seq).
  assert (Hndidx : NoDup idxmap) by (rewrite Hperm; apply NoDup_seq).
  unfold renumber_counts.
  rewrite renumber_total by (now rewrite Hlidx).
  cbn [fmap option_fmap option_map mbind option_bind].
  set (fcs0 := map (fun fc => (nth fc.1 idxmap 0, fc.2)) fcs).
  set (fcs' := sort pair_ltb fcs0).
  assert (Hp : fcs' ≡ₚ fcs0) by apply sort_permutes.
  assert (Hg : forall f, f < ncol -> idxmap !! f = Some (nth f idxmap 0)).
  { intros f Hf. destruct (lookup_lt_is_Some_2 idxmap f ltac:(lia)) as [x Hx].
    now rewrite (nth_lookup_Some _ _ _ _ Hx). }
  assert (Hinj : forall f g, f < ncol -> g < ncol ->
            nth f idxmap 0 = nth g idxmap 0 -> f = g).
  { intros f g Hf Hg' E. eapply NoDup_lookup; [exact Hndidx | |].
    - apply Hg, Hf.
    - rewrite E. apply Hg, Hg'. }
  assert (Hfirsts : fcs0.*1 = (fun f => nth f idxmap 0) <$> fcs.*1).
  { unfold fcs0. clear. induction fcs as [| x l IH]; [reflexivity |].
    cbn. f_equal. exact IH. }
  assert (Hnd' : NoDup fcs'.*1).
  { rewrite Hp, Hfirsts. apply NoDup_fmap_2_strong; [| exact fcs_nodup].
    intros f g Hf Hg' E. apply Hinj; [| | exact E].
    - apply list_elem_of_fmap in Hf as (x & -> & Hx).
      rewrite Forall_forall in fcs_columns. now apply fcs_columns.
    - apply list_elem_of_fmap in Hg' as (x & -> & Hx).
      rewrite Forall_forall in fcs_columns. now apply fcs_columns. }
  assert (Hs' : StronglySorted (fun a b : nat * nat => a.1 <= b.1) fcs')
    by apply ascending_pairs, sort_ascends, pair_ltb_strict_weak.
  destruct (build_columns ds' ncol n fcs' ltac:(lia) Hsorted Hs' Hnd')
    as (cf & fcounts & ok & E & Hlcf & Hlfc & Hcf & Hlast & Hsizes
        & Hcells & Hok).
  rewrite E. cbn [mbind option_bind].
  assert (Hcount : forall c,
            count_lt (take ncol ds') c = count_lt (take ncol ds) c).
  { intros c. unfold count_lt. now rewrite Htake. }
  exists idxmap, ds', cf, fcounts, ok.
  split; [reflexivity |]. split; [exact Hperm |]. split; [exact Hlfc |].
  split; [intros c Hc; rewrite <- Hcount; now apply Hcf |].
  split; [exact Hlast |].
  split; [| split].
  - intros c Hc. destruct (Hsizes c Hc) as (row & Er & Hl).
    exists row. split; [exact Er |]. now rewrite Hl, Htake.
  - intros f c Hf Ef Hc.
    destruct (Hmap f Hf) as (f' & Ef' & Hf' & Eds).
    destruct (Hcells f' c Hf' ltac:(congruence) Hc)
      as (base & row & Eb & Er & Hr & Hset & Hone).
    exists f', base, row.
    split; [exact Ef' |]. split; [congruence |].
    split; [exact Eb |]. split; [exact Er |]. split; [exact Hr |].
    assert (Ef'' : f' = nth f idxmap 0)
      by (symmetry; eapply nth_lookup_Some; exact Ef').
    split.
    + intros cnt Hin. apply Hset. rewrite Hp. unfold fcs0.
      apply list_elem_of_fmap. exists (f, cnt). split; [| exact Hin].
      cbn. now rewrite Ef''.
    + intros Hnot. apply Hone. rewrite Hp, Hfirsts. intros Hin.
      apply list_elem_of_fmap in Hin as (g & Eg & Hgin).
      apply Hnot. replace f with g; [exact Hgin |].
      symmetry. apply Hinj; [exact Hf | | congruence].
      apply list_elem_of_fmap in Hgin as (x & -> & Hx).
      rewrite Forall_forall in fcs_columns. now apply fcs_columns.
  - intros Hseen. apply Hok. intros c Hc.
    set (j := count_lt (take ncol ds') c).
    destruct (Nat.le_gt_cases (nth j ds' 0) c) as [Hle | Hgt]; [exact Hle |].
    exfalso.
    assert (Hj : j <= ncol).
    { unfold j. etransitivity; [apply count_lt_le |].
      rewrite length_take. lia. }
    (* the label at [j] is the label of a cell of [ds] up to [ncol] *)
    assert (Hsrc : exists p, p <= ncol /\ ds !! p = Some (nth j ds' 0)).
    { destruct (decide (j < ncol)) as [Hlt | Hge].
      - destruct (lookup_lt_is_Some_2 ds' j ltac:(lia)) as [d Hd].
        rewrite (nth_lookup_Some _ _ _ _ Hd).
        assert (Hin : d ∈ take ncol ds).
        { rewrite <- Htake. apply (list_elem_of_lookup_2 _ j).
          now rewrite lookup_take_lt. }
        apply list_elem_of_lookup_1 in Hin as [p Hp'].
        apply lookup_take_Some in Hp' as [Hp1 Hp2].
        exists p. split; [lia | exact Hp1].
      - assert (j = ncol) as -> by lia.
        exists ncol. split; [lia |].
        destruct (lookup_lt_is_Some_2 ds' ncol ltac:(lia)) as [d Hd].
        rewrite (nth_lookup_Some _ _ _ _ Hd).
        rewrite <- Hd.
        pose proof (lookup_drop ds ncol 0) as A.
        pose proof (lookup_drop ds' ncol 0) as B.
        rewrite Nat.add_0_r in A, B. now rewrite <- A, <- B, Hdrop. }
    destruct Hsrc as (p & Hp1 & Hp2).
    destruct (Hseen p _ Hp2 c Hgt) as (p' & Hp' & Ec).
    assert (Hin : c ∈ take ncol ds').
    { rewrite Htake. apply (list_elem_of_lookup_2 _ p').
      rewrite lookup_take_lt by lia. exact Ec. }
    apply list_elem_of_lookup_1 in Hin as [q Hq].
    apply lookup_take_Some in Hq as [Hq1 Hq2].
    apply (nth_lookup_Some _ _ 0) in Hq1.
    pose proof (first_column_spec ds' ncol ltac:(lia) Hsorted c q Hq2) as S1.
    pose proof (first_column_spec ds' ncol ltac:(lia) Hsorted (c + 1) q Hq2)
      as S2.
    unfold first_column in S1, S2. fold j in S1.
    assert (Hjn : j < ncol) by lia.
    pose proof (first_column_spec ds' ncol ltac:(lia) Hsorted (c + 1) j Hjn)
      as S3.
    unfold first_column in S3. lia.
Qed.

End Layout.

(** X13.  Putting the columns in the order of their components: for
    any order [std::sort] may choose among columns of one component,
    [idxmap] is a permutation of the column numbers, the label of
    column [j] is afterwards found at [idxmap[j]], the first [ncol]
    labels are the old ones in ascending order, and the labels of the
    transcripts stay. *)
Theorem order_columns_sorts_by_component
    (ds : list nat) (ncol : nat) (idxmap ds' : list nat) :
  ncol <= length ds ->
  order_columns ds ncol = (idxmap, ds') ->
  idxmap ≡ₚ seq 0 ncol
  /\ (forall j, j < ncol ->
        exists j', idxmap !! j = Some j' /\ j' < ncol
                   /\ ds' !! j' = ds !! j)
  /\ StronglySorted le (take ncol ds')
  /\ take ncol ds' ≡ₚ take ncol ds
  /\ drop ncol ds' = drop ncol ds
  /\ length ds' = length ds.
Proof.
  intros Hn E. pose proof (order_columns_spec ds ncol Hn) as H.
  rewrite E in H. exact H.
Qed.

(** X14.  "Build fragment count array", on labels whose first [ncol]
    cells ascend and counts in ascending order of distinct columns:
    [component_frag[c]] is the number of columns of components below
    [c] and [component_frag[num_components]] is [ncol]; row [c] of
    [frag_counts] has one cell per column of component [c]; the cell
    of column [f] is at [f - component_frag[c]] and holds the count
    recorded for [f], or 1 if there is none. *)
Theorem build_places_counts
    (ds : list nat) (ncol n : nat) (fcs : list (nat * nat)) :
  ncol < length ds ->
  StronglySorted le (take ncol ds) ->
  StronglySorted (fun a b : nat * nat => a.1 <= b.1) fcs ->
  NoDup fcs.*1 ->
  exists component_frag frag_counts ok,
    build ds ncol n fcs = Some (component_frag, frag_counts, ok)
    /\ length component_frag = n + 1
    /\ length frag_counts = n
    /\ (forall c, c < n ->
          component_frag !! c = Some (count_lt (take ncol ds) c))
    /\ component_frag !! n = Some ncol
    /\ (forall c, c < n ->
          exists row,
            frag_counts !! c = Some row
            /\ length row = length (filter (fun x => x = c) (take ncol ds)))
    /\ (forall f c, f < ncol -> ds !! f = Some c -> c < n ->
          exists base row,
            component_frag !! c = Some base
            /\ frag_counts !! c = Some row
            /\ base <= f < base + length row
            /\ (forall cnt, (f, cnt) ∈ fcs ->
                  row !! (f - base) = Some (float_of cnt))
            /\ (f ∉ fcs.*1 -> row !! (f - base) = Some 1%Q)).
Proof.
  intros Hlong Hsorted Hfs Hnd.
  destruct (build_columns ds ncol n fcs Hlong Hsorted Hfs Hnd)
    as (cf & fcounts & ok & E & H1 & H2 & H3 & H4 & H5 & H6 & _).
  exists cf, fcounts, ok. tauto.
Qed.

(** X15.  From labels to layout, for counts of distinct columns: the
    count recorded for column [f] of component [c] ends in row [c] of
    [frag_counts], at the offset of the column's new number
    [idxmap[f]] from [component_frag[c]], and a column without a
    recorded count has 1 there; row [c] is as long as the component
    has columns. *)
Theorem lay_out_places_counts
    (ds : list nat) (ncol n : nat) (fcs : list (nat * nat)) :
  ncol < length ds ->
  Forall (fun x => x.1 < ncol) fcs ->
  NoDup fcs.*1 ->
  exists idxmap ds' component_frag frag_counts ok,
    lay_out ds ncol n fcs
    = Some (idxmap, ds', component_frag, frag_counts, ok)
    /\ idxmap ≡ₚ seq 0 ncol
    /\ length frag_counts = n
    /\ (forall c, c < n ->
          component_frag !! c = Some (count_lt (take ncol ds) c))
    /\ component_frag !! n = Some ncol
    /\ (forall c, c < n ->
          exists row,
            frag_counts !! c = Some row
            /\ length row = length (filter (fun x => x = c) (take ncol ds)))
    /\ (forall f c, f < ncol -> ds !! f = Some c -> c < n ->
          exists f' base row,
            idxmap !! f = Some f'
            /\ ds' !! f' = Some c
            /\ component_frag !! c = Some base
            /\ frag_counts !! c = Some row
            /\ base <= f' < base + length row
            /\ (forall cnt, (f, cnt) ∈ fcs ->
                  row !! (f' - base) = Some (float_of cnt))
            /\ (f ∉ fcs.*1 -> row !! (f' - base) = Some 1%Q)).
Proof.
  intros Hlong Hcols Hnd.
  destruct (lay_out_spec ds ncol n fcs Hlong Hcols Hnd)
    as (idxmap & ds' & cf & fcounts & ok & E & H1 & H2 & H3 & H4 & H5
        & H6 & _).
  exists idxmap, ds', cf, fcounts, ok. tauto.
Qed.

(** X16.  On labels numbered in the order of their first appearance,
    no [assert(ds[j] <= i)] of the loop fails. *)
Theorem lay_out_assertions_hold
    (ds : list nat) (ncol n : nat) (fcs : list (nat * nat)) :
  ncol < length ds ->
  Forall (fun x => x.1 < ncol) fcs ->
  NoDup fcs.*1 ->
  first_seen ds ->
  exists idxmap ds' component_frag frag_counts,
    lay_out ds ncol n fcs
    = Some (idxmap, ds', component_frag, frag_counts, true).
Proof.
  intros Hlong Hcols Hnd Hseen.
  destruct (lay_out_spec ds ncol n fcs Hlong Hcols Hnd)
    as (idxmap & ds' & cf & fcounts & ok & E & _ & _ & _ & _ & _ & _ & Hok).
  exists idxmap, ds', cf, fcounts. now rewrite E, (Hok Hseen).
Qed.

End Order.
(** ** The labels of [find_components] *)

Lemma fold_label_keeps l : forall m x v,
  m !! x = Some v -> fold_left Components.label_step l m !! x = Some v.
Proof.
  induction l as [| r l IH]; intros m x v H; [exact H |].
  cbn [fold_left]. apply IH. unfold Components.label_step.
  destruct (m !! r) eqn:E; [exact H |].
  rewrite lookup_insert_ne; [exact H | congruence].
Qed.

Lemma label_step_new m r v :
  Components.dense m ->
  Components.label_step m r !! r = Some v -> v <= size m.
Proof.
  intros (B & _) H. unfold Components.label_step in H.
  destruct (m !! r) as [w |] eqn:E.
  - rewrite E in H. injection H as <-. apply B in E. lia.
  - rewrite lookup_insert_eq in H. injection H as <-. lia.
Qed.

Lemma label_roots_first_seen ds :
  first_seen
    (map (Components.label_of (Components.label_roots ds)) ds).
Proof.
  intros p c Hp c' Hc'.
  change (map ?f ds) with (f <$> ds) in *.
  rewrite list_lookup_fmap in Hp.
  destruct (ds !! p) as [r |] eqn:Er; [| discriminate].
  cbn in Hp. injection Hp as Hc.
  pose proof (take_drop_middle _ _ _ Er) as Hsplit.
  set (before := take p ds) in *.
  set (m := Components.label_roots before).
  assert (Hm : Components.dense m) by apply Components.label_roots_dense.
  assert (Hfold : Components.label_roots ds
                  = fold_left Components.label_step (drop (S p) ds)
                      (Components.label_step m r)).
  { rewrite <- Hsplit at 1. rewrite !Components.label_roots_fold.
    rewrite fold_left_app. reflexivity. }
  assert (Hr : is_Some (Components.label_step m r !! r))
    by (apply Components.label_step_dom; now left).
  destruct Hr as [v Hv].
  assert (c = v).
  { rewrite <- Hc. unfold Components.label_of.
    rewrite Hfold, (fold_label_keeps _ _ _ _ Hv). reflexivity. }
  subst c. pose proof (label_step_new m r v Hm Hv) as Hle.
  destruct Hm as (_ & _ & Honto).
  destruct (Honto c' ltac:(lia)) as [r' Hr'].
  assert (Hin : r' ∈ before).
  { apply Components.label_roots_dom. fold m. eauto. }
  apply list_elem_of_lookup_1 in Hin as [p' Hp'].
  apply lookup_take_Some in Hp' as [Hp1 Hp2].
  exists p'. split; [exact Hp2 |].
  rewrite list_lookup_fmap, Hp1. cbn. f_equal.
  unfold Components.label_of. rewrite Hfold.
  rewrite (fold_label_keeps _ _ r' c'); [reflexivity |].
  unfold Components.label_step. destruct (m !! r) eqn:E; [exact Hr' |].
  rewrite lookup_insert_ne; [exact Hr' | congruence].
Qed.

Lemma find_components_labels {W} ncol nrow (entries : list (Z * Z * W))
    labels num_components :
  Components.find_components ncol nrow entries = Some (labels, num_components) ->
  first_seen labels.
Proof.
  unfold Components.find_components. cbv zeta.
  destruct (Components.union_entries _ _ _) as [ds1 |]; [| discriminate].
  cbn [mbind option_bind].
  destruct (Components.find_all _ _) as [ds2 |]; [| discriminate].
  cbn [mbind option_bind]. intros [= <- _].
  apply label_roots_first_seen.
Qed.

(** X17.  The labels [find_components] gives are numbered in the
    order of their first appearance, fragment columns before
    transcripts: before a node with label [c] there is a node with
    each smaller label. *)
Theorem find_components_first_seen {W} ncol nrow (entries : list (Z * Z * W))
    labels num_components :
  Components.find_components ncol nrow entries = Some (labels, num_components) ->
  first_seen labels.
Proof. apply find_components_labels. Qed.

(** ** An instance *)

(** A sort to run the definitions with: merge sort by "not greater". *)
Definition example_sort (A : Type) (less : A -> A -> bool) : list A -> list A :=
  @merge_sort A (fun a b => less b a = false)
              (fun a b => bool_eq_dec (less b a) false).

Definition example_float (k : nat) : Q := inject_Z (Z.of_nat k).

Lemma example_sort_permutes A (less : A -> A -> bool) l :
  example_sort A less l ≡ₚ l.
Proof. apply merge_sort_Permutation. Qed.

Lemma example_sort_ascends A (less : A -> A -> bool) l :
  strict_weak less -> ascending less (example_sort A less l).
Proof.
  intros (Hirr & Htr & Hinc).
  assert (Ht : Transitive (fun a b => less b a = false)).
  { intros a b c Hab Hbc. destruct (less c a) eqn:E; [| reflexivity].
    exfalso. destruct (less b c) eqn:Ebc.
    - rewrite (Htr b c a Ebc E) in Hab. discriminate.
    - destruct (less a b) eqn:Eab.
      + rewrite (Htr c a b E Eab) in Hbc. discriminate.
      + destruct (Hinc a b c Eab Hab Ebc Hbc) as [_ H]. congruence. }
  assert (Hto : Total (fun a b => less b a = false)).
  { intros a b. destruct (less b a) eqn:E; [right | now left].
    destruct (less a b) eqn:E'; [| reflexivity].
    rewrite <- (Hirr a). symmetry. now apply (Htr a b a). }
  apply (StronglySorted_merge_sort _).
Qed.

(** Four columns, of the components 1, 0, 1, 0, and two
    transcripts. *)
Lemma order_columns_sorts_by_component_witness :
  exists idxmap ds',
    order_columns example_sort [1; 0; 1; 0; 0; 1] 4 = (idxmap, ds')
    /\ idxmap ≡ₚ seq 0 4
    /\ StronglySorted le (take 4 ds')
    /\ drop 4 ds' = [0; 1].
Proof.
  eexists _, _. split; [reflexivity |].
  destruct (order_columns_sorts_by_component
              example_sort example_sort_permutes example_sort_ascends
              [1; 0; 1; 0; 0; 1] 4 _ _ ltac:(cbn; lia) eq_refl)
    as (H1 & _ & H3 & _ & H5 & _).
  split; [exact H1 |]. split; [exact H3 | exact H5].
Defined.

(** Columns of the components 0, 0, 0, 1 and a count of 3 for
    column 1, of 2 for column 3. *)
Lemma build_places_counts_witness :
  exists component_frag frag_counts ok,
    build example_float [0; 0; 0; 1; 0; 0; 1] 4 2 [(1, 3); (3, 2)]
    = Some (component_frag, frag_counts, ok)
    /\ component_frag !! 2 = Some 4
    /\ exists base row,
         component_frag !! 1 = Some base /\ frag_counts !! 1 = Some row
         /\ row !! (3 - base) = Some (example_float 2).
Proof.
  destruct (build_places_counts example_float
              [0; 0; 0; 1; 0; 0; 1] 4 2 [(1, 3); (3, 2)])
    as (cf & fcounts & ok & E & _ & _ & _ & Hlast & _ & Hcells).
  - cbn. lia.
  - repeat constructor.
  - repeat constructor.
  - apply (bool_decide_unpack _). vm_compute. exact I.
  - exists cf, fcounts, ok. split; [exact E |]. split; [exact Hlast |].
    destruct (Hcells 3 1) as (base & row & Eb & Er & _ & Hset & _);
      [lia | reflexivity | lia |].
    exists base, row. split; [exact Eb |]. split; [exact Er |].
    apply Hset. apply elem_of_cons. right. apply elem_of_cons. now left.
Defined.

(** Columns of the components 1, 0, 1, 0 and a count of 5 for
    column 0, of 2 for column 3. *)
Lemma lay_out_places_counts_witness :
  exists idxmap ds' component_frag frag_counts ok,
    lay_out example_sort example_float [1; 0; 1; 0; 0; 1] 4 2 [(0, 5); (3, 2)]
    = Some (idxmap, ds', component_frag, frag_counts, ok)
    /\ exists f' base row,
         idxmap !! 0 = Some f' /\ component_frag !! 1 = Some base
         /\ frag_counts !! 1 = Some row
         /\ row !! (f' - base) = Some (example_float 5).
Proof.
  destruct (lay_out_places_counts
              example_sort example_sort_permutes example_sort_ascends
              example_float [1; 0; 1; 0; 0; 1] 4 2 [(0, 5); (3, 2)])
    as (idxmap & ds' & cf & fcounts & ok & E & _ & _ & _ & _ & _ & Hcells).
  - cbn. lia.
  - repeat constructor.
  - apply (bool_decide_unpack _). vm_compute. exact I.
  - exists idxmap, ds', cf, fcounts, ok. split; [exact E |].
    destruct (Hcells 0 1) as (f' & base & row & Ef & _ & Eb & Er & _ & Hset & _);
      [lia | reflexivity | lia |].
    exists f', base, row. split; [exact Ef |]. split; [exact Eb |].
    split; [exact Er |]. apply Hset. apply elem_of_cons. now left.
Defined.

(** The labels of the four fragments and three transcripts of
    [Components.example_entries]. *)
Lemma find_components_first_seen_witness :
  first_seen [0; 0; 0; 1; 0; 1; 0].
Proof.
  apply (find_components_first_seen 4 3 Components.example_entries _ 2).
  reflexivity.
Defined.

(** The same labels, with a count of 3 for column 1. *)
Lemma lay_out_assertions_hold_witness :
  exists idxmap ds' component_frag frag_counts,
    lay_out example_sort example_float [0; 0; 0; 1; 0; 1; 0] 4 2 [(1, 3)]
    = Some (idxmap, ds', component_frag, frag_counts, true).
Proof.
  apply (lay_out_assertions_hold
           example_sort example_sort_permutes example_sort_ascends
           example_float [0; 0; 0; 1; 0; 1; 0] 4 2 [(1, 3)]).
  - cbn. lia.
  - repeat constructor.
  - apply (bool_decide_unpack _). vm_compute. exact I.
  - intros p c Hp c' Hc'.
    do 7 (destruct p as [| p];
          [cbn in Hp; injection Hp as <-;
           first [lia | exists 0; split; [lia | cbn; f_equal; lia]] |]).
    cbn in Hp. discriminate.
Defined.

End ComponentLayout.

(** * The disjoint sets ([disjset_find], [disjset_union], sampler.cpp) *)
Module DisjointSets.

Import Components.

Local Open Scope nat_scope.

(** X18.  [disjset_find] on a forest, [R] naming the root of every
    node: the recursion is never deeper than [ds] is long, the root of
    [i] is returned, [i] points at its root afterwards, every cell
    either is as it was or points at the root of its node, and every
    node keeps its root. *)
Theorem disjset_find_compresses (ds : list nat) (R : nat -> nat) (i : nat) :
  forest ds R -> i < length ds ->
  exists ds',
    disjset_find (length ds) ds i = Some (ds', R i)
    /\ length ds' = length ds
    /\ forest ds' R
    /\ ds' !! i = Some (R i)
    /\ forall x, ds' !! x = ds !! x \/ ds' !! x = Some (R x).
Proof. apply disjset_find_forest. Qed.

(** X19.  [disjset_union(ds, i, j)] on a forest whose trees are the
    classes of the graph with the edges [E]: afterwards the trees are
    the classes of the graph with the edge between [i] and [j] added,
    the root of [i] being the root of the merged tree. *)
Theorem disjset_union_merges (ds : list nat) (R : nat -> nat)
    (E : list (nat * nat)) (i j : nat) :
  forest ds R -> classes (length ds) R E ->
  i < length ds -> j < length ds ->
  exists ds' R',
    disjset_union ds i j = Some ds'
    /\ length ds' = length ds
    /\ forest ds' R'
    /\ classes (length ds) R' ((i, j) :: E)
    /\ R' i = R i /\ R' j = R i.
Proof.
  intros Hf Hc Hi Hj.
  destruct (disjset_union_forest ds R i j Hf Hi Hj) as (ds' & Eu & Hl & Hf').
  exists ds', (fun x => if R x =? R j then R i else R x).
  split; [exact Eu |]. split; [exact Hl |]. split; [exact Hf' |].
  split; [now apply classes_union |].
  rewrite Nat.eqb_refl. split; [| reflexivity].
  destruct (R i =? R j); reflexivity.
Qed.

(** A chain: 2 points at 1, 1 at the root 0. *)
Lemma disjset_find_compresses_witness :
  exists ds',
    disjset_find 3 [0; 0; 1] 2 = Some (ds', 0) /\ ds' !! 2 = Some 0.
Proof.
  destruct (disjset_find_compresses [0; 0; 1] (fun _ => 0) 2)
    as (ds' & E & _ & _ & H & _).
  - intros [| [| [| x]]] Hx; [exists [0] | exists [1; 0] | exists [2; 1; 0] |].
    + now constructor.
    + eapply walk_step; [reflexivity | lia | now constructor].
    + eapply walk_step; [reflexivity | lia |].
      eapply walk_step; [reflexivity | lia | now constructor].
    + cbn in Hx. lia.
  - cbn. lia.
  - exists ds'. split; [exact E | exact H].
Defined.

(** Three nodes, each for itself, and the union of 0 and 2. *)
Lemma disjset_union_merges_witness :
  exists ds' R',
    disjset_union [0; 1; 2] 0 2 = Some ds'
    /\ forest ds' R' /\ classes 3 R' [(0, 2)].
Proof.
  destruct (disjset_union_merges (seq 0 3) (fun x => x) [] 0 2)
    as (ds' & R' & E & _ & Hf & Hc & _).
  - apply seq_forest.
  - apply classes_init.
  - cbn. lia.
  - cbn. lia.
  - exists ds', R'. split; [exact E |]. split; [exact Hf | exact Hc].
Defined.

End DisjointSets.

(** * What a locus leaves in the shared tables ([process_locus]) *)
Module LocusRecords.

Import LocusInit.

Section Model.

Variable blacklist_get multireads_get : string -> Z.
Variable frag_len : Z -> Z -> Z.
Variable fragment_weight : Z -> Z -> Q.
Variable transcript_weight : Z -> Q.
Variable min_frag_weight min_transcript_weight : Q.

Local Abbreviation collect := (collect_read blacklist_get multireads_get frag_len).
Local Abbreviation locus :=
  (process_locus blacklist_get multireads_get frag_len fragment_weight
                 transcript_weight min_frag_weight min_transcript_weight).

(** [std::max(constants::min_transcript_weight, transcript_weight(t))] *)
Definition clamped_weight (t : Z) : Q :=
  if Qltb min_transcript_weight (transcript_weight t)
  then transcript_weight t else min_transcript_weight.

(** The fragment indices of [frag_idx], in key order. *)
Definition indices (frag_idx : list (Z * (Z * Z))) : list Z :=
  map (fun f => fst (snd f)) frag_idx.

Definition keys (frag_idx : list (Z * (Z * Z))) : list Z :=
  map fst frag_idx.

(** ** The map of fragments *)

Lemma frags_find_elem a m v : frags_find a m = Some v -> (a, v) ∈ m.
Proof.
  induction m as [| [k x] m IH]; cbn; [discriminate |].
  destruct (Z.eqb_spec k a) as [-> | Hne].
  - intros [= ->]. apply elem_of_cons. now left.
  - intros H. apply elem_of_cons. right. now apply IH.
Qed.

Lemma frags_find_None a m : frags_find a m = None -> a ∉ keys m.
Proof.
  induction m as [| [k x] m IH]; cbn; [intros _; apply not_elem_of_nil |].
  destruct (Z.eqb_spec k a) as [-> | Hne]; [discriminate |].
  intros H. apply not_elem_of_cons. split; [congruence | now apply IH].
Qed.

Lemma frags_set_elem a v m e :
  e ∈ frags_set a v m -> e = (a, v) \/ e ∈ m.
Proof.
  induction m as [| [k x] m IH]; cbn.
  - intros H. apply list_elem_of_singleton in H. now left.
  - destruct (Z.ltb_spec a k) as [Hlt | Hge].
    + intros H. apply elem_of_cons in H as [-> | H]; [now left | now right].
    + destruct (Z.eqb_spec k a) as [-> | Hne].
      * intros H. apply elem_of_cons in H as [-> | H]; [now left |].
        right. apply elem_of_cons. now right.
      * intros H. apply elem_of_cons in H as [-> | H].
        -- right. apply elem_of_cons. now left.
        -- destruct (IH H) as [-> | Hin]; [now left |].
           right. apply elem_of_cons. now right.
Qed.

(** A new key adds its index to the indices. *)
Lemma frags_set_new a v m :
  a ∉ keys m -> indices (frags_set a v m) ≡ₚ fst v :: indices m.
Proof.
  induction m as [| [k x] m IH]; cbn; [reflexivity |].
  intros Hnot. apply not_elem_of_cons in Hnot as [Hne Hnot].
  destruct (Z.ltb_spec a k) as [Hlt | Hge]; [reflexivity |].
  destruct (Z.eqb_spec k a) as [-> | _]; [congruence |].
  cbn. rewrite (IH Hnot). apply perm_swap.
Qed.

(** In a map in key order, a key that is present keeps its place. *)
Lemma frags_set_same a idx c c' m :
  StronglySorted Z.lt (keys m) ->
  frags_find a m = Some (idx, c) ->
  indices (frags_set a (idx, c') m) = indices m
  /\ keys (frags_set a (idx, c') m) = keys m.
Proof.
  induction m as [| [k x] m IH]; cbn; [discriminate |].
  intros Hs Hf. apply StronglySorted_inv in Hs as [Hs Hall].
  destruct (Z.eqb_spec k a) as [-> | Hne].
  - injection Hf as ->. destruct (Z.ltb_spec a a) as [| _]; [lia |].
    split; reflexivity.
  - destruct (Z.ltb_spec a k) as [Hlt | Hge].
    + exfalso. apply frags_find_elem in Hf.
      rewrite Forall_forall in Hall.
      assert (k < a); [| lia]. apply Hall.
      apply list_elem_of_fmap. exists (a, (idx, c)). split; [reflexivity | exact Hf].
    + destruct (IH Hs Hf) as [E1 E2]. unfold indices, keys in *. cbn.
      now rewrite E1, E2.
Qed.

Lemma frags_set_keys a v m e :
  e ∈ keys (frags_set a v m) -> e = a \/ e ∈ keys m.
Proof.
  unfold keys. intros H. apply list_elem_of_fmap in H as ([k x] & -> & H).
  apply frags_set_elem in H as [[= -> ->] | H]; [now left |].
  right. apply list_elem_of_fmap. now exists (k, x).
Qed.

Lemma frags_set_sorted a v m :
  StronglySorted Z.lt (keys m) ->
  StronglySorted Z.lt (keys (frags_set a v m)).
Proof.
  induction m as [| [k x] m IH]; cbn; intros Hs.
  - repeat constructor.
  - pose proof Hs as Hs0. apply StronglySorted_inv in Hs as [Hs Hall].
    destruct (Z.ltb_spec a k) as [Hlt | Hge].
    + cbn. constructor; [exact Hs0 |].
      constructor; [exact Hlt |].
      eapply Forall_impl; [exact Hall |]. cbn. intros y Hy. lia.
    + destruct (Z.eqb_spec k a) as [-> | Hne].
      * cbn. now constructor.
      * cbn. constructor; [now apply IH |].
        apply Forall_forall. intros y Hy.
        apply frags_set_keys in Hy as [-> | Hy]; [lia |].
        rewrite Forall_forall in Hall. now apply Hall.
Qed.

(** ** The first loop *)

(** After [k] reads: the indexer has moved by at most [k], nothing but
    the indexer has changed in the shared tables, and [frag_idx] is in
    key order and holds distinct indices handed out since the start,
    each with a count from 1 to [k]. *)
Definition collected (s0 : shared) (k : Z)
    (st : shared * list (Z * (Z * Z)) * list Z) : Prop :=
  let '(s, frag_idx, _) := st in
  next s0 <= next s <= next s0 + k
  /\ pushes s = pushes s0
  /\ frag_counts s = frag_counts s0
  /\ multiread_frags s = multiread_frags s0
  /\ transcript_weights s = transcript_weights s0
  /\ StronglySorted Z.lt (keys frag_idx)
  /\ NoDup (indices frag_idx)
  /\ Forall (fun f => next s0 <= fst (snd f) < next s
                      /\ 1 <= snd (snd f) <= k) frag_idx.

Lemma collected_later s0 k st :
  collected s0 k st -> collected s0 (k + 1) st.
Proof.
  destruct st as [[s fi] ex]. cbn.
  intros (H1 & H2 & H3 & H4 & H5 & H6 & H7 & H8).
  repeat (split; [first [assumption | lia] |]).
  eapply Forall_impl; [exact H8 |]. cbn. intros f Hf. lia.
Qed.

Lemma collect_read_collected s0 ts k st r :
  0 <= next s0 -> 0 <= k -> next s0 + k + 1 < uint_mod ->
  collected s0 k st -> collected s0 (k + 1) (collect ts st r).
Proof.
  intros H0 Hk Hmax Hc. pose proof (collected_later _ _ _ Hc) as Hlater.
  unfold collect_read. destruct st as [[s fi] ex].
  destruct (0 <=? blacklist_get (read_id r)); [exact Hlater |].
  destruct (0 <=? multireads_get (read_id r)); [exact Hlater |].
  destruct (alignments r) as [| a _]; [exact Hlater |].
  destruct (existsb (Z.eqb a) ex); [exact Hlater |].
  cbn in Hc. destruct Hc as (H1 & H2 & H3 & H4 & H5 & H6 & H7 & H8).
  destruct (frags_find a fi) as [[idx cnt] |] eqn:Ef.
  - (* one more read of a fragment already seen *)
    pose proof (frags_find_elem _ _ _ Ef) as Hin.
    rewrite Forall_forall in H8. pose proof (H8 _ Hin) as Hv. cbn in Hv.
    assert (Ew : wrap32 (cnt + 1) = cnt + 1)
      by (unfold wrap32; apply Z.mod_small; lia).
    rewrite Ew.
    destruct (frags_set_same a idx cnt (cnt + 1) fi H6 Ef) as [Ei Ek].
    cbn. repeat (split; [first [assumption | lia] |]).
    split; [now rewrite Ek |]. split; [now rewrite Ei |].
    apply Forall_forall. intros f Hf.
    apply frags_set_elem in Hf as [-> | Hf]; [cbn; lia |].
    specialize (H8 _ Hf). lia.
  - destruct (existsb _ ts).
    + (* a new fragment *)
      assert (Ew : wrap32 (next s + 1) = next s + 1)
        by (unfold wrap32; apply Z.mod_small; lia).
      cbn. rewrite Ew.
      split; [lia |]. repeat (split; [assumption |]).
      split; [now apply frags_set_sorted |].
      split.
      * rewrite frags_set_new by (now apply frags_find_None). cbn.
        apply NoDup_cons. split; [| exact H7].
        intros Hin. apply list_elem_of_fmap in Hin as (f & E & Hf).
        rewrite Forall_forall in H8. specialize (H8 _ Hf). lia.
      * apply Forall_forall. intros f Hf.
        apply frags_set_elem in Hf as [-> | Hf]; [cbn; lia |].
        rewrite Forall_forall in H8. specialize (H8 _ Hf). lia.
    + exact Hlater.
Qed.

Lemma collect_fold s0 ts rs : forall k st,
  0 <= next s0 -> 0 <= k ->
  next s0 + k + Z.of_nat (length rs) < uint_mod ->
  collected s0 k st ->
  collected s0 (k + Z.of_nat (length rs)) (fold_left (collect ts) rs st).
Proof.
  induction rs as [| r rs IH]; intros k st H0 Hk Hmax Hc.
  - cbn. now rewrite Z.add_0_r.
  - cbn [fold_left length] in *.
    replace (k + Z.of_nat (S (length rs)))
      with (k + 1 + Z.of_nat (length rs)) by lia.
    apply IH; [exact H0 | lia | lia |].
    apply collect_read_collected; [exact H0 | exact Hk | lia | exact Hc].
Qed.

(** The first loop pushes nothing and leaves the weights. *)
Lemma collect_keeps ts rs : forall st,
  pushes (fst (fst (fold_left (collect ts) rs st))) = pushes (fst (fst st))
  /\ transcript_weights (fst (fst (fold_left (collect ts) rs st)))
     = transcript_weights (fst (fst st)).
Proof.
  induction rs as [| r rs IH]; intros st; [split; reflexivity |].
  cbn [fold_left]. destruct (IH (collect ts st r)) as [-> ->].
  unfold collect_read, indexer_get. destruct st as [[s1 fi] ex].
  cbn [fst snd].
  repeat match goal with
         | |- context [if ?b then _ else _] => destruct b
         | |- context [match ?x with _ => _ end] => destruct x
         end; split; reflexivity.
Qed.

(** ** The counts and the pushes *)

(** The counts [record_counts] adds. *)
Definition new_counts (frag_idx : list (Z * (Z * Z))) : list (Z * Z) :=
  map snd (filter (fun f => 1 < snd (snd f)) frag_idx).

(** The entries pushed for transcript [t]. *)
Definition new_row (frag_idx : list (Z * (Z * Z))) (t : Z)
  : list (Z * Z * Q) :=
  flat_map (fun f =>
              if Qltb min_frag_weight (fragment_weight t (fst f))
              then [(t, fst (snd f),
                     (fragment_weight t (fst f) / clamped_weight t)%Q)]
              else []) frag_idx.

Lemma record_counts_fields fi : forall s,
  next (record_counts s fi) = next s
  /\ pushes (record_counts s fi) = pushes s
  /\ frag_counts (record_counts s fi) = frag_counts s ++ new_counts fi
  /\ multiread_frags (record_counts s fi) = multiread_frags s
  /\ transcript_weights (record_counts s fi) = transcript_weights s.
Proof.
  unfold record_counts, new_counts.
  induction fi as [| f fi IH]; intros s.
  - cbn. now rewrite app_nil_r.
  - cbn [fold_left]. rewrite filter_cons.
    destruct (Z.ltb_spec 1 (snd (snd f))) as [Hlt | Hge].
    + destruct (IH (push_frag_count s (snd f))) as (E1 & E2 & E3 & E4 & E5).
      rewrite E1, E2, E3, E4, E5. rewrite decide_True by exact Hlt.
      cbn. now rewrite <- app_assoc.
    + destruct (IH s) as (E1 & E2 & E3 & E4 & E5).
      rewrite E1, E2, E3, E4, E5. rewrite decide_False by lia. auto.
Qed.

Lemma push_fragments_fields t fi : forall s,
  let s' := fold_left (push_fragment fragment_weight min_frag_weight t
                         (clamped_weight t)) fi s in
  next s' = next s
  /\ pushes s' = pushes s ++ new_row fi t
  /\ frag_counts s' = frag_counts s
  /\ multiread_frags s' = multiread_frags s
  /\ transcript_weights s' = transcript_weights s.
Proof.
  unfold new_row. induction fi as [| f fi IH]; intros s; cbv zeta.
  - cbn. now rewrite app_nil_r.
  - cbn [fold_left flat_map]. cbv zeta in IH.
    unfold push_fragment at 2 4 6 8 10.
    destruct (Qltb min_frag_weight (fragment_weight t (fst f))).
    + destruct (IH (push s t (fst (snd f))
                      (fragment_weight t (fst f) / clamped_weight t)%Q))
        as (E1 & E2 & E3 & E4 & E5).
      rewrite E1, E2, E3, E4, E5. cbn. now rewrite <- app_assoc.
    + destruct (IH s) as (E1 & E2 & E3 & E4 & E5).
      rewrite E1, E2, E3, E4, E5. auto.
Qed.

(** [transcript_weights] after the loop over the transcripts. *)
Definition weights_after (m : gmap Z Q) (ts : list Z) : gmap Z Q :=
  fold_left (fun m t => <[t := clamped_weight t]> m) ts m.

Lemma weigh_fields fi ts : forall s,
  let r := fold_left
             (weigh_transcript fragment_weight transcript_weight
                min_frag_weight min_transcript_weight [] fi) ts (s, []) in
  snd r = []
  /\ next (fst r) = next s
  /\ pushes (fst r) = pushes s ++ flat_map (new_row fi) ts
  /\ frag_counts (fst r) = frag_counts s
  /\ multiread_frags (fst r) = multiread_frags s
  /\ transcript_weights (fst r) = weights_after (transcript_weights s) ts.
Proof.
  induction ts as [| t ts IH]; intros s; cbv zeta.
  - cbn. now rewrite app_nil_r.
  - cbn [fold_left flat_map weights_after]. cbv zeta in IH.
    unfold weigh_transcript at 2 4 6 8 10 12.
    cbn [multiread_entries_of flat_map app].
    fold (clamped_weight t).
    pose proof (push_fragments_fields t fi
                  (set_transcript_weight s t (clamped_weight t))) as Hp.
    cbv zeta in Hp. destruct Hp as (P1 & P2 & P3 & P4 & P5).
    destruct (IH (fold_left
                    (push_fragment fragment_weight min_frag_weight t
                       (clamped_weight t)) fi
                    (set_transcript_weight s t (clamped_weight t))))
      as (E0 & E1 & E2 & E3 & E4 & E5).
    rewrite E0, E1, E2, E3, E4, E5, P1, P2, P3, P4, P5. cbn.
    now rewrite <- app_assoc.
Qed.

Lemma weights_after_lookup ts : forall m t,
  (t ∈ ts -> weights_after m ts !! t = Some (clamped_weight t))
  /\ (t ∉ ts -> weights_after m ts !! t = m !! t).
Proof.
  unfold weights_after.
  induction ts as [| t0 ts IH]; intros m t; cbn [fold_left].
  - split; [intros H; now apply elem_of_nil in H | reflexivity].
  - destruct (IH (<[t0 := clamped_weight t0]> m) t) as [IH1 IH2]. split.
    + intros H. destruct (decide (t ∈ ts)) as [Hin | Hnot]; [now apply IH1 |].
      apply elem_of_cons in H as [-> | H]; [| contradiction].
      rewrite (IH2 Hnot). apply lookup_insert_eq.
    + intros H. apply not_elem_of_cons in H as [Hne Hnot].
      rewrite (IH2 Hnot). now apply lookup_insert_ne.
Qed.

(** [process_locus], field by field. *)
Lemma process_locus_fields (s : shared) (ts : list Z) (rs : list read) :
  let st := fold_left (collect ts) rs (s, [], []) in
  let s' := locus s ts rs in
  next s' = next (fst (fst st))
  /\ pushes s' = pushes (fst (fst st)) ++ flat_map (new_row (snd (fst st))) ts
  /\ frag_counts s'
     = frag_counts (fst (fst st)) ++ new_counts (snd (fst st))
  /\ multiread_frags s' = multiread_frags (fst (fst st))
  /\ transcript_weights s'
     = weights_after (transcript_weights (fst (fst st))) ts.
Proof.
  cbv zeta. unfold process_locus.
  destruct (fold_left _ rs (s, [], [])) as [[s1 fi] ex]. cbn [fst snd].
  pose proof (weigh_fields fi ts (record_counts s1 fi)) as Hw.
  cbv zeta in Hw.
  destruct (fold_left _ ts (record_counts s1 fi, [])) as [s2 es].
  cbn [fst snd] in Hw. destruct Hw as (-> & E1 & E2 & E3 & E4 & E5).
  cbn [sort_entries fold_right length multiread_stage].
  destruct (record_counts_fields fi s1) as (R1 & R2 & R3 & R4 & R5).
  rewrite E1, E2, E3, E4, E5, R1, R2, R3, R4, R5. auto.
Qed.

Lemma clamped_weight_bounds t :
  (min_transcript_weight <= clamped_weight t)%Q
  /\ (transcript_weight t <= clamped_weight t)%Q.
Proof.
  unfold clamped_weight.
  destruct (Qltb min_transcript_weight (transcript_weight t)) eqn:E.
  - apply Qltb_lt in E. split; [now apply Qlt_le_weak | apply Qle_refl].
  - split; [apply Qle_refl |]. apply Qnot_lt_le. intros H.
    apply Qltb_lt in H. congruence.
Qed.

Lemma new_counts_indices fi :
  (new_counts fi).*1 = indices (filter (fun f => 1 < snd (snd f)) fi).
Proof.
  unfold new_counts, indices.
  induction (filter _ fi) as [| f l IH]; [reflexivity |].
  cbn. now rewrite <- IH.
Qed.

Lemma new_row_elem fi t e :
  e ∈ new_row fi t ->
  exists f, f ∈ fi
    /\ e = (t, fst (snd f), (fragment_weight t (fst f) / clamped_weight t)%Q)
    /\ (min_frag_weight < fragment_weight t (fst f))%Q.
Proof.
  unfold new_row. intros H. apply list_elem_of_In, in_flat_map in H.
  destruct H as (f & Hf & He). exists f.
  split; [now apply list_elem_of_In |].
  destruct (Qltb min_frag_weight (fragment_weight t (fst f))) eqn:E;
    [| contradiction].
  apply Qltb_lt in E. destruct He as [<- | []]. auto.
Qed.

Lemma new_pushes_elem fi ts e :
  e ∈ flat_map (new_row fi) ts ->
  exists t f, t ∈ ts /\ f ∈ fi
    /\ e = (t, fst (snd f), (fragment_weight t (fst f) / clamped_weight t)%Q)
    /\ (min_frag_weight < fragment_weight t (fst f))%Q.
Proof.
  intros H. apply list_elem_of_In, in_flat_map in H.
  destruct H as (t & Ht & He). apply list_elem_of_In in He.
  apply new_row_elem in He as (f & Hf & E & Hw).
  exists t, f. split; [now apply list_elem_of_In |]. auto.
Qed.

(** X20.  A locus whose reads cannot wrap the [Indexer]: the indexer
    moves by at most the number of reads; every entry pushed to the
    weight matrix has a transcript of the locus for its row and a
    fragment index handed out for this locus for its column; every
    count recorded is above 1, for a fragment index handed out for
    this locus, and no fragment index is recorded twice. *)
Theorem process_locus_indices (s : shared) (ts : list Z) (rs : list read)
    (s' : shared) :
  0 <= next s ->
  next s + Z.of_nat (length rs) < uint_mod ->
  locus s ts rs = s' ->
  next s <= next s' <= next s + Z.of_nat (length rs)
  /\ exists pushed counted,
       pushes s' = pushes s ++ pushed
       /\ frag_counts s' = frag_counts s ++ counted
       /\ Forall (fun e => fst (fst e) ∈ ts
                           /\ next s <= snd (fst e) < next s') pushed
       /\ Forall (fun fc => next s <= fst fc < next s'
                            /\ 1 < snd fc <= Z.of_nat (length rs)) counted
       /\ NoDup counted.*1.
Proof.
  intros H0 Hmax <-.
  pose proof (process_locus_fields s ts rs) as Hf. cbv zeta in Hf.
  pose proof (collect_fold s ts rs 0 (s, [], []) H0 ltac:(lia) ltac:(lia))
    as Hc.
  destruct (fold_left (collect ts) rs (s, [], [])) as [[s1 fi] ex].
  cbn [fst snd] in Hf. destruct Hf as (E1 & E2 & E3 & _ & _).
  destruct Hc as (C1 & C2 & C3 & _ & _ & _ & C7 & C8).
  { cbn. split; [lia |]. repeat (split; [reflexivity |]).
    split; [constructor |]. split; constructor. }
  rewrite Z.add_0_l in C8. rewrite E1.
  split; [lia |].
  exists (flat_map (new_row fi) ts), (new_counts fi).
  split; [now rewrite E2, C2 |]. split; [now rewrite E3, C3 |].
  rewrite Forall_forall in C8. split; [| split].
  - apply Forall_forall. intros e He.
    apply new_pushes_elem in He as (t & f & Ht & Hf & -> & _).
    cbn. split; [exact Ht |]. specialize (C8 _ Hf). lia.
  - apply Forall_forall. intros fc Hfc. unfold new_counts in Hfc.
    apply list_elem_of_fmap in Hfc as (f & -> & Hf).
    apply list_elem_of_filter in Hf as [Hgt Hf].
    specialize (C8 _ Hf). lia.
  - rewrite new_counts_indices. unfold indices.
    eapply sublist_NoDup; [exact C7 |].
    apply fmap_sublist, sublist_filter.
Qed.

(** X21.  With a positive [min_transcript_weight] and a
    [min_frag_weight] that is not negative: the weight recorded for a
    transcript of the locus is the larger of [min_transcript_weight]
    and its [transcript_weight], the weights of other transcripts
    stay, and every entry pushed is the weight of a fragment above
    [min_frag_weight] divided by the recorded weight of its
    transcript, a positive number. *)
Theorem process_locus_weights (s : shared) (ts : list Z) (rs : list read)
    (s' : shared) :
  (0 < min_transcript_weight)%Q ->
  (0 <= min_frag_weight)%Q ->
  locus s ts rs = s' ->
  (forall t, t ∈ ts ->
     transcript_weights s' !! t = Some (clamped_weight t)
     /\ (min_transcript_weight <= clamped_weight t)%Q
     /\ (transcript_weight t <= clamped_weight t)%Q)
  /\ (forall t, t ∉ ts ->
        transcript_weights s' !! t = transcript_weights s !! t)
  /\ exists pushed,
       pushes s' = pushes s ++ pushed
       /\ Forall (fun e =>
                    (0 < snd e)%Q
                    /\ exists a,
                         (min_frag_weight < fragment_weight (fst (fst e)) a)%Q
                         /\ snd e = (fragment_weight (fst (fst e)) a
                                     / clamped_weight (fst (fst e)))%Q)
                 pushed.
Proof.
  intros Htw Hfw <-.
  pose proof (process_locus_fields s ts rs) as Hf. cbv zeta in Hf.
  destruct (collect_keeps ts rs (s, [], [])) as [K1 K2].
  destruct Hf as (_ & E2 & _ & _ & E5).
  cbn [fst snd] in K1, K2. rewrite K1 in E2. rewrite K2 in E5.
  split; [| split].
  - intros t Ht. rewrite E5.
    split; [now apply weights_after_lookup | apply clamped_weight_bounds].
  - intros t Ht. rewrite E5. now apply weights_after_lookup.
  - eexists. split; [exact E2 |].
    apply Forall_forall. intros e He.
    apply new_pushes_elem in He as (t & f & _ & _ & -> & Hw). cbn.
    split; [| exists (fst f); split; [exact Hw | reflexivity]].
    apply Qlt_shift_div_l.
    + eapply Qlt_le_trans; [exact Htw | apply clamped_weight_bounds].
    + rewrite Qmult_0_l. eapply Qle_lt_trans; [exact Hfw | exact Hw].
Qed.

End Model.
(** A locus with one transcript and three reads, two of them the same
    fragment; every fragment fits the transcript and weighs 1, as does
    the transcript, above a threshold of 1/2. *)
Definition example_locus : shared :=
  process_locus (fun _ => -1) (fun _ => -1) (fun _ _ => 100)
                (fun _ _ => 1%Q) (fun _ => 1%Q) 0%Q (1 # 2)%Q
                (Shared 0 [] [] [] ∅) [0]
                [Read "r1" [10]; Read "r2" [10]; Read "r3" [11]].

Lemma process_locus_indices_witness :
  0 <= next example_locus <= 3
  /\ exists pushed counted,
       pushes example_locus = pushed
       /\ frag_counts example_locus = counted
       /\ Forall (fun fc => 1 < snd fc <= 3) counted
       /\ NoDup counted.*1.
Proof.
  destruct (process_locus_indices
              (fun _ => -1) (fun _ => -1) (fun _ _ => 100)
              (fun _ _ => 1%Q) (fun _ => 1%Q) 0%Q (1 # 2)%Q
              (Shared 0 [] [] [] ∅) [0]
              [Read "r1" [10]; Read "r2" [10]; Read "r3" [11]]
              example_locus)
    as (Hn & pushed & counted & Ep & Ec & _ & Hc & Hnd).
  - cbn. lia.
  - cbn. unfold uint_mod. lia.
  - reflexivity.
  - split; [exact Hn |]. exists pushed, counted.
    split; [exact Ep |]. split; [exact Ec |]. split; [| exact Hnd].
    eapply Forall_impl; [exact Hc |]. cbn. intros fc H. lia.
Defined.

Lemma process_locus_weights_witness :
  transcript_weights example_locus !! 0 = Some 1%Q
  /\ exists pushed,
       pushes example_locus = pushed
       /\ Forall (fun e => (0 < snd e)%Q) pushed.
Proof.
  destruct (process_locus_weights
              (fun _ => -1) (fun _ => -1) (fun _ _ => 100)
              (fun _ _ => 1%Q) (fun _ => 1%Q) 0%Q (1 # 2)%Q
              (Shared 0 [] [] [] ∅) [0]
              [Read "r1" [10]; Read "r2" [10]; Read "r3" [11]]
              example_locus)
    as (Hw & _ & pushed & Ep & Hp).
  - reflexivity.
  - unfold Qle. cbn. lia.
  - reflexivity.
  - split.
    + destruct (Hw 0) as (E & _); [apply elem_of_cons; now left | exact E].
    + exists pushed. split; [exact Ep |].
      eapply Forall_impl; [exact Hp |]. cbn. intros e [H _]. exact H.
Defined.

Lemma entry_ltb_spec (a b : MultireadEntry) :
  entry_ltb a b = true
  <-> multiread_num a < multiread_num b
      \/ (multiread_num a = multiread_num b
          /\ transcript_idx a < transcript_idx b).
Proof.
  unfold entry_ltb.
  destruct (Z.eqb_spec (multiread_num a) (multiread_num b)) as [E | E]; cbn.
  - rewrite Z.ltb_lt. lia.
  - rewrite Z.ltb_lt. lia.
Qed.

Lemma entry_ltb_false (a b : MultireadEntry) :
  entry_ltb a b = false
  <-> ~ (multiread_num a < multiread_num b
         \/ (multiread_num a = multiread_num b
             /\ transcript_idx a < transcript_idx b)).
Proof. rewrite <- entry_ltb_spec. symmetry. apply not_true_iff_false. Qed.

(** X22.  [MultireadEntry::operator<] is a strict weak ordering, as
    [std::sort] requires: entries are ordered by multiread number,
    then by transcript, and entries that differ in weight only are
    equivalent. *)
Theorem entry_lt_strict_weak_order :
  ComponentLayout.strict_weak entry_ltb
  /\ forall a b,
       entry_ltb a b = false -> entry_ltb b a = false ->
       multiread_num a = multiread_num b
       /\ transcript_idx a = transcript_idx b.
Proof.
  split; [split; [| split] |].
  - intros a. rewrite entry_ltb_false. lia.
  - intros a b c. rewrite !entry_ltb_spec. lia.
  - intros a b c. rewrite !entry_ltb_false. lia.
  - intros a b. rewrite !entry_ltb_false. lia.
Qed.

End LocusRecords.

(** * The weights of transcripts and fragments ([SamplerInitThread]) *)
Module BiasWeights.

Import SeqBias.

Local Open Scope Q_scope.

(** [strand_t]: the two strands the code names, and any other
    value. *)
Inductive strand_t : Type := strand_pos | strand_neg | strand_na.

Definition strand_eqb (a b : strand_t) : bool :=
  match a, b with
  | strand_pos, strand_pos | strand_neg, strand_neg
  | strand_na, strand_na => true
  | _, _ => false
  end.

Section Model.

(** [fm.frag_len_p], [constants::min_frag_len_pr] and
    [fm.strand_specificity]. *)
Variable frag_len_p : Z -> Q.
Variable min_frag_len_pr strand_specificity : Q.

(** The bias model, as [SeqBias] has it. *)
Variable twobitseq : Type.
Variable get_mate1_bias get_mate2_bias : twobitseq -> Z -> Q.
Variable getL : Z.

Local Abbreviation sequence_bias :=
  (transcript_sequence_bias twobitseq get_mate1_bias get_mate2_bias getL).

(** One of the two loops over [pos] that add to [ws[frag_len]]:
    [w += sp * a[pos] * b[pos + frag_len - 1]] for [pos] from 0 to
    [trans_len - frag_len]. *)
Definition add_positions (sp : Q) (a b : list Q) (trans_len frag_len : nat)
    (w : Q) : Q :=
  fold_left (fun w pos => w + sp * nth pos a 0 * nth (pos + frag_len - 1) b 0)
            (seq 0 (trans_len - frag_len + 1)) w.

(** The first loop of [transcript_weight], for one [frag_len]: the
    value left in [ws[frag_len]]. *)
Definition position_weight (tb : tables) (strand : strand_t)
    (trans_len frag_len : nat) : Q :=
  if Qltb (frag_len_p (Z.of_nat frag_len)) min_frag_len_pr
  then inject_Z (Z.of_nat (trans_len - frag_len + 1))
  else
    let sp := if strand_eqb strand strand_pos
              then strand_specificity else 1 - strand_specificity in
    let w := add_positions sp (fst (mate1_seqbias tb)) (snd (mate2_seqbias tb))
                           trans_len frag_len 0 in
    let sp := if strand_eqb strand strand_neg
              then strand_specificity else 1 - strand_specificity in
    add_positions sp (fst (mate2_seqbias tb)) (snd (mate1_seqbias tb))
                  trans_len frag_len w.

(** [transcript_weight]: the weight and the scratch vector [ws] it
    leaves. *)
Definition transcript_weight (tb : tables) (strand : strand_t)
    (trans_len : nat) (ws : list Q) : Q * list Q :=
  let ws := if (length ws <? trans_len + 1)%nat
            then resize (trans_len + 1) ws else ws in
  let ws := fold_left
              (fun ws frag_len =>
                 <[frag_len := position_weight tb strand trans_len frag_len]> ws)
              (seq 1 trans_len) ws in
  (fold_left (fun w frag_len =>
                w + frag_len_p (Z.of_nat frag_len) * nth frag_len ws 0)
             (seq 1 trans_len) 0,
   ws).

(** The four tables have the same length. *)
Definition sized (tb : tables) : Prop :=
  length (snd (mate1_seqbias tb)) = length (fst (mate1_seqbias tb))
  /\ length (fst (mate2_seqbias tb)) = length (fst (mate1_seqbias tb))
  /\ length (snd (mate2_seqbias tb)) = length (fst (mate1_seqbias tb)).

(** The first [tlen] cells of the four tables hold 1. *)
Definition unbiased (tb : tables) (tlen : nat) : Prop :=
  forall pos, (pos < tlen)%nat ->
    nth pos (fst (mate1_seqbias tb)) 0 = 1
    /\ nth pos (snd (mate1_seqbias tb)) 0 = 1
    /\ nth pos (fst (mate2_seqbias tb)) 0 = 1
    /\ nth pos (snd (mate2_seqbias tb)) 0 = 1.

Lemma fold_add_const (g : nat -> Q) (c : Q) (n : nat) (w0 : Q) :
  (forall pos, (pos < n)%nat -> g pos == c) ->
  fold_left (fun w pos => w + g pos) (seq 0 n) w0
  == w0 + inject_Z (Z.of_nat n) * c.
Proof.
  intros Hg. induction n as [| n IH].
  - cbn [seq fold_left]. change (inject_Z (Z.of_nat 0)) with 0. lra.
  - rewrite seq_S, fold_left_app. cbn [fold_left Nat.add].
    rewrite IH by (intros pos Hpos; apply Hg; lia).
    rewrite (Hg n) by lia.
    rewrite Nat2Z.inj_succ, <- Z.add_1_r, inject_Z_plus.
    change (inject_Z 1) with 1. ring.
Qed.

Lemma fold_add_sum (g h : nat -> Q) (l : list nat) : forall w0,
  (forall k, k ∈ l -> g k == h k) ->
  fold_left (fun w k => w + g k) l w0 == w0 + Sampler.Qsum (map h l).
Proof.
  induction l as [| k l IH]; intros w0 Hg.
  - cbn. lra.
  - cbn [fold_left map Sampler.Qsum fold_right].
    rewrite IH by (intros k' Hk'; apply Hg, elem_of_cons; now right).
    fold (Sampler.Qsum (map h l)).
    rewrite (Hg k) by (apply elem_of_cons; now left). lra.
Qed.

Lemma add_positions_unbiased sp a b trans_len frag_len w :
  (1 <= frag_len <= trans_len)%nat ->
  (forall pos, (pos < trans_len)%nat -> nth pos a 0 = 1 /\ nth pos b 0 = 1) ->
  add_positions sp a b trans_len frag_len w
  == w + inject_Z (Z.of_nat (trans_len - frag_len + 1)) * sp.
Proof.
  intros Hk Hab. unfold add_positions.
  apply (fold_add_const
           (fun pos => sp * nth pos a 0 * nth (pos + frag_len - 1) b 0)).
  intros pos Hpos.
  destruct (Hab pos ltac:(lia)) as [-> _].
  destruct (Hab (pos + frag_len - 1)%nat ltac:(lia)) as [_ ->]. lra.
Qed.

Lemma position_weight_unbiased tb strand trans_len frag_len :
  unbiased tb trans_len -> strand <> strand_na ->
  (1 <= frag_len <= trans_len)%nat ->
  position_weight tb strand trans_len frag_len
  == inject_Z (Z.of_nat (trans_len - frag_len + 1)).
Proof.
  intros Hu Hs Hk. unfold position_weight.
  destruct (Qltb _ min_frag_len_pr); [reflexivity |]. cbv zeta.
  rewrite !add_positions_unbiased;
    try exact Hk;
    try (intros pos Hpos; destruct (Hu pos Hpos) as (? & ? & ? & ?); auto).
  destruct strand; cbn; [lra | lra | congruence].
Qed.

Lemma fold_insert_lookup (f : nat -> Q) (n : nat) : forall ws k,
  (n < length ws)%nat -> (1 <= k <= n)%nat ->
  nth k (fold_left (fun ws j => <[j := f j]> ws) (seq 1 n) ws) 0 = f k.
Proof.
  induction n as [| n IH]; intros ws k Hlen Hk; [lia |].
  rewrite seq_S, fold_left_app. cbn [fold_left Nat.add].
  assert (Hl : forall m ws0,
            length (fold_left (fun ws j => <[j := f j]> ws) (seq 1 m) ws0)
            = length ws0).
  { clear. induction m as [| m IHm]; intros ws0; [reflexivity |].
    rewrite seq_S, fold_left_app. cbn [fold_left].
    now rewrite length_insert, IHm. }
  destruct (decide (k = S n)) as [-> | Hne].
  - apply nth_insert_eq. rewrite Hl. lia.
  - rewrite nth_insert_ne by lia. apply IH; lia.
Qed.

Lemma length_resize n (xs : list Q) :
  (length xs < n)%nat -> length (resize n xs) = n.
Proof.
  intros H. unfold resize.
  rewrite length_app, length_take, length_replicate. lia.
Qed.

Lemma length_fill_prefix n v (xs : list Q) :
  (n <= length xs)%nat -> length (fill_prefix n v xs) = length xs.
Proof.
  intros H. unfold fill_prefix.
  rewrite length_app, length_replicate, length_drop. lia.
Qed.

Lemma length_reverse_prefix n (xs : list Q) :
  length (reverse_prefix n xs) = length xs.
Proof.
  unfold reverse_prefix.
  rewrite length_app, length_rev, length_take, length_drop. lia.
Qed.

Lemma nth_fill_prefix n v (xs : list Q) pos :
  (pos < n)%nat -> nth pos (fill_prefix n v xs) 0 = v.
Proof.
  intros H. unfold fill_prefix. rewrite app_nth1 by (rewrite length_replicate; lia).
  apply nth_lookup_Some. now apply lookup_replicate_2.
Qed.

Lemma bias_loop_lengths tseq0 tseq1 ps : forall tb,
  let tb' := fold_left (bias_loop_body twobitseq get_mate1_bias get_mate2_bias
                          getL tseq0 tseq1) ps tb in
  length (fst (mate1_seqbias tb')) = length (fst (mate1_seqbias tb))
  /\ length (snd (mate1_seqbias tb')) = length (snd (mate1_seqbias tb))
  /\ mate2_seqbias tb' = mate2_seqbias tb.
Proof.
  induction ps as [| p ps IH]; intros tb; cbv zeta; [auto |].
  cbn [fold_left]. cbv zeta in IH. destruct (IH (bias_loop_body twobitseq
    get_mate1_bias get_mate2_bias getL tseq0 tseq1 tb p)) as (-> & -> & ->).
  cbn. rewrite !length_insert. auto.
Qed.

(** The tables after the resizing step of [transcript_sequence_bias]. *)
Lemma resized_sized tb tlen :
  sized tb ->
  let tb0 :=
    if (length (fst (mate1_seqbias tb)) <? tlen)%nat then
      Tables (resize tlen (fst (mate1_seqbias tb)),
              resize tlen (snd (mate1_seqbias tb)))
             (resize tlen (fst (mate2_seqbias tb)),
              resize tlen (snd (mate2_seqbias tb)))
    else tb in
  sized tb0
  /\ length (fst (mate1_seqbias tb0))
     = Nat.max (length (fst (mate1_seqbias tb))) tlen.
Proof.
  intros (H1 & H2 & H3). cbv zeta.
  destruct (Nat.ltb_spec (length (fst (mate1_seqbias tb))) tlen) as [Hlt | Hge].
  - unfold sized. cbn. rewrite !length_resize by lia. lia.
  - unfold sized. lia.
Qed.

Lemma sequence_bias_sized tb tlen seqs :
  sized tb ->
  sized (sequence_bias tb tlen seqs)
  /\ length (fst (mate1_seqbias (sequence_bias tb tlen seqs)))
     = Nat.max (length (fst (mate1_seqbias tb))) tlen.
Proof.
  intros Hs. pose proof (resized_sized tb tlen Hs) as H0. cbv zeta in H0.
  unfold transcript_sequence_bias.
  set (tb0 := if (length (fst (mate1_seqbias tb)) <? tlen)%nat then _ else tb)
    in *.
  destruct H0 as ((H1 & H2 & H3) & H4).
  destruct seqs as [[tseq0 tseq1] |].
  - pose proof (bias_loop_lengths tseq0 tseq1 (seq 0 tlen) tb0) as Hl.
    cbv zeta in Hl. destruct Hl as (L1 & L2 & L3).
    unfold sized. cbn [mate1_seqbias mate2_seqbias fst snd].
    rewrite !length_reverse_prefix, L1, L2, L3. lia.
  - unfold sized. cbn [mate1_seqbias mate2_seqbias fst snd].
    rewrite !length_fill_prefix by lia. lia.
Qed.

Lemma no_model_unbiased tb tlen : unbiased (sequence_bias tb tlen None) tlen.
Proof.
  intros pos Hpos. unfold transcript_sequence_bias.
  cbn [mate1_seqbias mate2_seqbias fst snd].
  rewrite !nth_fill_prefix by exact Hpos. auto.
Qed.

(** X23.  [transcript_sequence_bias] keeps the four tables at one
    common length, the larger of the length they had and the length of
    the transcript: no table is read or filled beyond its end, and
    none shrinks. *)
Theorem tables_keep_one_length (tb : tables) (tlen : nat)
    (seqs : option (twobitseq * twobitseq)) :
  sized tb ->
  sized (sequence_bias tb tlen seqs)
  /\ length (fst (mate1_seqbias (sequence_bias tb tlen seqs)))
     = Nat.max (length (fst (mate1_seqbias tb))) tlen.
Proof. apply sequence_bias_sized. Qed.

(** X24.  Without a bias model ([fm.sb == NULL || locus.seq == NULL])
    and on tables of one length, the tables reach over the transcript,
    their first [tlen] cells hold 1, and the weight
    of a fragment that fits the transcript, its mates within the
    transcript, is the probability of its length alone: of the length
    it has under the transcript or, when the mates do not define one,
    of the smaller of the transcript's length and the median fragment
    length. *)
Theorem no_model_fragment_weight (tb : tables) (tlen : nat)
    (frag_len_med frag_len trans_len : Z) (mate1 mate2 : option (nat * nat)) :
  sized tb ->
  (0 <= frag_len)%Z ->
  (forall strand offset, mate1 = Some (strand, offset) -> (offset < tlen)%nat) ->
  (forall strand offset, mate2 = Some (strand, offset) -> (offset < tlen)%nat) ->
  sized (sequence_bias tb tlen None)
  /\ (tlen <= length (fst (mate1_seqbias (sequence_bias tb tlen None))))%nat
  /\ unbiased (sequence_bias tb tlen None) tlen
  /\ fragment_weight (sequence_bias tb tlen None) frag_len_p frag_len_med
                     frag_len trans_len mate1 mate2
     == frag_len_p (if (frag_len =? 0)%Z
                    then Z.min trans_len frag_len_med else frag_len).
Proof.
  intros Hs Hf H1 H2. pose proof (no_model_unbiased tb tlen) as Hu.
  destruct (sequence_bias_sized tb tlen None Hs) as [Hs' Hl].
  split; [exact Hs' |]. split; [lia |].
  split; [exact Hu |]. unfold fragment_weight.
  destruct (Z.ltb_spec frag_len 0) as [| _]; [lia |]. cbv zeta.
  set (w := frag_len_p _).
  destruct mate1 as [[s1 o1] |], mate2 as [[s2 o2] |].
  - destruct (Hu o1 (H1 _ _ eq_refl)) as (A1 & A2 & _).
    destruct (Hu o2 (H2 _ _ eq_refl)) as (_ & _ & B1 & B2).
    destruct s1, s2; cbn [strand_of]; rewrite ?A1, ?A2, ?B1, ?B2; lra.
  - destruct (Hu o1 (H1 _ _ eq_refl)) as (A1 & A2 & _).
    destruct s1; cbn [strand_of]; rewrite ?A1, ?A2; lra.
  - destruct (Hu o2 (H2 _ _ eq_refl)) as (_ & _ & B1 & B2).
    destruct s2; cbn [strand_of]; rewrite ?B1, ?B2; lra.
  - lra.
Qed.

(** X25.  On tables that hold 1, as they do without a bias model, the
    weight of a transcript of either strand is, in exact arithmetic,
    the sum over the fragment lengths [k] up to its length [L] of the
    probability of [k] times the [L - k + 1] positions a fragment of
    that length has, whatever the strand specificity and
    [min_frag_len_pr]. *)
Theorem unbiased_transcript_weight (tb : tables) (strand : strand_t)
    (trans_len : nat) (ws : list Q) :
  unbiased tb trans_len ->
  strand <> strand_na ->
  fst (transcript_weight tb strand trans_len ws)
  == Sampler.Qsum
       (map (fun k => frag_len_p (Z.of_nat k)
                      * inject_Z (Z.of_nat (trans_len - k + 1)))
            (seq 1 trans_len)).
Proof.
  intros Hu Hs. unfold transcript_weight. cbn [fst].
  set (ws0 := if (length ws <? trans_len + 1)%nat then _ else ws).
  assert (Hl : (trans_len < length ws0)%nat).
  { subst ws0. destruct (Nat.ltb_spec (length ws) (trans_len + 1)).
    - rewrite length_resize by lia. lia.
    - lia. }
  rewrite (fold_add_sum _
             (fun k => frag_len_p (Z.of_nat k)
                       * inject_Z (Z.of_nat (trans_len - k + 1)))).
  - lra.
  - intros k Hk. apply elem_of_seq in Hk.
    rewrite (fold_insert_lookup
               (position_weight tb strand trans_len) trans_len ws0 k Hl)
      by lia.
    rewrite position_weight_unbiased by (first [assumption | lia]).
    reflexivity.
Qed.

End Model.
(** The tables of a thread that has seen no transcript yet, and a
    transcript of length 2 without a bias model. *)
Lemma tables_keep_one_length_witness :
  length (fst (mate1_seqbias
                 (transcript_sequence_bias unit (fun _ _ => 1) (fun _ _ => 1)
                    0%Z fresh 2 None))) = 2%nat.
Proof.
  destruct (tables_keep_one_length unit (fun _ _ => 1) (fun _ _ => 1) 0%Z
              fresh 2 None) as [_ H].
  - repeat split.
  - exact H.
Defined.

(** A fragment of length 1 with a mate at each end of that
    transcript. *)
Lemma no_model_fragment_weight_witness :
  fragment_weight
    (transcript_sequence_bias unit (fun _ _ => 1) (fun _ _ => 1) 0%Z
       fresh 2 None)
    (fun k => inject_Z k) 200%Z 1%Z 2%Z (Some (0, 0)%nat) (Some (1, 1)%nat)
  == 1.
Proof.
  destruct (no_model_fragment_weight (fun k => inject_Z k) unit
              (fun _ _ => 1) (fun _ _ => 1) 0%Z
              fresh 2 200%Z 1%Z 2%Z (Some (0, 0)%nat) (Some (1, 1)%nat))
    as (_ & _ & _ & H).
  - repeat split.
  - lia.
  - intros strand offset [= <- <-]. lia.
  - intros strand offset [= <- <-]. lia.
  - exact H.
Defined.

(** The weight of that transcript when lengths 1 and 2 have
    probability 1/2 each: 1/2 * 2 + 1/2 * 1. *)
Lemma unbiased_transcript_weight_witness :
  fst (transcript_weight (fun _ => 1 # 2) (1 # 100) (9 # 10)
         (transcript_sequence_bias unit (fun _ _ => 1) (fun _ _ => 1) 0%Z
            fresh 2 None)
         strand_pos 2 [])
  == 3 # 2.
Proof.
  eapply Qeq_trans.
  - apply (unbiased_transcript_weight (fun _ => 1 # 2) (1 # 100) (9 # 10)).
    + intros [| [| pos]] Hpos; [repeat split | repeat split | lia].
    + discriminate.
  - reflexivity.
Defined.

End BiasWeights.

(** * The multiread arrays ([Sampler::Sampler], "Build multiread array") *)
Module MultireadArrays.

Import Sampler.

Local Open Scope nat_scope.

(** [multiread_frags[i].first != multiread_frags[i - 1].first] *)
Definition differs (frags : list (nat * nat)) (i : nat) : bool :=
  negb ((nth i frags (0, 0)).1 =? (nth (i - 1) frags (0, 0)).1).

(** The loop that counts [num_multireads]. *)
Definition count_multireads (frags : list (nat * nat)) : nat :=
  fold_left (fun num i => if (i =? 0) || differs frags i then S num else num)
            (seq 0 (length frags)) 0.

(** One round of the loop that fills the pool.  The groups are the
    runs [multiread_alignments[j]] points at, each as long as
    [multiread_num_alignments[j]] says; [None] is a read outside [ds],
    [component_frag] or [frag_probs], or an offset below zero. *)
Definition pool_step (ds component_frag : list nat) (n : nat)
    (frags : list (nat * nat))
    (st : option (list (list MultireadAlignment))) (i : nat)
  : option (list (list MultireadAlignment)) :=
  groups ← st;
  let mf := nth i frags (0, 0) in
  c ← ds !! mf.2;
  let groups := if (0 <? i) && differs frags i
                then groups ++ [[]] else groups in
  base ← component_frag !! c;
  if (c <? n) && (base <=? mf.2)
  then Some (alter (fun g => g ++ [Alignment (c, mf.2 - base) (c, mf.2 - base)])
                   (length groups - 1) groups)
  else None.

(** [multiread_alignments], group by group. *)
Definition build_pool (ds component_frag : list nat) (n : nat)
    (frags : list (nat * nat)) : option (list (list MultireadAlignment)) :=
  fold_left (pool_step ds component_frag n frags) (seq 0 (length frags))
            (Some (if (0 <? length frags) then [[]] else [])).

(** The alignment record of a fragment. *)
Definition alignment_of (ds component_frag : list nat) (mf : nat * nat)
  : MultireadAlignment :=
  let c := nth mf.2 ds 0 in
  let base := nth c component_frag 0 in
  Alignment (c, mf.2 - base) (c, mf.2 - base).

(** The multiread of a run of fragments. *)
Definition run_id (run : list (nat * nat)) : nat := (hd (0, 0) run).1.

Lemma sorted_at {A} (R : A -> A -> Prop) (l : list A) :
  StronglySorted R l ->
  forall i j x y, i < j -> l !! i = Some x -> l !! j = Some y -> R x y.
Proof.
  induction 1 as [| a l Hs IH Hall]; intros i j x y Hij Hx Hy.
  - now rewrite lookup_nil in Hx.
  - destruct j as [| j]; [lia |]. cbn in Hy. destruct i as [| i].
    + cbn in Hx. injection Hx as <-. rewrite Forall_forall in Hall.
      eapply Hall, list_elem_of_lookup_2, Hy.
    + cbn in Hx. eapply (IH i j); [lia | exact Hx | exact Hy].
Qed.

Section Arrays.

Variables (ds component_frag : list nat) (n ncol : nat).
Variable frag_counts : list (list Q).
Variable frags : list (nat * nat).

(** The layout the constructor has built: a column belongs to a
    component, and lies in the component's range of columns. *)
Hypothesis layout :
  forall f, f < ncol ->
    exists c base,
      ds !! f = Some c /\ c < n /\ c < length frag_counts
      /\ component_frag !! c = Some base
      /\ base <= f < base + length (nth c frag_counts []).
(** [multiread_frags] after renumbering and sorting. *)
Hypothesis frags_sorted :
  StronglySorted (fun a b : nat * nat => a.1 <= b.1) frags.
Hypothesis frags_columns : Forall (fun mf => mf.2 < ncol) frags.
Hypothesis frags_nodup : NoDup frags.*2.

Local Abbreviation align := (alignment_of ds component_frag).

(** After [i] rounds the groups are the alignments of runs of the
    first [i] fragments, one run per multiread. *)
Definition grouped (i : nat) (groups : list (list MultireadAlignment))
  : Prop :=
  exists runs,
    concat runs = take i frags
    /\ groups = map (map align) runs
    /\ Forall (fun run => run <> []
                          /\ Forall (fun mf => mf.1 = run_id run) run) runs
    /\ StronglySorted lt (map run_id runs)
    /\ Forall (fun id => id <= (nth (i - 1) frags (0, 0)).1) (map run_id runs)
    /\ (forall run, last runs = Some run ->
          run_id run = (nth (i - 1) frags (0, 0)).1).

Lemma frags_ascend i j :
  i <= j < length frags ->
  (nth i frags (0, 0)).1 <= (nth j frags (0, 0)).1.
Proof.
  intros H. destruct (decide (i = j)) as [-> | Hne]; [lia |].
  destruct (lookup_lt_is_Some_2 frags i ltac:(lia)) as [x Hx].
  destruct (lookup_lt_is_Some_2 frags j ltac:(lia)) as [y Hy].
  rewrite (nth_lookup_Some _ _ _ _ Hx), (nth_lookup_Some _ _ _ _ Hy).
  eapply (sorted_at _ frags frags_sorted i j); [lia | exact Hx | exact Hy].
Qed.

Lemma alter_last {A} (f : A -> A) (l : list A) (x : A) :
  alter f (length (l ++ [x]) - 1) (l ++ [x]) = l ++ [f x].
Proof.
  rewrite length_app. cbn [length].
  replace (length l + 1 - 1) with (length l + 0) by lia.
  now rewrite alter_app_r.
Qed.

Lemma run_id_snoc run mf : run <> [] -> run_id (run ++ [mf]) = run_id run.
Proof. destruct run; [congruence | reflexivity]. Qed.

Lemma step_alignment mf :
  mf.2 < ncol ->
  exists c base,
    ds !! mf.2 = Some c /\ component_frag !! c = Some base
    /\ (c <? n) && (base <=? mf.2) = true
    /\ Alignment (c, mf.2 - base) (c, mf.2 - base) = align mf.
Proof.
  intros H. destruct (layout _ H) as (c & base & Ec & Hc & _ & Eb & Hr).
  exists c, base. split; [exact Ec |]. split; [exact Eb |].
  split.
  - apply andb_true_iff. split; [apply Nat.ltb_lt | apply Nat.leb_le]; lia.
  - unfold alignment_of. cbv zeta.
    rewrite (nth_lookup_Some _ _ _ _ Ec), (nth_lookup_Some _ _ _ _ Eb).
    reflexivity.
Qed.

Lemma pool_prefix i :
  i < length frags ->
  exists groups,
    fold_left (pool_step ds component_frag n frags) (seq 0 (S i))
              (Some [[]]) = Some groups
    /\ grouped (S i) groups.
Proof.
  induction i as [| i IH]; intros Hi.
  - destruct (lookup_lt_is_Some_2 frags 0 Hi) as [mf Hmf].
    pose proof (nth_lookup_Some _ _ (0, 0) _ Hmf) as Hnth.
    assert (Hcol : mf.2 < ncol).
    { rewrite Forall_forall in frags_columns. apply frags_columns.
      eapply list_elem_of_lookup_2, Hmf. }
    destruct (step_alignment mf Hcol) as (c & base & Ec & Eb & Hok & Ea).
    cbn [seq fold_left]. unfold pool_step. cbn [mbind option_bind].
    rewrite Hnth, Ec. cbn [mbind option_bind].
    rewrite Eb. cbn [mbind option_bind].
    rewrite Hok, Ea. cbn [Nat.ltb Nat.leb andb length Nat.sub alter list_alter].
    eexists. split; [reflexivity |].
    exists [[mf]].
    split; [now rewrite (take_S_r _ _ _ Hmf), take_0 |].
    split; [reflexivity |].
    split; [repeat constructor; congruence |].
    split; [repeat constructor |].
    split; [repeat constructor; cbn; rewrite Hnth; reflexivity |].
    intros run [= <-]. cbn. now rewrite Hnth.
  - destruct IH as (groups & E & runs & Hcat & Hg & Hruns & Hids & Hle & Hlast);
      [lia |].
    rewrite seq_S, fold_left_app, E. cbn [fold_left Nat.add].
    destruct (lookup_lt_is_Some_2 frags (S i) Hi) as [mf Hmf].
    pose proof (nth_lookup_Some _ _ (0, 0) _ Hmf) as Hnth.
    assert (Hcol : mf.2 < ncol).
    { rewrite Forall_forall in frags_columns. apply frags_columns.
      eapply list_elem_of_lookup_2, Hmf. }
    destruct (step_alignment mf Hcol) as (c & base & Ec & Eb & Hok & Ea).
    unfold pool_step. cbn [mbind option_bind]. rewrite Hnth.
    rewrite Ec. cbn [mbind option_bind]. rewrite Eb. cbn [mbind option_bind].
    rewrite Hok, Ea.
    replace (S i - 0) with (S i) in * by lia.
    replace (S i - 1) with i in * by lia.
    assert (Hprev : (nth i frags (0, 0)).1 <= mf.1).
    { rewrite <- Hnth. apply frags_ascend. lia. }
    assert (Hne : runs <> []).
    { intros ->. cbn in Hcat. symmetry in Hcat.
      apply (f_equal length) in Hcat. rewrite length_take in Hcat.
      cbn [length] in Hcat. lia. }
    destruct (exists_last Hne) as (runs0 & run & ->).
    specialize (Hlast run (last_snoc _ _)).
    rewrite Forall_app, Forall_singleton in Hruns.
    destruct Hruns as (Hruns0 & Hrne & Hrun).
    eexists. split; [reflexivity |].
    cbn [andb Nat.ltb Nat.leb]. unfold differs, grouped.
    replace (S (S i) - 1) with (S i) by lia.
    replace (S i - 1) with i by lia. rewrite Hnth.
    destruct (Nat.eqb_spec mf.1 (nth i frags (0, 0)).1) as [Heq | Hneq];
      cbn [negb].
    + (* one more alignment of the same multiread *)
      exists (runs0 ++ [run ++ [mf]]).
      split.
      { rewrite (take_S_r _ _ _ Hmf), <- Hcat, !concat_app. cbn.
        now rewrite !app_nil_r, app_assoc. }
      split.
      { rewrite Hg, !map_app. cbn [map]. rewrite alter_last.
        now rewrite map_app. }
      split.
      { rewrite Forall_app, Forall_singleton. split; [exact Hruns0 |].
        split; [now destruct run |].
        rewrite run_id_snoc by exact Hrne.
        rewrite Forall_app, Forall_singleton. split; [exact Hrun | lia]. }
      rewrite map_app in *. cbn [map] in *.
      rewrite run_id_snoc by exact Hrne.
      split; [exact Hids |].
      split; [eapply Forall_impl; [exact Hle |]; cbn; intros id Hid; lia |].
      intros run' Hl. rewrite last_snoc in Hl. injection Hl as <-.
      rewrite run_id_snoc by exact Hrne. lia.
    + (* the first alignment of the next multiread *)
      exists ((runs0 ++ [run]) ++ [[mf]]).
      split.
      { rewrite (take_S_r _ _ _ Hmf), <- Hcat, !concat_app. cbn.
        now rewrite !app_nil_r. }
      split.
      { rewrite alter_last, Hg. rewrite (map_app _ (runs0 ++ [run])).
        reflexivity. }
      split.
      { rewrite !Forall_app, !Forall_singleton.
        split; [split; [exact Hruns0 | split; assumption] |].
        split; [congruence | repeat constructor]. }
      rewrite (map_app _ (runs0 ++ [run])). cbn [map].
      split.
      { apply StronglySorted_app.
        split; [| split; [exact Hids | repeat constructor]].
        intros x y Hx Hy. apply list_elem_of_singleton in Hy as ->.
        rewrite Forall_forall in Hle. specialize (Hle _ Hx).
        unfold run_id. cbn. lia. }
      split.
      { apply Forall_app. split.
        - eapply Forall_impl; [exact Hle |]. cbn. intros id Hid. lia.
        - repeat constructor. }
      intros run' Hl. rewrite last_snoc in Hl. now injection Hl as <-.
Qed.

Lemma pool_step_length groups groups' i :
  pool_step ds component_frag n frags (Some groups) i = Some groups' ->
  length groups'
  = if (0 <? i) && differs frags i then S (length groups) else length groups.
Proof.
  unfold pool_step. cbn [mbind option_bind].
  destruct (ds !! _) as [c |]; [| discriminate]. cbn [mbind option_bind].
  destruct (component_frag !! c) as [base |]; [| discriminate].
  cbn [mbind option_bind].
  destruct ((c <? n) && _); [| discriminate].
  intros [= <-]. rewrite length_alter.
  destruct ((0 <? i) && differs frags i); [| reflexivity].
  rewrite length_app. cbn. lia.
Qed.

Lemma pool_length i : forall groups,
  fold_left (pool_step ds component_frag n frags) (seq 0 (S i)) (Some [[]])
  = Some groups ->
  length groups
  = fold_left (fun num i => if (i =? 0) || differs frags i then S num else num)
              (seq 0 (S i)) 0.
Proof.
  induction i as [| i IH]; intros groups E.
  - cbn [seq fold_left] in *. apply pool_step_length in E. exact E.
  - rewrite seq_S, fold_left_app in E. rewrite (seq_S (S i)), fold_left_app.
    cbn [fold_left Nat.add] in *.
    destruct (fold_left _ (seq 0 (S i)) (Some [[]])) as [groups0 |] eqn:E0;
      [| discriminate].
    apply pool_step_length in E. rewrite E, <- (IH groups0 eq_refl).
    reflexivity.
Qed.

(** The cell of a column: its component and its offset there. *)
Definition cell_of (f : nat) : nat * nat :=
  (nth f ds 0, f - nth (nth f ds 0) component_frag 0).

Lemma cell_of_inj f g :
  f < ncol -> g < ncol -> cell_of f = cell_of g -> f = g.
Proof.
  intros Hf Hg. unfold cell_of.
  destruct (layout f Hf) as (c & b & Ec & _ & _ & Eb & Hr).
  destruct (layout g Hg) as (c' & b' & Ec' & _ & _ & Eb' & Hr').
  rewrite (nth_lookup_Some _ _ _ _ Ec), (nth_lookup_Some _ _ _ _ Ec').
  intros [= <- E].
  rewrite (nth_lookup_Some _ _ _ _ Eb) in E.
  assert (b' = b) as -> by congruence. lia.
Qed.

Lemma cell_of_valid f : f < ncol -> valid_cell frag_counts (cell_of f).
Proof.
  intros Hf. unfold cell_of, valid_cell. cbn [fst snd].
  destruct (layout f Hf) as (c & b & Ec & _ & Hc & Eb & Hr).
  rewrite (nth_lookup_Some _ _ _ _ Ec), (nth_lookup_Some _ _ _ _ Eb). lia.
Qed.

Lemma run_columns (runs : list (list (nat * nat))) run :
  concat runs = frags -> run ∈ runs ->
  NoDup run.*2 /\ Forall (fun mf => mf.2 < ncol) run.
Proof.
  intros Hcat Hin. apply list_elem_of_split in Hin as (l1 & l2 & ->).
  rewrite concat_app in Hcat. cbn [concat] in Hcat.
  pose proof frags_nodup as Hnd. pose proof frags_columns as Hcol.
  rewrite <- Hcat in Hnd, Hcol.
  rewrite !fmap_app in Hnd. apply NoDup_app in Hnd as (_ & _ & Hnd).
  apply NoDup_app in Hnd as (Hnd & _).
  apply Forall_app in Hcol as (_ & Hcol). apply Forall_app in Hcol as (Hcol & _).
  auto.
Qed.

Lemma pool_spec :
  exists arrays runs,
    build_pool ds component_frag n frags = Some arrays
    /\ length arrays = count_multireads frags
    /\ concat runs = frags
    /\ arrays = map (map align) runs
    /\ StronglySorted lt (map run_id runs)
    /\ Forall (fun run => run <> []
                          /\ Forall (fun mf => mf.1 = run_id run) run) runs
    /\ forall als, als ∈ arrays ->
         1 <= length als
         /\ NoDup (map count als)
         /\ Forall (fun a => prob a = count a
                             /\ valid_cell frag_counts (count a)) als.
Proof.
  unfold build_pool, count_multireads.
  destruct (length frags) as [| m] eqn:El.
  - exists [], []. apply length_zero_iff_nil in El. rewrite El. cbn.
    split; [reflexivity |]. split; [reflexivity |]. split; [reflexivity |].
    split; [reflexivity |]. split; [constructor |]. split; [constructor |].
    intros als H. now apply elem_of_nil in H.
  - cbn [Nat.ltb Nat.leb].
    destruct (pool_prefix m ltac:(lia))
      as (groups & E & runs & Hcat & Hg & Hruns & Hids & _ & _).
    rewrite <- El, firstn_all in Hcat.
    exists groups, runs. split; [exact E |].
    split; [now apply pool_length |].
    split; [exact Hcat |]. split; [exact Hg |]. split; [exact Hids |].
    split; [exact Hruns |].
    intros als Hals. rewrite Hg in Hals.
    apply list_elem_of_fmap in Hals as (run & -> & Hrun).
    rewrite Forall_forall in Hruns. destruct (Hruns run Hrun) as [Hne _].
    destruct (run_columns runs run Hcat Hrun) as [Hnd Hcol].
    split; [rewrite length_map; destruct run; [congruence | cbn; lia] |].
    split.
    + replace (map count (map align run)) with (cell_of <$> run.*2).
      * apply NoDup_fmap_2_strong; [| exact Hnd].
        intros f g Hf Hg' Heq. rewrite Forall_forall in Hcol.
        apply list_elem_of_fmap in Hf as (x & -> & Hx).
        apply list_elem_of_fmap in Hg' as (y & -> & Hy).
        apply cell_of_inj; auto.
      * clear. induction run as [| mf run IH]; [reflexivity |].
        cbn. now rewrite <- IH.
    + apply Forall_forall. intros a Ha.
      apply list_elem_of_fmap in Ha as (mf & -> & Hmf).
      split; [reflexivity |].
      rewrite Forall_forall in Hcol. apply (cell_of_valid mf.2), Hcol, Hmf.
Qed.

(** X26.  "Build multiread array", on [multiread_frags] in ascending
    order with distinct columns, over the layout the constructor has
    built: the loop reads and writes inside its arrays; there are
    [num_multireads] groups; the groups are the alignments of the
    fragments in order, cut into one run per multiread, the
    multireads ascending; and every group has at least one alignment,
    whose [prob] and [count] name the same cell, a cell of
    [frag_counts], different alignments of a group naming different
    cells. *)
Theorem multiread_arrays_group_and_point :
  exists arrays runs,
    build_pool ds component_frag n frags = Some arrays
    /\ length arrays = count_multireads frags
    /\ concat runs = frags
    /\ arrays = map (map align) runs
    /\ StronglySorted lt (map run_id runs)
    /\ Forall (fun run => run <> []
                          /\ Forall (fun mf => mf.1 = run_id run) run) runs
    /\ forall als, als ∈ arrays ->
         1 <= length als
         /\ NoDup (map count als)
         /\ Forall (fun a => prob a = count a
                             /\ valid_cell frag_counts (count a)) als.
Proof. exact pool_spec. Qed.

End Arrays.
(** The multiread of the small sampler: its two alignments, in
    columns 0 and 3, of the components 0 and 1. *)
Lemma multiread_arrays_group_and_point_witness :
  exists arrays,
    build_pool [0; 0; 0; 1; 0; 0; 1] [0; 3; 4] 2 [(0, 0); (0, 3)]
    = Some arrays
    /\ arrays = multiread_alignments example
    /\ forall als, als ∈ arrays ->
         NoDup (map count als)
         /\ Forall (fun a => valid_cell (frag_counts example) (count a)) als.
Proof.
  destruct (multiread_arrays_group_and_point
              [0; 0; 0; 1; 0; 0; 1] [0; 3; 4] 2 4 (frag_counts example)
              [(0, 0); (0, 3)])
    as (arrays & runs & E & _ & _ & _ & _ & _ & H).
  - intros [| [| [| [| f]]]] Hf; [| | | | lia].
    + exists 0, 0. cbn. repeat split; lia.
    + exists 0, 0. cbn. repeat split; lia.
    + exists 0, 0. cbn. repeat split; lia.
    + exists 1, 3. cbn. repeat split; lia.
  - repeat constructor.
  - repeat constructor.
  - apply (bool_decide_unpack _). vm_compute. exact I.
  - exists arrays. split; [exact E |].
    split; [cbn in E; now injection E as <- |].
    intros als Hals. destruct (H als Hals) as (_ & Hnd & Hv).
    split; [exact Hnd |].
    eapply Forall_impl; [exact Hv |]. cbn. intros a [_ Ha]. exact Ha.
Defined.

End MultireadArrays.

(** * The statistics of the fragment model ([FragmentModelThread],
      [FragmentModel::estimate], fragment_model.cpp) *)
Module FragmentStats.

Import BiasWeights.

Definition ulong_mod : Z := 2 ^ 64.
Definition wrap64 (x : Z) : Z := x mod ulong_mod.

Record mate : Type := Mate {
  strand : strand_t;
  mate_start : Z;
  mate_end : Z
}.

Record alignment : Type := Aln {
  mate1 : option mate;
  mate2 : option mate
}.

(** [ReadSet::UniqueReadCounts]: the reads, each with the alignments
    [AlignedReadIterator] walks and the number of times it was seen. *)
Definition read_counts : Type := list (list alignment * Z).

Inductive interval_type : Type := INTERGENIC | EXONIC | UTR5P | UTR3P.

Record interval : Type := Interval {
  type : interval_type;
  iv_strand : strand_t;
  iv_start : Z;
  iv_end : Z;
  reads : read_counts
}.

(** The counters of a thread. *)
Record counters : Type := Counters {
  strand_bias : Z * Z;
  frag_lens : gmap Z Z;
  tss_dist_counts : list Z;
  tts_dist_counts : list Z
}.

Section Model.

(** [AlignmentPair::naive_frag_len], [constants::max_frag_len] and
    [constants::transcript_tss_dist_len]. *)
Variable naive_frag_len : alignment -> Z.
Variable max_frag_len : Z.
Variable transcript_tss_dist_len : nat.

(** The body of [measure_fragment_lengths], for one alignment. *)
Definition observe_length (frag_lens : gmap Z Z) (j : alignment)
  : gmap Z Z :=
  match mate1 j, mate2 j with
  | Some _, Some _ =>
      let len := naive_frag_len j in
      if (len <=? 0) || (max_frag_len <? len) then frag_lens
      else
        match frag_lens !! wrap32 len with
        | None => <[wrap32 len := 1]> frag_lens
        | Some c => <[wrap32 len := wrap32 (c + 1)]> frag_lens
        end
  | _, _ => frag_lens
  end.

Definition measure_fragment_lengths (frag_lens : gmap Z Z)
    (counts : read_counts) : gmap Z Z :=
  fold_left (fun m i => fold_left observe_length (fst i) m) counts frag_lens.

(** The body of [measure_strand_bias], for one alignment. *)
Definition observe_strand (s : strand_t) (sb : Z * Z) (j : alignment)
  : Z * Z :=
  match mate1 j with
  | None => sb
  | Some m => if strand_eqb (strand m) s
              then (wrap64 (fst sb + 1), snd sb)
              else (fst sb, wrap64 (snd sb + 1))
  end.

Definition measure_strand_bias (s : strand_t) (sb : Z * Z)
    (counts : read_counts) : Z * Z :=
  fold_left (fun sb i => fold_left (observe_strand s) (fst i) sb) counts sb.

(** The distance [d] of [measure_tss_dist], -1 when no mate gives
    one. *)
Definition tss_distance (start end_ : Z) (s : strand_t) (j : alignment) : Z :=
  let on (want : strand_t) (m : option mate) : bool :=
    match m with Some m => strand_eqb (strand m) want | None => false end in
  let at_ (m : option mate) (f : mate -> Z) : Z :=
    match m with Some m => f m | None => -1 end in
  if strand_eqb s strand_pos then
    if on strand_pos (mate1 j) then at_ (mate1 j) (fun m => mate_start m - start)
    else if on strand_pos (mate2 j)
         then at_ (mate2 j) (fun m => mate_start m - start)
         else -1
  else
    if on strand_neg (mate1 j) then at_ (mate1 j) (fun m => end_ - mate_end m)
    else if on strand_neg (mate2 j)
         then at_ (mate2 j) (fun m => end_ - mate_end m)
         else -1.

(** The distance [d] of [measure_tts_dist]. *)
Definition tts_distance (start end_ : Z) (s : strand_t) (j : alignment) : Z :=
  let on (want : strand_t) (m : option mate) : bool :=
    match m with Some m => strand_eqb (strand m) want | None => false end in
  let at_ (m : option mate) (f : mate -> Z) : Z :=
    match m with Some m => f m | None => -1 end in
  if strand_eqb s strand_pos then
    if on strand_neg (mate1 j) then at_ (mate1 j) (fun m => end_ - mate_end m)
    else if on strand_neg (mate2 j)
         then at_ (mate2 j) (fun m => end_ - mate_end m)
         else -1
  else
    if on strand_pos (mate1 j) then at_ (mate1 j) (fun m => mate_start m - start)
    else if on strand_pos (mate2 j)
         then at_ (mate2 j) (fun m => mate_start m - start)
         else -1.

(** [if (0 <= d && (size_t) d < counts.size()) ++counts[d];] *)
Definition count_distance (counts : list Z) (d : Z) : list Z :=
  if (0 <=? d) && (d <? Z.of_nat (length counts))
  then alter (fun c => wrap32 (c + 1)) (Z.to_nat d) counts
  else counts.

Definition measure_dist (distance : alignment -> Z) (dist : list Z)
    (counts : read_counts) : list Z :=
  fold_left (fun dist i =>
               fold_left (fun dist j => count_distance dist (distance j))
                         (fst i) dist)
            counts dist.

(** One turn of the loop of [FragmentModelThread::run], for the
    interval popped from the queue. *)
Definition process (c : counters) (iv : interval) : counters :=
  match type iv with
  | INTERGENIC => c
  | EXONIC =>
      Counters (measure_strand_bias (iv_strand iv) (strand_bias c) (reads iv))
               (measure_fragment_lengths (frag_lens c) (reads iv))
               (tss_dist_counts c) (tts_dist_counts c)
  | UTR5P =>
      Counters (strand_bias c) (frag_lens c)
               (measure_dist (tss_distance (iv_start iv) (iv_end iv)
                                           (iv_strand iv))
                             (tss_dist_counts c) (reads iv))
               (tts_dist_counts c)
  | UTR3P =>
      Counters (strand_bias c) (frag_lens c) (tss_dist_counts c)
               (measure_dist (tts_distance (iv_start iv) (iv_end iv)
                                           (iv_strand iv))
                             (tts_dist_counts c) (reads iv))
  end.

(** [FragmentModelThread::run] on the intervals the thread pops. *)
Definition run (ivs : list interval) : counters :=
  fold_left process ivs
            (Counters (0, 0) ∅
                      (replicate transcript_tss_dist_len 0)
                      (replicate transcript_tss_dist_len 0)).

(** "Collect fragment length statistics": one entry of a thread's
    table goes into the common one. *)
Definition merge_entry (frag_lens : gmap Z Z) (f : Z * Z) : gmap Z Z :=
  match frag_lens !! fst f with
  | None => <[fst f := snd f]> frag_lens
  | Some c => <[fst f := wrap32 (c + snd f)]> frag_lens
  end.

(** The entries of the threads' tables, each in the order its hash
    table is walked in, go into the common table. *)
Definition collect_lengths (walks : list (list (Z * Z))) : gmap Z Z :=
  fold_left (fun m walk => fold_left merge_entry walk m) walks ∅.

(** [frag_len_pe_reads], a [size_t]. *)
Definition frag_len_pe_reads (frag_lens : gmap Z Z) : Z :=
  fold_left (fun n g => wrap64 (n + snd g)) (map_to_list frag_lens) 0.

(** "Collect strand specificity statistics". *)
Definition collect_strand_bias (threads : list counters) : Z * Z :=
  fold_left (fun sb t => (wrap64 (fst sb + fst (strand_bias t)),
                          wrap64 (snd sb + snd (strand_bias t))))
            threads (0, 0).

(** ** The fragment lengths *)

(** The length an alignment adds to the table, if any. *)
Definition observed_length (j : alignment) : option Z :=
  match mate1 j, mate2 j with
  | Some _, Some _ =>
      if (naive_frag_len j <=? 0) || (max_frag_len <? naive_frag_len j)
      then None else Some (naive_frag_len j)
  | _, _ => None
  end.

(** The lengths a set of reads adds, and those the intervals of a
    thread add: only exonic intervals are measured. *)
Definition lengths_of (counts : read_counts) : list Z :=
  omap observed_length (concat (map fst counts)).

Definition thread_lengths (ivs : list interval) : list Z :=
  concat (map (fun iv => match type iv with
                         | EXONIC => lengths_of (reads iv)
                         | _ => []
                         end) ivs).

(** How often [L] is among the observations. *)
Definition occurrences (L : Z) (obs : list Z) : Z :=
  Z.of_nat (length (filter (fun x => x = L) obs)).

(** The table holds, for every length, the number of its
    observations, and no entry for a length never observed. *)
Definition tallies (m : gmap Z Z) (obs : list Z) : Prop :=
  forall L, m !! L = if decide (occurrences L obs = 0) then None
                     else Some (occurrences L obs).

Lemma occurrences_app L obs obs' :
  occurrences L (obs ++ obs') = occurrences L obs + occurrences L obs'.
Proof. unfold occurrences. rewrite filter_app, length_app. lia. Qed.

Lemma occurrences_bounds L obs :
  0 <= occurrences L obs <= Z.of_nat (length obs).
Proof.
  unfold occurrences. pose proof (length_filter (fun x => x = L) obs). lia.
Qed.

Lemma occurrences_one L x :
  occurrences L [x] = if decide (x = L) then 1 else 0.
Proof.
  unfold occurrences. rewrite filter_cons, filter_nil.
  destruct (decide (x = L)); reflexivity.
Qed.

Lemma tallies_empty : tallies ∅ [].
Proof. intros L. rewrite lookup_empty. reflexivity. Qed.

Lemma observe_length_tallies m obs j :
  max_frag_len < uint_mod ->
  Z.of_nat (length (obs ++ match observed_length j with
                           | Some l => [l] | None => []
                           end)) < uint_mod ->
  tallies m obs ->
  tallies (observe_length m j)
          (obs ++ match observed_length j with Some l => [l] | None => [] end).
Proof.
  intros Hmax Hn Hm. unfold observe_length, observed_length in *.
  destruct (mate1 j), (mate2 j); try (now rewrite app_nil_r).
  destruct (Z.leb_spec (naive_frag_len j) 0) as [Hle | Hpos];
    [now rewrite app_nil_r |].
  destruct (Z.ltb_spec max_frag_len (naive_frag_len j)) as [Hgt | Hin];
    [now rewrite app_nil_r |].
  cbn [orb] in *. set (len := naive_frag_len j) in *.
  rewrite length_app in Hn. cbn [length] in Hn.
  assert (Ew : wrap32 len = len) by (unfold wrap32; apply Z.mod_small; lia).
  rewrite Ew. pose proof (Hm len) as Hlen.
  pose proof (occurrences_bounds len obs) as Hb.
  intros L. rewrite occurrences_app, occurrences_one.
  destruct (decide (occurrences len obs = 0)) as [Hz | Hnz]; rewrite Hlen.
  - destruct (decide (len = L)) as [<- | Hne].
    + rewrite lookup_insert_eq, Hz. reflexivity.
    + rewrite lookup_insert_ne by exact Hne. rewrite Z.add_0_r. apply Hm.
  - assert (Ec : wrap32 (occurrences len obs + 1) = occurrences len obs + 1)
      by (unfold wrap32; apply Z.mod_small; lia).
    rewrite Ec. destruct (decide (len = L)) as [<- | Hne].
    + rewrite lookup_insert_eq. rewrite decide_False by lia. reflexivity.
    + rewrite lookup_insert_ne by exact Hne. rewrite Z.add_0_r. apply Hm.
Qed.

Lemma observe_fold_tallies js : forall m obs,
  max_frag_len < uint_mod ->
  Z.of_nat (length (obs ++ omap observed_length js)) < uint_mod ->
  tallies m obs ->
  tallies (fold_left observe_length js m) (obs ++ omap observed_length js).
Proof.
  induction js as [| j js IH]; intros m obs Hmax Hn Hm.
  - cbn. now rewrite app_nil_r.
  - cbn [fold_left length] in *.
    change (omap observed_length (j :: js))
      with (match observed_length j with
            | Some y => y :: omap observed_length js
            | None => omap observed_length js
            end) in *.
    pose proof (observe_length_tallies m obs j Hmax) as H1.
    destruct (observed_length j) as [l |].
    + replace (obs ++ l :: omap observed_length js)
        with ((obs ++ [l]) ++ omap observed_length js) in *
        by (now rewrite <- app_assoc).
      apply IH; [exact Hmax | exact Hn |]. apply H1; [| exact Hm].
      rewrite !length_app in *. lia.
    + rewrite app_nil_r in H1. apply IH; [exact Hmax | exact Hn |].
      apply H1; [| exact Hm]. rewrite length_app in Hn. lia.
Qed.

Lemma measure_tallies counts : forall m obs,
  max_frag_len < uint_mod ->
  Z.of_nat (length (obs ++ lengths_of counts)) < uint_mod ->
  tallies m obs ->
  tallies (measure_fragment_lengths m counts) (obs ++ lengths_of counts).
Proof.
  unfold measure_fragment_lengths, lengths_of.
  induction counts as [| i counts IH]; intros m obs Hmax Hn Hm.
  - cbn. now rewrite app_nil_r.
  - cbn [fold_left map concat] in *.
    rewrite omap_app, app_assoc in *.
    apply IH; [exact Hmax | exact Hn |].
    apply observe_fold_tallies; [exact Hmax | | exact Hm].
    rewrite !length_app in *. lia.
Qed.

Lemma process_tallies ivs : forall c obs,
  max_frag_len < uint_mod ->
  Z.of_nat (length (obs ++ thread_lengths ivs)) < uint_mod ->
  tallies (frag_lens c) obs ->
  tallies (frag_lens (fold_left process ivs c)) (obs ++ thread_lengths ivs).
Proof.
  unfold thread_lengths.
  induction ivs as [| iv ivs IH]; intros c obs Hmax Hn Hc.
  - cbn. now rewrite app_nil_r.
  - cbn [fold_left map concat] in *. rewrite app_assoc in *.
    apply IH; [exact Hmax | exact Hn |].
    unfold process. destruct (type iv); cbn [frag_lens];
      try (now rewrite app_nil_r).
    apply measure_tallies; [exact Hmax | | exact Hc].
    rewrite !length_app in *. lia.
Qed.

(** ** The common table *)

(** What a walk through a table adds for the length [L]. *)
Definition weight (L : Z) (walk : list (Z * Z)) : Z :=
  fold_right (fun e acc => (if decide (fst e = L) then snd e else 0) + acc)
             0 walk.

(** The sum of the counts of a walk. *)
Definition total (walk : list (Z * Z)) : Z :=
  fold_right (fun e acc => snd e + acc) 0 walk.

(** The table holds the count [f L] for every length. *)
Definition holds (m : gmap Z Z) (f : Z -> Z) : Prop :=
  forall L, m !! L = if decide (f L = 0) then None else Some (f L).

Lemma weight_perm L walk walk' :
  walk ≡ₚ walk' -> weight L walk = weight L walk'.
Proof.
  unfold weight.
  induction 1 as [| e l l' _ IH | e e' l | l1 l2 l3 _ IH1 _ IH2];
    cbn [fold_right]; [reflexivity | now rewrite IH | lia | congruence].
Qed.

Lemma total_perm walk walk' : walk ≡ₚ walk' -> total walk = total walk'.
Proof.
  unfold total.
  induction 1 as [| e l l' _ IH | e e' l | l1 l2 l3 _ IH1 _ IH2];
    cbn [fold_right]; [reflexivity | now rewrite IH | lia | congruence].
Qed.

Lemma weight_table L (m : gmap Z Z) :
  weight L (map_to_list m) = default 0 (m !! L).
Proof.
  induction m as [| k v m Hk IH] using map_ind.
  - now rewrite map_to_list_empty, lookup_empty.
  - rewrite (weight_perm L _ _ (map_to_list_insert m k v Hk)).
    change (weight L ((k, v) :: map_to_list m))
      with ((if decide (k = L) then v else 0) + weight L (map_to_list m)).
    rewrite IH. destruct (decide (k = L)) as [-> | Hne].
    + rewrite lookup_insert_eq, Hk. cbn. lia.
    + rewrite lookup_insert_ne by exact Hne. lia.
Qed.

Lemma occurrences_others L k obs :
  L <> k -> occurrences L (filter (fun x => x <> k) obs) = occurrences L obs.
Proof.
  intros Hne. unfold occurrences. f_equal. f_equal.
  apply list_filter_filter_l. congruence.
Qed.

Lemma occurrences_removed k obs :
  occurrences k (filter (fun x => x <> k) obs) = 0.
Proof.
  unfold occurrences. rewrite list_filter_filter.
  replace (filter _ obs) with (@nil Z); [reflexivity |].
  symmetry. induction obs as [| x obs IH]; [reflexivity |].
  rewrite filter_cons_False by tauto. exact IH.
Qed.

Lemma length_split k (obs : list Z) :
  Z.of_nat (length obs)
  = occurrences k obs + Z.of_nat (length (filter (fun x => x <> k) obs)).
Proof.
  unfold occurrences.
  rewrite <- (filter_app_complement (fun x => x = k) obs) at 1.
  rewrite length_app. lia.
Qed.

(** The counts of a table add up to the number of observations. *)
Lemma total_table (m : gmap Z Z) : forall obs,
  tallies m obs -> total (map_to_list m) = Z.of_nat (length obs).
Proof.
  induction m as [| k v m Hk IH] using map_ind; intros obs Hm.
  - rewrite map_to_list_empty. cbn.
    destruct obs as [| x obs]; [reflexivity |].
    specialize (Hm x). rewrite lookup_empty in Hm.
    destruct (decide (occurrences x (x :: obs) = 0)) as [Hz |]; [| discriminate].
    unfold occurrences in Hz. rewrite filter_cons_True in Hz by reflexivity.
    cbn in Hz. lia.
  - rewrite (total_perm _ _ (map_to_list_insert m k v Hk)).
    change (total ((k, v) :: map_to_list m))
      with (v + total (map_to_list m)).
    pose proof (Hm k) as Hv. rewrite lookup_insert_eq in Hv.
    destruct (decide (occurrences k obs = 0)); [discriminate |].
    injection Hv as ->.
    rewrite (IH (filter (fun x => x <> k) obs)).
    + now rewrite (length_split k obs).
    + intros L. destruct (decide (L = k)) as [-> | Hne].
      * now rewrite Hk, occurrences_removed.
      * rewrite occurrences_others by exact Hne.
        rewrite <- (Hm L). now rewrite lookup_insert_ne.
Qed.

Lemma tallies_holds m obs : tallies m obs <-> holds m (fun L => occurrences L obs).
Proof. reflexivity. Qed.

Lemma holds_ext m f g : (forall L, f L = g L) -> holds m f -> holds m g.
Proof. intros E H L. rewrite <- E. apply H. Qed.

Lemma merge_entry_holds m f k v :
  holds m f -> 0 < v -> 0 <= f k -> f k + v < uint_mod ->
  holds (merge_entry m (k, v))
        (fun L => f L + if decide (k = L) then v else 0).
Proof.
  intros Hm Hv Hf Hb L. unfold merge_entry. cbn [fst snd].
  pose proof (Hm k) as Hk.
  destruct (decide (f k = 0)) as [Hz | Hnz]; rewrite Hk.
  - destruct (decide (k = L)) as [<- | Hne].
    + rewrite lookup_insert_eq, Hz. rewrite decide_False by lia. reflexivity.
    + rewrite lookup_insert_ne by exact Hne. rewrite Z.add_0_r. apply Hm.
  - assert (Ew : wrap32 (f k + v) = f k + v)
      by (unfold wrap32; apply Z.mod_small; lia).
    rewrite Ew. destruct (decide (k = L)) as [<- | Hne].
    + rewrite lookup_insert_eq. rewrite decide_False by lia. reflexivity.
    + rewrite lookup_insert_ne by exact Hne. rewrite Z.add_0_r. apply Hm.
Qed.

Lemma weight_nonneg L walk :
  (forall e, e ∈ walk -> 0 < snd e) -> 0 <= weight L walk.
Proof.
  unfold weight.
  induction walk as [| e walk IH]; intros Hp; cbn [fold_right]; [lia |].
  pose proof (Hp e ltac:(apply elem_of_cons; now left)).
  specialize (IH ltac:(intros e' He'; apply Hp, elem_of_cons; now right)).
  destruct (decide (fst e = L)); lia.
Qed.

Lemma merge_fold_holds walk : forall m f,
  holds m f ->
  (forall e, e ∈ walk -> 0 < snd e) ->
  (forall L, 0 <= f L) ->
  (forall L, f L + weight L walk < uint_mod) ->
  holds (fold_left merge_entry walk m) (fun L => f L + weight L walk).
Proof.
  induction walk as [| [k v] walk IH]; intros m f Hm Hp Hf Hb.
  - cbn. eapply holds_ext; [| exact Hm]. intros L. lia.
  - cbn [fold_left].
    assert (Hv : 0 < v) by (apply (Hp (k, v)), elem_of_cons; now left).
    assert (Hp' : forall e, e ∈ walk -> 0 < snd e)
      by (intros e He; apply Hp, elem_of_cons; now right).
    pose proof (weight_nonneg k walk Hp') as Hw.
    assert (Hcons : forall L,
              weight L ((k, v) :: walk)
              = (if decide (k = L) then v else 0) + weight L walk)
      by reflexivity.
    pose proof (Hb k) as Hbk. rewrite Hcons, decide_True in Hbk by reflexivity.
    eapply holds_ext;
      [| apply (IH _ (fun L => f L + if decide (k = L) then v else 0))].
    + intros L. rewrite Hcons. lia.
    + apply merge_entry_holds; [exact Hm | exact Hv | apply Hf | lia].
    + exact Hp'.
    + intros L. specialize (Hf L). destruct (decide (k = L)); lia.
    + intros L. specialize (Hb L). rewrite Hcons in Hb. lia.
Qed.



Lemma table_positive m obs k v :
  tallies m obs -> m !! k = Some v -> 0 < v /\ v = occurrences k obs.
Proof.
  intros Hm Hk. rewrite (Hm k) in Hk.
  destruct (decide (occurrences k obs = 0)); [discriminate |].
  injection Hk as <-. pose proof (occurrences_bounds k obs). lia.
Qed.

Lemma table_default m obs L :
  tallies m obs -> default 0 (m !! L) = occurrences L obs.
Proof.
  intros Hm. rewrite (Hm L).
  destruct (decide (occurrences L obs = 0)) as [-> |]; reflexivity.
Qed.

(** A thread's table goes into the common one. *)
Lemma merge_thread_tallies m base mt obst walk :
  tallies m base -> tallies mt obst -> walk ≡ₚ map_to_list mt ->
  Z.of_nat (length (base ++ obst)) < uint_mod ->
  tallies (fold_left merge_entry walk m) (base ++ obst).
Proof.
  intros Hm Hmt Hwalk Hn.
  assert (Hw : forall L, weight L walk = occurrences L obst).
  { intros L. rewrite (weight_perm L _ _ Hwalk), weight_table.
    now apply table_default. }
  apply tallies_holds.
  eapply holds_ext;
    [| apply (merge_fold_holds walk m (fun L => occurrences L base))].
  - intros L. cbn. now rewrite Hw, occurrences_app.
  - exact Hm.
  - intros [k v] He. rewrite Hwalk in He.
    apply elem_of_map_to_list in He.
    now destruct (table_positive _ _ _ _ Hmt He).
  - intros L. apply occurrences_bounds.
  - intros L. rewrite Hw. rewrite length_app in Hn.
    pose proof (occurrences_bounds L base).
    pose proof (occurrences_bounds L obst). lia.
Qed.

Lemma run_tallies ivs :
  max_frag_len < uint_mod ->
  Z.of_nat (length (thread_lengths ivs)) < uint_mod ->
  tallies (frag_lens (run ivs)) (thread_lengths ivs).
Proof.
  intros Hmax Hn. unfold run.
  apply (process_tallies ivs _ []); [exact Hmax | exact Hn |].
  apply tallies_empty.
Qed.

Lemma collect_tallies threads walks : forall m base,
  max_frag_len < uint_mod ->
  Forall2 (fun ivs walk => walk ≡ₚ map_to_list (frag_lens (run ivs)))
          threads walks ->
  Z.of_nat (length (base ++ concat (map thread_lengths threads))) < uint_mod ->
  tallies m base ->
  tallies (fold_left (fun m walk => fold_left merge_entry walk m) walks m)
          (base ++ concat (map thread_lengths threads)).
Proof.
  intros m base Hmax Hall. revert m base.
  induction Hall as [| ivs walk threads walks Hwalk _ IH]; intros m base Hn Hm.
  - cbn. now rewrite app_nil_r.
  - cbn [fold_left map concat] in *. rewrite app_assoc in *.
    apply IH; [exact Hn |].
    rewrite !length_app in Hn.
    eapply merge_thread_tallies; [exact Hm | | exact Hwalk |].
    + apply run_tallies; [exact Hmax | lia].
    + rewrite length_app. lia.
Qed.

Lemma pe_reads_total walk : forall n0,
  0 <= n0 -> (forall e, e ∈ walk -> 0 <= snd e) ->
  n0 + total walk < ulong_mod ->
  fold_left (fun n g => wrap64 (n + snd g)) walk n0 = n0 + total walk.
Proof.
  unfold total.
  induction walk as [| e walk IH]; intros n0 H0 Hp Hb; cbn [fold_left fold_right] in *.
  - lia.
  - pose proof (Hp e ltac:(apply elem_of_cons; now left)) as He.
    assert (Hrest : 0 <= fold_right (fun e acc => snd e + acc) 0 walk).
    { clear -Hp. induction walk as [| e' walk IH]; cbn; [lia |].
      pose proof (Hp e' ltac:(apply elem_of_cons; right; apply elem_of_cons;
                              now left)).
      assert (0 <= fold_right (fun e acc => snd e + acc) 0 walk); [| lia].
      apply IH. intros x Hx. apply Hp.
      apply elem_of_cons in Hx as [-> | Hx]; apply elem_of_cons;
        [now left | right; apply elem_of_cons; now right]. }
    assert (Ew : wrap64 (n0 + snd e) = n0 + snd e)
      by (unfold wrap64; apply Z.mod_small; lia).
    rewrite Ew, IH; [lia | lia | | lia].
    intros x Hx. apply Hp, elem_of_cons. now right.
Qed.

(** X27.  The fragment lengths, from the threads to the common table,
    when fewer than 2^32 lengths are observed and [max_frag_len] is
    below 2^32; the observations are the lengths, above 0 and up to
    [max_frag_len], of the alignments with both mates in the exonic
    intervals of the threads.  In whatever order the threads' hash
    tables are walked, the common table holds for every length the
    number of its observations, has no entry for a length that was
    not observed, and [frag_len_pe_reads] is the number of
    observations. *)
Theorem fragment_lengths_counted
    (threads : list (list interval)) (walks : list (list (Z * Z))) :
  max_frag_len < uint_mod ->
  Forall2 (fun ivs walk => walk ≡ₚ map_to_list (frag_lens (run ivs)))
          threads walks ->
  Z.of_nat (length (concat (map thread_lengths threads))) < uint_mod ->
  (forall L,
     collect_lengths walks !! L
     = if decide (occurrences L (concat (map thread_lengths threads)) = 0)
       then None
       else Some (occurrences L (concat (map thread_lengths threads))))
  /\ frag_len_pe_reads (collect_lengths walks)
     = Z.of_nat (length (concat (map thread_lengths threads))).
Proof.
  intros Hmax Hwalks Hn.
  pose proof (collect_tallies threads walks ∅ [] Hmax Hwalks Hn tallies_empty)
    as Ht.
  cbn [app] in Ht. fold (collect_lengths walks) in Ht.
  split; [exact Ht |].
  unfold frag_len_pe_reads.
  pose proof (total_table _ _ Ht) as Htot.
  rewrite pe_reads_total; [lia | lia | |].
  - intros [k v] He. apply elem_of_map_to_list in He.
    destruct (table_positive _ _ _ _ Ht He). cbn. lia.
  - rewrite Htot. unfold uint_mod, ulong_mod in *. lia.
Qed.

(** ** The strands *)

(** An alignment whose first mate lies on the strand [s], and one
    whose first mate lies on another strand. *)
Definition agrees (p : strand_t * alignment) : bool :=
  match mate1 (snd p) with
  | Some m => strand_eqb (strand m) (fst p)
  | None => false
  end.

Definition disagrees (p : strand_t * alignment) : bool :=
  match mate1 (snd p) with
  | Some m => negb (strand_eqb (strand m) (fst p))
  | None => false
  end.

Definition number (p : strand_t * alignment -> bool)
    (l : list (strand_t * alignment)) : Z :=
  Z.of_nat (length (filter (fun x => p x = true) l)).

(** The alignments of the exonic intervals of a thread, each with the
    strand of its interval. *)
Definition thread_pairs (ivs : list interval) : list (strand_t * alignment) :=
  concat (map (fun iv =>
                 match type iv with
                 | EXONIC => map (pair (iv_strand iv))
                                 (concat (map fst (reads iv)))
                 | _ => []
                 end) ivs).

Lemma number_app p l l' : number p (l ++ l') = number p l + number p l'.
Proof. unfold number. rewrite filter_app, length_app. lia. Qed.

Lemma number_bounds p l : 0 <= number p l <= Z.of_nat (length l).
Proof.
  unfold number. pose proof (length_filter (fun x => p x = true) l). lia.
Qed.

Lemma number_cons p x l :
  number p (x :: l) = (if p x then 1 else 0) + number p l.
Proof.
  unfold number. rewrite filter_cons.
  destruct (p x); [rewrite decide_True by reflexivity
                  | rewrite decide_False by discriminate]; cbn [length]; lia.
Qed.

Lemma observe_strand_fold s js : forall sb,
  0 <= fst sb -> 0 <= snd sb ->
  fst sb + Z.of_nat (length js) < ulong_mod ->
  snd sb + Z.of_nat (length js) < ulong_mod ->
  fold_left (observe_strand s) js sb
  = (fst sb + number agrees (map (pair s) js),
     snd sb + number disagrees (map (pair s) js)).
Proof.
  induction js as [| j js IH]; intros [a d] Ha Hd Hba Hbd;
    cbn [fst snd fold_left map length] in *.
  - unfold number. cbn. f_equal; lia.
  - rewrite !number_cons.
    change (agrees (s, j))
      with (match mate1 j with
            | Some m => strand_eqb (strand m) s | None => false
            end).
    change (disagrees (s, j))
      with (match mate1 j with
            | Some m => negb (strand_eqb (strand m) s) | None => false
            end).
    unfold observe_strand. cbn [fst snd].
    destruct (mate1 j) as [m |];
      [| rewrite IH by (cbn [fst snd]; lia); cbn [fst snd]; f_equal; lia].
    destruct (strand_eqb (strand m) s); cbn [negb fst snd].
    + assert (Ew : wrap64 (a + 1) = a + 1)
        by (unfold wrap64; apply Z.mod_small; lia).
      rewrite Ew, IH by (cbn [fst snd]; lia). cbn [fst snd]. f_equal; lia.
    + assert (Ew : wrap64 (d + 1) = d + 1)
        by (unfold wrap64; apply Z.mod_small; lia).
      rewrite Ew, IH by (cbn [fst snd]; lia). cbn [fst snd]. f_equal; lia.
Qed.

Lemma fold_concat {A B} (f : A -> B -> A) (ls : list (list B * Z)) : forall a,
  fold_left (fun a i => fold_left f (fst i) a) ls a
  = fold_left f (concat (map fst ls)) a.
Proof.
  induction ls as [| l ls IH]; intros a; [reflexivity |].
  cbn [fold_left map concat]. now rewrite fold_left_app, IH.
Qed.

Lemma process_strand_bias ivs : forall c,
  0 <= fst (strand_bias c) -> 0 <= snd (strand_bias c) ->
  fst (strand_bias c) + Z.of_nat (length (thread_pairs ivs)) < ulong_mod ->
  snd (strand_bias c) + Z.of_nat (length (thread_pairs ivs)) < ulong_mod ->
  strand_bias (fold_left process ivs c)
  = (fst (strand_bias c) + number agrees (thread_pairs ivs),
     snd (strand_bias c) + number disagrees (thread_pairs ivs)).
Proof.
  unfold thread_pairs.
  induction ivs as [| iv ivs IH]; intros c Ha Hd Hba Hbd;
    cbn [fold_left map concat] in *.
  - unfold number. cbn. destruct (strand_bias c). cbn. f_equal; lia.
  - rewrite length_app in Hba, Hbd. rewrite !number_app.
    unfold process at 2.
    destruct (type iv) eqn:Et;
      try (rewrite IH by (cbn [strand_bias]; cbn [length] in *; lia);
           cbn [strand_bias]; unfold number; cbn; f_equal; lia).
    unfold measure_strand_bias. rewrite fold_concat.
    rewrite length_map in Hba, Hbd.
    pose proof (number_bounds agrees
                  (map (pair (iv_strand iv)) (concat (map fst (reads iv))))) as B1.
    pose proof (number_bounds disagrees
                  (map (pair (iv_strand iv)) (concat (map fst (reads iv))))) as B2.
    rewrite length_map in B1, B2.
    rewrite IH; cbn [strand_bias];
      rewrite observe_strand_fold by lia; cbn [fst snd]; try lia.
    f_equal; lia.
Qed.

Lemma run_strand_bias ivs :
  Z.of_nat (length (thread_pairs ivs)) < ulong_mod ->
  strand_bias (run ivs)
  = (number agrees (thread_pairs ivs), number disagrees (thread_pairs ivs)).
Proof.
  intros Hn. unfold run. rewrite process_strand_bias; cbn; try lia.
  reflexivity.
Qed.

Lemma collect_strand_fold threads : forall sb,
  0 <= fst sb -> 0 <= snd sb ->
  fst sb + Z.of_nat (length (concat (map thread_pairs threads))) < ulong_mod ->
  snd sb + Z.of_nat (length (concat (map thread_pairs threads))) < ulong_mod ->
  fold_left (fun sb t => (wrap64 (fst sb + fst (strand_bias t)),
                          wrap64 (snd sb + snd (strand_bias t))))
            (map run threads) sb
  = (fst sb + number agrees (concat (map thread_pairs threads)),
     snd sb + number disagrees (concat (map thread_pairs threads))).
Proof.
  induction threads as [| ivs threads IH]; intros [a d] Ha Hd Hba Hbd;
    cbn [fst snd fold_left map concat] in *.
  - unfold number. cbn. f_equal; lia.
  - rewrite length_app in Hba, Hbd. rewrite !number_app.
    rewrite run_strand_bias by lia. cbn [fst snd].
    pose proof (number_bounds agrees (thread_pairs ivs)) as B1.
    pose proof (number_bounds disagrees (thread_pairs ivs)) as B2.
    assert (E1 : wrap64 (a + number agrees (thread_pairs ivs))
                 = a + number agrees (thread_pairs ivs))
      by (unfold wrap64; apply Z.mod_small; lia).
    assert (E2 : wrap64 (d + number disagrees (thread_pairs ivs))
                 = d + number disagrees (thread_pairs ivs))
      by (unfold wrap64; apply Z.mod_small; lia).
    rewrite E1, E2, IH by (cbn [fst snd]; lia). cbn [fst snd]. f_equal; lia.
Qed.

Lemma agree_or_disagree l :
  number agrees l + number disagrees l
  = number (fun p => bool_decide (is_Some (mate1 (snd p)))) l.
Proof.
  induction l as [| p l IH]; [reflexivity |].
  rewrite !number_cons, <- IH.
  change (agrees p)
    with (match mate1 (snd p) with
          | Some m => strand_eqb (strand m) (fst p) | None => false
          end).
  change (disagrees p)
    with (match mate1 (snd p) with
          | Some m => negb (strand_eqb (strand m) (fst p)) | None => false
          end).
  destruct (mate1 (snd p)) as [m |].
  - rewrite bool_decide_eq_true_2 by eauto.
    destruct (strand_eqb (strand m) (fst p)); cbn; lia.
  - rewrite bool_decide_eq_false_2 by (intros [? ?]; discriminate). lia.
Qed.

(** X28.  The strand counts, from the threads to [estimate], when the
    exonic intervals hold fewer than 2^64 alignments: [strand_bias[0]]
    is the number of alignments of exonic intervals whose first mate
    lies on the strand of the interval, [strand_bias[1]] the number of
    those whose first mate lies on another strand, and together they
    are the alignments that have a first mate; intervals of other
    types and the counts of the unique reads play no part. *)
Theorem strand_bias_counted (threads : list (list interval)) :
  Z.of_nat (length (concat (map thread_pairs threads))) < ulong_mod ->
  collect_strand_bias (map run threads)
  = (number agrees (concat (map thread_pairs threads)),
     number disagrees (concat (map thread_pairs threads)))
  /\ number agrees (concat (map thread_pairs threads))
     + number disagrees (concat (map thread_pairs threads))
     = number (fun p => bool_decide (is_Some (mate1 (snd p))))
              (concat (map thread_pairs threads)).
Proof.
  intros Hn. split; [| apply agree_or_disagree].
  unfold collect_strand_bias.
  rewrite collect_strand_fold; cbn [fst snd]; try lia. reflexivity.
Qed.

(** ** The distances to the ends of the transcripts *)

(** The distances the alignments of a thread's intervals at the 5'
    ends give, and those its intervals at the 3' ends give. *)
Definition tss_distances (ivs : list interval) : list Z :=
  concat (map (fun iv =>
                 match type iv with
                 | UTR5P =>
                     map (tss_distance (iv_start iv) (iv_end iv) (iv_strand iv))
                         (concat (map fst (reads iv)))
                 | _ => []
                 end) ivs).

Definition tts_distances (ivs : list interval) : list Z :=
  concat (map (fun iv =>
                 match type iv with
                 | UTR3P =>
                     map (tts_distance (iv_start iv) (iv_end iv) (iv_strand iv))
                         (concat (map fst (reads iv)))
                 | _ => []
                 end) ivs).

Lemma count_distance_spec dist d :
  length (count_distance dist d) = length dist
  /\ forall k, (k < length dist)%nat ->
       nth k (count_distance dist d) 0
       = if decide (d = Z.of_nat k) then wrap32 (nth k dist 0 + 1)
         else nth k dist 0.
Proof.
  unfold count_distance.
  destruct (Z.leb_spec 0 d) as [H0 | H0];
    [destruct (Z.ltb_spec d (Z.of_nat (length dist))) as [H1 | H1] |];
    cbn [andb].
  - split; [apply length_alter |]. intros k Hk.
    rewrite !nth_lookup.
    destruct (decide (d = Z.of_nat k)) as [-> | Hne].
    + rewrite Nat2Z.id, list_lookup_alter_eq.
      destruct (lookup_lt_is_Some_2 dist k Hk) as [x ->]. reflexivity.
    + rewrite list_lookup_alter_ne by lia. reflexivity.
  - split; [reflexivity |]. intros k Hk. rewrite decide_False by lia.
    reflexivity.
  - split; [reflexivity |]. intros k Hk. rewrite decide_False by lia.
    reflexivity.
Qed.

Lemma count_distances_spec ds : forall dist,
  (forall k, (k < length dist)%nat ->
     0 <= nth k dist 0
     /\ nth k dist 0 + Z.of_nat (length ds) < uint_mod) ->
  length (fold_left count_distance ds dist) = length dist
  /\ forall k, (k < length dist)%nat ->
       nth k (fold_left count_distance ds dist) 0
       = nth k dist 0 + occurrences (Z.of_nat k) ds.
Proof.
  induction ds as [| d ds IH]; intros dist Hb; cbn [fold_left length] in *.
  - split; [reflexivity |]. intros k Hk. unfold occurrences. cbn. lia.
  - destruct (count_distance_spec dist d) as [Hl Hc].
    destruct (IH (count_distance dist d)) as [IHl IHc].
    { intros k Hk. rewrite Hl in Hk. rewrite (Hc k Hk).
      destruct (Hb k Hk) as [B1 B2].
      destruct (decide (d = Z.of_nat k)); [| lia].
      unfold wrap32. rewrite Z.mod_small by lia. lia. }
    split; [congruence |]. intros k Hk.
    rewrite IHc by (now rewrite Hl). rewrite (Hc k Hk).
    destruct (Hb k Hk) as [B1 B2].
    change (d :: ds) with ([d] ++ ds).
    rewrite occurrences_app, occurrences_one.
    destruct (decide (d = Z.of_nat k)); [| lia].
    unfold wrap32. rewrite Z.mod_small by lia. lia.
Qed.

Lemma fold_concat_map {A B C} (f : A -> C -> A) (g : B -> C)
    (ls : list (list B * Z)) : forall a,
  fold_left (fun a i => fold_left (fun a j => f a (g j)) (fst i) a) ls a
  = fold_left f (map g (concat (map fst ls))) a.
Proof.
  induction ls as [| l ls IH]; intros a; [reflexivity |].
  cbn [fold_left map concat]. rewrite map_app, fold_left_app, IH. f_equal.
  clear. generalize a. induction (fst l) as [| j js IHj]; intros a0;
    [reflexivity |]. cbn. apply IHj.
Qed.

Lemma measure_dist_spec distance dist counts :
  (forall k, (k < length dist)%nat ->
     0 <= nth k dist 0
     /\ nth k dist 0 + Z.of_nat (length (concat (map fst counts))) < uint_mod) ->
  length (measure_dist distance dist counts) = length dist
  /\ forall k, (k < length dist)%nat ->
       nth k (measure_dist distance dist counts) 0
       = nth k dist 0
         + occurrences (Z.of_nat k) (map distance (concat (map fst counts))).
Proof.
  intros Hb. unfold measure_dist.
  rewrite (fold_concat_map count_distance distance).
  apply count_distances_spec. intros k Hk. rewrite length_map. now apply Hb.
Qed.

(** The two vectors after some intervals. *)
Lemma process_distances ivs : forall c,
  (forall k, (k < length (tss_dist_counts c))%nat ->
     0 <= nth k (tss_dist_counts c) 0
     /\ nth k (tss_dist_counts c) 0 + Z.of_nat (length (tss_distances ivs))
        < uint_mod) ->
  (forall k, (k < length (tts_dist_counts c))%nat ->
     0 <= nth k (tts_dist_counts c) 0
     /\ nth k (tts_dist_counts c) 0 + Z.of_nat (length (tts_distances ivs))
        < uint_mod) ->
  let c' := fold_left process ivs c in
  length (tss_dist_counts c') = length (tss_dist_counts c)
  /\ length (tts_dist_counts c') = length (tts_dist_counts c)
  /\ (forall k, (k < length (tss_dist_counts c))%nat ->
        nth k (tss_dist_counts c') 0
        = nth k (tss_dist_counts c) 0
          + occurrences (Z.of_nat k) (tss_distances ivs))
  /\ (forall k, (k < length (tts_dist_counts c))%nat ->
        nth k (tts_dist_counts c') 0
        = nth k (tts_dist_counts c) 0
          + occurrences (Z.of_nat k) (tts_distances ivs)).
Proof.
  unfold tss_distances, tts_distances.
  induction ivs as [| iv ivs IH]; intros c Hs Ht; cbv zeta;
    cbn [fold_left map concat] in *.
  - split; [reflexivity |]. split; [reflexivity |].
    split; intros k Hk; unfold occurrences; cbn; lia.
  - cbv zeta in IH.
    destruct (type iv) eqn:Et; unfold process at 2 4 6 8; rewrite Et.
    + (* INTERGENIC *)
      destruct (IH c Hs Ht) as (I1 & I2 & I3 & I4).
      split; [exact I1 |]. split; [exact I2 |]. split; assumption.
    + (* EXONIC *)
      destruct (IH (Counters
                      (measure_strand_bias (iv_strand iv) (strand_bias c) (reads iv))
                      (measure_fragment_lengths (frag_lens c) (reads iv))
                      (tss_dist_counts c) (tts_dist_counts c)) Hs Ht)
        as (I1 & I2 & I3 & I4).
      split; [exact I1 |]. split; [exact I2 |]. split; assumption.
    + (* UTR5P *)
      set (ds := map (tss_distance (iv_start iv) (iv_end iv) (iv_strand iv))
                     (concat (map fst (reads iv)))) in *.
      destruct (measure_dist_spec
                  (tss_distance (iv_start iv) (iv_end iv) (iv_strand iv))
                  (tss_dist_counts c) (reads iv)) as [Ml Mc].
      { intros k Hk. destruct (Hs k Hk) as [B1 B2].
        rewrite length_app in B2. unfold ds in B2. rewrite length_map in B2.
        lia. }
      fold ds in Mc.
      destruct (IH (Counters (strand_bias c) (frag_lens c)
                      (measure_dist
                         (tss_distance (iv_start iv) (iv_end iv) (iv_strand iv))
                         (tss_dist_counts c) (reads iv))
                      (tts_dist_counts c)))
        as (I1 & I2 & I3 & I4); cbn [tss_dist_counts tts_dist_counts].
      { intros k Hk. rewrite Ml in Hk. rewrite (Mc k Hk).
        destruct (Hs k Hk) as [B1 B2]. rewrite length_app in B2.
        pose proof (occurrences_bounds (Z.of_nat k) ds). lia. }
      { exact Ht. }
      cbn [tss_dist_counts tts_dist_counts] in *.
      split; [congruence |]. split; [exact I2 |]. split.
      * intros k Hk. rewrite I3 by (now rewrite Ml). rewrite (Mc k Hk).
        rewrite occurrences_app. lia.
      * exact I4.
    + (* UTR3P *)
      set (ds := map (tts_distance (iv_start iv) (iv_end iv) (iv_strand iv))
                     (concat (map fst (reads iv)))) in *.
      destruct (measure_dist_spec
                  (tts_distance (iv_start iv) (iv_end iv) (iv_strand iv))
                  (tts_dist_counts c) (reads iv)) as [Ml Mc].
      { intros k Hk. destruct (Ht k Hk) as [B1 B2].
        rewrite length_app in B2. unfold ds in B2. rewrite length_map in B2.
        lia. }
      fold ds in Mc.
      destruct (IH (Counters (strand_bias c) (frag_lens c) (tss_dist_counts c)
                      (measure_dist
                         (tts_distance (iv_start iv) (iv_end iv) (iv_strand iv))
                         (tts_dist_counts c) (reads iv))))
        as (I1 & I2 & I3 & I4); cbn [tss_dist_counts tts_dist_counts].
      { exact Hs. }
      { intros k Hk. rewrite Ml in Hk. rewrite (Mc k Hk).
        destruct (Ht k Hk) as [B1 B2]. rewrite length_app in B2.
        pose proof (occurrences_bounds (Z.of_nat k) ds). lia. }
      cbn [tss_dist_counts tts_dist_counts] in *.
      split; [exact I1 |]. split; [congruence |]. split.
      * exact I3.
      * intros k Hk. rewrite I4 by (now rewrite Ml). rewrite (Mc k Hk).
        rewrite occurrences_app. lia.
Qed.

(** X29.  The distance vectors of a thread that sees fewer than 2^32
    alignments at either kind of end: both have
    [transcript_tss_dist_len] cells, the one for the 3' ends as well;
    cell [k] of the first is the number of alignments in the thread's
    intervals at 5' ends whose distance to the start site is [k], cell
    [k] of the second the number of those in its intervals at 3' ends
    whose distance to the termination site is [k]; distances below 0
    or from [transcript_tss_dist_len] on are not counted. *)
Theorem distances_counted (ivs : list interval) :
  Z.of_nat (length (tss_distances ivs)) < uint_mod ->
  Z.of_nat (length (tts_distances ivs)) < uint_mod ->
  length (tss_dist_counts (run ivs)) = transcript_tss_dist_len
  /\ length (tts_dist_counts (run ivs)) = transcript_tss_dist_len
  /\ forall k, (k < transcript_tss_dist_len)%nat ->
       nth k (tss_dist_counts (run ivs)) 0
       = occurrences (Z.of_nat k) (tss_distances ivs)
       /\ nth k (tts_dist_counts (run ivs)) 0
          = occurrences (Z.of_nat k) (tts_distances ivs).
Proof.
  intros Hs Ht. unfold run.
  set (c0 := Counters (0, 0) ∅ (replicate transcript_tss_dist_len 0)
                      (replicate transcript_tss_dist_len 0)).
  assert (Hz : forall k, (k < transcript_tss_dist_len)%nat ->
            nth k (replicate transcript_tss_dist_len 0) 0 = 0).
  { intros k Hk. apply nth_lookup_Some. now apply lookup_replicate_2. }
  destruct (process_distances ivs c0) as (L1 & L2 & C1 & C2);
    cbn [c0 tss_dist_counts tts_dist_counts] in *.
  - intros k Hk. rewrite length_replicate in Hk. rewrite (Hz k Hk). lia.
  - intros k Hk. rewrite length_replicate in Hk. rewrite (Hz k Hk). lia.
  - rewrite length_replicate in *.
    split; [exact L1 |]. split; [exact L2 |]. intros k Hk.
    rewrite (C1 k Hk), (C2 k Hk), (Hz k Hk). lia.
Qed.

End Model.
(** ** An instance *)

(** A fragment from 100 to 300 with both mates, and one with its
    first mate only, on the other strand. *)
Definition example_pair : alignment :=
  Aln (Some (Mate strand_pos 100 150)) (Some (Mate strand_neg 250 300)).
Definition example_single : alignment :=
  Aln (Some (Mate strand_neg 120 170)) None.

Definition example_frag_len (j : alignment) : Z :=
  match mate1 j, mate2 j with
  | Some a, Some b => mate_end b - mate_start a
  | _, _ => 0
  end.

(** Two threads: an exonic interval each, the second thread also an
    interval at a 5' end. *)
Definition example_exonic : interval :=
  Interval EXONIC strand_pos 0 1000
           [([example_pair; example_pair], 2); ([example_single], 1)].
Definition example_utr : interval :=
  Interval UTR5P strand_pos 90 400 [([example_pair], 1)].
Definition example_threads : list (list interval) :=
  [[example_exonic]; [example_exonic; example_utr]].

Definition example_walks : list (list (Z * Z)) :=
  map (fun ivs => map_to_list (frag_lens (run example_frag_len 1000 20 ivs)))
      example_threads.

Lemma fragment_lengths_counted_witness :
  collect_lengths example_walks !! 200 = Some 4
  /\ frag_len_pe_reads (collect_lengths example_walks) = 4.
Proof.
  destruct (fragment_lengths_counted example_frag_len 1000 20
              example_threads example_walks) as [H1 H2].
  - unfold uint_mod. lia.
  - repeat constructor.
  - vm_compute. reflexivity.
  - split; [rewrite (H1 200) | rewrite H2]; reflexivity.
Defined.

Lemma strand_bias_counted_witness :
  collect_strand_bias (map (run example_frag_len 1000 20) example_threads)
  = (4, 2).
Proof.
  destruct (strand_bias_counted example_frag_len 1000 20 example_threads)
    as [H _].
  - vm_compute. reflexivity.
  - rewrite H. reflexivity.
Defined.

Lemma distances_counted_witness :
  nth 10 (tss_dist_counts (run example_frag_len 1000 20
                               [example_exonic; example_utr])) 0 = 1
  /\ length (tts_dist_counts (run example_frag_len 1000 20
                                  [example_exonic; example_utr])) = 20%nat.
Proof.
  destruct (distances_counted example_frag_len 1000 20
              [example_exonic; example_utr]) as (_ & H2 & H3).
  - vm_compute. reflexivity.
  - vm_compute. reflexivity.
  - split; [| exact H2]. destruct (H3 10%nat ltac:(lia)) as [-> _].
    reflexivity.
Defined.

End FragmentStats.

(** * The distance statistics in [FragmentModel::estimate] *)
Module DistanceMerge.

(** [for (j = 0; j < counts.size(); ++j) lens[j] += counts[j];] with
    [None] for a cell outside [lens]. *)
Definition add_counts (lens counts : list Z) : option (list Z) :=
  fold_left (fun (o : option (list Z)) j =>
               lens ← o;
               x ← lens !! j;
               Some (<[j := wrap32 (x + nth j counts 0)]> lens))
            (seq 0 (length counts)) (Some lens).

(** "Collect TSS/TTS distribution statistics", for one of the two
    vectors: [dist_lens] is resized to [len] cells and every thread's
    vector is added to it. *)
Definition collect_distances (len : nat) (threads : list (list Z))
  : option (list Z) :=
  fold_left (fun o counts => lens ← o; add_counts lens counts)
            threads (Some (replicate len 0)).

(** The sum of cell [k] over the threads. *)
Definition column_sum (k : nat) (threads : list (list Z)) : Z :=
  fold_right (fun counts acc => nth k counts 0 + acc) 0 threads.

Lemma add_prefix lens counts n :
  (n <= length counts)%nat -> (n <= length lens)%nat ->
  exists lens',
    fold_left (fun (o : option (list Z)) j =>
                 lens ← o;
                 x ← lens !! j;
                 Some (<[j := wrap32 (x + nth j counts 0)]> lens))
              (seq 0 n) (Some lens) = Some lens'
    /\ length lens' = length lens
    /\ forall k, nth k lens' 0
                 = if decide (k < n)%nat
                   then wrap32 (nth k lens 0 + nth k counts 0)
                   else nth k lens 0.
Proof.
  induction n as [| n IH]; intros Hc Hl.
  - exists lens. cbn. split; [reflexivity |]. split; [reflexivity |].
    intros k. rewrite decide_False by lia. reflexivity.
  - destruct IH as (l1 & E & L1 & N1); [lia | lia |].
    rewrite seq_S, fold_left_app, E. cbn [fold_left Nat.add mbind option_bind].
    destruct (lookup_lt_is_Some_2 l1 n ltac:(lia)) as [x Hx].
    rewrite Hx. cbn [mbind option_bind].
    eexists. split; [reflexivity |]. split; [now rewrite length_insert |].
    intros k. destruct (decide (k = n)) as [-> | Hne].
    + rewrite nth_insert_eq by lia. rewrite decide_True by lia.
      rewrite <- (nth_lookup_Some _ _ 0 _ Hx), N1.
      rewrite decide_False by lia. reflexivity.
    + rewrite nth_insert_ne by lia. rewrite N1.
      destruct (decide (k < n)%nat), (decide (k < S n)%nat);
        first [reflexivity | lia].
Qed.

Lemma fold_none {A} (f : option (list Z) -> A -> option (list Z)) l :
  (forall a, f None a = None) -> fold_left f l None = None.
Proof.
  intros Hf. induction l as [| a l IH]; [reflexivity |].
  cbn. now rewrite Hf.
Qed.

Lemma add_counts_short lens counts :
  (length lens < length counts)%nat -> add_counts lens counts = None.
Proof.
  intros H. unfold add_counts.
  destruct (add_prefix lens counts (length lens) ltac:(lia) ltac:(lia))
    as (l1 & E & L1 & _).
  replace (length counts)
    with (length lens + S (length counts - length lens - 1))%nat by lia.
  rewrite seq_app, fold_left_app, E. cbn [seq fold_left Nat.add].
  cbn [mbind option_bind].
  rewrite (proj2 (lookup_ge_None l1 (length lens)) ltac:(lia)).
  cbn [mbind option_bind]. apply fold_none. reflexivity.
Qed.

Lemma add_counts_fits lens counts :
  (length counts <= length lens)%nat ->
  exists lens',
    add_counts lens counts = Some lens'
    /\ length lens' = length lens
    /\ forall k, nth k lens' 0 = wrap32 (nth k lens 0 + nth k counts 0)
                 \/ ((length counts <= k)%nat /\ nth k lens' 0 = nth k lens 0).
Proof.
  intros H. unfold add_counts.
  destruct (add_prefix lens counts (length counts) ltac:(lia) H)
    as (l1 & E & L1 & N1).
  exists l1. split; [exact E |]. split; [exact L1 |].
  intros k. rewrite N1. destruct (decide (k < length counts)%nat).
  - now left.
  - right. split; [lia | reflexivity].
Qed.

Lemma nth_nonneg (counts : list Z) k :
  Forall (fun x => 0 <= x) counts -> 0 <= nth k counts 0.
Proof.
  intros H. destruct (decide (k < length counts)%nat) as [Hk | Hk].
  - rewrite Forall_forall in H. apply H, list_elem_of_In, nth_In, Hk.
  - rewrite nth_overflow by lia. lia.
Qed.

Lemma column_sum_nonneg k threads :
  Forall (Forall (fun x => 0 <= x)) threads -> 0 <= column_sum k threads.
Proof.
  unfold column_sum. induction 1 as [| c ts Hc _ IH]; cbn [fold_right]; [lia |].
  pose proof (nth_nonneg c k Hc). lia.
Qed.

Lemma collect_distances_fold size threads : forall lens0,
  Forall (fun counts => length counts = size) threads ->
  Forall (Forall (fun x => 0 <= x)) threads ->
  (size <= length lens0)%nat ->
  (forall k, 0 <= nth k lens0 0) ->
  (forall k, nth k lens0 0 + column_sum k threads < uint_mod) ->
  exists lens,
    fold_left (fun o counts => lens ← o; add_counts lens counts)
              threads (Some lens0) = Some lens
    /\ length lens = length lens0
    /\ forall k, nth k lens 0 = nth k lens0 0 + column_sum k threads.
Proof.
  induction threads as [| c ts IH]; intros lens0 Hsize Hpos Hl H0 Hb.
  - exists lens0. cbn. split; [reflexivity |]. split; [reflexivity |].
    intros k. lia.
  - apply Forall_cons in Hsize as [Hc Hsize].
    apply Forall_cons in Hpos as [Hcpos Hpos].
    assert (Hcons : forall k,
              column_sum k (c :: ts) = nth k c 0 + column_sum k ts)
      by reflexivity.
    destruct (add_counts_fits lens0 c ltac:(lia)) as (l1 & E & L1 & N1).
    assert (N1' : forall k, nth k l1 0 = nth k lens0 0 + nth k c 0).
    { intros k. specialize (Hb k). rewrite Hcons in Hb.
      pose proof (column_sum_nonneg k ts Hpos).
      pose proof (nth_nonneg c k Hcpos). specialize (H0 k).
      destruct (N1 k) as [-> | [Hk ->]].
      - unfold wrap32. apply Z.mod_small. lia.
      - rewrite (nth_overflow c) by lia. lia. }
    cbn [fold_left mbind option_bind]. rewrite E.
    destruct (IH l1 Hsize Hpos) as (lens & Ef & Lf & Nf).
    + lia.
    + intros k. rewrite N1'. pose proof (nth_nonneg c k Hcpos).
      specialize (H0 k). lia.
    + intros k. rewrite N1'. specialize (Hb k). rewrite Hcons in Hb. lia.
    + exists lens. split; [exact Ef |]. split; [congruence |].
      intros k. rewrite Nf, N1', Hcons. lia.
Qed.

(** X30.  Adding the threads' distance vectors, each of [size] cells
    with counts that add up below 2^32, to a vector of [len] cells:
    when [size] is at most [len] every access is in range, cell [k]
    ends as the sum of the threads' cells [k], and the cells from
    [size] on stay 0; when [len] is smaller than [size], as it is for
    the 3' ends if [transcript_tts_dist_len] is smaller than
    [transcript_tss_dist_len], the first thread's vector is added
    beyond the end of the vector. *)
Theorem collect_distances_in_range (size len : nat) (threads : list (list Z)) :
  Forall (fun counts => length counts = size) threads ->
  Forall (Forall (fun x => 0 <= x)) threads ->
  (forall k, column_sum k threads < uint_mod) ->
  ((size <= len)%nat ->
     exists lens,
       collect_distances len threads = Some lens
       /\ length lens = len
       /\ (forall k, nth k lens 0 = column_sum k threads)
       /\ (forall k, (size <= k)%nat -> nth k lens 0 = 0))
  /\ ((len < size)%nat -> threads <> [] ->
        collect_distances len threads = None).
Proof.
  intros Hsize Hpos Hb. split.
  - intros Hle. unfold collect_distances.
    assert (Hz : forall k, nth k (replicate len 0) 0 = 0).
    { intros k. destruct (decide (k < len)%nat).
      - apply nth_lookup_Some. now apply lookup_replicate_2.
      - apply nth_overflow. rewrite length_replicate. lia. }
    destruct (collect_distances_fold size threads (replicate len 0) Hsize Hpos)
      as (lens & E & L & N).
    + rewrite length_replicate. exact Hle.
    + intros k. rewrite Hz. lia.
    + intros k. rewrite Hz. specialize (Hb k). lia.
    + exists lens. split; [exact E |].
      split; [now rewrite L, length_replicate |].
      split; [intros k; rewrite N, Hz; lia |].
      intros k Hk. rewrite N, Hz.
      assert (Hcs : column_sum k threads = 0); [| lia].
      clear -Hsize Hk. unfold column_sum.
      induction Hsize as [| c ts Hc _ IH]; [reflexivity |].
      cbn [fold_right]. rewrite nth_overflow by lia. lia.
  - intros Hlt Hne. unfold collect_distances.
    destruct threads as [| c ts]; [congruence |].
    apply Forall_cons in Hsize as [Hc _].
    cbn [fold_left mbind option_bind].
    rewrite add_counts_short by (rewrite length_replicate; lia).
    apply fold_none. reflexivity.
Qed.

(** Two threads with three cells each, into four cells and into
    two. *)
Lemma collect_distances_in_range_witness :
  collect_distances 4 [[1; 0; 2]; [0; 5; 1]] = Some [1; 5; 3; 0]
  /\ collect_distances 2 [[1; 0; 2]; [0; 5; 1]] = None.
Proof.
  split.
  - destruct (collect_distances_in_range 3 4 [[1; 0; 2]; [0; 5; 1]])
      as [H _].
    + repeat constructor.
    + repeat constructor; lia.
    + intros k. unfold uint_mod.
      do 4 (try (destruct k as [| k])); cbn; lia.
    + destruct (H ltac:(lia)) as (lens & E & _). rewrite E. f_equal.
      cbn in E. now injection E as <-.
  - destruct (collect_distances_in_range 3 2 [[1; 0; 2]; [0; 5; 1]])
      as [_ H].
    + repeat constructor.
    + repeat constructor; lia.
    + intros k. unfold uint_mod.
      do 4 (try (destruct k as [| k])); cbn; lia.
    + apply H; [lia | discriminate].
Defined.

End DistanceMerge.
